(** * whTimer: a hierarchical timing wheel fed by a wait-free MPSC queue

    Shallow embedding of the Go package [whTimer] (timer.go and the files
    holding [Entry], [MPSCQueue] and [Wheel]) together with the properties
    checked against it.

    Conventions of the embedding:
    - [uint64] and [int] values are [Z] ([int] is 64 bits wide); every
      operation that can leave the range is followed by its wrap-around
      ([u64], [i64]);
    - a [*Entry] is an [option ptr] ([None] is [nil]); the entries live in a
      heap [gmap ptr Entry] and the intrusive [next] link is a field of the
      heap cell, so queue and bucket chains alias exactly as in the program;
    - a [*Wheel] owned by its parent slot is the child tree itself; a method
      that mutates the child in place writes the new child back to the slot;
    - a run-time panic (nil dereference, index out of range) is [Panic];
      loops and recursive calls that Rocq cannot see to terminate take a
      [fuel] and answer [OutOfFuel] when it is exhausted;
    - the worker goroutine is embedded as the functions it runs
      ([addToWheel], [handleExpired], [maintenance], [calculateNextWake]),
      each given the clock reading it takes; its loop [run], with the
      sleeping and the channel selects, [drainQueue], whose queue a handler
      can push to while it runs, and the wrappers of cron.go and defer.go
      are left out. *)

From stdpp Require Import base option list gmap.
From Stdlib Require Import ZArith Lia.

Open Scope Z_scope.

(** ** Outcomes of a call *)

Inductive result (A : Type) : Type :=
| Ok (a : A)
| Panic
| OutOfFuel.
Arguments Ok {A} a.
Arguments Panic {A}.
Arguments OutOfFuel {A}.

#[global] Instance result_ret : MRet result := fun A a => Ok a.
#[global] Instance result_bind : MBind result := fun A B f r =>
  match r with
  | Ok a => f a
  | Panic => Panic
  | OutOfFuel => OutOfFuel
  end.

Definition is_Ok {A} (r : result A) : Prop := exists a, r = Ok a.

(** ** Machine integers *)

Definition u64 (x : Z) : Z := x mod 2 ^ 64.
Definition i64 (x : Z) : Z := (x + 2 ^ 63) mod 2 ^ 64 - 2 ^ 63.
Definition max_u64 : Z := 2 ^ 64 - 1.

(** [bits.TrailingZeros64]: the number of trailing zero bits, 64 for 0. *)
Fixpoint ctz_pos (p : positive) : Z :=
  match p with
  | xO q => 1 + ctz_pos q
  | _ => 0
  end.

Definition TrailingZeros64 (x : Z) : Z :=
  match x with
  | Zpos p => ctz_pos p
  | _ => 64
  end.

(** ** Constants and tables of the wheel *)

Definition SlotBits : Z := 6.
Definition SlotSize : Z := Z.shiftl 1 SlotBits.
Definition SlotMask : Z := SlotSize - 1.
Definition MaxLevel : Z := 6.

Definition msPerSlot : list Z :=
  [1; 64; 4096; 262144; 16777216; 1073741824; 68719476736].

Definition maxMs : list Z :=
  [64; 4096; 262144; 16777216; 1073741824; 68719476736; 4398046511104].

Definition shift : list Z := [0; 6; 12; 18; 24; 30; 36].

Definition mask : list Z :=
  [0x3F; Z.shiftl 0x3F 6; Z.shiftl 0x3F 12; Z.shiftl 0x3F 18;
   Z.shiftl 0x3F 24; Z.shiftl 0x3F 30; Z.shiftl 0x3F 36].

(** [a[i]] on a Go array: a panic when [i] is out of range. *)
Definition aget {A} (a : list A) (i : Z) : result A :=
  if i <? 0 then Panic
  else match a !! Z.to_nat i with
       | Some x => Ok x
       | None => Panic
       end.

(** [a[i] = x]: same bounds check. *)
Definition aset {A} (a : list A) (i : Z) (x : A) : result (list A) :=
  if i <? 0 then Panic
  else if decide (Z.to_nat i < length a)%nat then Ok (<[Z.to_nat i := x]> a)
  else Panic.

(** ** Entries and the heap they live in *)

Definition ptr := nat.
Bind Scope nat_scope with ptr.

(** A [func()] value is opaque here: it is named, and calling it is
    recorded in the [calls] trace of the memory. *)
Definition func := nat.
Bind Scope nat_scope with func.

Record Entry : Type := mkEntry {
  next : option ptr;
  expireAt : Z;
  callback : option func;
  removed : bool
}.

Abbreviation Heap := (gmap nat Entry).

(** The memory the engine and the user handler act on: the entry cells, the
    callbacks run so far, and the entries handed to the handler so far
    (both oldest first). *)
Record Mem : Type := mkMem {
  heap : Heap;
  calls : list func;
  fired : list ptr
}.

Definition set_heap (m : Mem) (h : Heap) : Mem := mkMem h (calls m) (fired m).

(** [settingNext]: the address of one cell allocated at start-up, stored in
    [next] while a push is between its two atomic steps.  [PopAll]
    compares links with this address and never follows it. *)
Definition sentinel : ptr := 0%nat.
Definition settingNext : option ptr := Some sentinel.

Definition deref (e : option ptr) (h : Heap) : result Entry :=
  match e with
  | None => Panic
  | Some p => match h !! p with
              | Some c => Ok c
              | None => Panic
              end
  end.

Definition getNext (e : option ptr) (h : Heap) : result (option ptr) :=
  c ← deref e h; Ok (next c).

Definition setNext (e : option ptr) (nxt : option ptr) (h : Heap) : result Heap :=
  c ← deref e h;
  match e with
  | Some p => Ok (<[p := mkEntry nxt (expireAt c) (callback c) (removed c)]> h)
  | None => Panic
  end.

(** [NewEntry]: [p] is the cell [entryPool.Get] hands out, fresh or
    recycled; all four fields are overwritten. *)
Definition NewEntry (p : ptr) (expire : Z) (cb : option func) (h : Heap) : Heap :=
  <[p := mkEntry settingNext expire cb false]> h.

Definition Release (p : ptr) (h : Heap) : result Heap :=
  c ← deref (Some p) h;
  Ok (<[p := mkEntry None (expireAt c) None (removed c)]> h).

Definition Execute (p : ptr) (m : Mem) : result Mem :=
  c ← deref (Some p) (heap m);
  if negb (removed c) then
    match callback c with
    | Some f => Ok (mkMem (heap m) (calls m ++ [f]) (fired m))
    | None => Ok m
    end
  else Ok m.

Definition Cancel (p : ptr) (m : Mem) : result Mem :=
  c ← deref (Some p) (heap m);
  Ok (set_heap m (<[p := mkEntry (next c) (expireAt c) (callback c) true]> (heap m))).

Definition IsCanceled (p : ptr) (m : Mem) : result bool :=
  c ← deref (Some p) (heap m); Ok (removed c).

(** A user handler, a [func] taking the entry: it may read and write the
    cells and run callbacks; the wheel and the timer are out of its reach.
    [dispatch] is the call [handler(entry)]. *)
Definition Handler := ptr -> Mem -> Mem.

Definition dispatch (handler : Handler) (entry : ptr) (m : Mem) : Mem :=
  let m' := handler entry m in
  mkMem (heap m') (calls m') (fired m ++ [entry]).

(** ** The MPSC queue *)

Record MPSCQueue : Type := mkQueue { head : option ptr }.

Definition NewMPSCQueue : MPSCQueue := mkQueue None.

(** [Push] is two atomic steps: the swap of the head, then the store of the
    old head into [entry.next]. *)
Definition Push_swap (q : MPSCQueue) (entry : ptr) : option ptr * MPSCQueue :=
  (head q, mkQueue (Some entry)).

Definition Push_store (entry : ptr) (oldHead : option ptr) (h : Heap) : result Heap :=
  setNext (Some entry) oldHead h.

Definition Push (q : MPSCQueue) (entry : ptr) (h : Heap)
  : result (bool * MPSCQueue * Heap) :=
  let '(oldHead, q) := Push_swap q entry in
  h ← Push_store entry oldHead h;
  Ok (bool_decide (oldHead = None), q, h).

(** The inner loop of [PopAll]: reload [curr.next] until it is not the
    sentinel.  With no producer running nothing changes between two loads. *)
Fixpoint spin (fuel : nat) (curr : ptr) (h : Heap) : result (option ptr) :=
  match fuel with
  | O => OutOfFuel
  | S fuel =>
      nxt ← getNext (Some curr) h;
      if decide (nxt = settingNext) then spin fuel curr h else Ok nxt
  end.

(** The outer loop of [PopAll]: [for curr != nil]. *)
Fixpoint reverse_chain (fuel : nat) (prev curr : option ptr) (h : Heap)
  : result (option ptr * Heap) :=
  match curr with
  | None => Ok (prev, h)
  | Some c =>
      match fuel with
      | O => OutOfFuel
      | S fuel' =>
          nxt ← spin fuel c h;
          h ← setNext curr prev h;
          reverse_chain fuel' curr nxt h
      end
  end.

Definition PopAll (fuel : nat) (q : MPSCQueue) (h : Heap)
  : result (option ptr * MPSCQueue * Heap) :=
  let hd := head q in
  let q := mkQueue None in
  match hd with
  | None => Ok (None, q, h)
  | Some _ =>
      '(prev, h) ← reverse_chain fuel None hd h;
      Ok (prev, q, h)
  end.

(** The loop of [DrainAll].  [fn] is a closure: [X] is the state it
    captures, threaded through the calls. *)
Fixpoint drain_loop {X : Type} (fuel : nat) (fn : ptr -> X -> Mem -> result (X * Mem))
    (hd : option ptr) (count : Z) (x : X) (m : Mem) : result (Z * X * Mem) :=
  match hd with
  | None => Ok (count, x, m)
  | Some p =>
      match fuel with
      | O => OutOfFuel
      | S fuel =>
          nxt ← getNext hd (heap m);
          '(x, m) ← fn p x m;
          drain_loop fuel fn nxt (i64 (count + 1)) x m
      end
  end.

Definition DrainAll {X : Type} (fuel : nat) (q : MPSCQueue)
    (fn : ptr -> X -> Mem -> result (X * Mem)) (x : X) (m : Mem)
  : result (Z * MPSCQueue * X * Mem) :=
  '(hd, q, h) ← PopAll fuel q (heap m);
  '(count, x, m) ← drain_loop fuel fn hd 0 x (set_heap m h);
  Ok (count, q, x, m).

Definition IsEmpty (q : MPSCQueue) : bool := bool_decide (head q = None).

(** ** The wheel *)

#[local] Unset Elimination Schemes.
Inductive Wheel : Type := mkWheel {
  level : Z;
  bitmap : Z;
  entries : list (option ptr);
  subWheels : list (option Wheel)
}.
#[local] Set Elimination Schemes.

Definition slots {A} : list (option A) := replicate (Z.to_nat SlotSize) None.

Definition set_bitmap (w : Wheel) (b : Z) : Wheel :=
  mkWheel (level w) b (entries w) (subWheels w).
Definition set_entries (w : Wheel) (es : list (option ptr)) : Wheel :=
  mkWheel (level w) (bitmap w) es (subWheels w).
Definition set_subWheels (w : Wheel) (ss : list (option Wheel)) : Wheel :=
  mkWheel (level w) (bitmap w) (entries w) ss.

(** [w.bitmap |= 1 << index] and [w.bitmap &^= 1 << index]. *)
Definition set_bit (w : Wheel) (index : Z) : Wheel :=
  set_bitmap w (Z.lor (bitmap w) (u64 (Z.shiftl 1 index))).
Definition clear_bit (w : Wheel) (index : Z) : Wheel :=
  set_bitmap w (Z.ldiff (bitmap w) (u64 (Z.shiftl 1 index))).

Definition NewWheel (lvl : Z) : Wheel := mkWheel lvl 0 slots slots.

Definition NewWheelWithChild (child : Wheel) : Wheel :=
  mkWheel (i64 (level child + 1)) 1 slots (<[0%nat := Some child]> slots).

Definition Empty (w : Wheel) : bool := bitmap w =? 0.
Definition Level (w : Wheel) : Z := level w.
Definition MsPerSlot (w : Wheel) : result Z := aget msPerSlot (level w).
Definition MaxMs (w : Wheel) : result Z := aget maxMs (level w).

Definition getIndex (w : Wheel) (interval : Z) : result Z :=
  if level w =? 0 then Ok (Z.land interval SlotMask)
  else
    mk ← aget mask (level w);
    sh ← aget shift (level w);
    Ok (Z.shiftr (Z.land interval mk) sh).

Fixpoint AddEntry (fuel : nat) (w : Wheel) (entry : ptr) (interval : Z) (h : Heap)
  : result (Wheel * Heap) :=
  match fuel with
  | O => OutOfFuel
  | S fuel =>
      index ← getIndex w interval;
      if level w =? 0 then
        old ← aget (entries w) index;
        h ← setNext (Some entry) old h;
        let w := set_bit w index in
        es ← aset (entries w) index (Some entry);
        Ok (set_entries w es, h)
      else
        sub ← aget (subWheels w) index;
        '(w, child) ← match sub with
                      | None =>
                          let w := set_bit w index in
                          let c := NewWheel (i64 (level w - 1)) in
                          ss ← aset (subWheels w) index (Some c);
                          Ok (set_subWheels w ss, c)
                      | Some c => Ok (w, c)
                      end;
        '(child, h) ← AddEntry fuel child entry interval h;
        ss ← aset (subWheels w) index (Some child);
        Ok (set_subWheels w ss, h)
  end.

(** [for getNext(cur) != entry { cur = getNext(cur) }] *)
Fixpoint find_pred (fuel : nat) (cur : option ptr) (entry : ptr) (h : Heap)
  : result (option ptr) :=
  match fuel with
  | O => OutOfFuel
  | S fuel =>
      nxt ← getNext cur h;
      if decide (nxt = Some entry) then Ok cur
      else find_pred fuel nxt entry h
  end.

Fixpoint RemoveEntry (fuel : nat) (w : Wheel) (entry : ptr) (interval : Z) (h : Heap)
  : result (Wheel * Heap) :=
  match fuel with
  | O => OutOfFuel
  | S fuel' =>
      index ← getIndex w interval;
      if level w =? 0 then
        hd ← aget (entries w) index;
        if decide (hd = Some entry) then
          nxt ← getNext hd h;
          es ← aset (entries w) index nxt;
          let w := set_entries w es in
          Ok (if decide (nxt = None) then clear_bit w index else w, h)
        else
          cur ← find_pred fuel hd entry h;
          nxt ← getNext (Some entry) h;
          h ← setNext cur nxt h;
          Ok (w, h)
      else
        sub ← aget (subWheels w) index;
        match sub with
        | None => Panic
        | Some child =>
            '(child, h) ← RemoveEntry fuel' child entry interval h;
            if Empty child then
              let w := clear_bit w index in
              ss ← aset (subWheels w) index None;
              Ok (set_subWheels w ss, h)
            else
              ss ← aset (subWheels w) index (Some child);
              Ok (set_subWheels w ss, h)
        end
  end.

(** The inner loop of [HandleExpiredEntries] at level 0, on the slot's head:
    [for w.entries[index] != nil { entry := w.entries[index];
     w.entries[index] = getNext(entry); handler(entry); count++ }].
    The wheel is out of the handler's reach, so the slot is written back
    (as [nil]) once, when the loop ends. *)
Fixpoint fire_slot (fuel : nat) (handler : Handler) (hd : option ptr) (count : Z) (m : Mem)
  : result (Z * Mem) :=
  match hd with
  | None => Ok (count, m)
  | Some entry =>
      match fuel with
      | O => OutOfFuel
      | S fuel =>
          nxt ← getNext hd (heap m);
          let m := dispatch handler entry m in
          fire_slot fuel handler nxt (i64 (count + 1)) m
      end
  end.

(** The loop [for w.bitmap != 0] of [HandleExpiredEntries]; [recurse] is
    the method itself, called on a child.  Every pass that does not leave
    clears the lowest set bit, so [SlotSize] passes are all there can be. *)
Fixpoint scan (recurse : Wheel -> Z -> Mem -> result (Z * Wheel * Mem))
    (fuel : nat) (handler : Handler) (passes : nat)
    (w : Wheel) (remainingMs : Z) (count : Z) (m : Mem) : result (Z * Wheel * Mem) :=
  if bitmap w =? 0 then Ok (count, w, m)
  else
    match passes with
    | O => OutOfFuel
    | S passes =>
        let index := TrailingZeros64 (bitmap w) in
        if level w =? 0 then
          if index >? remainingMs then Ok (count, w, m)
          else
            hd ← aget (entries w) index;
            '(count, m) ← fire_slot fuel handler hd count m;
            es ← aset (entries w) index None;
            let w := clear_bit (set_entries w es) index in
            scan recurse fuel handler passes w remainingMs count m
        else
          mps ← aget msPerSlot (level w);
          let slotMs := u64 (index * mps) in
          if slotMs >? remainingMs then Ok (count, w, m)
          else
            sub ← aget (subWheels w) index;
            match sub with
            | None => Panic
            | Some child =>
                '(n, child, m) ← recurse child (u64 (remainingMs - slotMs)) m;
                let count := i64 (count + n) in
                if Empty child then
                  ss ← aset (subWheels w) index None;
                  let w := clear_bit (set_subWheels w ss) index in
                  scan recurse fuel handler passes w remainingMs count m
                else
                  ss ← aset (subWheels w) index (Some child);
                  Ok (count, set_subWheels w ss, m)
            end
    end.

Fixpoint HandleExpiredEntries (fuel : nat) (handler : Handler) (w : Wheel)
    (remainingMs : Z) (m : Mem) : result (Z * Wheel * Mem) :=
  match fuel with
  | O => OutOfFuel
  | S fuel' =>
      scan (HandleExpiredEntries fuel' handler) fuel handler (Z.to_nat SlotSize)
           w remainingMs 0 m
  end.

Fixpoint NextExpirationTime (fuel : nat) (w : Wheel) : result Z :=
  match fuel with
  | O => OutOfFuel
  | S fuel =>
      if Empty w then Ok max_u64
      else
        let index := TrailingZeros64 (bitmap w) in
        if level w =? 0 then Ok index
        else
          mps ← aget msPerSlot (level w);
          sub ← aget (subWheels w) index;
          match sub with
          | None => Panic
          | Some child =>
              t ← NextExpirationTime fuel child;
              Ok (u64 (u64 (index * mps) + t))
          end
  end.

(** One pass of the loop of [Rotate]: [a[i-n] = a[i]; a[i] = nil].  Both
    arrays have [SlotSize] cells and [n <= i < SlotSize], so neither index
    can be out of range. *)
Definition rotate_pass {A} (n : nat) (a : list (option A)) (i : nat) : list (option A) :=
  <[i := None]> (<[(i - n)%nat := a !!! i]> a).

Definition rotate_slots {A} (n : nat) (a : list (option A)) : list (option A) :=
  foldl (rotate_pass n) a (seq n (Z.to_nat SlotSize - n)).

Definition Rotate (w : Wheel) (n : Z) : Wheel :=
  if (n =? 0) || (n >=? SlotSize) then w
  else
    let w := if level w =? 0
             then set_entries w (rotate_slots (Z.to_nat n) (entries w))
             else set_subWheels w (rotate_slots (Z.to_nat n) (subWheels w)) in
    set_bitmap w (Z.shiftr (bitmap w) n).

Definition LevelUp (w : Wheel) : Wheel := NewWheelWithChild w.

(** The result is a [*Wheel]: [None] is [nil]. *)
Definition LevelDown (w : Wheel) : option Wheel :=
  if level w =? 0 then None else subWheels w !!! 0%nat.

Definition CanLevelDown (w : Wheel) : bool := (bitmap w =? 1) && (level w >? 0).

(** ** The driver *)

(** A [time.Time] is its reading in nanoseconds, a [time.Duration] a count
    of nanoseconds in an [int64]. *)
Definition Millisecond : Z := 1000000.
Definition sat64 (x : Z) : Z := Z.max (- 2 ^ 63) (Z.min (2 ^ 63 - 1) x).
Definition Sub (t u : Z) : Z := sat64 (t - u).
Definition Milliseconds (d : Z) : Z := Z.quot d Millisecond.
Definition Add (t d : Z) : Z := t + d.

(** [wakeChan] holds at most one token; [stopChan] and [doneChan] are only
    ever closed. *)
Record Timer : Type := mkTimer {
  wheel : option Wheel;
  start : Z;
  numEntries : Z;
  queue : MPSCQueue;
  wakeChan : bool;
  stopChan : bool;
  doneChan : bool;
  sleepUntil : Z;
  handler : Handler;
  running : bool
}.

Definition set_wheel (t : Timer) (w : option Wheel) : Timer :=
  mkTimer w (start t) (numEntries t) (queue t) (wakeChan t) (stopChan t)
          (doneChan t) (sleepUntil t) (handler t) (running t).
Definition set_start (t : Timer) (s : Z) : Timer :=
  mkTimer (wheel t) s (numEntries t) (queue t) (wakeChan t) (stopChan t)
          (doneChan t) (sleepUntil t) (handler t) (running t).
Definition set_numEntries (t : Timer) (n : Z) : Timer :=
  mkTimer (wheel t) (start t) n (queue t) (wakeChan t) (stopChan t)
          (doneChan t) (sleepUntil t) (handler t) (running t).
Definition set_queue (t : Timer) (q : MPSCQueue) : Timer :=
  mkTimer (wheel t) (start t) (numEntries t) q (wakeChan t) (stopChan t)
          (doneChan t) (sleepUntil t) (handler t) (running t).
Definition set_wakeChan (t : Timer) (b : bool) : Timer :=
  mkTimer (wheel t) (start t) (numEntries t) (queue t) b (stopChan t)
          (doneChan t) (sleepUntil t) (handler t) (running t).

Definition NewTimer (hdl : Handler) : Timer :=
  mkTimer None 0 0 NewMPSCQueue false false false 0 hdl false.

(** [Start] flips [running] and spawns the worker; the worker is the
    functions below, run by it alone. *)
Definition Start (t : Timer) : Timer :=
  if running t then t
  else mkTimer (wheel t) (start t) (numEntries t) (queue t) (wakeChan t)
               (stopChan t) (doneChan t) (sleepUntil t) (handler t) true.

(** [Stop] closes [stopChan] and returns once the worker has closed
    [doneChan]. *)
Definition Stop (t : Timer) : Timer :=
  if negb (running t) then t
  else mkTimer (wheel t) (start t) (numEntries t) (queue t) (wakeChan t)
               true true (sleepUntil t) (handler t) false.

(** [AddEntryAt]: [p] is the cell the pool hands to [NewEntry]; the result
    is the [*Entry] returned to the caller. *)
Definition AddEntryAt (t : Timer) (p : ptr) (expire : Z) (cb : option func) (h : Heap)
  : result (ptr * Timer * Heap) :=
  let entry := p in
  let h := NewEntry p expire cb h in
  '(wasEmpty, q, h) ← Push (queue t) entry h;
  let t := set_queue t q in
  let su := sleepUntil t in
  let t := if wasEmpty || ((su >? 0) && (expire <? su))
           then set_wakeChan t true else t in
  Ok (entry, t, h).

Definition Timer_AddEntry (t : Timer) (p : ptr) (now delay : Z) (cb : option func) (h : Heap)
  : result (ptr * Timer * Heap) :=
  AddEntryAt t p (Add now delay) cb h.

(** The loop of [buildWheelAndAdd]: [for level < MaxLevel]. *)
Fixpoint pick_level (fuel : nat) (lvl : Z) (interval : Z) : result Z :=
  if lvl <? MaxLevel then
    match fuel with
    | O => OutOfFuel
    | S fuel =>
        mx ← aget maxMs lvl;
        if interval <? mx then Ok lvl
        else pick_level fuel (i64 (lvl + 1)) interval
    end
  else Ok lvl.

Definition buildWheelAndAdd (fuel : nat) (t : Timer) (entry : ptr) (interval : Z) (h : Heap)
  : result (Timer * Heap) :=
  lvl ← pick_level fuel 0 interval;
  '(w, h) ← AddEntry fuel (NewWheel lvl) entry interval h;
  Ok (set_wheel t (Some w), h).

(** The loop of [levelUpAndAdd]. *)
Fixpoint level_up (fuel : nat) (w : Wheel) (interval : Z) : result Wheel :=
  mx ← MaxMs w;
  if (interval >=? mx) && (Level w <? MaxLevel) then
    match fuel with
    | O => OutOfFuel
    | S fuel => level_up fuel (LevelUp w) interval
    end
  else Ok w.

Definition levelUpAndAdd (fuel : nat) (t : Timer) (entry : ptr) (interval : Z) (h : Heap)
  : result (Timer * Heap) :=
  match wheel t with
  | None => Panic
  | Some w =>
      w ← level_up fuel w interval;
      '(w, h) ← AddEntry fuel w entry interval h;
      Ok (set_wheel t (Some w), h)
  end.

(** [addToWheel]: [now] is the reading [time.Now()] gives on entry. *)
Definition addToWheel (fuel : nat) (t : Timer) (entry : ptr) (now : Z) (m : Mem)
  : result (Timer * Mem) :=
  e ← deref (Some entry) (heap m);
  if expireAt e <=? now then Ok (t, dispatch (handler t) entry m)
  else
    '(t, h) ← match wheel t with
              | None =>
                  let t := set_start t now in
                  let interval := u64 (Milliseconds (Sub (expireAt e) now)) in
                  buildWheelAndAdd fuel t entry interval (heap m)
              | Some _ =>
                  let interval := u64 (Milliseconds (Sub (expireAt e) (start t))) in
                  levelUpAndAdd fuel t entry interval (heap m)
              end;
    Ok (set_numEntries t (u64 (numEntries t + 1)), set_heap m h).

(** The loop of [levelDownIfNeeded]. *)
Fixpoint levelDownIfNeeded (fuel : nat) (t : Timer) : result Timer :=
  match wheel t with
  | None => Ok t
  | Some w =>
      if CanLevelDown w then
        match fuel with
        | O => OutOfFuel
        | S fuel => levelDownIfNeeded fuel (set_wheel t (LevelDown w))
        end
      else Ok t
  end.

Definition maintenance (fuel : nat) (t : Timer) (interval : Z) : result Timer :=
  match wheel t with
  | None => Ok t
  | Some w =>
      if Empty w then Ok (set_numEntries (set_wheel t None) 0)
      else
        mps ← MsPerSlot w;
        let n := interval / mps in
        t ← (if n >? 0 then
               let w := Rotate w n in
               mps ← MsPerSlot w;
               let d := i64 (i64 (u64 (n * mps)) * Millisecond) in
               Ok (set_start (set_wheel t (Some w)) (Add (start t) d))
             else Ok t);
        levelDownIfNeeded fuel t
  end.

Definition handleExpired (fuel : nat) (t : Timer) (now : Z) (m : Mem)
  : result (Timer * Mem) :=
  match wheel t with
  | None => Ok (t, m)
  | Some w =>
      if numEntries t =? 0 then Ok (t, m)
      else
        let interval := u64 (Milliseconds (Sub now (start t))) in
        '(count, w, m) ← HandleExpiredEntries fuel (handler t) w interval m;
        let t := set_wheel t (Some w) in
        let t := set_numEntries t (u64 (numEntries t - u64 count)) in
        t ← maintenance fuel t interval;
        Ok (t, m)
  end.

Definition Pending (t : Timer) : Z := numEntries t.

(** ** Predicates and reference definitions used by the properties *)

(** What the engine does to a cell between scheduling and dispatch: it
    stores links, through [setNext].  [store_links] is a run of such
    stores, each given as (cell, new link). *)
Fixpoint store_links (ws : list (option ptr * option ptr)) (h : Heap) : result Heap :=
  match ws with
  | [] => Ok h
  | (e, nxt) :: ws => h ← setNext e nxt h; store_links ws h
  end.


(** Slot [i] of an array holds a non-nil pointer. *)
Definition occupied {A} (a : list (option A)) (i : nat) : Prop :=
  exists x, a !! i = Some (Some x).

Definition occupiedb {A} (a : list (option A)) (i : nat) : bool :=
  match a !! i with
  | Some (Some _) => true
  | _ => false
  end.

(** Bitmap faithfulness: the bitmap is a [uint64], bit [i] is set exactly
    when slot [i] holds a pointer (an entry at level 0, a sub-wheel above),
    and every sub-wheel is itself faithful and not empty. *)
Inductive Faithful : Wheel -> Prop :=
| Faithful_intro (w : Wheel) :
    0 <= bitmap w < 2 ^ 64 ->
    (forall i : nat, (i < 64)%nat ->
       Z.testbit (bitmap w) (Z.of_nat i) = true <->
       (if level w =? 0 then occupied (entries w) i else occupied (subWheels w) i)) ->
    (forall (i : nat) (c : Wheel), subWheels w !! i = Some (Some c) -> Faithful c) ->
    (forall (i : nat) (c : Wheel), subWheels w !! i = Some (Some c) -> bitmap c <> 0) ->
    Faithful w.

Fixpoint faithfulb (w : Wheel) : bool :=
  (0 <=? bitmap w) && (bitmap w <? 2 ^ 64) &&
  forallb (fun i => Bool.eqb (Z.testbit (bitmap w) (Z.of_nat i))
                             (if level w =? 0 then occupiedb (entries w) i
                              else occupiedb (subWheels w) i))
          (seq 0 64) &&
  forallb (fun o => match o with
                    | Some c => faithfulb c && negb (bitmap c =? 0)
                    | None => true
                    end)
          (subWheels w).

(** The wheel holds at least one entry, in one of its 64 slots or below. *)
Inductive HasEntry : Wheel -> Prop :=
| HasEntry_here (w : Wheel) (i : nat) (p : ptr) :
    level w = 0 -> (i < 64)%nat -> entries w !! i = Some (Some p) -> HasEntry w
| HasEntry_below (w : Wheel) (i : nat) (c : Wheel) :
    level w <> 0 -> (i < 64)%nat -> subWheels w !! i = Some (Some c) ->
    HasEntry c -> HasEntry w.

(** Slot [i] is non-empty: a non-nil entry at level 0, a non-nil sub-wheel
    that holds an entry above. *)
Definition slot_nonempty (w : Wheel) (i : nat) : Prop :=
  if level w =? 0 then occupied (entries w) i
  else exists c, subWheels w !! i = Some (Some c) /\ HasEntry c.

(** The shape the constructors give a wheel: a level in [0, MaxLevel], two
    arrays of [SlotSize] cells, sub-wheels one level down. *)
Inductive Shaped : Wheel -> Prop :=
| Shaped_intro (w : Wheel) :
    0 <= level w <= MaxLevel ->
    length (entries w) = 64%nat ->
    length (subWheels w) = 64%nat ->
    (forall (i : nat) (c : Wheel), subWheels w !! i = Some (Some c) -> Shaped c) ->
    (forall (i : nat) (c : Wheel), subWheels w !! i = Some (Some c) ->
       level c = level w - 1) ->
    Shaped w.

Fixpoint shapedb (w : Wheel) : bool :=
  (0 <=? level w) && (level w <=? MaxLevel) &&
  (length (entries w) =? 64)%nat && (length (subWheels w) =? 64)%nat &&
  forallb (fun o => match o with
                    | Some c => shapedb c && (level c =? level w - 1)
                    | None => true
                    end)
          (subWheels w).

(** Following [next] from [hd] reaches nil within [k] cells, all of them
    allocated. *)
Fixpoint ends (k : nat) (h : Heap) (hd : option ptr) : Prop :=
  match hd with
  | None => True
  | Some p =>
      match k with
      | O => False
      | S k => exists c, h !! p = Some c /\ ends k h (next c)
      end
  end.

(** Every bucket of the wheel heads a chain that [ends] within [k]. *)
Inductive Rooted (k : nat) (h : Heap) : Wheel -> Prop :=
| Rooted_intro (w : Wheel) :
    (forall (i : nat) (p : ptr), entries w !! i = Some (Some p) -> ends k h (Some p)) ->
    (forall (i : nat) (c : Wheel), subWheels w !! i = Some (Some c) -> Rooted k h c) ->
    Rooted k h w.

(** [hd] heads exactly the chain of cells [l], nil-terminated. *)
Fixpoint chain (h : Heap) (hd : option ptr) (l : list ptr) : Prop :=
  match l with
  | [] => hd = None
  | p :: l => hd = Some p /\ exists c, h !! p = Some c /\ chain h (next c) l
  end.

(** A handler that keeps the cells allocated and stores no link: the link
    of a cell is afterwards what it was, or nil. *)
Definition tame (handler : Handler) : Prop :=
  forall (p : ptr) (m : Mem) (q : ptr) (c : Entry),
    heap m !! q = Some c ->
    exists c', heap (handler p m) !! q = Some c' /\
               (next c' = next c \/ next c' = None).

(** A handler that leaves the links of all cells but the one it is given
    as they are. *)
Definition framed (handler : Handler) : Prop :=
  forall (p : ptr) (m : Mem) (q : ptr) (c : Entry),
    q <> p -> heap m !! q = Some c ->
    exists c', heap (handler p m) !! q = Some c' /\ next c' = next c.

(** The handler of the tests and of the README: [e.Execute()]. *)
Definition execute_handler : Handler :=
  fun p m => match Execute p m with
             | Ok m' => m'
             | _ => m
             end.


(** ** Wheels and memories used as examples *)

(** The wheel of [TestWheelMultiLevel]: level 1, one entry due at 100 ms
    (slot 1 above, slot 36 below). *)
Definition wheel_100ms : Wheel :=
  mkWheel 1 2 slots
    (<[1%nat := Some (mkWheel 0 (2 ^ 36) (<[36%nat := Some 1%nat]> slots) slots)]>
       slots).

(** A level-0 wheel with one entry due at 30 ms. *)
Definition wheel_30ms : Wheel :=
  mkWheel 0 (2 ^ 30) (<[30%nat := Some 1%nat]> slots) slots.

(** The entry of [wheel_100ms], cell 1, and a second entry, cell 2, due
    5 * 10^12 ms after the start: beyond what a level-6 wheel spans. *)
Definition far_entry : Entry :=
  mkEntry None (5000000000000 * Millisecond) None false.
Definition mem_far : Mem :=
  mkMem (<[2%nat := far_entry]>
           (<[1%nat := mkEntry None (100 * Millisecond) None false]> ∅)) [] [].

(** A timer that holds [wheel_100ms], started at time 0. *)
Definition timer_100ms (hdl : Handler) : Timer :=
  mkTimer (Some wheel_100ms) 0 1 NewMPSCQueue false false false 0 hdl true.


(** A run of pushes, each completed before the next begins. *)
Fixpoint push_all (q : MPSCQueue) (ps : list ptr) (h : Heap)
  : result (MPSCQueue * Heap) :=
  match ps with
  | [] => Ok (q, h)
  | p :: ps => '(_, q, h) ← Push q p h; push_all q ps h
  end.

(** The calls [fn(p1); fn(p2); ...] of a closure, in this order. *)
Fixpoint call_all {X : Type} (fn : ptr -> X -> Mem -> result (X * Mem))
    (ps : list ptr) (x : X) (m : Mem) : result (X * Mem) :=
  match ps with
  | [] => Ok (x, m)
  | p :: ps => '(x, m) ← fn p x m; call_all fn ps x m
  end.

(** A closure that leaves the links of all cells but the one it is given
    as they are (it may relink that one: [DrainAll] reads the link first). *)
Definition keeps_links {X : Type} (fn : ptr -> X -> Mem -> result (X * Mem)) : Prop :=
  forall (p : ptr) (x : X) (m : Mem) (x' : X) (m' : Mem),
    fn p x m = Ok (x', m') ->
    forall (q : ptr) (c : Entry), q <> p -> heap m !! q = Some c ->
      exists c', heap m' !! q = Some c' /\ next c' = next c.


(** Three entries fresh from [NewEntry], cells 1, 2 and 3. *)
Definition mem_three : Mem :=
  mkMem (NewEntry 3 30 None (NewEntry 2 20 None (NewEntry 1 10 None ∅))) [] [].

(** A closure that only records the entries it is called on. *)
Definition record_call (p : ptr) (seen : list ptr) (m : Mem)
  : result (list ptr * Mem) :=
  Ok (seen ++ [p], m).


(** ** The expire scan as it is described

    Reference for the refinement of [HandleExpiredEntries]: the scan written
    from its description, not from the code.  The set bits of the bitmap are
    listed once, least significant first, and visited in this order, with
    exact arithmetic on the slot times; an entry is fired by calling the
    handler on it. *)

Definition set_bits (b : Z) : list Z :=
  List.filter (Z.testbit b) (List.map Z.of_nat (seq 0 64)).

(** An entry dispatched through the handler: the handler is called on it,
    and the call is recorded. *)
Definition handed_to (hdl : Handler) (m : Mem) (entry : ptr) : Mem :=
  let after := hdl entry m in
  mkMem (heap after) (calls after) (fired m ++ [entry]).

(** Every entry of a slot fired, in list order, each one counted. *)
Fixpoint fire_in_order (fuel : nat) (hdl : Handler) (hd : option ptr) (count : Z)
    (m : Mem) : result (Z * Mem) :=
  match hd with
  | None => Ok (count, m)
  | Some entry =>
      match fuel with
      | O => OutOfFuel
      | S fuel =>
          following ← getNext hd (heap m);
          fire_in_order fuel hdl following (i64 (count + 1)) (handed_to hdl m entry)
      end
  end.

(** Visit the set bits [bits] of wheel [w]:
    - at level 0: if the index is beyond the remaining time, stop; otherwise
      fire every entry of the slot in list order, clear the slot, clear the
      bit and continue;
    - above: if the slot starts beyond the remaining time, stop; otherwise
      recurse into the child with the time left after the slot's start; if
      the child is now empty drop it, clear the bit and continue; otherwise
      stop. *)
Fixpoint expire_bits (recurse : Wheel -> Z -> Mem -> result (Z * Wheel * Mem))
    (fuel : nat) (hdl : Handler) (bits : list Z)
    (w : Wheel) (remaining_ms : Z) (count : Z) (m : Mem)
  : result (Z * Wheel * Mem) :=
  match bits with
  | [] => Ok (count, w, m)
  | index :: bits =>
      if level w =? 0 then
        if index >? remaining_ms then Ok (count, w, m)
        else
          hd ← aget (entries w) index;
          '(count, m) ← fire_in_order fuel hdl hd count m;
          es ← aset (entries w) index None;
          expire_bits recurse fuel hdl bits (clear_bit (set_entries w es) index)
                      remaining_ms count m
      else
        mps ← aget msPerSlot (level w);
        let slot_start_ms := index * mps in
        if slot_start_ms >? remaining_ms then Ok (count, w, m)
        else
          sub ← aget (subWheels w) index;
          match sub with
          | None => Panic
          | Some child =>
              '(n, child, m) ← recurse child (remaining_ms - slot_start_ms) m;
              let count := i64 (count + n) in
              if Empty child then
                ss ← aset (subWheels w) index None;
                expire_bits recurse fuel hdl bits
                            (clear_bit (set_subWheels w ss) index)
                            remaining_ms count m
              else
                ss ← aset (subWheels w) index (Some child);
                Ok (count, set_subWheels w ss, m)
          end
  end.

Fixpoint handle_expired_spec (fuel : nat) (hdl : Handler) (w : Wheel)
    (remaining_ms : Z) (m : Mem) : result (Z * Wheel * Mem) :=
  match fuel with
  | O => OutOfFuel
  | S fuel' =>
      expire_bits (handle_expired_spec fuel' hdl) fuel hdl (set_bits (bitmap w))
                  w remaining_ms 0 m
  end.

(** The entries [p1; p2; ...] handed to the handler one after the other, in
    this order. *)
Definition dispatch_all (hdl : Handler) (ps : list ptr) (m : Mem) : Mem :=
  foldl (handed_to hdl) m ps.

(** The links of [h'] are those of [h], or nil; no cell is lost. *)
Definition links_shrink (h h' : Heap) : Prop :=
  forall (q : ptr) (c : Entry),
    h !! q = Some c ->
    exists c', h' !! q = Some c' /\ (next c' = next c \/ next c' = None).


(** The invariant of the driver: the root wheel, when there is one, is
    shaped, faithful and not empty. *)
Definition wheel_ok (t : Timer) : Prop :=
  forall w : Wheel, wheel t = Some w -> Shaped w /\ Faithful w /\ bitmap w <> 0.


(** ** The next wake-up, and what a wheel and a timer hold *)

(** [calculateNextWake]: [now] is the reading [time.Now()] gives; the result
    is a [*time.Time], [None] for nil. *)
Definition calculateNextWake (fuel : nat) (t : Timer) (now : Z) : result (option Z) :=
  match wheel t with
  | None => Ok None
  | Some w =>
      if numEntries t =? 0 then Ok None
      else
        nextMs ← NextExpirationTime fuel w;
        let interval := u64 (Milliseconds (Sub now (start t))) in
        if nextMs <=? interval then Ok (Some now)
        else Ok (Some (Add (start t) (i64 (i64 nextMs * Millisecond))))
  end.

(** The elapsed milliseconds, as [handleExpired] and [calculateNextWake]
    compute them. *)
Definition elapsed (t : Timer) (now : Z) : Z :=
  u64 (Milliseconds (Sub now (start t))).

(** The two heaps hold the same cells, with the same fields other than
    [next]. *)
Definition same_data (h h' : Heap) : Prop :=
  forall (q : ptr) (c : Entry),
    h !! q = Some c ->
    exists c', h' !! q = Some c' /\ expireAt c' = expireAt c /\
               callback c' = callback c /\ removed c' = removed c.

(** The cells of a bucket, from its head on, at most [k] of them. *)
Fixpoint walk (k : nat) (h : Heap) (hd : option ptr) : list ptr :=
  match k with
  | O => []
  | S k =>
      match hd with
      | None => []
      | Some p => p :: match h !! p with
                       | Some c => walk k h (next c)
                       | None => []
                       end
      end
  end.

(** What the slots of an array hold, slot by slot from slot [i] on. *)
Fixpoint gather {A} (g : nat -> A -> list (Z * ptr)) (i : nat) (l : list A)
  : list (Z * ptr) :=
  match l with
  | [] => []
  | x :: l => g i x ++ gather g (S i) l
  end.

(** A slot time moved by [s]. *)
Definition offset (s : Z) (tp : Z * ptr) : Z * ptr := (s + tp.1, tp.2).

(** The entries a wheel holds, each with the time (in ms from the wheel's
    start) of the slot it sits in, in slot order. *)
Fixpoint contents (k : nat) (h : Heap) (w : Wheel) : list (Z * ptr) :=
  if level w =? 0 then
    gather (fun i e => map (pair (Z.of_nat i)) (walk k h e)) 0 (entries w)
  else
    gather (fun i o => match o with
                       | Some c => map (offset (Z.of_nat i * 64 ^ level w))
                                       (contents k h c)
                       | None => []
                       end) 0 (subWheels w).

Definition due (r : Z) (l : list (Z * ptr)) : list (Z * ptr) :=
  List.filter (fun tp => tp.1 <=? r) l.

Definition late (r : Z) (l : list (Z * ptr)) : list (Z * ptr) :=
  List.filter (fun tp => r <? tp.1) l.

(** What one slot holds: a bucket at level 0, a sub-wheel above. *)
Definition leaf_slot (k : nat) (h : Heap) (i : nat) (e : option ptr) : list (Z * ptr) :=
  map (pair (Z.of_nat i)) (walk k h e).

Definition node_slot (k : nat) (h : Heap) (l : Z) (i : nat) (o : option Wheel)
  : list (Z * ptr) :=
  match o with
  | Some c => map (offset (Z.of_nat i * 64 ^ l)) (contents k h c)
  | None => []
  end.

(** Two heaps that agree on the links of the cells of a chain give the
    same chain. *)
Definition agree_on (F : list ptr) (h h' : Heap) : Prop :=
  forall (q : ptr) (c : Entry),
    q ∈ F -> h !! q = Some c -> exists c', h' !! q = Some c' /\ next c' = next c.

(** The contents of a wheel, split at a slot below which no bit is set:
    the slot, then the slots after it. *)
Definition slots_after (k : nat) (h : Heap) (w : Wheel) (j : nat) : list (Z * ptr) :=
  if level w =? 0 then gather (leaf_slot k h) (S j) (drop (S j) (entries w))
  else gather (node_slot k h (level w)) (S j) (drop (S j) (subWheels w)).

(** ** The entries [HandleExpiredEntries] dispatches *)

(** The links of the cells outside [F] are the same in both heaps. *)
Definition agree_off (F : list ptr) (h h' : Heap) : Prop :=
  forall (q : ptr) (c : Entry),
    q ∉ F -> h !! q = Some c -> exists c', h' !! q = Some c' /\ next c' = next c.

(** What a call leaves behind: the handler was called on the due entries,
    in the order the wheel holds them; the wheel holds the others; the
    links of the cells that were not dispatched are as before. *)
Definition expired_post (k : nat) (r : Z) (w : Wheel) (m : Mem) (w' : Wheel) (m' : Mem)
  : Prop :=
  fired m' = fired m ++ map snd (due r (contents k (heap m) w)) /\
  contents k (heap m') w' = late r (contents k (heap m) w) /\
  agree_off (map snd (due r (contents k (heap m) w))) (heap m) (heap m') /\
  links_shrink (heap m) (heap m') /\ Rooted k (heap m') w'.

(** The entry is in none of the wheel's chains. *)
Inductive Fresh (k : nat) (h : Heap) (entry : ptr) : Wheel -> Prop :=
| Fresh_intro (w : Wheel) :
    (forall (i : nat) (hd : option ptr), entries w !! i = Some hd -> entry ∉ walk k h hd) ->
    (forall (i : nat) (c : Wheel), subWheels w !! i = Some (Some c) -> Fresh k h entry c) ->
    Fresh k h entry w.

(** The clock reading (ns) at which the slot of an entry starts. *)
Definition at_clock (t : Timer) (tp : Z * ptr) : Z * ptr :=
  (start t + tp.1 * Millisecond, tp.2).

(** The entries the timer holds in its wheel, each with the clock reading
    at which its slot starts, in slot order. *)
Definition scheduled (k : nat) (h : Heap) (t : Timer) : list (Z * ptr) :=
  match wheel t with
  | None => []
  | Some w => map (at_clock t) (contents k h w)
  end.

(** The invariant of the worker: the wheel is well formed, its chains end,
    no entry is in it twice, and [numEntries] counts its entries. *)
Definition timer_inv (k : nat) (h : Heap) (t : Timer) : Prop :=
  wheel_ok t /\
  (forall w, wheel t = Some w -> Rooted k h w) /\
  NoDup (map snd (scheduled k h t)) /\
  numEntries t = Z.of_nat (length (scheduled k h t)).

(** The entry is not in the timer's wheel. *)
Definition fresh_for (k : nat) (h : Heap) (entry : ptr) (t : Timer) : Prop :=
  forall w, wheel t = Some w -> Fresh k h entry w.

(** [ends], [Rooted] and [Fresh] as boolean functions, to decide them on
    examples. *)
Fixpoint endsb (k : nat) (h : Heap) (hd : option ptr) : bool :=
  match hd with
  | None => true
  | Some p =>
      match k with
      | O => false
      | S k => match h !! p with
               | Some c => endsb k h (next c)
               | None => false
               end
      end
  end.

Fixpoint rootedb (k : nat) (h : Heap) (w : Wheel) : bool :=
  forallb (endsb k h) (entries w) &&
  forallb (fun o => match o with
                    | Some c => rootedb k h c
                    | None => true
                    end)
          (subWheels w).

Fixpoint freshb (k : nat) (h : Heap) (entry : ptr) (w : Wheel) : bool :=
  forallb (fun hd => negb (bool_decide (entry ∈ walk k h hd))) (entries w) &&
  forallb (fun o => match o with
                    | Some c => freshb k h entry c
                    | None => true
                    end)
          (subWheels w).


(** ** Further examples *)

(** A queue caught between the two steps of [Push(2)]: the head is already
    swapped to cell 2, whose [next] still holds the sentinel. *)
Definition queue_mid_push : MPSCQueue := (Push_swap (mkQueue (Some 1%nat)) 2%nat).2.
Definition heap_mid_push : Heap :=
  NewEntry 2 20 None (<[1%nat := mkEntry None 10 None false]> ∅).

(** The entry of [wheel_100ms], cell 1, and a second entry, cell 2, due
    3000 ms after the start. *)
Definition mem_pair : Mem :=
  mkMem (<[2%nat := mkEntry None (3000 * Millisecond) None false]>
           (<[1%nat := mkEntry None (100 * Millisecond) None false]> ∅)) [] [].

(** The same, with the second entry due 100000 ms after the start: beyond a
    level-1 wheel, within a level-2 wheel. *)
Definition mem_level2 : Mem :=
  mkMem (<[2%nat := mkEntry None (100000 * Millisecond) None false]>
           (<[1%nat := mkEntry None (100 * Millisecond) None false]> ∅)) [] [].


(** * Properties *)

(** ** The outcome monad *)

Lemma bind_Ok {A B} (r : result A) (f : A -> result B) (b : B) :
  r ≫= f = Ok b -> exists a, r = Ok a /\ f a = Ok b.
Proof. destruct r as [a| |]; simpl; intros H; try discriminate. eauto. Qed.

Lemma bind_Ok_eq {A B} (r : result A) (f : A -> result B) (a : A) :
  r = Ok a -> r ≫= f = f a.
Proof. intros ->. reflexivity. Qed.

Lemma is_Ok_intro {A} (r : result A) (a : A) : r = Ok a -> is_Ok r.
Proof. intros ->. exists a. reflexivity. Qed.

(** Split a hypothesis [x ← e; k = Ok r] into [e = Ok x] and [k x = Ok r]. *)
Ltac ok_inv H :=
  let a := fresh "a" in
  let Ha := fresh "Ha" in
  apply bind_Ok in H; destruct H as (a & Ha & H); simpl in H.

Lemma aget_Ok {A} (a : list A) (i : Z) (x : A) :
  aget a i = Ok x <-> 0 <= i /\ a !! Z.to_nat i = Some x.
Proof.
  unfold aget. destruct (Z.ltb_spec i 0).
  - split; [discriminate | lia].
  - destruct (a !! Z.to_nat i) eqn:E; split; intros H'.
    + injection H' as ->. auto.
    + destruct H' as [_ [= ->]]. reflexivity.
    + discriminate.
    + destruct H' as [_ ?]. discriminate.
Qed.

Lemma aget_lt {A} (a : list A) (i : Z) :
  0 <= i < Z.of_nat (length a) -> exists x, aget a i = Ok x.
Proof.
  intros [H0 H1]. destruct (lookup_lt_is_Some_2 a (Z.to_nat i)) as [x Hx]; [lia|].
  exists x. apply aget_Ok. auto.
Qed.

Lemma aset_Ok {A} (a : list A) (i : Z) (x : A) (a' : list A) :
  aset a i x = Ok a' <->
  0 <= i /\ (Z.to_nat i < length a)%nat /\ a' = <[Z.to_nat i := x]> a.
Proof.
  unfold aset. destruct (Z.ltb_spec i 0).
  - split; [discriminate | lia].
  - destruct (decide (Z.to_nat i < length a)%nat); split; intros H'.
    + injection H' as <-. auto.
    + destruct H' as (_ & _ & ->). reflexivity.
    + discriminate.
    + lia.
Qed.

Lemma aset_lt {A} (a : list A) (i : Z) (x : A) :
  0 <= i < Z.of_nat (length a) -> aset a i x = Ok (<[Z.to_nat i := x]> a).
Proof. intros H. apply aset_Ok. repeat split; lia. Qed.

(** ** Slot indexing *)

Lemma shiftr_land_mask (d s : Z) :
  0 <= s -> Z.shiftr (Z.land d (Z.shiftl 0x3F s)) s = Z.land (Z.shiftr d s) 0x3F.
Proof.
  intros Hs. rewrite Z.shiftr_land, Z.shiftr_shiftl_l by lia.
  rewrite Z.sub_diag. reflexivity.
Qed.

Lemma level_cases (l : Z) :
  0 <= l <= 6 -> l = 0 \/ l = 1 \/ l = 2 \/ l = 3 \/ l = 4 \/ l = 5 \/ l = 6.
Proof. lia. Qed.

Ltac each_level H :=
  apply level_cases in H;
  destruct H as [H | [H | [H | [H | [H | [H | H]]]]]].

Lemma tables (l : Z) :
  0 <= l <= 6 ->
  aget msPerSlot l = Ok (64 ^ l) /\ aget maxMs l = Ok (64 ^ (l + 1)) /\
  aget shift l = Ok (6 * l) /\ aget mask l = Ok (Z.shiftl 0x3F (6 * l)).
Proof. intros H. each_level H; subst l; repeat split; reflexivity. Qed.

Lemma getIndex_eq (w : Wheel) (d : Z) :
  0 <= level w <= 6 ->
  getIndex w d = Ok (Z.land (Z.shiftr d (6 * level w)) 0x3F).
Proof.
  intros H. unfold getIndex. destruct (Z.eqb_spec (level w) 0) as [E | E].
  - rewrite E. reflexivity.
  - destruct (tables _ H) as (_ & _ & Hs & Hm). rewrite Hm, Hs. simpl.
    rewrite shiftr_land_mask by lia. reflexivity.
Qed.

Lemma getIndex_range (w : Wheel) (d i : Z) :
  getIndex w d = Ok i -> 0 <= level w <= 6 -> 0 <= i < 64.
Proof.
  intros Hi Hl. rewrite getIndex_eq in Hi by assumption. injection Hi as <-.
  change 0x3F with (Z.ones 6). rewrite Z.land_ones by lia.
  apply Z.mod_pos_bound. reflexivity.
Qed.

(** C6. For a wheel of level l in [0, 6] and every interval d, [getIndex]
    answers [(d >> 6l) & 0x3F]; the four tables hold [64^l], [64^(l+1)],
    [6l] and [0x3F << 6l] at index l.  The interval is not bounded: the
    equation holds at and beyond the wheel's span as well. *)
Theorem getIndex_is_shift_then_mask (w : Wheel) (d : Z) :
  0 <= level w <= MaxLevel ->
  getIndex w d = Ok (Z.land (Z.shiftr d (6 * level w)) 0x3F) /\
  aget msPerSlot (level w) = Ok (64 ^ level w) /\
  aget maxMs (level w) = Ok (64 ^ (level w + 1)) /\
  aget shift (level w) = Ok (6 * level w) /\
  aget mask (level w) = Ok (Z.shiftl 0x3F (6 * level w)).
Proof.
  intros H. split; [apply getIndex_eq, H | apply tables, H].
Qed.

Lemma getIndex_is_shift_then_mask_witness :
  0 <= level (NewWheel 2) <= MaxLevel /\
  getIndex (NewWheel 2) (2 ^ 64 - 1) =
    Ok (Z.land (Z.shiftr (2 ^ 64 - 1) (6 * level (NewWheel 2))) 0x3F) /\
  aget msPerSlot (level (NewWheel 2)) = Ok (64 ^ level (NewWheel 2)) /\
  aget maxMs (level (NewWheel 2)) = Ok (64 ^ (level (NewWheel 2) + 1)) /\
  aget shift (level (NewWheel 2)) = Ok (6 * level (NewWheel 2)) /\
  aget mask (level (NewWheel 2)) = Ok (Z.shiftl 0x3F (6 * level (NewWheel 2))).
Proof.
  assert (H : 0 <= level (NewWheel 2) <= MaxLevel) by (vm_compute; split; discriminate).
  split; [exact H |].
  exact (getIndex_is_shift_then_mask (NewWheel 2) (2 ^ 64 - 1) H).
Defined.

(** ** Entries *)

Lemma setNext_lookup (e nxt : option ptr) (h h' : Heap) (q : ptr) (c : Entry) :
  setNext e nxt h = Ok h' -> h !! q = Some c ->
  exists c', h' !! q = Some c' /\ expireAt c' = expireAt c /\
             callback c' = callback c /\ removed c' = removed c /\
             next c' = (if decide (e = Some q) then nxt else next c).
Proof.
  unfold setNext, deref. intros H Hq. destruct e as [p|]; [|discriminate].
  destruct (h !! p) as [cp|] eqn:Hp; [|discriminate]. simpl in H.
  injection H as <-. destruct (decide (p = q)) as [-> | Hne].
  - rewrite lookup_insert_eq. rewrite Hp in Hq. injection Hq as <-.
    eexists. split; [reflexivity|]. simpl.
    destruct (decide (Some q = Some q)); [auto | congruence].
  - rewrite lookup_insert_ne by assumption. exists c. split; [assumption|].
    destruct (decide (Some p = Some q)); [congruence | auto].
Qed.

Lemma store_links_removed (ws : list (option ptr * option ptr)) (h h' : Heap)
    (q : ptr) (c : Entry) :
  store_links ws h = Ok h' -> h !! q = Some c ->
  exists c', h' !! q = Some c' /\ removed c' = removed c /\ callback c' = callback c.
Proof.
  revert h c. induction ws as [| [e nxt] ws IH]; intros h c H Hq; simpl in H.
  - injection H as <-. eauto.
  - ok_inv H. destruct (setNext_lookup _ _ _ _ _ _ Ha Hq) as (c1 & H1 & _ & Hcb & Hr & _).
    destruct (IH _ _ H H1) as (c' & H' & Hr' & Hcb'). exists c'.
    repeat split; [assumption | congruence | congruence].
Qed.

Lemma Execute_removed (p : ptr) (m : Mem) (c : Entry) :
  heap m !! p = Some c -> removed c = true -> Execute p m = Ok m.
Proof.
  intros Hp Hr. unfold Execute, deref. rewrite Hp. simpl. rewrite Hr. reflexivity.
Qed.

(** C4. Once [Cancel] has run on an entry, whatever links the engine stores
    afterwards (queue push, drain, bucket insertion), [Execute] finds the
    flag set and returns without calling the callback: the memory, and with
    it the trace of calls, is left as it was. *)
Theorem Execute_after_Cancel (p : ptr) (m m1 : Mem)
    (ws : list (option ptr * option ptr)) (h2 : Heap) :
  Cancel p m = Ok m1 ->
  store_links ws (heap m1) = Ok h2 ->
  Execute p (set_heap m1 h2) = Ok (set_heap m1 h2) /\
  calls (set_heap m1 h2) = calls m.
Proof.
  intros Hc Hw. unfold Cancel in Hc. ok_inv Hc. injection Hc as <-.
  simpl in Hw. split; [|reflexivity].
  edestruct (store_links_removed ws) as (c' & Hc' & Hr & _);
    [exact Hw | apply lookup_insert_eq |].
  apply Execute_removed with c'; [exact Hc' | exact Hr].
Qed.

Lemma Execute_after_Cancel_witness :
  let m := mkMem (NewEntry 1 50 (Some 7%nat) ∅) [] [] in
  let m1 := mkMem (<[1%nat := mkEntry settingNext 50 (Some 7%nat) true]> ∅) [] [] in
  let h2 := <[1%nat := mkEntry None 50 (Some 7%nat) true]> (∅ : Heap) in
  Cancel 1 m = Ok m1 /\ store_links [(Some 1%nat, None)] (heap m1) = Ok h2 /\
  Execute 1 (set_heap m1 h2) = Ok (set_heap m1 h2) /\ calls (set_heap m1 h2) = calls m.
Proof.
  intros m m1 h2.
  assert (Hc : Cancel 1 m = Ok m1) by (vm_compute; reflexivity).
  assert (Hs : store_links [(Some 1%nat, None)] (heap m1) = Ok h2)
    by (vm_compute; reflexivity).
  split; [exact Hc | split; [exact Hs |]].
  exact (Execute_after_Cancel 1 m m1 [(Some 1%nat, None)] h2 Hc Hs).
Defined.

(** ** The queue: [Push] *)

Lemma setNext_total (p : ptr) (nxt : option ptr) (h : Heap) :
  is_Some (h !! p) -> exists h', setNext (Some p) nxt h = Ok h'.
Proof.
  intros [c Hc]. unfold setNext, deref. rewrite Hc. simpl. eauto.
Qed.

Lemma getNext_setNext (p : ptr) (nxt : option ptr) (h h' : Heap) :
  setNext (Some p) nxt h = Ok h' -> getNext (Some p) h' = Ok nxt.
Proof.
  unfold setNext, getNext, deref. destruct (h !! p); [|discriminate].
  simpl. intros [= <-]. rewrite lookup_insert_eq. reflexivity.
Qed.

(** C7. A [Push] of an allocated entry returns; its result is true exactly
    when the head it replaced was nil, that is when the queue was empty
    before the push; after it the queue is not empty and the new head links
    to the old one. *)
Theorem Push_true_iff_old_head_nil (q : MPSCQueue) (entry : ptr) (h : Heap) :
  is_Some (h !! entry) ->
  exists (b : bool) (q' : MPSCQueue) (h' : Heap),
    Push q entry h = Ok (b, q', h') /\
    (b = true <-> head q = None) /\
    (b = true <-> IsEmpty q = true) /\
    head q' = Some entry /\ IsEmpty q' = false /\
    getNext (Some entry) h' = Ok (head q).
Proof.
  intros Hal. destruct (setNext_total entry (head q) h Hal) as [h' Hh'].
  exists (bool_decide (head q = None)), (mkQueue (Some entry)), h'.
  unfold Push, Push_swap, Push_store. rewrite Hh'. simpl.
  split; [reflexivity|]. unfold IsEmpty.
  rewrite bool_decide_eq_true. simpl.
  repeat split; auto. eapply getNext_setNext, Hh'.
Qed.

Lemma Push_true_iff_old_head_nil_witness :
  let h := NewEntry 2 20 None (NewEntry 1 10 None ∅) in
  is_Some (h !! 2%nat) /\
  exists (b : bool) (q' : MPSCQueue) (h' : Heap),
    Push (mkQueue (Some 1%nat)) 2 h = Ok (b, q', h') /\
    (b = true <-> head (mkQueue (Some 1%nat)) = None) /\
    (b = true <-> IsEmpty (mkQueue (Some 1%nat)) = true) /\
    head q' = Some 2%nat /\ IsEmpty q' = false /\
    getNext (Some 2%nat) h' = Ok (head (mkQueue (Some 1%nat))).
Proof.
  intros h.
  assert (Hal : is_Some (h !! 2%nat)) by (vm_compute; eauto).
  split; [exact Hal |].
  exact (Push_true_iff_old_head_nil (mkQueue (Some 1%nat)) 2 h Hal).
Defined.

(** ** [Rotate] outside its range *)

Lemma Rotate_out_of_range (w : Wheel) (n : Z) :
  n = 0 \/ n >= SlotSize -> Rotate w n = w.
Proof.
  intros H. unfold Rotate.
  destruct (Z.eqb_spec n 0) as [E | E]; [reflexivity|].
  destruct (Z.geb_spec n SlotSize) as [G | G]; [reflexivity|]. lia.
Qed.

(** ** Bits of a [uint64] *)

Lemma u64_bits (x : Z) :
  0 <= x < 2 ^ 64 <-> 0 <= x /\ forall i, 64 <= i -> Z.testbit x i = false.
Proof.
  split.
  - intros [H0 H1]. split; [assumption|]. intros i Hi.
    destruct (Z.eq_dec x 0) as [-> | Hx]; [apply Z.bits_0|].
    apply Z.bits_above_log2; [assumption|].
    assert (Z.log2 x < 64) by (apply Z.log2_lt_pow2; lia). lia.
  - intros [H0 Hb]. split; [assumption|].
    destruct (Z.eq_dec x 0) as [-> | Hx]; [reflexivity|].
    apply Z.log2_lt_pow2; [lia|].
    destruct (Z.lt_ge_cases (Z.log2 x) 64) as [|Hge]; [assumption|].
    specialize (Hb _ Hge). rewrite Z.bit_log2 in Hb by lia. discriminate.
Qed.

Lemma one_shl (index : Z) :
  0 <= index < 64 -> u64 (Z.shiftl 1 index) = 2 ^ index.
Proof.
  intros H. rewrite Z.shiftl_1_l. unfold u64. apply Z.mod_small.
  split; [apply Z.pow_nonneg; lia | apply Z.pow_lt_mono_r; lia].
Qed.

Lemma set_bit_testbit (b index i : Z) :
  0 <= index < 64 -> 0 <= i ->
  Z.testbit (Z.lor b (u64 (Z.shiftl 1 index))) i = Z.testbit b i || (index =? i).
Proof.
  intros H Hi. rewrite one_shl by assumption.
  rewrite Z.lor_spec, Z.pow2_bits_eqb by lia. reflexivity.
Qed.

Lemma clear_bit_testbit (b index i : Z) :
  0 <= index < 64 -> 0 <= i ->
  Z.testbit (Z.ldiff b (u64 (Z.shiftl 1 index))) i = Z.testbit b i && negb (index =? i).
Proof.
  intros H Hi. rewrite one_shl by assumption.
  rewrite Z.ldiff_spec, Z.pow2_bits_eqb by lia. reflexivity.
Qed.

Lemma set_bit_range (b index : Z) :
  0 <= b < 2 ^ 64 -> 0 <= index < 64 ->
  0 <= Z.lor b (u64 (Z.shiftl 1 index)) < 2 ^ 64.
Proof.
  intros Hb Hi. apply u64_bits. apply u64_bits in Hb. destruct Hb as [H0 Hb].
  split.
  - apply Z.lor_nonneg. split; [assumption|]. rewrite one_shl by assumption.
    apply Z.pow_nonneg. lia.
  - intros i Hge. rewrite set_bit_testbit by lia. rewrite Hb by assumption.
    destruct (Z.eqb_spec index i); [lia | reflexivity].
Qed.

Lemma clear_bit_range (b index : Z) :
  0 <= b < 2 ^ 64 -> 0 <= index < 64 ->
  0 <= Z.ldiff b (u64 (Z.shiftl 1 index)) < 2 ^ 64.
Proof.
  intros Hb Hi. apply u64_bits. apply u64_bits in Hb. destruct Hb as [H0 Hb].
  split.
  - apply Z.ldiff_nonneg. left. assumption.
  - intros i Hge. rewrite clear_bit_testbit by lia. rewrite Hb by assumption.
    reflexivity.
Qed.

Lemma shiftr_range (b n : Z) :
  0 <= b < 2 ^ 64 -> 0 <= n -> 0 <= Z.shiftr b n < 2 ^ 64.
Proof.
  intros Hb Hn. apply u64_bits. apply u64_bits in Hb. destruct Hb as [H0 Hb].
  split; [apply Z.shiftr_nonneg; assumption|].
  intros i Hi. rewrite Z.shiftr_spec by lia. apply Hb. lia.
Qed.

Lemma testbit_true_nonzero (b i : Z) : Z.testbit b i = true -> b <> 0.
Proof. intros H ->. rewrite Z.bits_0 in H. discriminate. Qed.

(** [TrailingZeros64] finds the lowest set bit. *)
Lemma ctz_pos_spec (p : positive) :
  0 <= ctz_pos p /\ Z.testbit (Zpos p) (ctz_pos p) = true /\
  forall j, 0 <= j < ctz_pos p -> Z.testbit (Zpos p) j = false.
Proof.
  induction p as [q IH | q IH |]; simpl ctz_pos.
  - split; [lia|]. split; [reflexivity | intros; lia].
  - destruct IH as (H0 & H1 & H2). split; [lia|]. split.
    + change (Zpos q~0) with (2 * Zpos q).
      replace (1 + ctz_pos q) with (Z.succ (ctz_pos q)) by lia.
      rewrite Z.double_bits_succ. assumption.
    + intros j Hj. change (Zpos q~0) with (2 * Zpos q).
      destruct (Z.eq_dec j 0) as [-> | Hne]; [apply Z.testbit_even_0|].
      replace j with (Z.succ (j - 1)) by lia.
      rewrite Z.double_bits_succ. apply H2. lia.
  - split; [lia|]. split; [reflexivity | intros; lia].
Qed.

Lemma ctz_spec (b : Z) :
  0 <= b < 2 ^ 64 -> b <> 0 ->
  0 <= TrailingZeros64 b < 64 /\
  Z.testbit b (TrailingZeros64 b) = true /\
  forall j, 0 <= j < TrailingZeros64 b -> Z.testbit b j = false.
Proof.
  intros Hb Hne. destruct b as [| p | p]; [congruence | | lia].
  simpl TrailingZeros64. destruct (ctz_pos_spec p) as (H0 & H1 & H2).
  repeat split; try assumption.
  destruct (Z.lt_ge_cases (ctz_pos p) 64) as [|Hge]; [assumption|].
  apply u64_bits in Hb. destruct Hb as [_ Hb]. rewrite (Hb _ Hge) in H1.
  discriminate.
Qed.

Lemma nonzero_has_bit (b : Z) :
  0 <= b < 2 ^ 64 -> b <> 0 ->
  exists i : nat, (i < 64)%nat /\ Z.testbit b (Z.of_nat i) = true.
Proof.
  intros Hb Hne. destruct (ctz_spec b Hb Hne) as (Hr & Ht & _).
  exists (Z.to_nat (TrailingZeros64 b)). split; [lia|].
  rewrite Z2Nat.id by lia. assumption.
Qed.

(** ** Bitmap faithfulness *)

Lemma occupied_insert_Some {A} (a : list (option A)) (i j : nat) (x : A) :
  (i < length a)%nat -> occupied (<[i := Some x]> a) j <-> j = i \/ occupied a j.
Proof.
  intros Hi. unfold occupied. destruct (decide (j = i)) as [-> | Hne].
  - rewrite list_lookup_insert_eq by assumption. split; eauto.
  - rewrite list_lookup_insert_ne by congruence. split; [auto | intros [? | ?]; [contradiction | assumption]].
Qed.

Lemma occupied_insert_None {A} (a : list (option A)) (i j : nat) :
  occupied (<[i := None]> a) j <-> j <> i /\ occupied a j.
Proof.
  unfold occupied. destruct (decide (j = i)) as [-> | Hne].
  - split; [| intros [? _]; contradiction].
    intros [x Hx]. destruct (decide (i < length a)%nat).
    + rewrite list_lookup_insert_eq in Hx by assumption. discriminate.
    + rewrite list_insert_ge in Hx by lia. rewrite lookup_ge_None_2 in Hx by lia. discriminate.
  - rewrite list_lookup_insert_ne by congruence. split; [auto | intros [_ ?]; assumption].
Qed.

Lemma occupied_lt {A} (a : list (option A)) (i : nat) :
  occupied a i -> (i < length a)%nat.
Proof. intros [x Hx]. eapply lookup_lt_Some, Hx. Qed.

Lemma occupiedb_spec {A} (a : list (option A)) (i : nat) :
  occupiedb a i = true <-> occupied a i.
Proof.
  unfold occupiedb, occupied. destruct (a !! i) as [[x|]|]; split; intros H;
    try discriminate; eauto; destruct H as [? H]; discriminate.
Qed.

Lemma getIndex_Ok (w : Wheel) (d i : Z) :
  getIndex w d = Ok i -> 0 <= i < 64.
Proof.
  intros H. destruct (Z.eqb_spec (level w) 0) as [E | E].
  - apply (getIndex_range w d); [assumption | lia].
  - apply (getIndex_range w d); [assumption|].
    unfold getIndex in H. destruct (Z.eqb_spec (level w) 0); [contradiction|].
    ok_inv H. apply aget_Ok in Ha. destruct Ha as [H0 Hl].
    apply lookup_lt_Some in Hl. simpl in Hl. lia.
Qed.

Lemma Faithful_NewWheel (l : Z) : Faithful (NewWheel l).
Proof.
  constructor; simpl.
  - lia.
  - intros i Hi. rewrite Z.bits_0. split; [discriminate|].
    unfold occupied, slots. destruct (l =? 0); intros [x Hx];
      apply lookup_replicate in Hx; destruct Hx; discriminate.
  - intros i c Hc. apply lookup_replicate in Hc. destruct Hc. discriminate.
  - intros i c Hc. apply lookup_replicate in Hc. destruct Hc. discriminate.
Qed.

Lemma Faithful_bit (w : Wheel) (i : Z) :
  Faithful w -> 0 <= i < 64 ->
  Z.testbit (bitmap w) i = true <->
  (if level w =? 0 then occupied (entries w) (Z.to_nat i)
   else occupied (subWheels w) (Z.to_nat i)).
Proof.
  intros [w' _ Hb _ _] Hi. rewrite <- (Z2Nat.id i) at 1 by lia. apply Hb. lia.
Qed.

Lemma Faithful_child_nonzero (w c : Wheel) (i : nat) :
  Faithful w -> subWheels w !! i = Some (Some c) -> bitmap c <> 0.
Proof. intros [w' _ _ _ Hn] Hc. eapply Hn, Hc. Qed.

Lemma AddEntry_Faithful (fuel : nat) :
  forall (w : Wheel) (entry : ptr) (d : Z) (h : Heap) (w' : Wheel) (h' : Heap),
    AddEntry fuel w entry d h = Ok (w', h') -> Faithful w ->
    Faithful w' /\ bitmap w' <> 0.
Proof.
  induction fuel as [| fuel IH]; intros w entry d h w' h' H Hf; simpl in H;
    [discriminate|].
  ok_inv H. rename a into index. pose proof (getIndex_Ok _ _ _ Ha) as Hidx.
  destruct Hf as [w Hr Hb Hc Hn].
  destruct (level w =? 0) eqn:El.
  - ok_inv H. ok_inv H. ok_inv H. injection H as <- <-.
    apply aset_Ok in Ha2. destruct Ha2 as (_ & Hlen & ->). simpl in Hlen.
    split.
    + constructor; simpl.
      * apply set_bit_range; assumption.
      * intros i Hi. rewrite El. rewrite set_bit_testbit by lia.
        rewrite occupied_insert_Some by assumption.
        specialize (Hb i Hi). simpl in Hb. rewrite <- Hb.
        rewrite orb_true_iff, Z.eqb_eq. split; intros [?|?]; auto; lia.
      * exact Hc.
      * exact Hn.
    + simpl. apply testbit_true_nonzero with index.
      rewrite set_bit_testbit by lia. rewrite Z.eqb_refl. apply orb_true_r.
  - ok_inv H. rename a into sub. ok_inv H. destruct a as [w1 child].
    ok_inv H. destruct a as [child' h1]. ok_inv H. injection H as <- <-.
    apply aget_Ok in Ha0. destruct Ha0 as [_ Hsub].
    set (k := Z.to_nat index) in *.
    assert (Hw1 : level w1 = level w /\ 0 <= bitmap w1 < 2 ^ 64 /\
                  (forall i : nat, (i < 64)%nat ->
                     Z.testbit (bitmap w1) (Z.of_nat i) = true <->
                     i = k \/ occupied (subWheels w) i) /\
                  (forall j : nat, j <> k ->
                     subWheels w1 !! j = subWheels w !! j) /\
                  Faithful child).
    { destruct sub as [c|].
      - injection Ha1 as <- <-. split; [reflexivity|]. split; [assumption|].
        split; [|split; [auto | eapply Hc, Hsub]].
        intros i Hi. split.
        + intros Ht. right. apply Hb; assumption.
        + intros [-> | Ho]; [|apply Hb; assumption].
          apply Hb; [assumption|]. exists c. exact Hsub.
      - ok_inv Ha1. injection Ha1 as <- <-.
        apply aset_Ok in Ha0. destruct Ha0 as (_ & Hlen & ->). fold k in Hlen |- *.
        simpl. split; [reflexivity|]. split; [apply set_bit_range; assumption|].
        split; [|split; [|apply Faithful_NewWheel]].
        + intros i Hi. rewrite set_bit_testbit by lia.
          rewrite orb_true_iff, Z.eqb_eq. rewrite (Hb i Hi). unfold k. split.
          * intros [Ht | He]; [right; assumption | left; lia].
          * intros [-> | Ho]; [right; lia | left; assumption].
        + intros j Hj. rewrite list_lookup_insert_ne by congruence. auto. }
    destruct Hw1 as (Hl1 & Hr1 & Hb1 & Hc1 & Hfc).
    destruct (IH _ _ _ _ _ _ Ha2 Hfc) as [Hfc' Hnz'].
    apply aset_Ok in Ha3. destruct Ha3 as (_ & Hlen & ->). fold k in Hlen |- *.
    split.
    + constructor; simpl.
      * assumption.
      * intros i Hi. rewrite Hl1, El. rewrite occupied_insert_Some by assumption.
        rewrite (Hb1 i Hi). destruct (decide (i = k)) as [-> | Hne]; [tauto|].
        unfold occupied. rewrite (Hc1 i Hne). tauto.
      * intros j c Hj. destruct (decide (j = k)) as [-> | Hne].
        -- rewrite list_lookup_insert_eq in Hj by assumption. congruence.
        -- rewrite list_lookup_insert_ne in Hj by congruence.
           rewrite (Hc1 j Hne) in Hj. eapply Hc, Hj.
      * intros j c Hj. destruct (decide (j = k)) as [-> | Hne].
        -- rewrite list_lookup_insert_eq in Hj by assumption. congruence.
        -- rewrite list_lookup_insert_ne in Hj by congruence.
           rewrite (Hc1 j Hne) in Hj. eapply Hn, Hj.
    + simpl. apply testbit_true_nonzero with (Z.of_nat k).
      apply Hb1; [unfold k; lia | auto].
Qed.

Lemma Faithful_clear0 (w : Wheel) (index : Z) :
  Faithful w -> (level w =? 0) = true -> 0 <= index < 64 ->
  Faithful (mkWheel (level w) (Z.ldiff (bitmap w) (u64 (Z.shiftl 1 index)))
                    (<[Z.to_nat index := None]> (entries w)) (subWheels w)).
Proof.
  intros [w' Hr Hb Hc Hn] El Hi. constructor; simpl.
  - apply clear_bit_range; assumption.
  - intros i Hlt. rewrite El. rewrite clear_bit_testbit by lia.
    rewrite occupied_insert_None. specialize (Hb i Hlt). rewrite El in Hb.
    rewrite <- Hb. rewrite andb_true_iff, negb_true_iff, Z.eqb_neq.
    split; intros [? ?]; split; auto; lia.
  - exact Hc.
  - exact Hn.
Qed.

Lemma Faithful_clearS (w : Wheel) (index : Z) :
  Faithful w -> (level w =? 0) = false -> 0 <= index < 64 ->
  Faithful (mkWheel (level w) (Z.ldiff (bitmap w) (u64 (Z.shiftl 1 index)))
                    (entries w) (<[Z.to_nat index := None]> (subWheels w))).
Proof.
  intros [w' Hr Hb Hc Hn] El Hi. constructor; simpl.
  - apply clear_bit_range; assumption.
  - intros i Hlt. rewrite El. rewrite clear_bit_testbit by lia.
    rewrite occupied_insert_None. specialize (Hb i Hlt). rewrite El in Hb.
    rewrite <- Hb. rewrite andb_true_iff, negb_true_iff, Z.eqb_neq.
    split; intros [? ?]; split; auto; lia.
  - intros j c Hj. destruct (decide (j = Z.to_nat index)) as [-> | Hne].
    + destruct (decide (Z.to_nat index < length (subWheels w'))%nat).
      * rewrite list_lookup_insert_eq in Hj by assumption. discriminate.
      * rewrite list_insert_ge in Hj by lia. eapply Hc, Hj.
    + rewrite list_lookup_insert_ne in Hj by congruence. eapply Hc, Hj.
  - intros j c Hj. destruct (decide (j = Z.to_nat index)) as [-> | Hne].
    + destruct (decide (Z.to_nat index < length (subWheels w'))%nat).
      * rewrite list_lookup_insert_eq in Hj by assumption. discriminate.
      * rewrite list_insert_ge in Hj by lia. eapply Hn, Hj.
    + rewrite list_lookup_insert_ne in Hj by congruence. eapply Hn, Hj.
Qed.

Lemma Faithful_child (w : Wheel) (index : Z) (c' : Wheel) :
  Faithful w -> (level w =? 0) = false -> 0 <= index < 64 ->
  occupied (subWheels w) (Z.to_nat index) ->
  Faithful c' -> bitmap c' <> 0 ->
  Faithful (mkWheel (level w) (bitmap w) (entries w)
                    (<[Z.to_nat index := Some c']> (subWheels w))).
Proof.
  intros [w' Hr Hb Hc Hn] El Hi Ho Hf' Hnz. pose proof (occupied_lt _ _ Ho) as Hlen.
  constructor; simpl.
  - assumption.
  - intros i Hlt. rewrite El. rewrite occupied_insert_Some by assumption.
    specialize (Hb i Hlt). rewrite El in Hb. rewrite Hb.
    split; [auto|]. intros [-> | ?]; assumption.
  - intros j c Hj. destruct (decide (j = Z.to_nat index)) as [-> | Hne].
    + rewrite list_lookup_insert_eq in Hj by assumption. congruence.
    + rewrite list_lookup_insert_ne in Hj by congruence. eapply Hc, Hj.
  - intros j c Hj. destruct (decide (j = Z.to_nat index)) as [-> | Hne].
    + rewrite list_lookup_insert_eq in Hj by assumption. congruence.
    + rewrite list_lookup_insert_ne in Hj by congruence. eapply Hn, Hj.
Qed.

Lemma Faithful_head (w : Wheel) (index : Z) (p : ptr) :
  Faithful w -> (level w =? 0) = true -> 0 <= index < 64 ->
  occupied (entries w) (Z.to_nat index) ->
  Faithful (mkWheel (level w) (bitmap w)
                    (<[Z.to_nat index := Some p]> (entries w)) (subWheels w)).
Proof.
  intros [w' Hr Hb Hc Hn] El Hi Ho. pose proof (occupied_lt _ _ Ho) as Hlen.
  constructor; simpl; try assumption.
  intros i Hlt. rewrite El. rewrite occupied_insert_Some by assumption.
  specialize (Hb i Hlt). rewrite El in Hb. rewrite Hb.
  split; [auto|]. intros [-> | ?]; assumption.
Qed.

Lemma RemoveEntry_Faithful (fuel : nat) :
  forall (w : Wheel) (entry : ptr) (d : Z) (h : Heap) (w' : Wheel) (h' : Heap),
    RemoveEntry fuel w entry d h = Ok (w', h') -> Faithful w -> Faithful w'.
Proof.
  induction fuel as [| fuel IH]; intros w entry d h w' h' H Hf; simpl in H;
    [discriminate|].
  ok_inv H. rename a into index. pose proof (getIndex_Ok _ _ _ Ha) as Hidx.
  destruct (level w =? 0) eqn:El.
  - ok_inv H. rename a into hd. apply aget_Ok in Ha0. destruct Ha0 as [_ Hhd].
    destruct (decide (hd = Some entry)) as [-> | Hne].
    + ok_inv H. rename a into nxt. ok_inv H. injection H as <- <-.
      apply aset_Ok in Ha1. destruct Ha1 as (_ & Hlen & ->).
      destruct (decide (nxt = None)) as [-> | Hsome].
      * apply (Faithful_clear0 w index); assumption.
      * destruct nxt as [p|]; [|congruence].
        apply (Faithful_head w index p); try assumption. exists entry. assumption.
    + ok_inv H. ok_inv H. ok_inv H. injection H as <- <-. assumption.
  - ok_inv H. rename a into sub. apply aget_Ok in Ha0. destruct Ha0 as [_ Hsub].
    destruct sub as [child|]; [|discriminate].
    ok_inv H. destruct a as [child' h1].
    assert (Hfc : Faithful child) by (destruct Hf as [w _ _ Hc _]; eapply Hc, Hsub).
    pose proof (IH _ _ _ _ _ _ Ha0 Hfc) as Hfc'.
    unfold Empty in H. destruct (Z.eqb_spec (bitmap child') 0) as [Hz | Hnz].
    + ok_inv H. injection H as <- <-.
      apply aset_Ok in Ha1. destruct Ha1 as (_ & Hlen & ->).
      apply (Faithful_clearS w index); assumption.
    + ok_inv H. injection H as <- <-.
      apply aset_Ok in Ha1. destruct Ha1 as (_ & Hlen & ->).
      apply (Faithful_child w index child'); try assumption. exists child. assumption.
Qed.

Lemma scan_Faithful (recurse : Wheel -> Z -> Mem -> result (Z * Wheel * Mem))
    (fuel : nat) (handler : Handler) :
  (forall c r m n c' m', recurse c r m = Ok (n, c', m') -> Faithful c -> Faithful c') ->
  forall (passes : nat) (w : Wheel) (r count : Z) (m : Mem)
         (count' : Z) (w' : Wheel) (m' : Mem),
    scan recurse fuel handler passes w r count m = Ok (count', w', m') ->
    Faithful w -> Faithful w'.
Proof.
  intros Hrec. induction passes as [| passes IH];
    intros w r count m count' w' m' H Hf; simpl in H.
  - destruct (bitmap w =? 0); [|discriminate]. injection H as _ <- _. assumption.
  - destruct (Z.eqb_spec (bitmap w) 0) as [Hz | Hnz].
    { injection H as _ <- _. assumption. }
    assert (Hr : 0 <= bitmap w < 2 ^ 64) by (destruct Hf; assumption).
    destruct (ctz_spec _ Hr Hnz) as (Hidx & Hbit & _).
    set (index := TrailingZeros64 (bitmap w)) in *.
    destruct (level w =? 0) eqn:El.
    + destruct (index >? r). { injection H as _ <- _. assumption. }
      ok_inv H. ok_inv H. destruct a0 as [count1 m1]. ok_inv H.
      apply aset_Ok in Ha1. destruct Ha1 as (_ & Hlen & ->).
      eapply IH; [exact H|]. apply (Faithful_clear0 w index); assumption.
    + ok_inv H. destruct (u64 (index * a) >? r).
      { injection H as _ <- _. assumption. }
      ok_inv H. rename a0 into sub. apply aget_Ok in Ha0. destruct Ha0 as [_ Hsub].
      destruct sub as [child|]; [|discriminate].
      ok_inv H. destruct a0 as [[n child'] m1].
      assert (Hfc : Faithful child) by (destruct Hf as [w _ _ Hc _]; eapply Hc, Hsub).
      pose proof (Hrec _ _ _ _ _ _ Ha0 Hfc) as Hfc'.
      unfold Empty in H. destruct (Z.eqb_spec (bitmap child') 0) as [Hz' | Hnz'].
      * ok_inv H. apply aset_Ok in Ha1. destruct Ha1 as (_ & Hlen & ->).
        eapply IH; [exact H|]. apply (Faithful_clearS w index); assumption.
      * ok_inv H. injection H as _ <- _.
        apply aset_Ok in Ha1. destruct Ha1 as (_ & Hlen & ->).
        apply (Faithful_child w index child'); try assumption. exists child. assumption.
Qed.

Lemma HandleExpiredEntries_S (fuel : nat) (handler : Handler) (w : Wheel)
    (r : Z) (m : Mem) :
  HandleExpiredEntries (S fuel) handler w r m =
  scan (HandleExpiredEntries fuel handler) (S fuel) handler (Z.to_nat SlotSize)
       w r 0 m.
Proof. reflexivity. Qed.

Lemma HandleExpiredEntries_Faithful (fuel : nat) (handler : Handler) :
  forall (w : Wheel) (r : Z) (m : Mem) (count : Z) (w' : Wheel) (m' : Mem),
    HandleExpiredEntries fuel handler w r m = Ok (count, w', m') ->
    Faithful w -> Faithful w'.
Proof.
  induction fuel as [| fuel IH]; intros w r m count w' m' H Hf;
    [discriminate H|].
  rewrite HandleExpiredEntries_S in H.
  eapply scan_Faithful; [|exact H | exact Hf].
  intros c r' m0 n c' m0' Hc Hfc. eapply IH; eassumption.
Qed.

(** What the loop of [Rotate] leaves in the array after [k] passes. *)
Lemma rotate_passes {A} (n : nat) (a : list (option A)) (k : nat) :
  length a = 64%nat -> (0 < n)%nat -> (n + k <= 64)%nat ->
  let cur := foldl (rotate_pass n) a (seq n k) in
  length cur = 64%nat /\
  forall j : nat, (j < 64)%nat ->
    cur !! j = if decide (j < k)%nat then a !! (j + n)%nat
               else if decide (n <= j < n + k)%nat then Some None
               else a !! j.
Proof.
  intros Hlen Hn. induction k as [| k IH]; intros Hk cur.
  - subst cur. simpl. split; [assumption|]. intros j Hj.
    destruct (decide (j < 0)%nat); [lia|].
    destruct (decide (n <= j < n + 0)%nat); [lia | reflexivity].
  - subst cur. rewrite seq_S, foldl_snoc.
    destruct IH as [Hl IH]; [lia|].
    set (cur := foldl (rotate_pass n) a (seq n k)) in *.
    unfold rotate_pass. replace (n + k - n)%nat with k by lia.
    split; [rewrite !length_insert; assumption|].
    intros j Hj.
    destruct (decide (j = n + k)%nat) as [-> | Hne1].
    + rewrite list_lookup_insert_eq by (rewrite length_insert; lia).
      destruct (decide (n + k < S k)%nat); [lia|].
      destruct (decide (n <= n + k < n + S k)%nat); [reflexivity | lia].
    + rewrite list_lookup_insert_ne by congruence.
      destruct (decide (j = k)) as [-> | Hne2].
      * rewrite list_lookup_insert_eq by lia.
        destruct (decide (k < S k)%nat); [|lia].
        assert (Hc : cur !! (n + k)%nat = a !! (n + k)%nat).
        { rewrite IH by lia. destruct (decide (n + k < k)%nat); [lia|].
          destruct (decide (n <= n + k < n + k)%nat); [lia | reflexivity]. }
        destruct (lookup_lt_is_Some_2 a (n + k)%nat) as [x Hx]; [lia|].
        rewrite Hx in Hc. rewrite (list_lookup_total_correct _ _ _ Hc).
        replace (k + n)%nat with (n + k)%nat by lia. symmetry. assumption.
      * rewrite list_lookup_insert_ne by congruence. rewrite IH by assumption.
        destruct (decide (j < k)%nat), (decide (j < S k)%nat); try lia;
          [reflexivity|].
        destruct (decide (n <= j < n + k)%nat), (decide (n <= j < n + S k)%nat);
          try lia; reflexivity.
Qed.

Lemma rotate_slots_lookup {A} (n : nat) (a : list (option A)) (j : nat) :
  length a = 64%nat -> (0 < n < 64)%nat -> (j < 64)%nat ->
  rotate_slots n a !! j =
    if decide (j + n < 64)%nat then a !! (j + n)%nat
    else if decide (j < n)%nat then a !! j else Some None.
Proof.
  intros Hlen Hn Hj. unfold rotate_slots. change (Z.to_nat SlotSize) with 64%nat.
  destruct (rotate_passes n a (64 - n) Hlen) as [_ H]; [lia | lia |].
  rewrite H by assumption.
  destruct (decide (j < 64 - n)%nat), (decide (j + n < 64)%nat); try lia;
    [reflexivity|].
  destruct (decide (n <= j < n + (64 - n))%nat), (decide (j < n)%nat);
    try lia; reflexivity.
Qed.

Lemma rotate_slots_length {A} (n : nat) (a : list (option A)) :
  length a = 64%nat -> (0 < n < 64)%nat -> length (rotate_slots n a) = 64%nat.
Proof.
  intros Hlen Hn. unfold rotate_slots. change (Z.to_nat SlotSize) with 64%nat.
  destruct (rotate_passes n a (64 - n) Hlen) as [H _]; [lia | lia | exact H].
Qed.

Lemma rotate_slots_from {A} (n : nat) (a : list (option A)) (j : nat) (x : A) :
  length a = 64%nat -> (0 < n < 64)%nat ->
  rotate_slots n a !! j = Some (Some x) -> exists j', a !! j' = Some (Some x).
Proof.
  intros Hlen Hn H. pose proof (lookup_lt_Some _ _ _ H) as Hj.
  rewrite rotate_slots_length in Hj by assumption.
  rewrite rotate_slots_lookup in H by assumption.
  destruct (decide (j + n < 64)%nat); [eauto|].
  destruct (decide (j < n)%nat); [eauto | discriminate].
Qed.

Lemma rotate_slots_occupied {A} (n : nat) (a : list (option A)) (j : nat) :
  length a = 64%nat -> (0 < n < 64)%nat -> (j < 64)%nat ->
  (forall i : nat, (64 - n <= i < n)%nat -> ~ occupied a i) ->
  occupied (rotate_slots n a) j <-> (j + n < 64)%nat /\ occupied a (j + n).
Proof.
  intros Hlen Hn Hj Hmid. unfold occupied.
  rewrite rotate_slots_lookup by assumption.
  destruct (decide (j + n < 64)%nat) as [Hlt | Hge]; [tauto|].
  split; [|intros [? _]; lia].
  destruct (decide (j < n)%nat) as [Hjn | Hjn].
  - intros Ho. exfalso. apply (Hmid j); [lia | exact Ho].
  - intros [x Hx]. discriminate.
Qed.

Lemma Rotate_Faithful (w : Wheel) (n : Z) :
  Faithful w -> length (entries w) = 64%nat -> length (subWheels w) = 64%nat ->
  0 <= n ->
  (forall i : nat, (64 - Z.to_nat n <= i < Z.to_nat n)%nat ->
     Z.testbit (bitmap w) (Z.of_nat i) = false) ->
  Faithful (Rotate w n).
Proof.
  intros Hf Hle Hls Hn0 Hmid. unfold Rotate.
  destruct (Z.eqb_spec n 0) as [E0 | E0]; [assumption|].
  destruct (Z.geb_spec n SlotSize) as [G | G]; [assumption|]. simpl.
  change SlotSize with 64 in G.
  assert (Hn : (0 < Z.to_nat n < 64)%nat) by lia.
  destruct Hf as [w Hr Hb Hc Hn'].
  assert (Hshift : forall i : nat, (i < 64)%nat ->
            Z.testbit (Z.shiftr (bitmap w) n) (Z.of_nat i) = true <->
            (i + Z.to_nat n < 64)%nat /\
            Z.testbit (bitmap w) (Z.of_nat (i + Z.to_nat n)) = true).
  { intros i Hi. rewrite Z.shiftr_spec by lia.
    replace (Z.of_nat i + n) with (Z.of_nat (i + Z.to_nat n)) by lia.
    split; [|tauto]. intros Ht. split; [|assumption].
    destruct (decide (i + Z.to_nat n < 64)%nat); [assumption|].
    apply u64_bits in Hr. destruct Hr as [_ Hr]. rewrite Hr in Ht by lia.
    discriminate. }
  destruct (level w =? 0) eqn:El; constructor; simpl.
  - apply shiftr_range; assumption.
  - intros i Hi. rewrite El, (Hshift i Hi).
    rewrite rotate_slots_occupied; try assumption.
    + split; intros [Hlt Ho]; (split; [assumption|]);
        specialize (Hb _ Hlt); apply Hb; assumption.
    + intros j Hj Ho. specialize (Hb j ltac:(lia)).
      apply Hb in Ho. rewrite Hmid in Ho by assumption. discriminate.
  - exact Hc.
  - exact Hn'.
  - apply shiftr_range; assumption.
  - intros i Hi. rewrite El, (Hshift i Hi).
    rewrite rotate_slots_occupied; try assumption.
    + split; intros [Hlt Ho]; (split; [assumption|]);
        specialize (Hb _ Hlt); apply Hb; assumption.
    + intros j Hj Ho. specialize (Hb j ltac:(lia)).
      apply Hb in Ho. rewrite Hmid in Ho by assumption. discriminate.
  - intros j c Hj. apply rotate_slots_from in Hj; try assumption.
    destruct Hj as [j' Hj']. eapply Hc, Hj'.
  - intros j c Hj. apply rotate_slots_from in Hj; try assumption.
    destruct Hj as [j' Hj']. eapply Hn', Hj'.
Qed.

Lemma occupied_slots {A} (i : nat) : ~ occupied (@slots A) i.
Proof.
  intros [x Hx]. apply lookup_replicate in Hx. destruct Hx. discriminate.
Qed.

Lemma slots_length {A} : length (@slots A) = 64%nat.
Proof. unfold slots. rewrite length_replicate. reflexivity. Qed.

Lemma only_child {A} (x c : A) (j : nat) :
  <[0%nat := Some x]> slots !! j = Some (Some c) -> j = 0%nat /\ c = x.
Proof.
  intros H. destruct (decide (j = 0%nat)) as [-> | Hne].
  - rewrite list_lookup_insert_eq in H by (rewrite slots_length; lia).
    split; congruence.
  - rewrite list_lookup_insert_ne in H by congruence.
    destruct (@occupied_slots A j). exists c. exact H.
Qed.

Lemma LevelUp_Faithful (w : Wheel) :
  Faithful w -> bitmap w <> 0 -> i64 (level w + 1) <> 0 -> Faithful (LevelUp w).
Proof.
  intros Hf Hnz Hl. unfold LevelUp, NewWheelWithChild.
  constructor; cbn [level bitmap entries subWheels].
  - lia.
  - intros i Hi. destruct (Z.eqb_spec (i64 (level w + 1)) 0); [contradiction|].
    rewrite occupied_insert_Some by (rewrite slots_length; lia).
    change 1 with (2 ^ 0). rewrite Z.pow2_bits_eqb by lia.
    rewrite Z.eqb_eq. split; [intros; left; lia|].
    intros [-> | Ho]; [reflexivity | destruct (occupied_slots _ Ho)].
  - intros j c Hj. apply only_child in Hj. destruct Hj as [_ ->]. assumption.
  - intros j c Hj. apply only_child in Hj. destruct Hj as [_ ->]. assumption.
Qed.

Lemma LevelDown_Faithful (w c : Wheel) :
  LevelDown w = Some c -> Faithful w -> Faithful c.
Proof.
  unfold LevelDown. intros H Hf. destruct (level w =? 0); [discriminate|].
  rewrite list_lookup_total_alt in H.
  destruct (subWheels w !! 0%nat) as [o|] eqn:E; simpl in H; [|discriminate].
  subst o. destruct Hf as [w _ _ Hc _]. eapply Hc, E.
Qed.

(** The bitmap is zero exactly when the wheel holds no entry. *)
Lemma Faithful_nonzero_HasEntry (w : Wheel) :
  Faithful w -> bitmap w <> 0 -> HasEntry w.
Proof.
  intros Hf. induction Hf as [w Hr Hb Hc IH Hn]. intros Hnz.
  destruct (nonzero_has_bit _ Hr Hnz) as (i & Hi & Ht).
  apply Hb in Ht; [|assumption]. destruct (Z.eqb_spec (level w) 0) as [El | El].
  - destruct Ht as [p Hp]. eapply HasEntry_here; eassumption.
  - destruct Ht as [c Hp]. eapply HasEntry_below; try eassumption.
    eapply IH; [eassumption|]. eapply Hn, Hp.
Qed.

Lemma Faithful_zero_iff (w : Wheel) :
  Faithful w -> bitmap w = 0 <-> ~ HasEntry w.
Proof.
  intros Hf. split.
  - intros Hz He. destruct Hf as [w _ Hb _ _].
    destruct He as [w i p El Hi Hp | w i c El Hi Hp _].
    + specialize (Hb i Hi). rewrite El in Hb. simpl in Hb.
      rewrite Hz, Z.bits_0 in Hb. destruct Hb as [_ Hb].
      discriminate Hb. exists p. exact Hp.
    + specialize (Hb i Hi). destruct (Z.eqb_spec (level w) 0); [contradiction|].
      rewrite Hz, Z.bits_0 in Hb. destruct Hb as [_ Hb].
      discriminate Hb. exists c. exact Hp.
  - intros Hne. destruct (Z.eq_dec (bitmap w) 0) as [|Hnz]; [assumption|].
    destruct Hne. apply Faithful_nonzero_HasEntry; assumption.
Qed.

Lemma Faithful_slot (w : Wheel) (i : nat) :
  Faithful w -> (i < 64)%nat ->
  Z.testbit (bitmap w) (Z.of_nat i) = true <-> slot_nonempty w i.
Proof.
  intros Hf Hi. destruct Hf as [w _ Hb Hc Hn]. rewrite (Hb i Hi).
  unfold slot_nonempty. destruct (level w =? 0); [reflexivity|].
  split.
  - intros [c Hp]. exists c. split; [assumption|].
    apply Faithful_nonzero_HasEntry; [eapply Hc, Hp | eapply Hn, Hp].
  - intros (c & Hp & _). exists c. exact Hp.
Qed.

(** ** Induction on wheels and the boolean checkers *)

Lemma Wheel_ind (P : Wheel -> Prop) :
  (forall w : Wheel,
     (forall (i : nat) (c : Wheel), subWheels w !! i = Some (Some c) -> P c) -> P w) ->
  forall w : Wheel, P w.
Proof.
  intros step. fix F 1. intros w. apply step.
  destruct w as [l b es ss]. simpl.
  induction ss as [| o ss IH]; intros i c H.
  - destruct i; discriminate H.
  - destruct i as [| i]; simpl in H.
    + destruct o as [c0|]; [|discriminate H].
      injection H as <-. apply F.
    + exact (IH i c H).
Qed.

Lemma faithfulb_unfold (w : Wheel) :
  faithfulb w =
  (0 <=? bitmap w) && (bitmap w <? 2 ^ 64) &&
  forallb (fun i => Bool.eqb (Z.testbit (bitmap w) (Z.of_nat i))
                             (if level w =? 0 then occupiedb (entries w) i
                              else occupiedb (subWheels w) i))
          (seq 0 64) &&
  forallb (fun o => match o with
                    | Some c => faithfulb c && negb (bitmap c =? 0)
                    | None => true
                    end)
          (subWheels w).
Proof. destruct w; reflexivity. Qed.

Lemma shapedb_unfold (w : Wheel) :
  shapedb w =
  (0 <=? level w) && (level w <=? MaxLevel) &&
  (length (entries w) =? 64)%nat && (length (subWheels w) =? 64)%nat &&
  forallb (fun o => match o with
                    | Some c => shapedb c && (level c =? level w - 1)
                    | None => true
                    end)
          (subWheels w).
Proof. destruct w; reflexivity. Qed.

Lemma faithfulb_sound (w : Wheel) : faithfulb w = true -> Faithful w.
Proof.
  induction w as [w IH] using Wheel_ind. intros H.
  rewrite faithfulb_unfold in H.
  apply andb_true_iff in H. destruct H as [H Hkids].
  apply andb_true_iff in H. destruct H as [H Hbits].
  apply andb_true_iff in H. destruct H as [H0 H1].
  apply Z.leb_le in H0. apply Z.ltb_lt in H1.
  rewrite forallb_forall in Hbits. rewrite forallb_forall in Hkids.
  assert (Hk : forall (i : nat) (c : Wheel), subWheels w !! i = Some (Some c) ->
             faithfulb c = true /\ bitmap c <> 0).
  { intros i c Hc. specialize (Hkids (Some c)). cbv beta iota in Hkids.
    apply andb_true_iff in Hkids.
    - destruct Hkids as [? Hz]. split; [assumption|].
      apply negb_true_iff, Z.eqb_neq in Hz. assumption.
    - apply list_elem_of_In. eapply list_elem_of_lookup_2, Hc. }
  constructor.
  - lia.
  - intros i Hi. specialize (Hbits i). rewrite in_seq in Hbits.
    specialize (Hbits ltac:(lia)). apply Bool.eqb_prop in Hbits. rewrite Hbits.
    destruct (level w =? 0); apply occupiedb_spec.
  - intros i c Hc. eapply IH; [exact Hc|]. eapply Hk, Hc.
  - intros i c Hc. eapply Hk, Hc.
Qed.

Lemma shapedb_sound (w : Wheel) : shapedb w = true -> Shaped w.
Proof.
  induction w as [w IH] using Wheel_ind. intros H.
  rewrite shapedb_unfold in H.
  apply andb_true_iff in H. destruct H as [H Hkids].
  apply andb_true_iff in H. destruct H as [H Hls].
  apply andb_true_iff in H. destruct H as [H Hle].
  apply andb_true_iff in H. destruct H as [H0 H1].
  apply Z.leb_le in H0. apply Z.leb_le in H1.
  apply Nat.eqb_eq in Hls. apply Nat.eqb_eq in Hle.
  rewrite forallb_forall in Hkids.
  assert (Hk : forall (i : nat) (c : Wheel), subWheels w !! i = Some (Some c) ->
             shapedb c = true /\ level c = level w - 1).
  { intros i c Hc. specialize (Hkids (Some c)). cbv beta iota in Hkids.
    apply andb_true_iff in Hkids.
    - destruct Hkids as [? Hz]. split; [assumption|].
      apply Z.eqb_eq in Hz. assumption.
    - apply list_elem_of_In. eapply list_elem_of_lookup_2, Hc. }
  constructor; try assumption.
  - lia.
  - intros i c Hc. eapply IH; [exact Hc|]. eapply Hk, Hc.
  - intros i c Hc. eapply Hk, Hc.
Qed.

(** ** Shape *)

Lemma i64_small (x : Z) : - 2 ^ 63 <= x < 2 ^ 63 -> i64 x = x.
Proof. intros H. unfold i64. rewrite Z.mod_small; lia. Qed.

Lemma u64_small (x : Z) : 0 <= x < 2 ^ 64 -> u64 x = x.
Proof. intros H. unfold u64. apply Z.mod_small. assumption. Qed.

Lemma Shaped_NewWheel (l : Z) : 0 <= l <= MaxLevel -> Shaped (NewWheel l).
Proof.
  intros H. constructor; cbn [level bitmap entries subWheels NewWheel];
    try assumption; try apply slots_length;
    intros i c Hc; destruct (@occupied_slots Wheel i); exists c; exact Hc.
Qed.

Lemma Shaped_level (w : Wheel) : Shaped w -> 0 <= level w <= 6.
Proof. intros [w' H _ _ _ _]. exact H. Qed.

Lemma Shaped_child (w c : Wheel) (i : nat) :
  Shaped w -> subWheels w !! i = Some (Some c) -> Shaped c /\ level c = level w - 1.
Proof. intros [w' _ _ _ H1 H2] Hc. split; [eapply H1, Hc | eapply H2, Hc]. Qed.

Lemma Shaped_set_child (w : Wheel) (b : Z) (k : nat) (c : Wheel) :
  Shaped w -> Shaped c -> level c = level w - 1 ->
  Shaped (mkWheel (level w) b (entries w) (<[k := Some c]> (subWheels w))).
Proof.
  intros [w' Hl He Hs H1 H2] Hc Hlc.
  constructor; cbn [level bitmap entries subWheels]; try assumption.
  - rewrite length_insert. assumption.
  - intros j c' Hj. destruct (decide (j = k)) as [-> | Hne].
    + destruct (decide (k < length (subWheels w'))%nat).
      * rewrite list_lookup_insert_eq in Hj by assumption. congruence.
      * rewrite list_insert_ge in Hj by lia. eapply H1, Hj.
    + rewrite list_lookup_insert_ne in Hj by congruence. eapply H1, Hj.
  - intros j c' Hj. destruct (decide (j = k)) as [-> | Hne].
    + destruct (decide (k < length (subWheels w'))%nat).
      * rewrite list_lookup_insert_eq in Hj by assumption. congruence.
      * rewrite list_insert_ge in Hj by lia. eapply H2, Hj.
    + rewrite list_lookup_insert_ne in Hj by congruence. eapply H2, Hj.
Qed.

Lemma Shaped_set_entries (w : Wheel) (b : Z) (k : nat) (e : option ptr) :
  Shaped w -> Shaped (mkWheel (level w) b (<[k := e]> (entries w)) (subWheels w)).
Proof.
  intros [w' Hl He Hs H1 H2].
  constructor; cbn [level bitmap entries subWheels]; try assumption.
  rewrite length_insert. assumption.
Qed.

Lemma Shaped_drop_child (w : Wheel) (b : Z) (k : nat) :
  Shaped w -> Shaped (mkWheel (level w) b (entries w) (<[k := None]> (subWheels w))).
Proof.
  intros [w' Hl He Hs H1 H2].
  constructor; cbn [level bitmap entries subWheels]; try assumption.
  - rewrite length_insert. assumption.
  - intros j c' Hj. destruct (decide (j = k)) as [-> | Hne].
    + destruct (decide (k < length (subWheels w'))%nat).
      * rewrite list_lookup_insert_eq in Hj by assumption. discriminate.
      * rewrite list_insert_ge in Hj by lia. eapply H1, Hj.
    + rewrite list_lookup_insert_ne in Hj by congruence. eapply H1, Hj.
  - intros j c' Hj. destruct (decide (j = k)) as [-> | Hne].
    + destruct (decide (k < length (subWheels w'))%nat).
      * rewrite list_lookup_insert_eq in Hj by assumption. discriminate.
      * rewrite list_insert_ge in Hj by lia. eapply H2, Hj.
    + rewrite list_lookup_insert_ne in Hj by congruence. eapply H2, Hj.
Qed.

Lemma Shaped_aget_entries (w : Wheel) (i : Z) :
  Shaped w -> 0 <= i < 64 -> exists x, aget (entries w) i = Ok x.
Proof. intros [w' _ He _ _ _] Hi. apply aget_lt. lia. Qed.

Lemma Shaped_aget_subWheels (w : Wheel) (i : Z) :
  Shaped w -> 0 <= i < 64 -> exists x, aget (subWheels w) i = Ok x.
Proof. intros [w' _ _ Hs _ _] Hi. apply aget_lt. lia. Qed.

Lemma AddEntry_S (fuel : nat) (w : Wheel) (entry : ptr) (interval : Z) (h : Heap) :
  AddEntry (S fuel) w entry interval h =
    index ← getIndex w interval;
    if level w =? 0 then
      old ← aget (entries w) index;
      h ← setNext (Some entry) old h;
      let w := set_bit w index in
      es ← aset (entries w) index (Some entry);
      Ok (set_entries w es, h)
    else
      sub ← aget (subWheels w) index;
      '(w, child) ← match sub with
                    | None =>
                        let w := set_bit w index in
                        let c := NewWheel (i64 (level w - 1)) in
                        ss ← aset (subWheels w) index (Some c);
                        Ok (set_subWheels w ss, c)
                    | Some c => Ok (w, c)
                    end;
      '(child, h) ← AddEntry fuel child entry interval h;
      ss ← aset (subWheels w) index (Some child);
      Ok (set_subWheels w ss, h).
Proof. reflexivity. Qed.

Lemma setNext_alloc (e nxt : option ptr) (h h' : Heap) (q : ptr) :
  setNext e nxt h = Ok h' -> is_Some (h !! q) -> is_Some (h' !! q).
Proof.
  intros H [c Hc]. destruct (setNext_lookup _ _ _ _ _ _ H Hc) as (c' & Hc' & _).
  eauto.
Qed.

(** [AddEntry] returns on every shaped wheel, keeps the shape and the level,
    and keeps every cell allocated. *)
Lemma AddEntry_total (fuel : nat) :
  forall (w : Wheel) (entry : ptr) (d : Z) (h : Heap),
    Shaped w -> is_Some (h !! entry) -> (Z.to_nat (level w) < fuel)%nat ->
    exists (w' : Wheel) (h' : Heap),
      AddEntry fuel w entry d h = Ok (w', h') /\ Shaped w' /\ level w' = level w /\
      (forall q, is_Some (h !! q) -> is_Some (h' !! q)).
Proof.
  induction fuel as [| fuel IH]; intros w entry d h Hs Hal Hfuel; [lia|].
  rewrite AddEntry_S. pose proof (Shaped_level _ Hs) as Hl.
  rewrite getIndex_eq by assumption. simpl.
  set (index := Z.land (Z.shiftr d (6 * level w)) 63).
  assert (Hidx : 0 <= index < 64).
  { apply (getIndex_range w d); [apply getIndex_eq|]; assumption. }
  assert (Hle : length (entries w) = 64%nat) by (destruct Hs; assumption).
  assert (Hls : length (subWheels w) = 64%nat) by (destruct Hs; assumption).
  destruct (Z.eqb_spec (level w) 0) as [El | El].
  - destruct (Shaped_aget_entries w index Hs Hidx) as [old Hold]. rewrite Hold. simpl.
    destruct (setNext_total entry old h Hal) as [h1 Hh1]. rewrite Hh1. simpl.
    rewrite aset_lt by lia. simpl.
    eexists _, h1. split; [reflexivity|]. split; [|split; [reflexivity|]].
    + apply (Shaped_set_entries w). assumption.
    + intros q. eapply setNext_alloc, Hh1.
  - destruct (Shaped_aget_subWheels w index Hs Hidx) as [sub Hsub]. rewrite Hsub. simpl.
    apply aget_Ok in Hsub. destruct Hsub as [_ Hsub].
    destruct sub as [c|]; simpl.
    + destruct (Shaped_child _ _ _ Hs Hsub) as [Hsc Hlc].
      destruct (IH c entry d h Hsc Hal ltac:(lia)) as (c' & h' & Hc' & Hsc' & Hlc' & Hal').
      rewrite Hc'. simpl. rewrite aset_lt by lia. simpl.
      eexists _, h'. split; [reflexivity|]. split; [|split; [reflexivity | assumption]].
      apply (Shaped_set_child w); [assumption | assumption | lia].
    + rewrite aset_lt by lia. simpl.
      rewrite i64_small by lia.
      assert (Hsc : Shaped (NewWheel (level w - 1))) by (apply Shaped_NewWheel; unfold MaxLevel; lia).
      destruct (IH (NewWheel (level w - 1)) entry d h Hsc Hal ltac:(simpl; lia))
        as (c' & h' & Hc' & Hsc' & Hlc' & Hal').
      rewrite Hc'. simpl. rewrite aset_lt by (rewrite length_insert; lia). simpl.
      eexists _, h'. split; [reflexivity|]. split; [|split; [reflexivity | assumption]].
      rewrite list_insert_insert_eq.
      apply (Shaped_set_child w); [assumption | assumption | simpl in Hlc'; lia].
Qed.

Lemma LevelUp_Shaped (w : Wheel) :
  Shaped w -> level w < MaxLevel ->
  Shaped (LevelUp w) /\ level (LevelUp w) = level w + 1.
Proof.
  intros Hs Hlt. pose proof (Shaped_level _ Hs) as Hl.
  unfold LevelUp, NewWheelWithChild. unfold MaxLevel in Hlt.
  rewrite i64_small by lia. split; [|reflexivity].
  constructor; cbn [level bitmap entries subWheels].
  - unfold MaxLevel. lia.
  - apply slots_length.
  - rewrite length_insert. apply slots_length.
  - intros i c Hc. apply only_child in Hc. destruct Hc as [_ ->]. assumption.
  - intros i c Hc. apply only_child in Hc. destruct Hc as [_ ->]. lia.
Qed.

Lemma level_up_unfold (fuel : nat) (w : Wheel) (interval : Z) :
  level_up fuel w interval =
    mx ← MaxMs w;
    if (interval >=? mx) && (Level w <? MaxLevel) then
      match fuel with
      | O => OutOfFuel
      | S fuel => level_up fuel (LevelUp w) interval
      end
    else Ok w.
Proof. destruct fuel; reflexivity. Qed.

(** The loop of [levelUpAndAdd] returns a shaped wheel, never above
    [MaxLevel]; it stops below [MaxLevel] only on a level whose span holds
    the interval. *)
Lemma level_up_total (fuel : nat) :
  forall (w : Wheel) (interval : Z),
    Shaped w -> (Z.to_nat (MaxLevel - level w) <= fuel)%nat ->
    exists w', level_up fuel w interval = Ok w' /\ Shaped w' /\
               level w <= level w' <= MaxLevel /\
               (level w' < MaxLevel -> interval < 64 ^ (level w' + 1)) /\
               (Faithful w -> bitmap w <> 0 -> Faithful w' /\ bitmap w' <> 0).
Proof.
  induction fuel as [| fuel IH]; intros w interval Hs Hfuel;
    pose proof (Shaped_level _ Hs) as Hl; rewrite level_up_unfold;
    unfold MaxMs, Level; destruct (tables _ Hl) as (_ & Hmx & _); rewrite Hmx;
    simpl.
  - unfold MaxLevel in *. destruct (Z.ltb_spec (level w) 6) as [Hlt | Hge]; [lia|].
    rewrite andb_false_r. exists w. split; [reflexivity|].
    split; [assumption|]. split; [lia|]. split; [lia | auto].
  - destruct (Z.geb_spec interval (64 ^ (level w + 1))) as [Hge | Hlt];
      destruct (Z.ltb_spec (level w) MaxLevel) as [Hlt' | Hge']; simpl.
    + destruct (LevelUp_Shaped w Hs Hlt') as [Hs' Hl'].
      destruct (IH (LevelUp w) interval Hs' ltac:(unfold MaxLevel in *; lia))
        as (w' & Hw' & Hsw' & Hlw' & Hspan & Hfaith).
      exists w'. split; [assumption|]. split; [assumption|].
      split; [lia|]. split; [assumption|].
      intros Hf Hnz. apply Hfaith.
      * apply LevelUp_Faithful; [assumption | assumption |].
        rewrite i64_small by lia. lia.
      * simpl. lia.
    + exists w. unfold MaxLevel in *. split; [reflexivity|].
      split; [assumption|]. split; [lia|]. split; [lia | auto].
    + exists w. unfold MaxLevel in *. split; [reflexivity|].
      split; [assumption|]. split; [lia|]. split; [intros; lia | auto].
    + exists w. unfold MaxLevel in *. split; [reflexivity|].
      split; [assumption|]. split; [lia|]. split; [intros; lia | auto].
Qed.

(** ** [NextExpirationTime] *)

Lemma NextExpirationTime_S (fuel : nat) (w : Wheel) :
  NextExpirationTime (S fuel) w =
    if Empty w then Ok max_u64
    else
      let index := TrailingZeros64 (bitmap w) in
      if level w =? 0 then Ok index
      else
        mps ← aget msPerSlot (level w);
        sub ← aget (subWheels w) index;
        match sub with
        | None => Panic
        | Some child =>
            t ← NextExpirationTime fuel child;
            Ok (u64 (u64 (index * mps) + t))
        end.
Proof. reflexivity. Qed.

Lemma Faithful_child_at (w : Wheel) :
  Faithful w -> bitmap w <> 0 -> (level w =? 0) = false ->
  exists c, subWheels w !! Z.to_nat (TrailingZeros64 (bitmap w)) = Some (Some c) /\
            Faithful c /\ bitmap c <> 0.
Proof.
  intros Hf Hnz El. pose proof Hf as Hf'. destruct Hf' as [w Hr Hb Hc Hn].
  destruct (ctz_spec _ Hr Hnz) as (Hidx & Hbit & _).
  apply (Faithful_bit w _ Hf Hidx) in Hbit. rewrite El in Hbit.
  destruct Hbit as [c Hsub]. exists c.
  split; [assumption|]. split; [eapply Hc, Hsub | eapply Hn, Hsub].
Qed.

Lemma pow64_pos (l : Z) : 0 <= l -> 0 < 64 ^ l.
Proof. intros H. apply Z.pow_pos_nonneg; lia. Qed.

Lemma pow64_succ (l : Z) : 0 < l -> 64 ^ l = 64 * 64 ^ (l - 1).
Proof.
  intros H. replace l with (Z.succ (l - 1)) at 1 by lia.
  rewrite Z.pow_succ_r by lia. reflexivity.
Qed.

Lemma pow64_le (l : Z) : 0 <= l <= 6 -> 64 ^ (l + 1) <= 2 ^ 42.
Proof.
  intros H. change (2 ^ 42) with (64 ^ 7). apply Z.pow_le_mono_r; lia.
Qed.

(** On a shaped, faithful, non-empty wheel the next expiration lies inside
    the wheel's span: the sum in [NextExpirationTime] does not wrap. *)
Lemma NextExpirationTime_bound (fuel : nat) :
  forall w : Wheel,
    Shaped w -> Faithful w -> bitmap w <> 0 -> (Z.to_nat (level w) < fuel)%nat ->
    exists t, NextExpirationTime fuel w = Ok t /\ 0 <= t < 64 ^ (level w + 1).
Proof.
  induction fuel as [| fuel IH]; intros w Hs Hf Hnz Hfuel; [lia|].
  rewrite NextExpirationTime_S. unfold Empty.
  destruct (Z.eqb_spec (bitmap w) 0) as [|_]; [contradiction|].
  pose proof (Shaped_level _ Hs) as Hl.
  assert (Hr : 0 <= bitmap w < 2 ^ 64) by (destruct Hf; assumption).
  destruct (ctz_spec _ Hr Hnz) as (Hidx & _ & _). simpl.
  set (index := TrailingZeros64 (bitmap w)) in *.
  destruct (Z.eqb_spec (level w) 0) as [El | El].
  - exists index. split; [reflexivity|]. rewrite El. simpl. lia.
  - destruct (tables _ Hl) as (Hmps & _). rewrite Hmps. simpl.
    destruct (Faithful_child_at w Hf Hnz) as (c & Hsub & Hfc & Hnzc).
    { apply Z.eqb_neq. assumption. }
    fold index in Hsub.
    assert (Hget : aget (subWheels w) index = Ok (Some c))
      by (apply aget_Ok; split; [lia | assumption]).
    rewrite Hget. simpl.
    destruct (Shaped_child _ _ _ Hs Hsub) as [Hsc Hlc].
    destruct (IH c Hsc Hfc Hnzc ltac:(lia)) as (t & Ht & Hbt).
    rewrite Ht. simpl. eexists. split; [reflexivity|].
    rewrite Hlc in Hbt. replace (level w - 1 + 1) with (level w) in Hbt by lia.
    pose proof (pow64_pos (level w) ltac:(lia)) as Hpos.
    pose proof (pow64_le (level w) Hl) as Htop.
    assert (Hsucc : 64 ^ (level w + 1) = 64 * 64 ^ level w).
    { rewrite (pow64_succ (level w + 1)) by lia.
      replace (level w + 1 - 1) with (level w) by lia. reflexivity. }
    assert (Hprod : 0 <= index * 64 ^ level w <= 63 * 64 ^ level w) by nia.
    rewrite (u64_small (index * 64 ^ level w)) by lia.
    rewrite u64_small by lia. lia.
Qed.

(** C5. [NextExpirationTime] returns the maximum [uint64] for an empty
    wheel; for a non-empty wheel of level 0 the index of the least
    significant set bit of the bitmap; for a non-empty wheel of a higher
    level, with [index] that bit and [child] the sub-wheel in that slot,
    [index * msPerSlot[level]] plus the child's own result, in [uint64]
    arithmetic.  On a shaped and faithful wheel the call returns (its depth
    is the level), the slot of the lowest set bit does hold a child, and
    the sum stays inside the wheel's span, so it never wraps. *)
Theorem NextExpirationTime_spec (fuel : nat) (w : Wheel) :
  (bitmap w = 0 -> NextExpirationTime (S fuel) w = Ok max_u64) /\
  (bitmap w <> 0 -> level w = 0 ->
   NextExpirationTime (S fuel) w = Ok (TrailingZeros64 (bitmap w))) /\
  (forall (mps : Z) (child : Wheel),
     bitmap w <> 0 -> level w <> 0 ->
     aget msPerSlot (level w) = Ok mps ->
     aget (subWheels w) (TrailingZeros64 (bitmap w)) = Ok (Some child) ->
     NextExpirationTime (S fuel) w =
       (t ← NextExpirationTime fuel child;
        Ok (u64 (u64 (TrailingZeros64 (bitmap w) * mps) + t)))) /\
  (Shaped w -> Faithful w -> (Z.to_nat (level w) <= fuel)%nat ->
   exists t : Z,
     NextExpirationTime (S fuel) w = Ok t /\
     (bitmap w <> 0 ->
        let index := TrailingZeros64 (bitmap w) in
        0 <= index < 64 /\ Z.testbit (bitmap w) index = true /\
        (forall j, 0 <= j < index -> Z.testbit (bitmap w) j = false) /\
        (level w <> 0 ->
           exists (child : Wheel) (tc : Z),
             subWheels w !! Z.to_nat index = Some (Some child) /\
             aget msPerSlot (level w) = Ok (64 ^ level w) /\
             NextExpirationTime fuel child = Ok tc /\
             t = index * 64 ^ level w + tc /\
             0 <= tc < 64 ^ level w))).
Proof.
  split.
  { intros Hz. rewrite NextExpirationTime_S. unfold Empty. rewrite Hz. reflexivity. }
  split.
  { intros Hnz El. rewrite NextExpirationTime_S. unfold Empty.
    destruct (Z.eqb_spec (bitmap w) 0) as [|_]; [contradiction|].
    rewrite El. reflexivity. }
  split.
  { intros mps child Hnz El Hmps Hsub. rewrite NextExpirationTime_S. unfold Empty.
    destruct (Z.eqb_spec (bitmap w) 0) as [|_]; [contradiction|].
    destruct (Z.eqb_spec (level w) 0) as [|_]; [contradiction|].
    cbv zeta. rewrite Hmps, Hsub. reflexivity. }
  intros Hs Hf Hfuel. rewrite NextExpirationTime_S. unfold Empty.
  destruct (Z.eqb_spec (bitmap w) 0) as [Hz | Hnz].
  { exists max_u64. split; [reflexivity | contradiction]. }
  pose proof (Shaped_level _ Hs) as Hl.
  assert (Hr : 0 <= bitmap w < 2 ^ 64) by (destruct Hf; assumption).
  destruct (ctz_spec _ Hr Hnz) as (Hidx & Hbit & Hlow). simpl.
  set (index := TrailingZeros64 (bitmap w)) in *.
  destruct (Z.eqb_spec (level w) 0) as [El | El].
  - exists index. split; [reflexivity|].
    intros _. split; [assumption|]. split; [assumption|]. split; [assumption|].
    contradiction.
  - destruct (tables _ Hl) as (Hmps & _). rewrite Hmps. simpl.
    destruct (Faithful_child_at w Hf Hnz) as (c & Hsub & Hfc & Hnzc).
    { apply Z.eqb_neq. assumption. }
    fold index in Hsub.
    assert (Hget : aget (subWheels w) index = Ok (Some c))
      by (apply aget_Ok; split; [lia | assumption]).
    rewrite Hget. simpl.
    destruct (Shaped_child _ _ _ Hs Hsub) as [Hsc Hlc].
    destruct (NextExpirationTime_bound fuel c Hsc Hfc Hnzc ltac:(lia)) as (tc & Ht & Hbt).
    rewrite Ht. simpl. rewrite Hlc in Hbt.
    replace (level w - 1 + 1) with (level w) in Hbt by lia.
    pose proof (pow64_pos (level w) ltac:(lia)) as Hpos.
    pose proof (pow64_le (level w) Hl) as Htop.
    assert (Hsucc : 64 ^ (level w + 1) = 64 * 64 ^ level w).
    { rewrite (pow64_succ (level w + 1)) by lia.
      replace (level w + 1 - 1) with (level w) by lia. reflexivity. }
    assert (Hprod : 0 <= index * 64 ^ level w <= 63 * 64 ^ level w) by nia.
    assert (Hsum : u64 (u64 (index * 64 ^ level w) + tc) = index * 64 ^ level w + tc).
    { rewrite (u64_small (index * 64 ^ level w)) by lia. apply u64_small. lia. }
    rewrite Hsum. eexists. split; [reflexivity|].
    intros _. split; [assumption|]. split; [assumption|]. split; [assumption|].
    intros _. exists c, tc.
    split; [assumption|]. split; [reflexivity|]. split; [assumption|].
    split; [reflexivity | assumption].
Qed.

Lemma AddEntry_Shaped (fuel : nat) :
  forall (w : Wheel) (entry : ptr) (d : Z) (h : Heap) (w' : Wheel) (h' : Heap),
    AddEntry fuel w entry d h = Ok (w', h') -> Shaped w ->
    Shaped w' /\ level w' = level w.
Proof.
  induction fuel as [| fuel IH]; intros w entry d h w' h' H Hs; [discriminate H|].
  rewrite AddEntry_S in H. pose proof (Shaped_level _ Hs) as Hl.
  ok_inv H. rename a into index.
  destruct (level w =? 0) eqn:El.
  - ok_inv H. ok_inv H. ok_inv H. injection H as <- <-.
    apply aset_Ok in Ha2. destruct Ha2 as (_ & _ & ->).
    split; [|reflexivity]. apply (Shaped_set_entries w). assumption.
  - apply Z.eqb_neq in El. ok_inv H. rename a into sub.
    apply aget_Ok in Ha0. destruct Ha0 as [_ Hsub].
    ok_inv H. destruct a as [w1 child]. ok_inv H. destruct a as [child' h1].
    ok_inv H. injection H as <- <-.
    apply aset_Ok in Ha2. destruct Ha2 as (_ & _ & ->).
    destruct sub as [c|].
    + injection Ha0 as <- <-. destruct (Shaped_child _ _ _ Hs Hsub) as [Hsc Hlc].
      destruct (IH _ _ _ _ _ _ Ha1 Hsc) as [Hsc' Hlc'].
      split; [|reflexivity]. apply (Shaped_set_child w); [assumption | assumption | lia].
    + ok_inv Ha0. injection Ha0 as <- <-.
      apply aset_Ok in Ha2. destruct Ha2 as (_ & _ & ->).
      cbn [level bitmap entries subWheels set_subWheels set_bit set_bitmap] in *.
      rewrite i64_small in Ha1 by lia.
      assert (Hsc : Shaped (NewWheel (level w - 1)))
        by (apply Shaped_NewWheel; unfold MaxLevel; lia).
      destruct (IH _ _ _ _ _ _ Ha1 Hsc) as [Hsc' Hlc'].
      split; [|reflexivity]. rewrite list_insert_insert_eq.
      apply (Shaped_set_child w); [assumption | assumption | simpl in Hlc'; lia].
Qed.

Lemma RemoveEntry_S (fuel' : nat) (w : Wheel) (entry : ptr) (interval : Z) (h : Heap) :
  RemoveEntry (S fuel') w entry interval h =
    index ← getIndex w interval;
    if level w =? 0 then
      hd ← aget (entries w) index;
      if decide (hd = Some entry) then
        nxt ← getNext hd h;
        es ← aset (entries w) index nxt;
        let w := set_entries w es in
        Ok (if decide (nxt = None) then clear_bit w index else w, h)
      else
        cur ← find_pred (S fuel') hd entry h;
        nxt ← getNext (Some entry) h;
        h ← setNext cur nxt h;
        Ok (w, h)
    else
      sub ← aget (subWheels w) index;
      match sub with
      | None => Panic
      | Some child =>
          '(child, h) ← RemoveEntry fuel' child entry interval h;
          if Empty child then
            let w := clear_bit w index in
            ss ← aset (subWheels w) index None;
            Ok (set_subWheels w ss, h)
          else
            ss ← aset (subWheels w) index (Some child);
            Ok (set_subWheels w ss, h)
      end.
Proof. reflexivity. Qed.

Lemma RemoveEntry_Shaped (fuel : nat) :
  forall (w : Wheel) (entry : ptr) (d : Z) (h : Heap) (w' : Wheel) (h' : Heap),
    RemoveEntry fuel w entry d h = Ok (w', h') -> Shaped w ->
    Shaped w' /\ level w' = level w.
Proof.
  induction fuel as [| fuel IH]; intros w entry d h w' h' H Hs; [discriminate H|].
  rewrite RemoveEntry_S in H. ok_inv H. rename a into index.
  destruct (level w =? 0) eqn:El.
  - ok_inv H. rename a into hd.
    destruct (decide (hd = Some entry)) as [-> | Hne].
    + ok_inv H. rename a into nxt. ok_inv H. injection H as <- <-.
      apply aset_Ok in Ha2. destruct Ha2 as (_ & _ & ->).
      destruct (decide (nxt = None)); (split; [|reflexivity]);
        apply (Shaped_set_entries w); assumption.
    + ok_inv H. ok_inv H. ok_inv H. injection H as <- <-. auto.
  - ok_inv H. rename a into sub. apply aget_Ok in Ha0. destruct Ha0 as [_ Hsub].
    destruct sub as [child|]; [|discriminate].
    ok_inv H. destruct a as [child' h1].
    destruct (Shaped_child _ _ _ Hs Hsub) as [Hsc Hlc].
    destruct (IH _ _ _ _ _ _ Ha0 Hsc) as [Hsc' Hlc'].
    destruct (Empty child').
    + ok_inv H. injection H as <- <-.
      apply aset_Ok in Ha1. destruct Ha1 as (_ & _ & ->).
      split; [|reflexivity]. apply (Shaped_drop_child w). assumption.
    + ok_inv H. injection H as <- <-.
      apply aset_Ok in Ha1. destruct Ha1 as (_ & _ & ->).
      split; [|reflexivity]. apply (Shaped_set_child w); [assumption | assumption | lia].
Qed.

Lemma scan_unfold (recurse : Wheel -> Z -> Mem -> result (Z * Wheel * Mem))
    (fuel : nat) (handler : Handler) (passes : nat)
    (w : Wheel) (remainingMs count : Z) (m : Mem) :
  scan recurse fuel handler passes w remainingMs count m =
  if bitmap w =? 0 then Ok (count, w, m)
  else
    match passes with
    | O => OutOfFuel
    | S passes =>
        let index := TrailingZeros64 (bitmap w) in
        if level w =? 0 then
          if index >? remainingMs then Ok (count, w, m)
          else
            hd ← aget (entries w) index;
            '(count, m) ← fire_slot fuel handler hd count m;
            es ← aset (entries w) index None;
            let w := clear_bit (set_entries w es) index in
            scan recurse fuel handler passes w remainingMs count m
        else
          mps ← aget msPerSlot (level w);
          let slotMs := u64 (index * mps) in
          if slotMs >? remainingMs then Ok (count, w, m)
          else
            sub ← aget (subWheels w) index;
            match sub with
            | None => Panic
            | Some child =>
                '(n, child, m) ← recurse child (u64 (remainingMs - slotMs)) m;
                let count := i64 (count + n) in
                if Empty child then
                  ss ← aset (subWheels w) index None;
                  let w := clear_bit (set_subWheels w ss) index in
                  scan recurse fuel handler passes w remainingMs count m
                else
                  ss ← aset (subWheels w) index (Some child);
                  Ok (count, set_subWheels w ss, m)
            end
    end.
Proof. destruct passes; reflexivity. Qed.

Lemma scan_Shaped (recurse : Wheel -> Z -> Mem -> result (Z * Wheel * Mem))
    (fuel : nat) (handler : Handler) :
  (forall c r m n c' m', recurse c r m = Ok (n, c', m') -> Shaped c ->
     Shaped c' /\ level c' = level c) ->
  forall (passes : nat) (w : Wheel) (r count : Z) (m : Mem)
         (count' : Z) (w' : Wheel) (m' : Mem),
    scan recurse fuel handler passes w r count m = Ok (count', w', m') ->
    Shaped w -> Shaped w' /\ level w' = level w.
Proof.
  intros Hrec. induction passes as [| passes IH];
    intros w r count m count' w' m' H Hs; rewrite scan_unfold in H.
  - destruct (bitmap w =? 0); [|discriminate]. injection H as _ <- _. auto.
  - destruct (bitmap w =? 0). { injection H as _ <- _. auto. }
    cbv zeta in H. set (index := TrailingZeros64 (bitmap w)) in *.
    destruct (level w =? 0) eqn:El.
    + destruct (index >? r). { injection H as _ <- _. auto. }
      ok_inv H. ok_inv H. destruct a0 as [count1 m1]. ok_inv H.
      apply aset_Ok in Ha1. destruct Ha1 as (_ & _ & ->).
      apply IH in H; [exact H|]. apply (Shaped_set_entries w). assumption.
    + ok_inv H. destruct (u64 (index * a) >? r).
      { injection H as _ <- _. auto. }
      ok_inv H. rename a0 into sub. apply aget_Ok in Ha0. destruct Ha0 as [_ Hsub].
      destruct sub as [child|]; [|discriminate].
      ok_inv H. destruct a0 as [[n child'] m1].
      destruct (Shaped_child _ _ _ Hs Hsub) as [Hsc Hlc].
      destruct (Hrec _ _ _ _ _ _ Ha0 Hsc) as [Hsc' Hlc'].
      destruct (Empty child').
      * ok_inv H. apply aset_Ok in Ha1. destruct Ha1 as (_ & _ & ->).
        apply IH in H; [exact H|]. apply (Shaped_drop_child w). assumption.
      * ok_inv H. injection H as _ <- _.
        apply aset_Ok in Ha1. destruct Ha1 as (_ & _ & ->).
        split; [|reflexivity].
        apply (Shaped_set_child w); [assumption | assumption | lia].
Qed.

Lemma HandleExpiredEntries_Shaped (fuel : nat) (handler : Handler) :
  forall (w : Wheel) (r : Z) (m : Mem) (count : Z) (w' : Wheel) (m' : Mem),
    HandleExpiredEntries fuel handler w r m = Ok (count, w', m') ->
    Shaped w -> Shaped w' /\ level w' = level w.
Proof.
  induction fuel as [| fuel IH]; intros w r m count w' m' H Hs;
    [discriminate H|].
  rewrite HandleExpiredEntries_S in H.
  eapply scan_Shaped; [|exact H | exact Hs].
  intros c r' m0 n c' m0' Hc Hsc. eapply IH; eassumption.
Qed.

Lemma Rotate_Shaped (w : Wheel) (n : Z) :
  Shaped w -> 0 <= n -> Shaped (Rotate w n) /\ level (Rotate w n) = level w.
Proof.
  intros Hs Hn0. unfold Rotate.
  destruct (Z.eqb_spec n 0) as [E0 | E0]; [auto|].
  destruct (Z.geb_spec n SlotSize) as [G | G]; [auto|].
  change SlotSize with 64 in G. cbn [orb].
  assert (Hn : (0 < Z.to_nat n < 64)%nat) by lia.
  destruct Hs as [w Hl He Hss H1 H2].
  destruct (level w =? 0); (split; [|reflexivity]);
    constructor; cbn [level bitmap entries subWheels set_bitmap set_entries set_subWheels];
    try assumption.
  - apply rotate_slots_length; assumption.
  - apply rotate_slots_length; assumption.
  - intros i c Hc. apply rotate_slots_from in Hc; try assumption.
    destruct Hc as [j Hj]. eapply H1, Hj.
  - intros i c Hc. apply rotate_slots_from in Hc; try assumption.
    destruct Hc as [j Hj]. eapply H2, Hj.
Qed.

Lemma LevelDown_Some (w c : Wheel) :
  LevelDown w = Some c <-> level w <> 0 /\ subWheels w !! 0%nat = Some (Some c).
Proof.
  unfold LevelDown. rewrite list_lookup_total_alt.
  destruct (Z.eqb_spec (level w) 0) as [E | E].
  - split; [discriminate | intros [? _]; contradiction].
  - destruct (subWheels w !! 0%nat) as [o|]; simpl.
    + split; [intros ->; auto | intros [_ [= ->]]; reflexivity].
    + split; [discriminate | intros [_ ?]; discriminate].
Qed.

Lemma LevelDown_Shaped (w c : Wheel) :
  LevelDown w = Some c -> Shaped w -> Shaped c /\ level c = level w - 1.
Proof.
  intros H Hs. apply LevelDown_Some in H. destruct H as [_ H].
  eapply Shaped_child; eassumption.
Qed.

(** ** The queue: drain order *)

Lemma i64_idem (x : Z) : i64 (i64 x) = i64 x.
Proof.
  unfold i64. replace ((x + 2 ^ 63) mod 2 ^ 64 - 2 ^ 63 + 2 ^ 63)
    with ((x + 2 ^ 63) mod 2 ^ 64) by lia.
  rewrite Z.mod_mod by lia. reflexivity.
Qed.

Lemma i64_add_l (a b : Z) : i64 (i64 a + b) = i64 (a + b).
Proof.
  unfold i64. f_equal.
  replace ((a + 2 ^ 63) mod 2 ^ 64 - 2 ^ 63 + b + 2 ^ 63)
    with ((a + 2 ^ 63) mod 2 ^ 64 + b) by lia.
  rewrite Zplus_mod_idemp_l. f_equal. lia.
Qed.

(** Two heaps that agree on the links of the cells of [l] agree on the
    chains through [l]. *)
Lemma chain_agree (h h' : Heap) (l : list ptr) (hd : option ptr) :
  (forall q c, q ∈ l -> h !! q = Some c ->
     exists c', h' !! q = Some c' /\ next c' = next c) ->
  chain h hd l -> chain h' hd l.
Proof.
  revert hd. induction l as [| p l IH]; intros hd Hag Hc; simpl in *.
  - assumption.
  - destruct Hc as (-> & c & Hp & Hc). split; [reflexivity|].
    destruct (Hag p c) as (c' & Hp' & Hn); [left | assumption |].
    exists c'. split; [assumption|]. rewrite Hn. apply IH; [|assumption].
    intros q cq Hq. apply Hag. right. assumption.
Qed.

Lemma chain_head_not_sentinel (h : Heap) (hd : option ptr) (l : list ptr) :
  chain h hd l -> sentinel ∉ l -> hd <> settingNext.
Proof.
  destruct l as [| p l]; simpl.
  - intros -> _. discriminate.
  - intros (-> & _) Hs. unfold settingNext. intros [= ->]. apply Hs. left.
Qed.

Lemma setNext_Some (p : ptr) (nxt : option ptr) (h : Heap) (c : Entry) :
  h !! p = Some c ->
  setNext (Some p) nxt h =
    Ok (<[p := mkEntry nxt (expireAt c) (callback c) (removed c)]> h).
Proof. intros H. unfold setNext, deref. rewrite H. reflexivity. Qed.

Lemma getNext_Some (p : ptr) (h : Heap) (c : Entry) :
  h !! p = Some c -> getNext (Some p) h = Ok (next c).
Proof. intros H. unfold getNext, deref. rewrite H. reflexivity. Qed.

(** After a run of completed pushes the head leads through the pushed
    cells, last pushed first. *)
Lemma push_all_chain (ps : list ptr) :
  forall (q : MPSCQueue) (h : Heap) (l : list ptr),
    chain h (head q) l -> NoDup (ps ++ l) ->
    (forall p, p ∈ ps -> is_Some (h !! p)) ->
    exists (q' : MPSCQueue) (h' : Heap),
      push_all q ps h = Ok (q', h') /\ chain h' (head q') (rev ps ++ l) /\
      (forall p, is_Some (h !! p) -> is_Some (h' !! p)).
Proof.
  induction ps as [| p ps IH]; intros q h l Hc Hnd Hal; simpl.
  - exists q, h. auto.
  - destruct (Hal p) as [c Hp]; [left|].
    unfold Push, Push_swap, Push_store. rewrite (setNext_Some _ _ _ _ Hp). simpl.
    set (h1 := <[p := _]> h).
    simpl in Hnd. apply NoDup_cons in Hnd. destruct Hnd as [Hnotin Hnd].
    rewrite elem_of_app in Hnotin.
    destruct (IH (mkQueue (Some p)) h1 (p :: l)) as (q' & h' & Hpush & Hch & Hal').
    + simpl. split; [reflexivity|]. eexists. split; [apply lookup_insert_eq|].
      simpl. eapply chain_agree; [|exact Hc].
      intros r cr Hr Hcr. exists cr. split; [|reflexivity]. unfold h1.
      rewrite lookup_insert_ne; [assumption|]. intros ->. tauto.
    + apply NoDup_app. apply NoDup_app in Hnd. destruct Hnd as (H1 & H2 & H3).
      split; [assumption|]. split.
      * intros r Hr Hin. apply elem_of_cons in Hin. destruct Hin as [-> | Hin].
        -- tauto.
        -- eapply H2; eassumption.
      * apply NoDup_cons. split; [tauto | assumption].
    + intros r Hr. unfold h1. destruct (decide (r = p)) as [-> | Hne].
      * rewrite lookup_insert_eq. eauto.
      * rewrite lookup_insert_ne by congruence. apply Hal. right. assumption.
    + exists q', h'. split; [assumption|]. split.
      * rewrite <- app_assoc. exact Hch.
      * intros r Hr. apply Hal'. unfold h1. destruct (decide (r = p)) as [-> | Hne].
        -- rewrite lookup_insert_eq. eauto.
        -- rewrite lookup_insert_ne by congruence. assumption.
Qed.

Lemma spin_done (fuel : nat) (p : ptr) (h : Heap) (c : Entry) :
  h !! p = Some c -> next c <> settingNext -> spin (S fuel) p h = Ok (next c).
Proof.
  intros Hp Hn. simpl. rewrite (getNext_Some _ _ _ Hp). simpl.
  destruct (decide (next c = settingNext)); [contradiction | reflexivity].
Qed.

(** The loop of [PopAll] turns the chain around, in place. *)
Lemma reverse_chain_spec (l : list ptr) :
  forall (fuel : nat) (prev curr : option ptr) (h : Heap) (lp : list ptr),
    chain h curr l -> chain h prev lp -> NoDup (l ++ lp) -> sentinel ∉ l ->
    (length l <= fuel)%nat ->
    exists (hd : option ptr) (h' : Heap),
      reverse_chain fuel prev curr h = Ok (hd, h') /\ chain h' hd (rev l ++ lp).
Proof.
  induction l as [| p l IH]; intros fuel prev curr h lp Hc Hp Hnd Hs Hfuel;
    simpl in Hc.
  - subst curr. exists prev, h. destruct fuel; simpl; auto.
  - destruct Hc as (-> & c & Hpc & Hc). destruct fuel as [| fuel]; [simpl in Hfuel; lia|].
    cbn [reverse_chain].
    assert (Hnext : next c <> settingNext).
    { eapply chain_head_not_sentinel; [exact Hc|]. intros Hin. apply Hs. right. assumption. }
    rewrite (spin_done _ _ _ _ Hpc Hnext). simpl.
    rewrite (setNext_Some _ _ _ _ Hpc). simpl.
    set (h1 := <[p := _]> h).
    simpl in Hnd. apply NoDup_cons in Hnd. destruct Hnd as [Hnotin Hnd].
    rewrite elem_of_app in Hnotin.
    assert (Hframe : forall (k : list ptr) (x : option ptr),
              p ∉ k -> chain h x k -> chain h1 x k).
    { intros k x Hk. apply chain_agree. intros r cr Hr Hcr.
      exists cr. split; [|reflexivity]. unfold h1.
      rewrite lookup_insert_ne; [assumption|]. intros ->. contradiction. }
    destruct (IH fuel (Some p) (next c) h1 (p :: lp)) as (hd & h' & Hrev & Hch).
    + apply Hframe; [tauto | assumption].
    + simpl. split; [reflexivity|]. eexists. split; [apply lookup_insert_eq|].
      simpl. apply Hframe; [tauto | assumption].
    + apply NoDup_app. apply NoDup_app in Hnd. destruct Hnd as (H1 & H2 & H3).
      split; [assumption|]. split.
      * intros r Hr Hin. apply elem_of_cons in Hin. destruct Hin as [-> | Hin].
        -- tauto.
        -- eapply H2; eassumption.
      * apply NoDup_cons. split; [tauto | assumption].
    + intros Hin. apply Hs. right. assumption.
    + simpl in Hfuel. lia.
    + exists hd, h'. split; [assumption|]. simpl. rewrite <- app_assoc. exact Hch.
Qed.

Lemma chain_head (h : Heap) (hd : option ptr) (l : list ptr) :
  chain h hd l -> hd = List.head l.
Proof. destruct l; simpl; [auto | intros [-> _]; reflexivity]. Qed.

(** The loop of [DrainAll] calls [fn] on the cells of the chain, in chain
    order, and counts them. *)
Lemma drain_loop_spec {X : Type} (fn : ptr -> X -> Mem -> result (X * Mem))
    (l : list ptr) :
  keeps_links fn ->
  forall (fuel : nat) (hd : option ptr) (count : Z) (x : X) (m : Mem),
    chain (heap m) hd l -> NoDup l -> (length l <= fuel)%nat ->
    i64 count = count ->
    drain_loop fuel fn hd count x m =
      '(x', m') ← call_all fn l x m;
      Ok (i64 (count + Z.of_nat (length l)), x', m').
Proof.
  intros Hfn. induction l as [| p l IH]; intros fuel hd count x m Hc Hnd Hfuel Hcount;
    simpl in Hc.
  - subst hd. simpl. rewrite Z.add_0_r, Hcount. destruct fuel; reflexivity.
  - destruct Hc as (-> & c & Hp & Hc). destruct fuel as [| fuel]; [simpl in Hfuel; lia|].
    cbn [drain_loop call_all]. rewrite (getNext_Some _ _ _ Hp). simpl.
    destruct (fn p x m) as [[x1 m1] | |] eqn:Hcall; simpl; try reflexivity.
    apply NoDup_cons in Hnd. destruct Hnd as [Hnotin Hnd].
    rewrite (IH fuel (next c) (i64 (count + 1)) x1 m1).
    + destruct (call_all fn l x1 m1) as [[x2 m2] | |]; simpl; try reflexivity.
      rewrite i64_add_l.
      replace (Z.of_nat (S (length l))) with (1 + Z.of_nat (length l)) by lia.
      rewrite Z.add_assoc. reflexivity.
    + eapply chain_agree; [|exact Hc]. intros q cq Hq Hcq.
      eapply Hfn; [exact Hcall | | exact Hcq]. intros ->. contradiction.
    + assumption.
    + simpl in Hfuel. lia.
    + apply i64_idem.
Qed.

Lemma PopAll_eq (fuel : nat) (q : MPSCQueue) (h : Heap) :
  PopAll fuel q h =
    '(prev, h) ← reverse_chain fuel None (head q) h; Ok (prev, mkQueue None, h).
Proof.
  unfold PopAll. destruct (head q) as [p|]; [reflexivity|].
  destruct fuel; reflexivity.
Qed.

Lemma rev_reverse {A} (l : list A) : rev l = reverse l.
Proof. unfold reverse. apply rev_alt. Qed.

Lemma NoDup_rev' (l : list ptr) : NoDup l -> NoDup (rev l).
Proof. rewrite rev_reverse, reverse_Permutation. auto. Qed.

Lemma elem_of_rev' (l : list ptr) (p : ptr) : p ∈ rev l <-> p ∈ l.
Proof. rewrite rev_reverse. apply elem_of_reverse. Qed.

(** C8. Push the distinct allocated entries p1, ..., pn into an empty
    queue, each push run to completion.  Then [PopAll] returns p1 at the head
    of the chain p1 -> ... -> pn -> nil, and [DrainAll] is the calls
    fn(p1); ...; fn(pn) in this order followed by the return of n, for any
    closure [fn] that leaves the links of the entries it is not given
    alone. *)
Theorem DrainAll_calls_in_push_order {X : Type}
    (fn : ptr -> X -> Mem -> result (X * Mem))
    (ps : list ptr) (x : X) (m : Mem) (fuel : nat) :
  NoDup ps -> sentinel ∉ ps -> (forall p, p ∈ ps -> is_Some (heap m !! p)) ->
  keeps_links fn -> (length ps <= fuel)%nat ->
  exists (q : MPSCQueue) (h1 h2 : Heap),
    push_all NewMPSCQueue ps (heap m) = Ok (q, h1) /\
    PopAll fuel q h1 = Ok (List.head ps, NewMPSCQueue, h2) /\
    chain h2 (List.head ps) ps /\
    DrainAll fuel q fn x (set_heap m h1) =
      ('(x', m') ← call_all fn ps x (set_heap m h2);
       Ok (i64 (Z.of_nat (length ps)), NewMPSCQueue, x', m')) /\
    (Z.of_nat (length ps) < 2 ^ 63 ->
     i64 (Z.of_nat (length ps)) = Z.of_nat (length ps)).
Proof.
  intros Hnd Hs Hal Hfn Hfuel.
  destruct (push_all_chain ps NewMPSCQueue (heap m) []) as (q & h1 & Hpush & Hch & _).
  - reflexivity.
  - rewrite app_nil_r. assumption.
  - assumption.
  - rewrite app_nil_r in Hch.
    destruct (reverse_chain_spec (rev ps) fuel None (head q) h1 []) as (hd & h2 & Hrev & Hch2).
    + assumption.
    + reflexivity.
    + rewrite app_nil_r. apply NoDup_rev'. assumption.
    + rewrite elem_of_rev'. assumption.
    + rewrite length_rev. assumption.
    + rewrite rev_involutive, app_nil_r in Hch2.
      pose proof (chain_head _ _ _ Hch2) as ->.
      assert (Hpop : PopAll fuel q h1 = Ok (List.head ps, NewMPSCQueue, h2)).
      { rewrite PopAll_eq, Hrev. reflexivity. }
      exists q, h1, h2. split; [assumption|]. split; [assumption|].
      split; [assumption|]. split.
      * unfold DrainAll.
        replace (heap (set_heap m h1)) with h1 by reflexivity.
        rewrite Hpop. cbn [mbind result_bind].
        replace (set_heap (set_heap m h1) h2) with (set_heap m h2) by reflexivity.
        rewrite (drain_loop_spec fn ps Hfn fuel (List.head ps) 0 x (set_heap m h2));
          try assumption; try reflexivity.
        destruct (call_all fn ps x (set_heap m h2)) as [[x' m'] | |]; reflexivity.
      * intros Hlt. apply i64_small. lia.
Qed.

Lemma record_call_keeps_links : keeps_links record_call.
Proof.
  intros p x m x' m' H q c _ Hq. injection H as _ <-. exists c. auto.
Qed.

Lemma DrainAll_calls_in_push_order_witness :
  NoDup [1; 2; 3]%nat /\ (sentinel ∉ [1; 2; 3]%nat) /\
  (forall p, p ∈ [1; 2; 3]%nat -> is_Some (heap mem_three !! p)) /\
  keeps_links record_call /\ (length [1; 2; 3]%nat <= 3)%nat /\
  (exists (q : MPSCQueue) (h1 h2 : Heap),
    push_all NewMPSCQueue [1; 2; 3]%nat (heap mem_three) = Ok (q, h1) /\
    PopAll 3%nat q h1 = Ok (List.head [1; 2; 3]%nat, NewMPSCQueue, h2) /\
    chain h2 (List.head [1; 2; 3]%nat) [1; 2; 3]%nat /\
    DrainAll 3%nat q record_call [] (set_heap mem_three h1) =
      ('(x', m') ← call_all record_call [1; 2; 3]%nat [] (set_heap mem_three h2);
       Ok (i64 (Z.of_nat (length [1; 2; 3]%nat)), NewMPSCQueue, x', m')) /\
    (Z.of_nat (length [1; 2; 3]%nat) < 2 ^ 63 ->
     i64 (Z.of_nat (length [1; 2; 3]%nat)) = Z.of_nat (length [1; 2; 3]%nat))).
Proof.
  assert (Hnd : NoDup [1; 2; 3]%nat) by (apply (bool_decide_unpack _); vm_compute; exact I).
  assert (Hs : sentinel ∉ [1; 2; 3]%nat) by (apply (bool_decide_unpack _); vm_compute; exact I).
  assert (Hal : forall p, p ∈ [1; 2; 3]%nat -> is_Some (heap mem_three !! p)).
  { intros p Hp. apply list_elem_of_In in Hp. simpl in Hp.
    destruct Hp as [<- | [<- | [<- | []]]]; vm_compute; eauto. }
  assert (Hlen : (length [1; 2; 3]%nat <= 3)%nat) by (simpl; lia).
  split; [exact Hnd | split; [exact Hs | split; [exact Hal |]]].
  split; [exact record_call_keeps_links | split; [exact Hlen |]].
  exact (DrainAll_calls_in_push_order record_call [1; 2; 3]%nat [] mem_three 3
           Hnd Hs Hal record_call_keeps_links Hlen).
Defined.

(** ** The driver: scheduling *)

Lemma AddEntryAt_eq (t : Timer) (p : ptr) (expire : Z) (cb : option func) (h : Heap) :
  AddEntryAt t p expire cb h =
    Ok (p,
        (let t' := set_queue t (mkQueue (Some p)) in
         if bool_decide (head (queue t) = None)
            || ((sleepUntil t >? 0) && (expire <? sleepUntil t))
         then set_wakeChan t' true else t'),
        <[p := mkEntry (head (queue t)) expire cb false]> h).
Proof.
  unfold AddEntryAt, Push, Push_swap, Push_store, NewEntry.
  rewrite (setNext_Some p _ _ (mkEntry settingNext expire cb false))
    by apply lookup_insert_eq.
  cbn [mbind result_bind expireAt callback removed]. rewrite insert_insert_eq.
  reflexivity.
Qed.

Lemma AddEntryAt_enqueues (t : Timer) (p : ptr) (expire : Z) (cb : option func)
    (h : Heap) :
  exists (t' : Timer) (h' : Heap),
    AddEntryAt t p expire cb h = Ok (p, t', h') /\
    head (queue t') = Some p /\ IsEmpty (queue t') = false /\
    h' !! p = Some (mkEntry (head (queue t)) expire cb false) /\
    running t' = running t /\ stopChan t' = stopChan t /\ wheel t' = wheel t.
Proof.
  rewrite AddEntryAt_eq. eexists _, _. split; [reflexivity|].
  cbv zeta.
  destruct (bool_decide (head (queue t) = None)
            || ((sleepUntil t >? 0) && (expire <? sleepUntil t)));
    cbn [queue set_queue set_wakeChan head running stopChan wheel];
    rewrite lookup_insert_eq; auto 10.
Qed.

(** C9, as stated, fails: after [Stop] has returned, [AddEntryAt] still
    hands back the entry and leaves it in the queue. *)
Lemma AddEntryAt_after_Stop_is_not_rejected :
  let t := Stop (Start (NewTimer execute_handler)) in
  running t = false /\ stopChan t = true /\ doneChan t = true /\
  exists (t' : Timer) (h' : Heap),
    AddEntryAt t 1 50000000 (Some 7%nat) ∅ = Ok (1%nat, t', h') /\
    head (queue t') = Some 1%nat /\ IsEmpty (queue t') = false.
Proof.
  intros t. split; [reflexivity|]. split; [reflexivity|]. split; [reflexivity|].
  rewrite AddEntryAt_eq. eexists _, _. split; [reflexivity|].
  split; reflexivity.
Qed.

(** C9, amended.  [AddEntryAt] does not read [running] or [stopChan]:
    called on a stopped timer it returns the entry's handle, leaves the
    entry at the head of the queue linked to the old head, and differs from
    the same call on the timer before [Stop] only in the fields [Stop]
    wrote. *)
Theorem AddEntryAt_ignores_Stop (t : Timer) (p : ptr) (expire : Z)
    (cb : option func) (h : Heap) :
  exists (t' : Timer) (h' : Heap),
    AddEntryAt t p expire cb h = Ok (p, t', h') /\
    AddEntryAt (Stop t) p expire cb h = Ok (p, Stop t', h') /\
    running (Stop t') = false /\
    head (queue (Stop t')) = Some p /\
    IsEmpty (queue (Stop t')) = false /\
    h' !! p = Some (mkEntry (head (queue t)) expire cb false).
Proof.
  rewrite !AddEntryAt_eq. eexists _, _. split; [reflexivity|].
  assert (Hq : queue (Stop t) = queue t /\ sleepUntil (Stop t) = sleepUntil t).
  { unfold Stop. destruct (running t); auto. }
  destruct Hq as [Hq Hsu]. rewrite Hq, Hsu. cbv zeta.
  split.
  { do 2 f_equal. unfold Stop.
    destruct (bool_decide (head (queue t) = None)
              || ((sleepUntil t >? 0) && (expire <? sleepUntil t)));
      destruct t as [? ? ? ? ? ? ? ? ? []]; reflexivity. }
  split.
  { unfold Stop.
    destruct (bool_decide (head (queue t) = None)
              || ((sleepUntil t >? 0) && (expire <? sleepUntil t)));
      destruct t as [? ? ? ? ? ? ? ? ? []]; reflexivity. }
  split; [|split; [|apply lookup_insert_eq]].
  - unfold Stop.
    destruct (bool_decide (head (queue t) = None)
              || ((sleepUntil t >? 0) && (expire <? sleepUntil t)));
      destruct t as [? ? ? ? ? ? ? ? ? []]; reflexivity.
  - unfold Stop.
    destruct (bool_decide (head (queue t) = None)
              || ((sleepUntil t >? 0) && (expire <? sleepUntil t)));
      destruct t as [? ? ? ? ? ? ? ? ? []]; reflexivity.
Qed.

Lemma pick_level_top (fuel : nat) :
  forall (lvl interval : Z),
    0 <= lvl <= MaxLevel -> 64 ^ 7 <= interval ->
    (Z.to_nat (MaxLevel - lvl) <= fuel)%nat ->
    pick_level fuel lvl interval = Ok MaxLevel.
Proof.
  induction fuel as [| fuel IH]; intros lvl interval Hl Hi Hfuel.
  - assert (lvl = MaxLevel) as -> by (unfold MaxLevel in *; lia). reflexivity.
  - cbn [pick_level]. destruct (Z.ltb_spec lvl MaxLevel) as [Hlt | Hge].
    + destruct (tables lvl Hl) as (_ & Hmx & _). rewrite Hmx.
      cbn [mbind result_bind].
      assert (Hspan : 64 ^ (lvl + 1) <= 64 ^ 7)
        by (apply Z.pow_le_mono_r; unfold MaxLevel in *; lia).
      destruct (Z.ltb_spec interval (64 ^ (lvl + 1))) as [Hc | _]; [lia|].
      unfold MaxLevel in *. rewrite i64_small by lia. apply IH; unfold MaxLevel; lia.
    + f_equal. lia.
Qed.

(** ** The expire scan *)

Lemma filter_none {A} (f : A -> bool) (l : list A) :
  (forall x, In x l -> f x = false) -> List.filter f l = [].
Proof.
  induction l as [| a l IH]; intros H; simpl; [reflexivity|].
  rewrite (H a) by (left; reflexivity). apply IH.
  intros x Hx. apply H. right. assumption.
Qed.

Lemma range64_split (k : nat) :
  (k < 64)%nat ->
  List.map Z.of_nat (seq 0 64) =
    List.map Z.of_nat (seq 0 k) ++ Z.of_nat k :: List.map Z.of_nat (seq (S k) (63 - k)).
Proof.
  intros Hk. replace 64%nat with (k + S (63 - k))%nat at 1 by lia.
  rewrite seq_app, map_app. simpl. reflexivity.
Qed.

Lemma in_range_lt (k : nat) (x : Z) :
  In x (List.map Z.of_nat (seq 0 k)) -> 0 <= x < Z.of_nat k.
Proof.
  rewrite in_map_iff. intros (i & <- & Hi). apply in_seq in Hi. lia.
Qed.

Lemma in_range_gt (k n : nat) (x : Z) :
  In x (List.map Z.of_nat (seq (S k) n)) -> Z.of_nat k < x.
Proof.
  rewrite in_map_iff. intros (i & <- & Hi). apply in_seq in Hi. lia.
Qed.

Lemma set_bits_zero : set_bits 0 = [].
Proof. reflexivity. Qed.

(** The first set bit is the one [TrailingZeros64] finds; the others are
    the set bits of the bitmap with that bit cleared. *)
Lemma set_bits_cons (b : Z) :
  0 <= b < 2 ^ 64 -> b <> 0 ->
  set_bits b =
    TrailingZeros64 b ::
    set_bits (Z.ldiff b (u64 (Z.shiftl 1 (TrailingZeros64 b)))).
Proof.
  intros Hb Hnz. destruct (ctz_spec b Hb Hnz) as (Hk & Hbit & Hlow).
  set (k := TrailingZeros64 b) in *. unfold set_bits.
  rewrite (range64_split (Z.to_nat k)) by lia.
  rewrite Z2Nat.id by lia. rewrite !List.filter_app. cbn [List.filter].
  rewrite Hbit. rewrite clear_bit_testbit by lia.
  rewrite Z.eqb_refl, andb_false_r.
  rewrite (filter_none (Z.testbit b)).
  2:{ intros x Hx. apply in_range_lt in Hx. apply Hlow. lia. }
  rewrite (filter_none (Z.testbit (Z.ldiff b _))).
  2:{ intros x Hx. apply in_range_lt in Hx. rewrite clear_bit_testbit by lia.
      rewrite Hlow by lia. reflexivity. }
  simpl. f_equal. apply List.filter_ext_in. intros x Hx. apply in_range_gt in Hx.
  rewrite clear_bit_testbit by lia.
  destruct (Z.eqb_spec k x); [lia|]. rewrite andb_true_r. reflexivity.
Qed.

Lemma set_bits_nil (b : Z) : 0 <= b < 2 ^ 64 -> set_bits b = [] -> b = 0.
Proof.
  intros Hb H. destruct (Z.eq_dec b 0) as [|Hnz]; [assumption|].
  rewrite set_bits_cons in H by assumption. discriminate.
Qed.

Lemma set_bits_length (b : Z) : (length (set_bits b) <= 64)%nat.
Proof.
  unfold set_bits.
  etransitivity; [apply List.filter_length_le|]. rewrite length_map, length_seq. lia.
Qed.

Lemma slot_start_small (index l : Z) :
  0 <= index < 64 -> 0 <= l <= 6 -> 0 <= index * 64 ^ l < 2 ^ 64.
Proof.
  intros Hi Hl. pose proof (pow64_pos l ltac:(lia)) as Hpos.
  pose proof (pow64_le l Hl) as Htop.
  assert (Hsucc : 64 ^ (l + 1) = 64 * 64 ^ l).
  { rewrite (pow64_succ (l + 1)) by lia.
    replace (l + 1 - 1) with l by lia. reflexivity. }
  nia.
Qed.

(** The inner loop of the code fires a slot as described: it hands every
    entry of the chain to the handler, in list order. *)
Lemma fire_in_order_eq (fuel : nat) (hdl : Handler) :
  forall (hd : option ptr) (count : Z) (m : Mem),
    fire_slot fuel hdl hd count m = fire_in_order fuel hdl hd count m.
Proof.
  induction fuel as [| fuel IH]; intros hd count m.
  - destruct hd; reflexivity.
  - destruct hd as [entry |]; [|reflexivity].
    cbn [fire_slot fire_in_order].
    destruct (getNext (Some entry) (heap m)) as [nxt | |]; cbn [mbind result_bind];
      [|reflexivity | reflexivity].
    unfold dispatch, handed_to. apply IH.
Qed.

(** The loop of the code and the visit of the listed bits are the same
    computation, as long as the calls on the children agree. *)
Lemma scan_refines (rec rec' : Wheel -> Z -> Mem -> result (Z * Wheel * Mem))
    (fuel : nat) (hdl : Handler) (r : Z) :
  0 <= r < 2 ^ 64 ->
  forall (bits : list Z) (passes : nat) (w : Wheel) (count : Z) (m : Mem),
    0 <= level w <= 6 -> 0 <= bitmap w < 2 ^ 64 ->
    (forall (i : nat) (c : Wheel), subWheels w !! i = Some (Some c) ->
       forall r' m', 0 <= r' < 2 ^ 64 -> rec c r' m' = rec' c r' m') ->
    bits = set_bits (bitmap w) -> (length bits <= passes)%nat ->
    scan rec fuel hdl passes w r count m =
      expire_bits rec' fuel hdl bits w r count m.
Proof.
  intros Hr. induction bits as [| index bits IH];
    intros passes w count m Hl Hb Hkids Hbits Hlen; rewrite scan_unfold.
  - symmetry in Hbits. apply set_bits_nil in Hbits; [|assumption].
    rewrite Hbits. reflexivity.
  - destruct (Z.eqb_spec (bitmap w) 0) as [Hz | Hnz].
    { rewrite Hz, set_bits_zero in Hbits. discriminate. }
    rewrite set_bits_cons in Hbits by assumption. injection Hbits as Hidx Hrest.
    destruct (ctz_spec _ Hb Hnz) as (Hrange & _ & _).
    destruct passes as [| passes]; [simpl in Hlen; lia|].
    cbv zeta. rewrite <- Hidx. cbn [expire_bits].
    rewrite <- Hidx in Hrange.
    destruct (level w =? 0) eqn:El.
    + destruct (index >? r); [reflexivity|].
      destruct (aget (entries w) index) as [hd | |]; cbn [mbind result_bind];
        try reflexivity.
      rewrite fire_in_order_eq.
      destruct (fire_in_order fuel hdl hd count m) as [[count1 m1] | |];
        cbn [mbind result_bind]; try reflexivity.
      destruct (aset (entries w) index None) as [es | |]; cbn [mbind result_bind];
        try reflexivity.
      apply IH; cbn [level bitmap subWheels clear_bit set_entries set_bitmap];
        try assumption.
      * apply clear_bit_range; assumption.
      * rewrite Hidx. exact Hrest.
      * simpl in Hlen. lia.
    + destruct (tables _ Hl) as (Hmps & _). rewrite Hmps. cbn [mbind result_bind].
      pose proof (slot_start_small index (level w) Hrange Hl) as Hsmall.
      rewrite (u64_small (index * 64 ^ level w)) by assumption.
      destruct (Z.gtb_spec (index * 64 ^ level w) r) as [Hgt | Hle]; [reflexivity|].
      destruct (aget (subWheels w) index) as [sub | |] eqn:Hsub;
        cbn [mbind result_bind]; try reflexivity.
      destruct sub as [child|]; [|reflexivity].
      apply aget_Ok in Hsub. destruct Hsub as [_ Hsub].
      rewrite (u64_small (r - index * 64 ^ level w)) by lia.
      rewrite (Hkids _ _ Hsub) by lia.
      destruct (rec' child (r - index * 64 ^ level w) m) as [[[n child'] m1] | |];
        cbn [mbind result_bind]; try reflexivity.
      destruct (Empty child'); [|reflexivity].
      destruct (aset (subWheels w) index None) as [ss | |] eqn:Hss;
        cbn [mbind result_bind]; try reflexivity.
      apply aset_Ok in Hss. destruct Hss as (_ & _ & ->).
      apply IH; cbn [level bitmap subWheels clear_bit set_subWheels set_bitmap];
        try assumption.
      * apply clear_bit_range; assumption.
      * intros i c Hc. destruct (decide (i = Z.to_nat index)) as [-> | Hne].
        -- destruct (decide (Z.to_nat index < length (subWheels w))%nat).
           ++ rewrite list_lookup_insert_eq in Hc by assumption. discriminate.
           ++ rewrite list_insert_ge in Hc by lia. eapply Hkids, Hc.
        -- rewrite list_lookup_insert_ne in Hc by congruence. eapply Hkids, Hc.
      * rewrite Hidx. exact Hrest.
      * simpl in Hlen. lia.
Qed.

Lemma handle_expired_spec_S (fuel' : nat) (hdl : Handler) (w : Wheel)
    (r : Z) (m : Mem) :
  handle_expired_spec (S fuel') hdl w r m =
  expire_bits (handle_expired_spec fuel' hdl) (S fuel') hdl (set_bits (bitmap w))
              w r 0 m.
Proof. reflexivity. Qed.

Lemma Faithful_range (w : Wheel) : Faithful w -> 0 <= bitmap w < 2 ^ 64.
Proof. intros [w' H _ _ _]. exact H. Qed.

Lemma Faithful_kid (w c : Wheel) (i : nat) :
  Faithful w -> subWheels w !! i = Some (Some c) -> Faithful c.
Proof. intros [w' _ _ H _] Hc. eapply H, Hc. Qed.

Lemma HandleExpiredEntries_refines (fuel : nat) (hdl : Handler) :
  forall (w : Wheel) (r : Z) (m : Mem),
    Shaped w -> Faithful w -> 0 <= r < 2 ^ 64 ->
    HandleExpiredEntries fuel hdl w r m = handle_expired_spec fuel hdl w r m.
Proof.
  induction fuel as [| fuel IH]; intros w r m Hs Hf Hr; [reflexivity|].
  rewrite HandleExpiredEntries_S, handle_expired_spec_S.
  apply scan_refines; try assumption.
  - apply Shaped_level. assumption.
  - apply Faithful_range. assumption.
  - intros i c Hc r' m' Hr'. apply IH; [| |assumption].
    + eapply Shaped_child; eassumption.
    + eapply Faithful_kid; eassumption.
  - reflexivity.
  - change (Z.to_nat SlotSize) with 64%nat. apply set_bits_length.
Qed.

(** *** What is dispatched, and the count *)

Lemma i64_add_r (a b : Z) : i64 (a + i64 b) = i64 (a + b).
Proof. rewrite Z.add_comm, i64_add_l, Z.add_comm. reflexivity. Qed.

Lemma fire_slot_S (fuel : nat) (hdl : Handler) (entry : ptr) (count : Z) (m : Mem) :
  fire_slot (S fuel) hdl (Some entry) count m =
    nxt ← getNext (Some entry) (heap m);
    fire_slot fuel hdl nxt (i64 (count + 1)) (dispatch hdl entry m).
Proof. reflexivity. Qed.

Lemma fire_slot_None (fuel : nat) (hdl : Handler) (count : Z) (m : Mem) :
  fire_slot fuel hdl None count m = Ok (count, m).
Proof. destruct fuel; reflexivity. Qed.

Lemma fire_slot_fired (fuel : nat) (hdl : Handler) :
  forall (hd : option ptr) (count : Z) (m : Mem) (count' : Z) (m' : Mem),
    fire_slot fuel hdl hd count m = Ok (count', m') -> i64 count = count ->
    exists l : list ptr,
      fired m' = fired m ++ l /\ count' = i64 (count + Z.of_nat (length l)).
Proof.
  induction fuel as [| fuel IH]; intros hd count m count' m' H Hc.
  - destruct hd; [discriminate H|]. injection H as <- <-. exists [].
    rewrite app_nil_r, Z.add_0_r. auto.
  - destruct hd as [entry|].
    + rewrite fire_slot_S in H. ok_inv H.
      destruct (IH _ _ _ _ _ H (i64_idem _)) as (l & Hl & Hn).
      exists (entry :: l). split.
      * rewrite Hl. cbn [dispatch fired]. rewrite <- app_assoc. reflexivity.
      * rewrite Hn, i64_add_l. f_equal. simpl length. lia.
    + rewrite fire_slot_None in H. injection H as <- <-. exists [].
      rewrite app_nil_r, Z.add_0_r. auto.
Qed.

Lemma scan_fired (rec : Wheel -> Z -> Mem -> result (Z * Wheel * Mem))
    (fuel : nat) (hdl : Handler) (r : Z) :
  (forall c r' m n c' m', rec c r' m = Ok (n, c', m') ->
     exists l : list ptr, fired m' = fired m ++ l /\ n = i64 (Z.of_nat (length l))) ->
  forall (passes : nat) (w : Wheel) (count : Z) (m : Mem)
         (count' : Z) (w' : Wheel) (m' : Mem),
    scan rec fuel hdl passes w r count m = Ok (count', w', m') ->
    i64 count = count ->
    exists l : list ptr,
      fired m' = fired m ++ l /\ count' = i64 (count + Z.of_nat (length l)).
Proof.
  intros Hrec.
  assert (Hstop : forall (count : Z) (m : Mem), i64 count = count ->
            exists l : list ptr,
              fired m = fired m ++ l /\ count = i64 (count + Z.of_nat (length l))).
  { intros count m Hc. exists []. rewrite app_nil_r, Z.add_0_r. auto. }
  induction passes as [| passes IH]; intros w count m count' w' m' H Hc;
    rewrite scan_unfold in H.
  - destruct (bitmap w =? 0); [|discriminate]. injection H as <- _ <-. auto.
  - destruct (bitmap w =? 0). { injection H as <- _ <-. auto. }
    cbv zeta in H. set (index := TrailingZeros64 (bitmap w)) in *.
    destruct (level w =? 0).
    + destruct (index >? r). { injection H as <- _ <-. auto. }
      ok_inv H. ok_inv H. destruct a0 as [count1 m1]. ok_inv H.
      destruct (fire_slot_fired _ _ _ _ _ _ _ Ha0 Hc) as (l1 & Hl1 & Hn1).
      assert (Hc1 : i64 count1 = count1) by (rewrite Hn1; apply i64_idem).
      destruct (IH _ _ _ _ _ _ H Hc1) as (l2 & Hl2 & Hn2).
      exists (l1 ++ l2). split.
      * rewrite Hl2, Hl1, app_assoc. reflexivity.
      * rewrite Hn2, Hn1, i64_add_l. f_equal. rewrite length_app. lia.
    + ok_inv H. destruct (u64 (index * a) >? r). { injection H as <- _ <-. auto. }
      ok_inv H. destruct a0 as [child|]; [|discriminate].
      ok_inv H. destruct a0 as [[n child'] m1].
      destruct (Hrec _ _ _ _ _ _ Ha1) as (l1 & Hl1 & Hn1).
      assert (Hsum : i64 (count + n) = i64 (count + Z.of_nat (length l1)))
        by (rewrite Hn1; apply i64_add_r).
      destruct (Empty child').
      * ok_inv H.
        destruct (IH _ _ _ _ _ _ H (i64_idem _)) as (l2 & Hl2 & Hn2).
        exists (l1 ++ l2). split.
        -- rewrite Hl2, Hl1, app_assoc. reflexivity.
        -- rewrite Hn2, Hsum, i64_add_l. f_equal. rewrite length_app. lia.
      * ok_inv H. injection H as <- _ <-. exists l1. auto.
Qed.

Lemma HandleExpiredEntries_fired (fuel : nat) (hdl : Handler) :
  forall (w : Wheel) (r : Z) (m : Mem) (count : Z) (w' : Wheel) (m' : Mem),
    HandleExpiredEntries fuel hdl w r m = Ok (count, w', m') ->
    exists l : list ptr,
      fired m' = fired m ++ l /\ count = i64 (Z.of_nat (length l)).
Proof.
  induction fuel as [| fuel IH]; intros w r m count w' m' H; [discriminate H|].
  rewrite HandleExpiredEntries_S in H.
  destruct (scan_fired _ _ _ _ (IH) _ _ _ _ _ _ _ H eq_refl) as (l & Hl & Hn).
  exists l. auto.
Qed.

(** The memory a call leaves is the one the handler calls leave: the
    entries counted are handed to the handler one after the other. *)
Lemma fire_slot_handed (fuel : nat) (hdl : Handler) :
  forall (hd : option ptr) (count : Z) (m : Mem) (count' : Z) (m' : Mem),
    fire_slot fuel hdl hd count m = Ok (count', m') -> i64 count = count ->
    exists l : list ptr,
      m' = dispatch_all hdl l m /\ count' = i64 (count + Z.of_nat (length l)).
Proof.
  induction fuel as [| fuel IH]; intros hd count m count' m' H Hc.
  - destruct hd; [discriminate H|]. injection H as <- <-. exists [].
    rewrite Z.add_0_r. auto.
  - destruct hd as [entry|].
    + rewrite fire_slot_S in H. ok_inv H.
      destruct (IH _ _ _ _ _ H (i64_idem _)) as (l & Hl & Hn).
      exists (entry :: l). split.
      * rewrite Hl. reflexivity.
      * rewrite Hn, i64_add_l. f_equal. simpl length. lia.
    + rewrite fire_slot_None in H. injection H as <- <-. exists [].
      rewrite Z.add_0_r. auto.
Qed.

Lemma dispatch_all_cons (hdl : Handler) (p : ptr) (l : list ptr) (m : Mem) :
  dispatch_all hdl (p :: l) m = dispatch_all hdl l (dispatch hdl p m).
Proof. reflexivity. Qed.

Lemma dispatch_all_fired (hdl : Handler) (l : list ptr) :
  forall m : Mem, fired (dispatch_all hdl l m) = fired m ++ l.
Proof.
  induction l as [| p l IH]; intros m.
  - cbn. rewrite app_nil_r. reflexivity.
  - rewrite dispatch_all_cons, IH. cbn [dispatch fired]. rewrite <- app_assoc. reflexivity.
Qed.

Lemma dispatch_all_app (hdl : Handler) (l1 l2 : list ptr) (m : Mem) :
  dispatch_all hdl (l1 ++ l2) m = dispatch_all hdl l2 (dispatch_all hdl l1 m).
Proof. unfold dispatch_all. apply foldl_app. Qed.

Lemma scan_handed (rec : Wheel -> Z -> Mem -> result (Z * Wheel * Mem))
    (fuel : nat) (hdl : Handler) (r : Z) :
  (forall c r' m n c' m', rec c r' m = Ok (n, c', m') ->
     exists l : list ptr, m' = dispatch_all hdl l m /\ n = i64 (Z.of_nat (length l))) ->
  forall (passes : nat) (w : Wheel) (count : Z) (m : Mem)
         (count' : Z) (w' : Wheel) (m' : Mem),
    scan rec fuel hdl passes w r count m = Ok (count', w', m') ->
    i64 count = count ->
    exists l : list ptr,
      m' = dispatch_all hdl l m /\ count' = i64 (count + Z.of_nat (length l)).
Proof.
  intros Hrec.
  assert (Hstop : forall (count : Z) (m : Mem), i64 count = count ->
            exists l : list ptr,
              m = dispatch_all hdl l m /\ count = i64 (count + Z.of_nat (length l))).
  { intros count m Hc. exists []. rewrite Z.add_0_r. auto. }
  induction passes as [| passes IH]; intros w count m count' w' m' H Hc;
    rewrite scan_unfold in H.
  - destruct (bitmap w =? 0); [|discriminate]. injection H as <- _ <-. auto.
  - destruct (bitmap w =? 0). { injection H as <- _ <-. auto. }
    cbv zeta in H. set (index := TrailingZeros64 (bitmap w)) in *.
    destruct (level w =? 0).
    + destruct (index >? r). { injection H as <- _ <-. auto. }
      ok_inv H. ok_inv H. destruct a0 as [count1 m1]. ok_inv H.
      destruct (fire_slot_handed _ _ _ _ _ _ _ Ha0 Hc) as (l1 & Hl1 & Hn1).
      assert (Hc1 : i64 count1 = count1) by (rewrite Hn1; apply i64_idem).
      destruct (IH _ _ _ _ _ _ H Hc1) as (l2 & Hl2 & Hn2).
      exists (l1 ++ l2). split.
      * rewrite Hl2, Hl1, dispatch_all_app. reflexivity.
      * rewrite Hn2, Hn1, i64_add_l. f_equal. rewrite length_app. lia.
    + ok_inv H. destruct (u64 (index * a) >? r). { injection H as <- _ <-. auto. }
      ok_inv H. destruct a0 as [child|]; [|discriminate].
      ok_inv H. destruct a0 as [[n child'] m1].
      destruct (Hrec _ _ _ _ _ _ Ha1) as (l1 & Hl1 & Hn1).
      assert (Hsum : i64 (count + n) = i64 (count + Z.of_nat (length l1)))
        by (rewrite Hn1; apply i64_add_r).
      destruct (Empty child').
      * ok_inv H.
        destruct (IH _ _ _ _ _ _ H (i64_idem _)) as (l2 & Hl2 & Hn2).
        exists (l1 ++ l2). split.
        -- rewrite Hl2, Hl1, dispatch_all_app. reflexivity.
        -- rewrite Hn2, Hsum, i64_add_l. f_equal. rewrite length_app. lia.
      * ok_inv H. injection H as <- _ <-. exists l1. auto.
Qed.

Lemma HandleExpiredEntries_handed (fuel : nat) (hdl : Handler) :
  forall (w : Wheel) (r : Z) (m : Mem) (count : Z) (w' : Wheel) (m' : Mem),
    HandleExpiredEntries fuel hdl w r m = Ok (count, w', m') ->
    exists l : list ptr,
      m' = dispatch_all hdl l m /\ count = i64 (Z.of_nat (length l)).
Proof.
  induction fuel as [| fuel IH]; intros w r m count w' m' H; [discriminate H|].
  rewrite HandleExpiredEntries_S in H.
  destruct (scan_handed _ _ _ _ (IH) _ _ _ _ _ _ _ H eq_refl) as (l & Hl & Hn).
  exists l. auto.
Qed.

(** With a handler that leaves the other links alone, firing a slot
    dispatches the entries of its chain, in chain order. *)
Lemma fire_slot_chain (hdl : Handler) (l : list ptr) :
  framed hdl ->
  forall (fuel : nat) (hd : option ptr) (count : Z) (m : Mem),
    chain (heap m) hd l -> NoDup l -> (length l <= fuel)%nat -> i64 count = count ->
    fire_slot fuel hdl hd count m =
      Ok (i64 (count + Z.of_nat (length l)), dispatch_all hdl l m).
Proof.
  intros Hfr. induction l as [| p l IH]; intros fuel hd count m Hc Hnd Hfuel Hcount;
    simpl in Hc.
  - subst hd. rewrite fire_slot_None, Z.add_0_r, Hcount. reflexivity.
  - destruct Hc as (-> & c & Hp & Hc). destruct fuel as [| fuel]; [simpl in Hfuel; lia|].
    rewrite fire_slot_S, (getNext_Some _ _ _ Hp). cbn [mbind result_bind].
    apply NoDup_cons in Hnd. destruct Hnd as [Hnotin Hnd].
    rewrite (IH fuel (next c) (i64 (count + 1)) (dispatch hdl p m)).
    + rewrite i64_add_l. unfold dispatch_all. cbn [foldl].
      replace (Z.of_nat (length (p :: l))) with (1 + Z.of_nat (length l))
        by (simpl length; lia).
      rewrite Z.add_assoc. reflexivity.
    + cbn [dispatch heap]. eapply chain_agree; [|exact Hc].
      intros q cq Hq Hcq. apply Hfr; [|assumption]. intros ->. contradiction.
    + assumption.
    + simpl in Hfuel. lia.
    + apply i64_idem.
Qed.

(** *** The scan returns *)

Lemma links_shrink_refl (h : Heap) : links_shrink h h.
Proof. intros q c Hq. exists c. auto. Qed.

Lemma links_shrink_trans (h1 h2 h3 : Heap) :
  links_shrink h1 h2 -> links_shrink h2 h3 -> links_shrink h1 h3.
Proof.
  intros H12 H23 q c Hq. destruct (H12 q c Hq) as (c2 & Hq2 & Hn2).
  destruct (H23 q c2 Hq2) as (c3 & Hq3 & Hn3). exists c3. split; [assumption|].
  destruct Hn3 as [Hn3 | Hn3]; [|auto]. rewrite Hn3. assumption.
Qed.

Lemma tame_dispatch (hdl : Handler) (p : ptr) (m : Mem) :
  tame hdl -> links_shrink (heap m) (heap (dispatch hdl p m)).
Proof. intros Ht q c Hq. apply Ht. assumption. Qed.

Lemma ends_shrink (k : nat) :
  forall (h h' : Heap) (hd : option ptr),
    links_shrink h h' -> ends k h hd -> ends k h' hd.
Proof.
  induction k as [| k IH]; intros h h' hd Hsh He; destruct hd as [p|]; simpl in *;
    try assumption; try exact I.
  destruct He as (c & Hp & He). destruct (Hsh p c Hp) as (c' & Hp' & Hn).
  exists c'. split; [assumption|]. destruct Hn as [-> | ->].
  - eapply IH; eassumption.
  - destruct k; exact I.
Qed.

Lemma Rooted_shrink (k : nat) (h h' : Heap) (w : Wheel) :
  links_shrink h h' -> Rooted k h w -> Rooted k h' w.
Proof.
  intros Hsh Hr. induction Hr as [w He Hc IH]. constructor.
  - intros i p Hp. eapply ends_shrink; [exact Hsh|]. eapply He, Hp.
  - intros i c Hi. eapply IH, Hi.
Qed.

Lemma fire_slot_total (hdl : Handler) (k : nat) :
  tame hdl ->
  forall (fuel : nat) (hd : option ptr) (count : Z) (m : Mem),
    ends k (heap m) hd -> (k <= fuel)%nat ->
    exists (count' : Z) (m' : Mem),
      fire_slot fuel hdl hd count m = Ok (count', m') /\
      links_shrink (heap m) (heap m').
Proof.
  intros Ht. induction k as [| k IH]; intros fuel hd count m He Hfuel;
    destruct hd as [p|]; simpl in He; try contradiction.
  - rewrite fire_slot_None. eexists _, _. split; [reflexivity | apply links_shrink_refl].
  - destruct He as (c & Hp & He). destruct fuel as [| fuel]; [lia|].
    rewrite fire_slot_S, (getNext_Some _ _ _ Hp). cbn [mbind result_bind].
    pose proof (tame_dispatch hdl p m Ht) as Hsh.
    destruct (IH fuel (next c) (i64 (count + 1)) (dispatch hdl p m))
      as (count' & m' & Hfire & Hsh'); [eapply ends_shrink; eassumption | lia |].
    exists count', m'. split; [assumption|]. eapply links_shrink_trans; eassumption.
  - rewrite fire_slot_None. eexists _, _. split; [reflexivity | apply links_shrink_refl].
Qed.

Lemma Rooted_entry (k : nat) (h : Heap) (w : Wheel) (i : nat) (hd : option ptr) :
  Rooted k h w -> entries w !! i = Some hd -> ends k h hd.
Proof.
  intros [w' He _] Hi. destruct hd as [p|].
  - eapply He, Hi.
  - destruct k; exact I.
Qed.

Lemma Rooted_kid (k : nat) (h : Heap) (w c : Wheel) (i : nat) :
  Rooted k h w -> subWheels w !! i = Some (Some c) -> Rooted k h c.
Proof. intros [w' _ Hc] Hi. eapply Hc, Hi. Qed.

Lemma Rooted_clear_entry (k : nat) (h : Heap) (w : Wheel) (b : Z) (i : nat) :
  Rooted k h w ->
  Rooted k h (mkWheel (level w) b (<[i := None]> (entries w)) (subWheels w)).
Proof.
  intros [w' He Hc]. constructor; cbn [entries subWheels]; [|assumption].
  intros j p Hj. destruct (decide (j = i)) as [-> | Hne].
  - destruct (decide (i < length (entries w'))%nat).
    + rewrite list_lookup_insert_eq in Hj by assumption. discriminate.
    + rewrite list_insert_ge in Hj by lia. eapply He, Hj.
  - rewrite list_lookup_insert_ne in Hj by congruence. eapply He, Hj.
Qed.

Lemma Rooted_set_kid (k : nat) (h : Heap) (w : Wheel) (b : Z) (i : nat)
    (o : option Wheel) :
  Rooted k h w -> (forall c, o = Some c -> Rooted k h c) ->
  Rooted k h (mkWheel (level w) b (entries w) (<[i := o]> (subWheels w))).
Proof.
  intros [w' He Hc] Ho. constructor; cbn [entries subWheels]; [assumption|].
  intros j c Hj. destruct (decide (j = i)) as [-> | Hne].
  - destruct (decide (i < length (subWheels w'))%nat).
    + rewrite list_lookup_insert_eq in Hj by assumption. injection Hj as ->.
      apply Ho. reflexivity.
    + rewrite list_insert_ge in Hj by lia. eapply Hc, Hj.
  - rewrite list_lookup_insert_ne in Hj by congruence. eapply Hc, Hj.
Qed.

Lemma kids_after_drop (w : Wheel) (i j : nat) (c : Wheel) :
  <[i := None]> (subWheels w) !! j = Some (Some c) ->
  subWheels w !! j = Some (Some c).
Proof.
  intros Hj. destruct (decide (j = i)) as [-> | Hne].
  - destruct (decide (i < length (subWheels w))%nat).
    + rewrite list_lookup_insert_eq in Hj by assumption. discriminate.
    + rewrite list_insert_ge in Hj by lia. assumption.
  - rewrite list_lookup_insert_ne in Hj by congruence. assumption.
Qed.

(** The loop returns when the calls on the children do. *)
Lemma scan_total (rec : Wheel -> Z -> Mem -> result (Z * Wheel * Mem))
    (fuel : nat) (hdl : Handler) (r : Z) (k : nat) :
  tame hdl -> (k <= fuel)%nat ->
  forall (passes : nat) (w : Wheel) (count : Z) (m : Mem),
    Shaped w -> Faithful w -> Rooted k (heap m) w ->
    (length (set_bits (bitmap w)) <= passes)%nat ->
    (forall (i : nat) (c : Wheel), subWheels w !! i = Some (Some c) ->
       forall r' m', Rooted k (heap m') c ->
         exists n c' m'', rec c r' m' = Ok (n, c', m'') /\
                          links_shrink (heap m') (heap m'') /\
                          Rooted k (heap m'') c') ->
    exists (count' : Z) (w' : Wheel) (m' : Mem),
      scan rec fuel hdl passes w r count m = Ok (count', w', m') /\
      links_shrink (heap m) (heap m') /\ Rooted k (heap m') w'.
Proof.
  intros Ht Hk.
  assert (Hstop : forall (count : Z) (w : Wheel) (m : Mem), Rooted k (heap m) w ->
            exists (count' : Z) (w' : Wheel) (m' : Mem),
              Ok (count, w, m) = Ok (count', w', m') /\
              links_shrink (heap m) (heap m') /\ Rooted k (heap m') w').
  { intros count w m Hro. exists count, w, m.
    split; [reflexivity|]. split; [apply links_shrink_refl | assumption]. }
  induction passes as [| passes IH]; intros w count m Hs Hf Hro Hlen Hrec;
    rewrite scan_unfold; pose proof (Faithful_range _ Hf) as Hb.
  - destruct (Z.eqb_spec (bitmap w) 0) as [Hz | Hnz]; [auto|].
    rewrite set_bits_cons in Hlen by assumption. simpl in Hlen. lia.
  - destruct (Z.eqb_spec (bitmap w) 0) as [Hz | Hnz]; [auto|].
    rewrite set_bits_cons in Hlen by assumption. cbn [length] in Hlen.
    destruct (ctz_spec _ Hb Hnz) as (Hidx & Hbit & _). cbv zeta.
    set (index := TrailingZeros64 (bitmap w)) in *.
    pose proof (Shaped_level _ Hs) as Hl.
    destruct (level w =? 0) eqn:El.
    + destruct (index >? r); [auto|].
      destruct (Shaped_aget_entries w index Hs Hidx) as [hd Hhd]. rewrite Hhd.
      cbn [mbind result_bind]. apply aget_Ok in Hhd. destruct Hhd as [_ Hhd].
      destruct (fire_slot_total hdl k Ht fuel hd count m) as (count1 & m1 & Hfire & Hsh);
        [eapply Rooted_entry; eassumption | assumption |].
      rewrite Hfire. cbn [mbind result_bind].
      rewrite aset_lt by (apply lookup_lt_Some in Hhd; lia). cbn [mbind result_bind].
      destruct (IH (clear_bit (set_entries w (<[Z.to_nat index := None]> (entries w))) index)
                   count1 m1) as (count' & w' & m' & Hscan & Hsh' & Hro').
      * apply (Shaped_set_entries w). assumption.
      * apply (Faithful_clear0 w index); assumption.
      * apply (Rooted_clear_entry k (heap m1) w). eapply Rooted_shrink; eassumption.
      * cbn [bitmap clear_bit set_bitmap set_entries]. lia.
      * cbn [subWheels clear_bit set_bitmap set_entries]. exact Hrec.
      * exists count', w', m'. split; [assumption|].
        split; [eapply links_shrink_trans; eassumption | assumption].
    + destruct (tables _ Hl) as (Hmps & _). rewrite Hmps. cbn [mbind result_bind].
      destruct (u64 (index * 64 ^ level w) >? r); [auto|].
      apply (Faithful_bit w index Hf Hidx) in Hbit. rewrite El in Hbit.
      destruct Hbit as [child Hsub].
      assert (Hget : aget (subWheels w) index = Ok (Some child))
        by (apply aget_Ok; split; [lia | assumption]).
      rewrite Hget. cbn [mbind result_bind].
      destruct (Hrec _ _ Hsub (u64 (r - u64 (index * 64 ^ level w))) m)
        as (n & child' & m1 & Hcall & Hsh & Hroc); [eapply Rooted_kid; eassumption|].
      rewrite Hcall. cbn [mbind result_bind].
      assert (Hlt : 0 <= index < Z.of_nat (length (subWheels w)))
        by (apply lookup_lt_Some in Hsub; lia).
      destruct (Empty child').
      * rewrite aset_lt by assumption. cbn [mbind result_bind].
        destruct (IH (clear_bit (set_subWheels w (<[Z.to_nat index := None]> (subWheels w)))
                                index)
                     (i64 (count + n)) m1) as (count' & w' & m' & Hscan & Hsh' & Hro').
        -- apply (Shaped_drop_child w). assumption.
        -- apply (Faithful_clearS w index); assumption.
        -- apply (Rooted_set_kid k (heap m1) w); [|discriminate].
           eapply Rooted_shrink; eassumption.
        -- cbn [bitmap clear_bit set_bitmap set_subWheels]. lia.
        -- cbn [subWheels clear_bit set_bitmap set_subWheels].
           intros i c Hc. apply kids_after_drop in Hc. eapply Hrec, Hc.
        -- exists count', w', m'. split; [assumption|].
           split; [eapply links_shrink_trans; eassumption | assumption].
      * rewrite aset_lt by assumption. cbn [mbind result_bind].
        eexists _, _, m1. split; [reflexivity|]. split; [assumption|].
        apply (Rooted_set_kid k (heap m1) w).
        -- eapply Rooted_shrink; eassumption.
        -- intros c [= <-]. assumption.
Qed.

(** [HandleExpiredEntries] returns on a shaped, faithful wheel whose buckets
    head chains of at most [k] cells, given fuel for the depth of the wheel
    and the length of the chains. *)
Lemma HandleExpiredEntries_total (hdl : Handler) (k : nat) :
  tame hdl ->
  forall (fuel : nat) (w : Wheel) (r : Z) (m : Mem),
    Shaped w -> Faithful w -> Rooted k (heap m) w ->
    (k + Z.to_nat (level w) < fuel)%nat ->
    exists (count : Z) (w' : Wheel) (m' : Mem),
      HandleExpiredEntries fuel hdl w r m = Ok (count, w', m') /\
      links_shrink (heap m) (heap m') /\ Rooted k (heap m') w'.
Proof.
  intros Ht. induction fuel as [| fuel IH]; intros w r m Hs Hf Hro Hfuel; [lia|].
  rewrite HandleExpiredEntries_S.
  apply (scan_total _ (S fuel) hdl r k Ht); try assumption.
  - lia.
  - change (Z.to_nat SlotSize) with 64%nat. apply set_bits_length.
  - intros i c Hc r' m' Hroc.
    destruct (Shaped_child _ _ _ Hs Hc) as [Hsc Hlc].
    pose proof (Shaped_level _ Hsc) as Hl.
    apply IH; try assumption.
    + eapply Faithful_kid; eassumption.
    + lia.
Qed.

(** The handler of the tests meets both conditions on handlers: [Execute]
    writes no cell. *)
Lemma execute_handler_heap (p : ptr) (m : Mem) : heap (execute_handler p m) = heap m.
Proof.
  unfold execute_handler, Execute.
  destruct (deref (Some p) (heap m)) as [c | |]; cbn [mbind result_bind];
    try reflexivity.
  destruct (negb (removed c)); [|reflexivity].
  destruct (callback c); reflexivity.
Qed.

Lemma execute_handler_tame : tame execute_handler.
Proof.
  intros p m q c Hq. rewrite execute_handler_heap. exists c. auto.
Qed.

Lemma execute_handler_framed : framed execute_handler.
Proof.
  intros p m q c _ Hq. rewrite execute_handler_heap. exists c. auto.
Qed.



(** The tests of the wheel, run on the model. *)

Example TestWheelBasic :
  Empty (NewWheel 0) = true /\
  ('(w, h) ← AddEntry 1 (NewWheel 0) 1 10 (heap mem_far);
   t ← NextExpirationTime 1 w;
   '(w', _) ← RemoveEntry 1 w 1 10 h;
   Ok (Empty w, t, Empty w')) = Ok (false, 10, true).
Proof. split; vm_compute; reflexivity. Qed.

Example TestWheelMultiLevel :
  ('(w, _) ← AddEntry 2 (NewWheel 1) 1 100 (heap mem_far); Ok w) = Ok wheel_100ms /\
  NextExpirationTime 2 wheel_100ms = Ok 100.
Proof. split; vm_compute; reflexivity. Qed.

Example TestWheelHandleExpired :
  let h := NewEntry 5 5 None (NewEntry 4 4 None (NewEntry 3 3 None
             (NewEntry 2 2 None (NewEntry 1 1 None ∅)))) in
  ('(w, h) ← AddEntry 1 (NewWheel 0) 1 1 h;
   '(w, h) ← AddEntry 1 w 2 2 h;
   '(w, h) ← AddEntry 1 w 3 3 h;
   '(w, h) ← AddEntry 1 w 4 4 h;
   '(w, h) ← AddEntry 1 w 5 5 h;
   '(count, w, m) ← HandleExpiredEntries 2 execute_handler w 3 (mkMem h [] []);
   Ok (count, fired m, bitmap w)) = Ok (3, [1; 2; 3]%nat, 48).
Proof. vm_compute. reflexivity. Qed.

(** ** The driver keeps its wheel faithful *)

Lemma all_clear_zero (b : Z) :
  0 <= b < 2 ^ 64 -> (forall i, 0 <= i < 64 -> Z.testbit b i = false) -> b = 0.
Proof.
  intros Hb H. destruct (Z.eq_dec b 0) as [|Hnz]; [assumption|].
  destruct (nonzero_has_bit b Hb Hnz) as (i & Hi & Ht).
  rewrite H in Ht by lia. discriminate.
Qed.

(** After the scan, the slots that have elapsed whole are empty. *)
Lemma scan_clears_below (rec : Wheel -> Z -> Mem -> result (Z * Wheel * Mem))
    (fuel : nat) (hdl : Handler) (r : Z) :
  0 <= r < 2 ^ 64 ->
  (forall c r' m n c' m',
     rec c r' m = Ok (n, c', m') -> Shaped c -> Faithful c ->
     0 <= r' < 2 ^ 64 -> 64 ^ (level c + 1) <= r' -> bitmap c' = 0) ->
  forall (passes : nat) (w : Wheel) (count : Z) (m : Mem)
         (count' : Z) (w' : Wheel) (m' : Mem),
    scan rec fuel hdl passes w r count m = Ok (count', w', m') ->
    Shaped w -> Faithful w ->
    forall i, 0 <= i < 64 -> (i + 1) * 64 ^ level w <= r ->
              Z.testbit (bitmap w') i = false.
Proof.
  intros Hr Hrec. induction passes as [| passes IH];
    intros w count m count' w' m' H Hs Hf i Hi Hel; rewrite scan_unfold in H.
  - destruct (Z.eqb_spec (bitmap w) 0) as [Hz | Hnz]; [|discriminate].
    injection H as _ <- _. rewrite Hz. apply Z.bits_0.
  - destruct (Z.eqb_spec (bitmap w) 0) as [Hz | Hnz].
    { injection H as _ <- _. rewrite Hz. apply Z.bits_0. }
    pose proof (Faithful_range _ Hf) as Hb. pose proof (Shaped_level _ Hs) as Hl.
    destruct (ctz_spec _ Hb Hnz) as (Hidx & Hbit & Hlow). cbv zeta in H.
    set (index := TrailingZeros64 (bitmap w)) in *.
    destruct (level w =? 0) eqn:El.
    + apply Z.eqb_eq in El. rewrite El in Hel. change (64 ^ 0) with 1 in Hel.
      destruct (Z.gtb_spec index r) as [Hgt | Hle].
      { injection H as _ <- _. apply Hlow. lia. }
      ok_inv H. ok_inv H. destruct a0 as [count1 m1]. ok_inv H.
      apply aset_Ok in Ha1. destruct Ha1 as (_ & _ & ->).
      eapply IH; [exact H | | | exact Hi |].
      * apply (Shaped_set_entries w). assumption.
      * apply (Faithful_clear0 w index); [assumption | apply Z.eqb_eq | ]; assumption.
      * cbn [level clear_bit set_bitmap set_entries]. rewrite El. change (64 ^ 0) with 1. lia.
    + destruct (tables _ Hl) as (Hmps & _). rewrite Hmps in H. cbn [mbind result_bind] in H.
      pose proof (slot_start_small index (level w) Hidx Hl) as Hsmall.
      rewrite (u64_small (index * 64 ^ level w)) in H by assumption.
      pose proof (pow64_pos (level w) ltac:(lia)) as Hpos.
      destruct (Z.gtb_spec (index * 64 ^ level w) r) as [Hgt | Hle].
      { injection H as _ <- _. apply Hlow. nia. }
      ok_inv H. rename a into sub. apply aget_Ok in Ha. destruct Ha as [_ Hsub].
      destruct sub as [child|]; [|discriminate].
      ok_inv H. destruct a as [[n child'] m1].
      destruct (Shaped_child _ _ _ Hs Hsub) as [Hsc Hlc].
      pose proof (Faithful_kid _ _ _ Hf Hsub) as Hfc.
      unfold Empty in H. destruct (Z.eqb_spec (bitmap child') 0) as [Hz' | Hnz'].
      * ok_inv H. apply aset_Ok in Ha0. destruct Ha0 as (_ & _ & ->).
        eapply IH; [exact H | | | exact Hi | exact Hel].
        -- apply (Shaped_drop_child w). assumption.
        -- apply (Faithful_clearS w index); assumption.
      * ok_inv H. injection H as _ <- _.
        cbn [bitmap set_subWheels]. apply Hlow. split; [lia|].
        destruct (Z.lt_ge_cases i index) as [|Hge]; [assumption|]. exfalso.
        apply Hnz'. eapply Hrec; [exact Ha | assumption | assumption | |].
        -- rewrite u64_small by lia. lia.
        -- rewrite u64_small by lia. rewrite Hlc.
           replace (level w - 1 + 1) with (level w) by lia. nia.
Qed.

Lemma HandleExpiredEntries_clears_below (fuel : nat) (hdl : Handler) :
  forall (w : Wheel) (r : Z) (m : Mem) (count : Z) (w' : Wheel) (m' : Mem),
    HandleExpiredEntries fuel hdl w r m = Ok (count, w', m') ->
    Shaped w -> Faithful w -> 0 <= r < 2 ^ 64 ->
    forall i, 0 <= i < 64 -> (i + 1) * 64 ^ level w <= r ->
              Z.testbit (bitmap w') i = false.
Proof.
  induction fuel as [| fuel IH]; intros w r m count w' m' H Hs Hf Hr;
    [discriminate H|].
  rewrite HandleExpiredEntries_S in H.
  eapply scan_clears_below; [exact Hr | | exact H | exact Hs | exact Hf].
  intros c r' m0 n c' m0' Hcall Hsc Hfc Hr' Hfull.
  apply all_clear_zero.
  - apply Faithful_range. eapply HandleExpiredEntries_Faithful; eassumption.
  - intros i Hi. eapply IH; try eassumption.
    pose proof (Shaped_level _ Hsc) as Hl.
    pose proof (pow64_pos (level c) ltac:(lia)) as Hpos.
    rewrite (pow64_succ (level c + 1)) in Hfull by lia.
    replace (level c + 1 - 1) with (level c) in Hfull by lia. nia.
Qed.

(** A remaining time that covers the whole span empties the wheel: the
    driver then drops the wheel and does not reach [Rotate]. *)
Lemma HandleExpiredEntries_empties (fuel : nat) (hdl : Handler) (w : Wheel)
    (r : Z) (m : Mem) (count : Z) (w' : Wheel) (m' : Mem) :
  HandleExpiredEntries fuel hdl w r m = Ok (count, w', m') ->
  Shaped w -> Faithful w -> 0 <= r < 2 ^ 64 -> 64 ^ (level w + 1) <= r ->
  Empty w' = true.
Proof.
  intros H Hs Hf Hr Hfull. unfold Empty. apply Z.eqb_eq. apply all_clear_zero.
  - apply Faithful_range. eapply HandleExpiredEntries_Faithful; eassumption.
  - intros i Hi. eapply HandleExpiredEntries_clears_below; try eassumption.
    pose proof (Shaped_level _ Hs) as Hl.
    pose proof (pow64_pos (level w) ltac:(lia)) as Hpos.
    rewrite (pow64_succ (level w + 1)) in Hfull by lia.
    replace (level w + 1 - 1) with (level w) in Hfull by lia. nia.
Qed.

(** The pair of calls the driver makes, [HandleExpiredEntries(interval)]
    and then [Rotate(interval / MsPerSlot)], keeps the wheel faithful; a
    wheel left non-empty by the first stays so after the second. *)
Lemma expire_then_Rotate (fuel : nat) (hdl : Handler) (w : Wheel) (r : Z) (m : Mem)
    (count : Z) (w' : Wheel) (m' : Mem) (mps : Z) :
  HandleExpiredEntries fuel hdl w r m = Ok (count, w', m') ->
  Shaped w -> Faithful w -> 0 <= r < 2 ^ 64 -> MsPerSlot w' = Ok mps ->
  Faithful (Rotate w' (r / mps)) /\ Shaped (Rotate w' (r / mps)) /\
  (bitmap w' <> 0 -> bitmap (Rotate w' (r / mps)) <> 0).
Proof.
  intros H Hs Hf Hr Hmps.
  pose proof (HandleExpiredEntries_Faithful _ _ _ _ _ _ _ _ H Hf) as Hf'.
  destruct (HandleExpiredEntries_Shaped _ _ _ _ _ _ _ _ H Hs) as [Hs' Hl'].
  pose proof (Shaped_level _ Hs) as Hl.
  unfold MsPerSlot in Hmps. rewrite Hl' in Hmps.
  destruct (tables _ Hl) as (Ht & _). rewrite Ht in Hmps. injection Hmps as <-.
  pose proof (pow64_pos (level w) ltac:(lia)) as Hpos.
  set (n := r / 64 ^ level w).
  assert (Hn0 : 0 <= n) by (apply Z.div_pos; lia).
  assert (Hnr : n * 64 ^ level w <= r).
  { unfold n. rewrite Z.mul_comm. apply Z.mul_div_le. assumption. }
  assert (Hlow : forall i, 0 <= i < n -> Z.testbit (bitmap w') i = false).
  { intros i Hi. destruct (Z.lt_ge_cases i 64) as [Hlt | Hge].
    - eapply HandleExpiredEntries_clears_below; try eassumption; [lia | nia].
    - pose proof (Faithful_range _ Hf') as Hb. apply u64_bits in Hb.
      destruct Hb as [_ Hb]. apply Hb. assumption. }
  split; [|split].
  - apply Rotate_Faithful; try assumption.
    + destruct Hs'; assumption.
    + destruct Hs'; assumption.
    + intros i Hi. apply Hlow. lia.
  - apply Rotate_Shaped; assumption.
  - intros Hnz. unfold Rotate.
    destruct (Z.eqb_spec n 0) as [E0 | E0]; [assumption|].
    destruct (Z.geb_spec n SlotSize) as [G | G]; [assumption|].
    cbn [orb]. destruct (nonzero_has_bit _ (Faithful_range _ Hf') Hnz) as (j & Hj & Hbit).
    assert (Hjn : n <= Z.of_nat j).
    { destruct (Z.lt_ge_cases (Z.of_nat j) n) as [Hlt | Hge]; [|assumption].
      rewrite Hlow in Hbit by lia. discriminate. }
    apply testbit_true_nonzero with (Z.of_nat j - n).
    destruct (level w' =? 0); cbn [bitmap set_bitmap set_entries set_subWheels];
      rewrite Z.shiftr_spec by lia;
      (replace (Z.of_nat j - n + n) with (Z.of_nat j) by lia); assumption.
Qed.

Lemma levelDownIfNeeded_unfold (fuel : nat) (t : Timer) :
  levelDownIfNeeded fuel t =
    match wheel t with
    | None => Ok t
    | Some w =>
        if CanLevelDown w then
          match fuel with
          | O => OutOfFuel
          | S fuel => levelDownIfNeeded fuel (set_wheel t (LevelDown w))
          end
        else Ok t
    end.
Proof. destruct fuel; reflexivity. Qed.

Lemma wheel_ok_LevelDown (t : Timer) (w : Wheel) :
  Shaped w -> Faithful w -> wheel_ok (set_wheel t (LevelDown w)).
Proof.
  intros Hs Hf c Hc. cbn [wheel set_wheel] in Hc.
  apply LevelDown_Some in Hc. destruct Hc as [_ Hc].
  destruct (Shaped_child _ _ _ Hs Hc) as [Hsc _].
  split; [assumption|]. split.
  - eapply Faithful_kid; eassumption.
  - eapply Faithful_child_nonzero; eassumption.
Qed.

Lemma levelDownIfNeeded_keeps (fuel : nat) :
  forall (t t' : Timer),
    levelDownIfNeeded fuel t = Ok t' -> wheel_ok t -> wheel_ok t'.
Proof.
  induction fuel as [| fuel IH]; intros t t' H Hok;
    rewrite levelDownIfNeeded_unfold in H;
    destruct (wheel t) as [w|] eqn:Hw; try (injection H as <-; assumption);
    destruct (CanLevelDown w); try discriminate H;
    try (injection H as <-; assumption).
  destruct (Hok w Hw) as (Hs & Hf & _).
  eapply IH; [exact H|]. apply wheel_ok_LevelDown; assumption.
Qed.

(** The loop of [levelDownIfNeeded] ends within [level] passes. *)
Lemma levelDownIfNeeded_total (fuel : nat) :
  forall t : Timer,
    wheel_ok t ->
    (forall w, wheel t = Some w -> (Z.to_nat (level w) <= fuel)%nat) ->
    is_Ok (levelDownIfNeeded fuel t).
Proof.
  induction fuel as [| fuel IH]; intros t Hok Hfuel;
    rewrite levelDownIfNeeded_unfold;
    destruct (wheel t) as [w|] eqn:Hw; try (eexists; reflexivity);
    destruct (Hok w Hw) as (Hs & Hf & Hnz); pose proof (Shaped_level _ Hs) as Hl;
    specialize (Hfuel w eq_refl); unfold CanLevelDown;
    destruct (Z.eqb_spec (bitmap w) 1) as [Hb1 | Hb1]; cbn [andb];
    try (eexists; reflexivity);
    destruct (Z.gtb_spec (level w) 0) as [Hgt | Hle];
    try (eexists; reflexivity); try lia.
  apply IH.
  - apply wheel_ok_LevelDown; assumption.
  - intros c Hc. cbn [wheel set_wheel] in Hc. apply LevelDown_Some in Hc.
    destruct Hc as [_ Hc]. destruct (Shaped_child _ _ _ Hs Hc) as [_ Hlc]. lia.
Qed.

Lemma pick_level_range (fuel : nat) :
  forall (lvl interval l' : Z),
    pick_level fuel lvl interval = Ok l' -> 0 <= lvl <= MaxLevel ->
    0 <= l' <= MaxLevel.
Proof.
  induction fuel as [| fuel IH]; intros lvl interval l' H Hl; cbn [pick_level] in H.
  - destruct (lvl <? MaxLevel); [discriminate|]. injection H as <-. assumption.
  - destruct (Z.ltb_spec lvl MaxLevel) as [Hlt | Hge].
    + ok_inv H. destruct (interval <? a).
      * injection H as <-. assumption.
      * unfold MaxLevel in *. rewrite i64_small in H by lia.
        eapply IH; [exact H|]. unfold MaxLevel. lia.
    + injection H as <-. assumption.
Qed.

Lemma level_up_keeps (fuel : nat) :
  forall (w : Wheel) (interval : Z) (w' : Wheel),
    level_up fuel w interval = Ok w' ->
    Shaped w -> Faithful w -> bitmap w <> 0 ->
    Shaped w' /\ Faithful w' /\ bitmap w' <> 0.
Proof.
  induction fuel as [| fuel IH]; intros w interval w' H Hs Hf Hnz;
    rewrite level_up_unfold in H; ok_inv H;
    destruct (interval >=? a); cbn [andb] in H;
    try (injection H as <-; auto);
    unfold Level in H; destruct (Z.ltb_spec (level w) MaxLevel) as [Hlt | Hge];
    try discriminate H; try (injection H as <-; auto).
  pose proof (Shaped_level _ Hs) as Hl.
  destruct (LevelUp_Shaped w Hs Hlt) as [Hs' _].
  eapply IH; [exact H | assumption | |].
  - apply LevelUp_Faithful; [assumption | assumption |].
    rewrite i64_small by lia. lia.
  - discriminate.
Qed.

(** [addToWheel] keeps the invariant of the driver. *)
Lemma addToWheel_keeps (fuel : nat) (t : Timer) (entry : ptr) (now : Z) (m : Mem)
    (t' : Timer) (m' : Mem) :
  addToWheel fuel t entry now m = Ok (t', m') -> wheel_ok t -> wheel_ok t'.
Proof.
  intros H Hok. unfold addToWheel in H. ok_inv H. rename a into e.
  destruct (expireAt e <=? now). { injection H as <- _. assumption. }
  ok_inv H. destruct a as [t1 h1]. injection H as <- _.
  assert (Hok1 : wheel_ok t1).
  { destruct (wheel t) as [w|] eqn:Hw.
    - unfold levelUpAndAdd in Ha0. rewrite Hw in Ha0.
      ok_inv Ha0. rename a into w1. ok_inv Ha0. destruct a as [w2 h2].
      injection Ha0 as <- _.
      destruct (Hok w Hw) as (Hs & Hf & Hnz).
      destruct (level_up_keeps _ _ _ _ Ha1 Hs Hf Hnz) as (Hs1 & Hf1 & _).
      intros c [= <-].
      destruct (AddEntry_Faithful _ _ _ _ _ _ _ Ha2 Hf1) as [Hf2 Hnz2].
      destruct (AddEntry_Shaped _ _ _ _ _ _ _ Ha2 Hs1) as [Hs2 _]. auto.
    - unfold buildWheelAndAdd in Ha0. ok_inv Ha0. rename a into lvl.
      ok_inv Ha0. destruct a as [w2 h2]. injection Ha0 as <- _.
      apply pick_level_range in Ha1; [|unfold MaxLevel; lia].
      intros c [= <-].
      destruct (AddEntry_Faithful _ _ _ _ _ _ _ Ha2 (Faithful_NewWheel lvl)) as [Hf2 Hnz2].
      destruct (AddEntry_Shaped _ _ _ _ _ _ _ Ha2 (Shaped_NewWheel lvl Ha1)) as [Hs2 _].
      auto. }
  intros c Hc. apply Hok1. exact Hc.
Qed.

(** [handleExpired], with the maintenance it ends on, keeps the invariant
    of the driver. *)
Lemma handleExpired_keeps (fuel : nat) (t : Timer) (now : Z) (m : Mem)
    (t' : Timer) (m' : Mem) :
  handleExpired fuel t now m = Ok (t', m') -> wheel_ok t -> wheel_ok t'.
Proof.
  intros H Hok. unfold handleExpired in H.
  destruct (wheel t) as [w|] eqn:Hw; [|injection H as <- _; assumption].
  destruct (numEntries t =? 0). { injection H as <- _. assumption. }
  set (interval := u64 (Milliseconds (Sub now (start t)))) in *.
  assert (Hr : 0 <= interval < 2 ^ 64) by (apply Z.mod_pos_bound; reflexivity).
  ok_inv H. destruct a as [[count w1] m1]. ok_inv H. injection H as <- _.
  destruct (Hok w Hw) as (Hs & Hf & _).
  unfold maintenance in Ha0. cbn [wheel set_wheel set_numEntries] in Ha0.
  unfold Empty in Ha0. destruct (Z.eqb_spec (bitmap w1) 0) as [Hz | Hnz].
  { injection Ha0 as <-. intros c Hc. discriminate Hc. }
  ok_inv Ha0. rename a0 into mps. ok_inv Ha0. rename a0 into t2.
  eapply levelDownIfNeeded_keeps; [exact Ha0|].
  destruct (expire_then_Rotate _ _ _ _ _ _ _ _ _ Ha Hs Hf Hr Ha1) as (Hf' & Hs' & Hnz').
  destruct (interval / mps >? 0).
  - ok_inv Ha2. injection Ha2 as <-. intros c [= <-]. auto.
  - injection Ha2 as <-. intros c [= <-].
    split; [eapply HandleExpiredEntries_Shaped; eassumption|].
    split; [eapply HandleExpiredEntries_Faithful; eassumption | assumption].
Qed.

(** ** The invariant as a whole *)




Lemma NextExpirationTime_spec_witness :
  Shaped wheel_100ms /\ Faithful wheel_100ms /\
  (Z.to_nat (level wheel_100ms) <= 1)%nat /\
  exists t : Z,
    NextExpirationTime 2 wheel_100ms = Ok t /\
    (bitmap wheel_100ms <> 0 ->
       let index := TrailingZeros64 (bitmap wheel_100ms) in
       0 <= index < 64 /\ Z.testbit (bitmap wheel_100ms) index = true /\
       (forall j, 0 <= j < index -> Z.testbit (bitmap wheel_100ms) j = false) /\
       (level wheel_100ms <> 0 ->
          exists (child : Wheel) (tc : Z),
            subWheels wheel_100ms !! Z.to_nat index = Some (Some child) /\
            aget msPerSlot (level wheel_100ms) = Ok (64 ^ level wheel_100ms) /\
            NextExpirationTime 1 child = Ok tc /\
            t = index * 64 ^ level wheel_100ms + tc /\
            0 <= tc < 64 ^ level wheel_100ms)).
Proof.
  assert (Hs : Shaped wheel_100ms) by (apply shapedb_sound; vm_compute; reflexivity).
  assert (Hf : Faithful wheel_100ms) by (apply faithfulb_sound; vm_compute; reflexivity).
  assert (Hd : (Z.to_nat (level wheel_100ms) <= 1)%nat) by (vm_compute; lia).
  split; [exact Hs | split; [exact Hf | split; [exact Hd |]]].
  exact (proj2 (proj2 (proj2 (NextExpirationTime_spec 1 wheel_100ms))) Hs Hf Hd).
Defined.

(** ** The scenarios of the timer tests, run on the driver's functions *)

(** [TestTimerBasic]: one task due in 50 ms; the worker drains at time 0
    and looks for expired entries at 100 ms: one dispatch, one call. *)
Example TestTimerBasic :
  ('(entry, t, h) ← AddEntryAt (Start (NewTimer execute_handler)) 1
                       (50 * Millisecond) (Some 7%nat) ∅;
   '(_, _, t, m) ← DrainAll 8 (queue t) (fun entry t m => addToWheel 8 t entry 0 m)
                     t (mkMem h [] []);
   '(t', m') ← handleExpired 8 t (100 * Millisecond) m;
   Ok (Pending t, Pending t', wheel t', fired m', calls m'))
  = Ok (1, 0, None, [1%nat], [7%nat]).
Proof. vm_compute. reflexivity. Qed.

(** [TestTimerCancel]: the same task, canceled right after scheduling: it is
    dispatched, and its callback is not called. *)
Example TestTimerCancel :
  ('(entry, t, h) ← AddEntryAt (Start (NewTimer execute_handler)) 1
                       (50 * Millisecond) (Some 7%nat) ∅;
   m ← Cancel entry (mkMem h [] []);
   '(_, _, t, m) ← DrainAll 8 (queue t) (fun entry t m => addToWheel 8 t entry 0 m)
                     t m;
   '(t', m') ← handleExpired 8 t (100 * Millisecond) m;
   Ok (Pending t, Pending t', wheel t', fired m', calls m'))
  = Ok (1, 0, None, [1%nat], []).
Proof. vm_compute. reflexivity. Qed.


(** * Further properties *)

(** ** The earliest slot after [AddEntry] *)

Lemma ctz_unique (b j : Z) :
  0 <= b < 2 ^ 64 -> 0 <= j -> Z.testbit b j = true ->
  (forall k, 0 <= k < j -> Z.testbit b k = false) ->
  TrailingZeros64 b = j.
Proof.
  intros Hb Hj Ht Hlow.
  pose proof (testbit_true_nonzero _ _ Ht) as Hnz.
  destruct (ctz_spec _ Hb Hnz) as (Hi & Hti & Hli).
  destruct (Z.lt_trichotomy (TrailingZeros64 b) j) as [Hlt | [-> | Hgt]].
  - rewrite Hlow in Hti by lia. discriminate.
  - reflexivity.
  - rewrite Hli in Ht by lia. discriminate.
Qed.

Lemma ctz_set_bit (b i : Z) :
  0 <= b < 2 ^ 64 -> 0 <= i < 64 ->
  TrailingZeros64 (Z.lor b (u64 (Z.shiftl 1 i))) =
    if b =? 0 then i else Z.min i (TrailingZeros64 b).
Proof.
  intros Hb Hi. pose proof (set_bit_range _ _ Hb Hi) as Hr.
  destruct (Z.eqb_spec b 0) as [-> | Hnz].
  - apply ctz_unique; [assumption | lia | |].
    + rewrite set_bit_testbit by lia. rewrite Z.eqb_refl. apply orb_true_r.
    + intros k Hk. rewrite set_bit_testbit by lia. rewrite Z.bits_0.
      destruct (Z.eqb_spec i k); [lia | reflexivity].
  - destruct (ctz_spec _ Hb Hnz) as (Hi0 & Hti & Hli).
    apply ctz_unique; [assumption | lia | |].
    + rewrite set_bit_testbit by lia.
      destruct (Z.min_spec i (TrailingZeros64 b)) as [[_ ->] | [_ ->]].
      * rewrite Z.eqb_refl. apply orb_true_r.
      * rewrite Hti. reflexivity.
    + intros k Hk. rewrite set_bit_testbit by lia. rewrite Hli by lia.
      destruct (Z.eqb_spec i k); [lia | reflexivity].
Qed.

(** The slot index at level [l] and what is left below it. *)
Lemma interval_split (d l : Z) :
  0 <= l ->
  d mod 64 ^ (l + 1) = Z.land (Z.shiftr d (6 * l)) 0x3F * 64 ^ l + d mod 64 ^ l.
Proof.
  intros Hl. change 0x3F with (Z.ones 6). rewrite Z.land_ones by lia.
  rewrite Z.shiftr_div_pow2 by lia.
  replace (2 ^ (6 * l)) with (64 ^ l)
    by (change 64 with (2 ^ 6); rewrite <- Z.pow_mul_r by lia; reflexivity).
  rewrite Z.pow_add_r by lia. change (64 ^ 1) with 64. change (2 ^ 6) with 64.
  pose proof (pow64_pos l Hl) as Hpos.
  rewrite Z.rem_mul_r by lia. lia.
Qed.

Lemma NextExpirationTime_empty (fuel : nat) (w : Wheel) :
  bitmap w = 0 -> NextExpirationTime (S fuel) w = Ok max_u64.
Proof.
  intros H. rewrite NextExpirationTime_S. unfold Empty. rewrite H. reflexivity.
Qed.

Lemma NextExpirationTime_leaf (fuel : nat) (w : Wheel) :
  bitmap w <> 0 -> level w = 0 ->
  NextExpirationTime (S fuel) w = Ok (TrailingZeros64 (bitmap w)).
Proof.
  intros Hnz El. rewrite NextExpirationTime_S. unfold Empty.
  destruct (Z.eqb_spec (bitmap w) 0); [contradiction|]. rewrite El. reflexivity.
Qed.

(** Above level 0: the slot of the lowest set bit holds a child, and the
    result is the slot's start plus the child's result, without wrap. *)
Lemma NextExpirationTime_node (fuel : nat) (w c : Wheel) :
  Shaped w -> level w <> 0 -> 0 <= bitmap w < 2 ^ 64 -> bitmap w <> 0 ->
  subWheels w !! Z.to_nat (TrailingZeros64 (bitmap w)) = Some (Some c) ->
  Faithful c -> bitmap c <> 0 -> (Z.to_nat (level w) <= fuel)%nat ->
  exists tc, NextExpirationTime fuel c = Ok tc /\ 0 <= tc < 64 ^ level w /\
    NextExpirationTime (S fuel) w =
      Ok (TrailingZeros64 (bitmap w) * 64 ^ level w + tc).
Proof.
  intros Hs El Hr Hnz Hsub Hfc Hnzc Hfuel.
  pose proof (Shaped_level _ Hs) as Hl.
  destruct (Shaped_child _ _ _ Hs Hsub) as [Hsc Hlc].
  destruct (NextExpirationTime_bound fuel c Hsc Hfc Hnzc ltac:(lia)) as (tc & Htc & Hb).
  rewrite Hlc in Hb. replace (level w - 1 + 1) with (level w) in Hb by lia.
  exists tc. split; [assumption|]. split; [assumption|].
  rewrite NextExpirationTime_S. unfold Empty.
  destruct (Z.eqb_spec (bitmap w) 0); [contradiction|].
  destruct (Z.eqb_spec (level w) 0); [contradiction|].
  destruct (ctz_spec _ Hr Hnz) as (Hidx & _ & _). cbn zeta.
  destruct (tables _ Hl) as (Hmps & _). rewrite Hmps. cbn [mbind result_bind].
  assert (Hget : aget (subWheels w) (TrailingZeros64 (bitmap w)) = Ok (Some c))
    by (apply aget_Ok; split; [lia | assumption]).
  rewrite Hget. cbn [mbind result_bind]. rewrite Htc. cbn [mbind result_bind].
  pose proof (pow64_pos (level w) ltac:(lia)) as Hpos.
  pose proof (pow64_le (level w) Hl) as Htop.
  assert (Hsucc : 64 ^ (level w + 1) = 64 * 64 ^ level w).
  { rewrite (pow64_succ (level w + 1)) by lia.
    replace (level w + 1 - 1) with (level w) by lia. reflexivity. }
  assert (Hprod : 0 <= TrailingZeros64 (bitmap w) * 64 ^ level w <= 63 * 64 ^ level w) by nia.
  rewrite (u64_small (_ * _)) by lia. rewrite u64_small by lia. reflexivity.
Qed.

Lemma AddEntry_leaf (fuel : nat) (w : Wheel) (entry : ptr) (d : Z) (h : Heap)
    (w' : Wheel) (h' : Heap) :
  AddEntry (S fuel) w entry d h = Ok (w', h') -> (level w =? 0) = true ->
  exists index old,
    getIndex w d = Ok index /\ entries w !! Z.to_nat index = Some old /\
    setNext (Some entry) old h = Ok h' /\
    w' = mkWheel (level w) (Z.lor (bitmap w) (u64 (Z.shiftl 1 index)))
                 (<[Z.to_nat index := Some entry]> (entries w)) (subWheels w).
Proof.
  intros H El. rewrite AddEntry_S in H. ok_inv H. rename a into index.
  rewrite El in H. ok_inv H. ok_inv H. ok_inv H. injection H as <- <-.
  apply aset_Ok in Ha2. destruct Ha2 as (_ & _ & ->).
  apply aget_Ok in Ha0. destruct Ha0 as [_ Hold].
  exists index, a. auto.
Qed.

Lemma AddEntry_node (fuel : nat) (w : Wheel) (entry : ptr) (d : Z) (h : Heap)
    (w' : Wheel) (h' : Heap) :
  AddEntry (S fuel) w entry d h = Ok (w', h') -> (level w =? 0) = false ->
  exists index sub c',
    getIndex w d = Ok index /\ subWheels w !! Z.to_nat index = Some sub /\
    AddEntry fuel (match sub with
                   | Some c => c
                   | None => NewWheel (i64 (level w - 1))
                   end) entry d h = Ok (c', h') /\
    w' = mkWheel (level w)
                 (match sub with
                  | Some _ => bitmap w
                  | None => Z.lor (bitmap w) (u64 (Z.shiftl 1 index))
                  end)
                 (entries w) (<[Z.to_nat index := Some c']> (subWheels w)).
Proof.
  intros H El. rewrite AddEntry_S in H. ok_inv H. rename a into index.
  rewrite El in H. ok_inv H. rename a into sub. ok_inv H. destruct a as [w1 child].
  ok_inv H. destruct a as [c' h1]. ok_inv H. injection H as <- <-.
  apply aget_Ok in Ha0. destruct Ha0 as [_ Hsub].
  apply aset_Ok in Ha3. destruct Ha3 as (_ & _ & ->).
  exists index, sub, c'. split; [assumption|]. split; [assumption|].
  destruct sub as [c|].
  - injection Ha1 as <- <-. split; [assumption | reflexivity].
  - ok_inv Ha1. injection Ha1 as <- <-.
    apply aset_Ok in Ha0. destruct Ha0 as (_ & _ & ->).
    split; [assumption|]. cbn [level bitmap entries subWheels set_subWheels set_bit set_bitmap].
    rewrite list_insert_insert_eq. reflexivity.
Qed.

Lemma Faithful_kid' (w c : Wheel) (i : nat) :
  Faithful w -> subWheels w !! i = Some (Some c) -> Faithful c /\ bitmap c <> 0.
Proof. intros [w' _ _ Hc Hn] H. split; [eapply Hc, H | eapply Hn, H]. Qed.

Lemma pow64_step (l : Z) : 0 <= l -> 64 ^ (l + 1) = 64 * 64 ^ l.
Proof.
  intros H. rewrite Z.pow_add_r by lia. change (64 ^ 1) with 64. lia.
Qed.

Lemma AddEntry_next (fuel : nat) :
  forall (w : Wheel) (entry : ptr) (d : Z) (h : Heap) (w' : Wheel) (h' : Heap) (t : Z),
    Shaped w -> Faithful w -> (Z.to_nat (level w) < fuel)%nat ->
    AddEntry fuel w entry d h = Ok (w', h') ->
    NextExpirationTime fuel w = Ok t ->
    NextExpirationTime fuel w' = Ok (Z.min (d mod 64 ^ (level w + 1)) t).
Proof.
  induction fuel as [| fuel IH]; intros w entry d h w' h' t Hs Hf Hfuel Hadd Ht;
    [lia|].
  pose proof (Shaped_level _ Hs) as Hl.
  pose proof (Faithful_range _ Hf) as Hr.
  destruct (AddEntry_Faithful _ _ _ _ _ _ _ Hadd Hf) as [Hf' Hnz'].
  destruct (AddEntry_Shaped _ _ _ _ _ _ _ Hadd Hs) as [Hs' Hl'].
  pose proof (pow64_pos (level w) ltac:(lia)) as Hpos.
  pose proof (pow64_le (level w) Hl) as Htop.
  pose proof (pow64_step (level w) ltac:(lia)) as Hstep.
  assert (Hdm : 0 <= d mod 64 ^ level w < 64 ^ level w)
    by (apply Z.mod_pos_bound; assumption).
  destruct (Z.eqb_spec (level w) 0) as [El | El].
  - (* level 0 *)
    destruct (AddEntry_leaf _ _ _ _ _ _ _ Hadd) as (index & old & Hidx & _ & _ & ->).
    { apply Z.eqb_eq. assumption. }
    rewrite getIndex_eq in Hidx by assumption. injection Hidx as Hidx.
    pose proof (interval_split d (level w) ltac:(lia)) as Hsplit.
    rewrite Hidx in Hsplit. rewrite El in Hsplit, Hidx.
    change (64 ^ 0) with 1 in Hsplit. rewrite Z.mod_1_r in Hsplit.
    assert (Hi : 0 <= index < 64).
    { change (0 + 1) with 1 in Hsplit. change (64 ^ 1) with 64 in Hsplit.
      pose proof (Z.mod_pos_bound d 64 ltac:(lia)). lia. }
    rewrite NextExpirationTime_leaf by assumption.
    cbn [bitmap]. rewrite ctz_set_bit by assumption. f_equal.
    rewrite El, Hsplit.
    destruct (Z.eqb_spec (bitmap w) 0) as [Hz | Hnz].
    + rewrite NextExpirationTime_empty in Ht by assumption. injection Ht as <-.
      unfold max_u64. lia.
    + rewrite NextExpirationTime_leaf in Ht by assumption. injection Ht as <-.
      lia.
  - (* above *)
    assert (Hfuel1 : (0 < fuel)%nat) by lia.
    destruct fuel as [| fuel']; [lia|]. remember (S fuel') as fuel eqn:Efuel.
    destruct (AddEntry_node _ _ _ _ _ _ _ Hadd) as (index & sub & c' & Hidx & Hsub & Hc & Hw').
    { apply Z.eqb_neq. assumption. }
    rewrite getIndex_eq in Hidx by assumption. injection Hidx as Hidx.
    pose proof (interval_split d (level w) ltac:(lia)) as Hsplit.
    rewrite Hidx in Hsplit.
    assert (Hi : 0 <= index < 64).
    { rewrite <- Hidx. change 0x3F with (Z.ones 6). rewrite Z.land_ones by lia.
      apply Z.mod_pos_bound. lia. }
    assert (Hprod : 0 <= index * 64 ^ level w <= 63 * 64 ^ level w) by nia.
    set (j := Z.to_nat index) in *.
    (* the child the entry is added to *)
    set (c := match sub with Some c => c | None => NewWheel (i64 (level w - 1)) end) in *.
    assert (Hc0 : Shaped c /\ Faithful c /\ level c = level w - 1).
    { subst c. destruct sub as [c0|].
      - destruct (Shaped_child _ _ _ Hs Hsub). destruct (Faithful_kid' _ _ _ Hf Hsub).
        auto.
      - rewrite i64_small by lia. split; [apply Shaped_NewWheel; unfold MaxLevel; lia|].
        split; [apply Faithful_NewWheel | reflexivity]. }
    destruct Hc0 as (Hsc & Hfc & Hlc).
    destruct (AddEntry_Faithful _ _ _ _ _ _ _ Hc Hfc) as [Hfc' Hnzc'].
    assert (Hnext' : forall tc, NextExpirationTime fuel c = Ok tc ->
              NextExpirationTime fuel c' = Ok (Z.min (d mod 64 ^ level w) tc)).
    { intros tc Htc. replace (level w) with (level c + 1) by lia.
      eapply IH; try eassumption. lia. }
    assert (Hw'j : subWheels w' !! j = Some (Some c')).
    { rewrite Hw'. cbn [subWheels]. apply list_lookup_insert_eq.
      apply lookup_lt_Some in Hsub. assumption. }
    assert (Hw'o : forall i, i <> j -> subWheels w' !! i = subWheels w !! i).
    { intros i Hne. rewrite Hw'. cbn [subWheels].
      apply list_lookup_insert_ne. congruence. }
    assert (Hr' : 0 <= bitmap w' < 2 ^ 64) by (apply Faithful_range; assumption).
    assert (El' : level w' <> 0) by congruence.
    (* when the lowest set bit of the old bitmap is below [index], nothing
       changes *)
    assert (Hbelow : bitmap w <> 0 -> TrailingZeros64 (bitmap w) < index ->
              TrailingZeros64 (bitmap w') = TrailingZeros64 (bitmap w) ->
              NextExpirationTime (S fuel) w' = Ok (Z.min (d mod 64 ^ (level w + 1)) t)).
    { intros Hnz Hlt Hctz.
      destruct (Faithful_child_at w Hf Hnz) as (c0 & Hsub0 & Hfc0 & Hnzc0).
      { apply Z.eqb_neq. assumption. }
      destruct (ctz_spec _ Hr Hnz) as (Hi0 & _ & _).
      destruct (NextExpirationTime_node fuel w c0 Hs El Hr Hnz Hsub0 Hfc0 Hnzc0
                  ltac:(lia)) as (t0 & Ht0 & Hb0 & Hw0).
      rewrite Hw0 in Ht. injection Ht as <-.
      destruct (NextExpirationTime_node fuel w' c0 Hs' El' Hr' Hnz') as (t1 & Ht1 & _ & Hw1).
      - rewrite Hctz, Hw'o by lia. assumption.
      - assumption.
      - assumption.
      - lia.
      - rewrite Hw1. rewrite Ht0 in Ht1. injection Ht1 as <-.
        rewrite Hctz, Hl'. f_equal. nia. }
    (* when the lowest set bit of the new bitmap is [index], the result is
       the slot's start plus the child's *)
    assert (Hat : TrailingZeros64 (bitmap w') = index ->
              exists tc', NextExpirationTime fuel c' = Ok tc' /\
                NextExpirationTime (S fuel) w' = Ok (index * 64 ^ level w + tc')).
    { intros Hctz.
      destruct (NextExpirationTime_node fuel w' c' Hs' El' Hr' Hnz') as (t1 & Ht1 & _ & Hw1).
      - rewrite Hctz. assumption.
      - assumption.
      - assumption.
      - lia.
      - exists t1. split; [assumption|]. rewrite Hw1, Hctz, Hl'. reflexivity. }
    destruct sub as [c0|].
    + (* the slot had a child: the bitmap is unchanged *)
      assert (Hb' : bitmap w' = bitmap w) by (rewrite Hw'; reflexivity).
      assert (Hbit : Z.testbit (bitmap w) index = true).
      { apply (Faithful_bit w index Hf Hi). destruct (Z.eqb_spec (level w) 0); [lia|].
        exists c0. assumption. }
      pose proof (testbit_true_nonzero _ _ Hbit) as Hnz.
      destruct (ctz_spec _ Hr Hnz) as (Hi0 & Hti0 & Hlow0).
      destruct (Z.lt_trichotomy (TrailingZeros64 (bitmap w)) index) as [Hlt | [Heq | Hgt]].
      * apply Hbelow; [assumption | assumption | congruence].
      * destruct Hat as (tc' & Htc' & Hw1); [congruence|]. rewrite Hw1.
        destruct (Faithful_kid' _ _ _ Hf Hsub) as [_ Hnzc0].
        destruct (NextExpirationTime_node fuel w c0 Hs El Hr Hnz) as (t0 & Ht0 & Hb0 & Hw0);
          try assumption.
        { rewrite Heq. assumption. }
        { lia. }
        rewrite Hw0 in Ht. injection Ht as <-.
        rewrite (Hnext' _ Ht0) in Htc'. injection Htc' as <-.
        rewrite Heq, Hsplit. f_equal. lia.
      * rewrite Hlow0 in Hbit by lia. discriminate.
    + (* the slot was empty: its bit is set now *)
      assert (Hb' : bitmap w' = Z.lor (bitmap w) (u64 (Z.shiftl 1 index)))
        by (rewrite Hw'; reflexivity).
      assert (Hbit : Z.testbit (bitmap w) index = false).
      { destruct (Z.testbit (bitmap w) index) eqn:E; [|reflexivity].
        apply (Faithful_bit w index Hf Hi) in E.
        destruct (Z.eqb_spec (level w) 0); [lia|].
        destruct E as [x Hx]. fold j in Hx. congruence. }
      pose proof (ctz_set_bit (bitmap w) index Hr Hi) as Hctz. rewrite <- Hb' in Hctz.
      assert (Htc : NextExpirationTime fuel c = Ok max_u64).
      { rewrite Efuel. apply NextExpirationTime_empty. reflexivity. }
      pose proof (Hnext' _ Htc) as Htc'.
      replace (Z.min (d mod 64 ^ level w) max_u64) with (d mod 64 ^ level w) in Htc'
        by (unfold max_u64; lia).
      destruct (Z.eqb_spec (bitmap w) 0) as [Hz | Hnz].
      * destruct Hat as (tc' & Htc'' & Hw1); [assumption|]. rewrite Hw1.
        rewrite Htc' in Htc''. injection Htc'' as <-.
        rewrite Efuel in Ht. rewrite NextExpirationTime_empty in Ht by assumption.
        injection Ht as <-. rewrite Hsplit. f_equal. unfold max_u64. lia.
      * destruct (ctz_spec _ Hr Hnz) as (Hi0 & Hti0 & Hlow0).
        destruct (Z.lt_trichotomy (TrailingZeros64 (bitmap w)) index) as [Hlt | [Heq | Hgt]].
        -- apply Hbelow; [assumption | assumption | lia].
        -- rewrite Heq in Hti0. congruence.
        -- destruct Hat as (tc' & Htc'' & Hw1); [lia|]. rewrite Hw1.
           rewrite Htc' in Htc''. injection Htc'' as <-.
           destruct (Faithful_child_at w Hf Hnz) as (c0 & Hsub0 & Hfc0 & Hnzc0).
           { apply Z.eqb_neq. assumption. }
           destruct (NextExpirationTime_node fuel w c0 Hs El Hr Hnz Hsub0 Hfc0 Hnzc0
                       ltac:(lia)) as (t0 & Ht0 & Hb0 & Hw0).
           rewrite Hw0 in Ht. injection Ht as <-.
           rewrite Hsplit. f_equal. nia.
Qed.

(** ** Expiring when nothing is due *)

Lemma Wheel_eta (w : Wheel) :
  mkWheel (level w) (bitmap w) (entries w) (subWheels w) = w.
Proof. destruct w. reflexivity. Qed.

(** Nothing is due: the scan stops at the first set bit, having changed
    nothing. *)
Lemma HandleExpiredEntries_idle (fuel : nat) (hdl : Handler) :
  forall (w : Wheel) (r : Z) (m : Mem) (t : Z),
    Shaped w -> Faithful w -> (Z.to_nat (level w) < fuel)%nat ->
    NextExpirationTime fuel w = Ok t -> r < t ->
    HandleExpiredEntries fuel hdl w r m = Ok (0, w, m).
Proof.
  induction fuel as [| fuel IH]; intros w r m t Hs Hf Hfuel Ht Hlt; [lia|].
  rewrite HandleExpiredEntries_S. change (Z.to_nat SlotSize) with 64%nat.
  rewrite scan_unfold.
  destruct (Z.eqb_spec (bitmap w) 0) as [Hz | Hnz]; [reflexivity|].
  pose proof (Faithful_range _ Hf) as Hb. pose proof (Shaped_level _ Hs) as Hl.
  destruct (ctz_spec _ Hb Hnz) as (Hidx & Hbit & Hlow). cbv zeta.
  destruct (Z.eqb_spec (level w) 0) as [El | El].
  - rewrite NextExpirationTime_leaf in Ht by assumption. injection Ht as <-.
    destruct (Z.gtb_spec (TrailingZeros64 (bitmap w)) r); [reflexivity | lia].
  - destruct (Faithful_child_at w Hf Hnz) as (c & Hsub & Hfc & Hnzc).
    { apply Z.eqb_neq. assumption. }
    destruct (NextExpirationTime_node fuel w c Hs El Hb Hnz Hsub Hfc Hnzc
                ltac:(lia)) as (tc & Htc & Hbc & Hw).
    rewrite Hw in Ht. injection Ht as <-.
    destruct (tables _ Hl) as (Hmps & _). rewrite Hmps. cbn [mbind result_bind].
    pose proof (slot_start_small _ (level w) Hidx Hl) as Hsmall.
    rewrite (u64_small (_ * 64 ^ level w)) by assumption.
    destruct (Z.gtb_spec (TrailingZeros64 (bitmap w) * 64 ^ level w) r) as [Hgt | Hle];
      [reflexivity|].
    assert (Hget : aget (subWheels w) (TrailingZeros64 (bitmap w)) = Ok (Some c))
      by (apply aget_Ok; split; [lia | assumption]).
    rewrite Hget. cbn [mbind result_bind].
    destruct (Shaped_child _ _ _ Hs Hsub) as [Hsc Hlc].
    rewrite (IH c _ m tc Hsc Hfc ltac:(lia) Htc).
    2:{ pose proof (pow64_le (level w) Hl) as Htop.
        pose proof (pow64_step (level w) ltac:(lia)) as Hstep.
        pose proof (pow64_pos (level w) ltac:(lia)) as Hpos.
        rewrite u64_small; lia. }
    cbn [mbind result_bind]. unfold Empty.
    destruct (Z.eqb_spec (bitmap c) 0); [contradiction|].
    rewrite aset_lt by (apply lookup_lt_Some in Hsub; lia).
    cbn [mbind result_bind]. rewrite list_insert_id by assumption.
    unfold set_subWheels. rewrite Wheel_eta. reflexivity.
Qed.

(** What the scan leaves is due later than the time it was given. *)
Lemma scan_leaves_later (rec : Wheel -> Z -> Mem -> result (Z * Wheel * Mem))
    (fuel nfuel : nat) (hdl : Handler) (r : Z) :
  0 <= r < 2 ^ 64 ->
  (forall c r' m n c' m',
     rec c r' m = Ok (n, c', m') -> Shaped c -> Faithful c ->
     0 <= r' < 2 ^ 64 -> (Z.to_nat (level c) < nfuel)%nat ->
     Shaped c' /\ Faithful c' /\ level c' = level c /\
     (bitmap c' = 0 \/ exists t, NextExpirationTime nfuel c' = Ok t /\ r' < t)) ->
  forall (passes : nat) (w : Wheel) (count : Z) (m : Mem)
         (count' : Z) (w' : Wheel) (m' : Mem),
    scan rec fuel hdl passes w r count m = Ok (count', w', m') ->
    Shaped w -> Faithful w -> (Z.to_nat (level w) <= nfuel)%nat ->
    bitmap w' = 0 \/ exists t, NextExpirationTime (S nfuel) w' = Ok t /\ r < t.
Proof.
  intros Hr Hrec. induction passes as [| passes IH];
    intros w count m count' w' m' H Hs Hf Hfuel; rewrite scan_unfold in H.
  - destruct (Z.eqb_spec (bitmap w) 0) as [Hz | Hnz]; [|discriminate].
    injection H as _ <- _. left. assumption.
  - destruct (Z.eqb_spec (bitmap w) 0) as [Hz | Hnz].
    { injection H as _ <- _. left. assumption. }
    pose proof (Faithful_range _ Hf) as Hb. pose proof (Shaped_level _ Hs) as Hl.
    destruct (ctz_spec _ Hb Hnz) as (Hidx & Hbit & Hlow). cbv zeta in H.
    set (index := TrailingZeros64 (bitmap w)) in *.
    destruct (Z.eqb_spec (level w) 0) as [El | El].
    + destruct (Z.gtb_spec index r) as [Hgt | Hle].
      { injection H as _ <- _. right. exists index. split; [|lia].
        apply NextExpirationTime_leaf; assumption. }
      ok_inv H. ok_inv H. destruct a0 as [count1 m1]. ok_inv H.
      apply aset_Ok in Ha1. destruct Ha1 as (_ & _ & ->).
      eapply IH; [exact H | | |].
      * apply (Shaped_set_entries w). assumption.
      * apply (Faithful_clear0 w index); [assumption | apply Z.eqb_eq | ]; assumption.
      * cbn [level clear_bit set_bitmap set_entries]. assumption.
    + destruct (tables _ Hl) as (Hmps & _). rewrite Hmps in H. cbn [mbind result_bind] in H.
      pose proof (slot_start_small index (level w) Hidx Hl) as Hsmall.
      rewrite (u64_small (index * 64 ^ level w)) in H by assumption.
      pose proof (pow64_pos (level w) ltac:(lia)) as Hpos.
      destruct (Faithful_child_at w Hf Hnz) as (c & Hsub & Hfc & Hnzc).
      { apply Z.eqb_neq. assumption. }
      fold index in Hsub.
      destruct (Shaped_child _ _ _ Hs Hsub) as [Hsc Hlc].
      destruct (Z.gtb_spec (index * 64 ^ level w) r) as [Hgt | Hle].
      { injection H as _ <- _. right.
        destruct (NextExpirationTime_node nfuel w c Hs El Hb Hnz Hsub Hfc Hnzc
                    ltac:(lia)) as (tc & Htc & Hbc & Hw).
        fold index in Hw. eexists. split; [exact Hw|]. lia. }
      ok_inv H. rename a into sub. apply aget_Ok in Ha. destruct Ha as [_ Hsub'].
      rewrite Hsub in Hsub'. injection Hsub' as <-.
      ok_inv H. destruct a as [[n child'] m1].
      destruct (Hrec _ _ _ _ _ _ Ha Hsc Hfc) as (Hsc' & Hfc' & Hlc' & Hlater).
      { rewrite u64_small by lia. lia. }
      { lia. }
      rewrite u64_small in Hlater by lia.
      unfold Empty in H. destruct (Z.eqb_spec (bitmap child') 0) as [Hz' | Hnz'].
      * ok_inv H. apply aset_Ok in Ha0. destruct Ha0 as (_ & _ & ->).
        eapply IH; [exact H | | |].
        -- apply (Shaped_drop_child w). assumption.
        -- apply (Faithful_clearS w index); [assumption | apply Z.eqb_neq | ]; assumption.
        -- cbn [level clear_bit set_bitmap set_subWheels]. assumption.
      * ok_inv H. injection H as _ <- _. right.
        apply aset_Ok in Ha0. destruct Ha0 as (_ & Hlen & ->).
        destruct Hlater as [? | (t' & Ht' & Hlt')]; [contradiction|].
        cbn [set_subWheels].
        edestruct (NextExpirationTime_node nfuel
                    (mkWheel (level w) (bitmap w) (entries w)
                             (<[Z.to_nat index := Some child']> (subWheels w))) child')
          as (tc & Htc & Hbc & Hw).
        -- apply Shaped_set_child; [assumption | assumption | lia].
        -- cbn [level]. assumption.
        -- cbn [bitmap]. assumption.
        -- cbn [bitmap]. assumption.
        -- cbn [bitmap subWheels]. fold index. apply list_lookup_insert_eq. assumption.
        -- assumption.
        -- assumption.
        -- cbn [level]. lia.
        -- cbn [level bitmap] in Hw, Hbc.
           rewrite Ht' in Htc. injection Htc as <-.
           eexists. split; [exact Hw|]. fold index. lia.
Qed.

Lemma HandleExpiredEntries_leaves_later (fuel : nat) (hdl : Handler) :
  forall (w : Wheel) (r : Z) (m : Mem) (count : Z) (w' : Wheel) (m' : Mem),
    HandleExpiredEntries fuel hdl w r m = Ok (count, w', m') ->
    Shaped w -> Faithful w -> 0 <= r < 2 ^ 64 -> (Z.to_nat (level w) < fuel)%nat ->
    bitmap w' = 0 \/ exists t, NextExpirationTime fuel w' = Ok t /\ r < t.
Proof.
  induction fuel as [| fuel IH]; intros w r m count w' m' H Hs Hf Hr Hfuel;
    [discriminate H|].
  rewrite HandleExpiredEntries_S in H.
  eapply scan_leaves_later; [exact Hr | | exact H | exact Hs | exact Hf | lia].
  intros c r' m0 n c' m0' Hcall Hsc Hfc Hr' Hlc.
  destruct (HandleExpiredEntries_Shaped _ _ _ _ _ _ _ _ Hcall Hsc) as [Hsc' Hlc'].
  pose proof (HandleExpiredEntries_Faithful _ _ _ _ _ _ _ _ Hcall Hfc) as Hfc'.
  split; [assumption|]. split; [assumption|]. split; [assumption|].
  eapply IH; eassumption.
Qed.

(** ** [NextExpirationTime] under level changes and rotation *)

Lemma NextExpirationTime_range (fuel : nat) (w : Wheel) (t : Z) :
  Shaped w -> Faithful w -> (Z.to_nat (level w) < fuel)%nat ->
  NextExpirationTime fuel w = Ok t -> 0 <= t < 2 ^ 64.
Proof.
  intros Hs Hf Hfuel Ht. destruct (Z.eq_dec (bitmap w) 0) as [Hz | Hnz].
  - destruct fuel; [lia|]. rewrite NextExpirationTime_empty in Ht by assumption.
    injection Ht as <-. unfold max_u64. lia.
  - destruct (NextExpirationTime_bound fuel w Hs Hf Hnz Hfuel) as (t' & Ht' & Hb).
    rewrite Ht' in Ht. injection Ht as <-.
    pose proof (pow64_le (level w) (Shaped_level _ Hs)). lia.
Qed.

Lemma NextExpirationTime_LevelUp (fuel : nat) (w : Wheel) (t : Z) :
  Shaped w -> Faithful w -> level w < MaxLevel -> (Z.to_nat (level w) < fuel)%nat ->
  NextExpirationTime fuel w = Ok t ->
  NextExpirationTime (S fuel) (LevelUp w) = Ok t.
Proof.
  intros Hs Hf Hlt Hfuel Ht.
  pose proof (NextExpirationTime_range _ _ _ Hs Hf Hfuel Ht) as Hr.
  pose proof (Shaped_level _ Hs) as Hl. unfold MaxLevel in Hlt.
  rewrite NextExpirationTime_S. unfold LevelUp, NewWheelWithChild, Empty.
  cbn [level bitmap entries subWheels]. change (1 =? 0) with false. cbv iota zeta.
  rewrite i64_small by lia.
  destruct (Z.eqb_spec (level w + 1) 0); [lia|].
  destruct (tables (level w + 1) ltac:(lia)) as (Hmps & _). rewrite Hmps.
  cbn [mbind result_bind]. change (TrailingZeros64 1) with 0.
  change (aget (<[0%nat := Some w]> slots) 0) with (@Ok (option Wheel) (Some w)).
  cbn [mbind result_bind]. rewrite Ht. cbn [mbind result_bind].
  rewrite Z.mul_0_l. change (u64 0) with 0. rewrite Z.add_0_l.
  rewrite u64_small by assumption. reflexivity.
Qed.

Lemma NextExpirationTime_LevelDown (fuel : nat) (w : Wheel) :
  Shaped w -> Faithful w -> CanLevelDown w = true -> (Z.to_nat (level w) <= fuel)%nat ->
  exists c, LevelDown w = Some c /\
            NextExpirationTime (S fuel) w = NextExpirationTime fuel c.
Proof.
  intros Hs Hf Hcan Hfuel. unfold CanLevelDown in Hcan.
  apply andb_true_iff in Hcan. destruct Hcan as [Hb Hl0].
  apply Z.eqb_eq in Hb. apply Z.gtb_lt in Hl0.
  assert (Hnz : bitmap w <> 0) by lia.
  destruct (Faithful_child_at w Hf Hnz) as (c & Hsub & Hfc & Hnzc).
  { apply Z.eqb_neq. lia. }
  rewrite Hb in Hsub. change (Z.to_nat (TrailingZeros64 1)) with 0%nat in Hsub.
  exists c. split; [apply LevelDown_Some; split; [lia | assumption]|].
  destruct (NextExpirationTime_node fuel w c Hs ltac:(lia) (Faithful_range _ Hf) Hnz)
    as (tc & Htc & _ & Hw); try assumption.
  { rewrite Hb. assumption. }
  rewrite Hw, Htc, Hb. change (TrailingZeros64 1) with 0. rewrite Z.mul_0_l.
  reflexivity.
Qed.

Lemma ctz_shiftr (b n : Z) :
  0 <= b < 2 ^ 64 -> b <> 0 -> 0 <= n ->
  (forall i, 0 <= i < n -> Z.testbit b i = false) ->
  n <= TrailingZeros64 b /\
  TrailingZeros64 (Z.shiftr b n) = TrailingZeros64 b - n.
Proof.
  intros Hb Hnz Hn Hlow. destruct (ctz_spec _ Hb Hnz) as (Hi & Hti & Hli).
  assert (Hge : n <= TrailingZeros64 b).
  { destruct (Z.lt_ge_cases (TrailingZeros64 b) n) as [Hlt | Hge]; [|assumption].
    rewrite Hlow in Hti by lia. discriminate. }
  split; [assumption|]. apply ctz_unique.
  - apply shiftr_range; assumption.
  - lia.
  - rewrite Z.shiftr_spec by lia.
    replace (TrailingZeros64 b - n + n) with (TrailingZeros64 b) by lia. assumption.
  - intros k Hk. rewrite Z.shiftr_spec by lia. apply Hli. lia.
Qed.

(** [Rotate(n)] over [n] empty slots moves what is due [n] slots nearer. *)
Lemma NextExpirationTime_Rotate (fuel : nat) (w : Wheel) (n t : Z) :
  Shaped w -> Faithful w -> bitmap w <> 0 -> 0 < n < 64 ->
  (forall i, 0 <= i < n -> Z.testbit (bitmap w) i = false) ->
  (Z.to_nat (level w) < fuel)%nat ->
  NextExpirationTime fuel w = Ok t ->
  NextExpirationTime fuel (Rotate w n) = Ok (t - n * 64 ^ level w).
Proof.
  intros Hs Hf Hnz Hn Hlow Hfuel Ht.
  pose proof (Faithful_range _ Hf) as Hb. pose proof (Shaped_level _ Hs) as Hl.
  destruct (ctz_shiftr _ n Hb Hnz ltac:(lia) Hlow) as [Hge Hctz].
  destruct (ctz_spec _ Hb Hnz) as (Hi & Hti & Hli).
  destruct (Rotate_Shaped w n Hs ltac:(lia)) as [Hs' Hl'].
  assert (Hbm : bitmap (Rotate w n) = Z.shiftr (bitmap w) n).
  { unfold Rotate. destruct (Z.eqb_spec n 0); [lia|].
    destruct (Z.geb_spec n SlotSize) as [G|G]; [change SlotSize with 64 in G; lia|].
    cbn [orb]. destruct (level w =? 0); reflexivity. }
  assert (Hnz' : bitmap (Rotate w n) <> 0).
  { rewrite Hbm. apply testbit_true_nonzero with (TrailingZeros64 (bitmap w) - n).
    rewrite Z.shiftr_spec by lia.
    replace (TrailingZeros64 (bitmap w) - n + n) with (TrailingZeros64 (bitmap w)) by lia.
    assumption. }
  destruct fuel as [| fuel]; [lia|].
  destruct (Z.eqb_spec (level w) 0) as [El | El].
  - rewrite NextExpirationTime_leaf in Ht by assumption. injection Ht as <-.
    rewrite NextExpirationTime_leaf by congruence.
    rewrite Hbm, Hctz, El. change (64 ^ 0) with 1. f_equal. lia.
  - destruct (Faithful_child_at w Hf Hnz) as (c & Hsub & Hfc & Hnzc).
    { apply Z.eqb_neq. assumption. }
    destruct (NextExpirationTime_node fuel w c Hs El Hb Hnz Hsub Hfc Hnzc
                ltac:(lia)) as (tc & Htc & Hbc & Hw).
    rewrite Hw in Ht. injection Ht as <-.
    destruct (NextExpirationTime_node fuel (Rotate w n) c Hs') as (tc' & Htc' & _ & Hw').
    + congruence.
    + rewrite Hbm. apply shiftr_range; [assumption | lia].
    + assumption.
    + rewrite Hbm, Hctz. unfold Rotate. destruct (Z.eqb_spec n 0); [lia|].
      destruct (Z.geb_spec n SlotSize) as [G|G]; [change SlotSize with 64 in G; lia|].
      cbn [orb]. destruct (Z.eqb_spec (level w) 0); [contradiction|].
      cbn [subWheels set_bitmap set_subWheels].
      rewrite rotate_slots_lookup; [| destruct Hs; assumption | lia | lia].
      destruct (decide (Z.to_nat (TrailingZeros64 (bitmap w) - n) + Z.to_nat n < 64)%nat);
        [|lia].
      replace (Z.to_nat (TrailingZeros64 (bitmap w) - n) + Z.to_nat n)%nat
        with (Z.to_nat (TrailingZeros64 (bitmap w))) by lia.
      assumption.
    + assumption.
    + assumption.
    + lia.
    + rewrite Hw'. rewrite Htc in Htc'. injection Htc' as <-.
      rewrite Hbm, Hctz, Hl'. f_equal. lia.
Qed.

(** More fuel than the level does not change the result. *)
Lemma NextExpirationTime_fuel (fuel : nat) :
  forall w : Wheel,
    Shaped w -> Faithful w -> (Z.to_nat (level w) < fuel)%nat ->
    NextExpirationTime (S fuel) w = NextExpirationTime fuel w.
Proof.
  induction fuel as [| fuel IH]; intros w Hs Hf Hfuel; [lia|].
  destruct (Z.eq_dec (bitmap w) 0) as [Hz | Hnz].
  { rewrite !NextExpirationTime_empty by assumption. reflexivity. }
  destruct (Z.eq_dec (level w) 0) as [El | El].
  { rewrite !NextExpirationTime_leaf by assumption. reflexivity. }
  pose proof (Shaped_level _ Hs) as Hl.
  destruct (Faithful_child_at w Hf Hnz) as (c & Hsub & Hfc & Hnzc).
  { apply Z.eqb_neq. assumption. }
  destruct (Shaped_child _ _ _ Hs Hsub) as [Hsc Hlc].
  destruct (NextExpirationTime_node (S fuel) w c Hs El (Faithful_range _ Hf) Hnz Hsub
              Hfc Hnzc ltac:(lia)) as (t1 & Ht1 & _ & Hw1).
  destruct (NextExpirationTime_node fuel w c Hs El (Faithful_range _ Hf) Hnz Hsub
              Hfc Hnzc ltac:(lia)) as (t2 & Ht2 & _ & Hw2).
  rewrite Hw1, Hw2. rewrite IH in Ht1 by (try assumption; lia).
  congruence.
Qed.

Lemma NextExpirationTime_fuel_le (fuel fuel' : nat) (w : Wheel) :
  Shaped w -> Faithful w -> (Z.to_nat (level w) < fuel)%nat -> (fuel <= fuel')%nat ->
  NextExpirationTime fuel' w = NextExpirationTime fuel w.
Proof.
  intros Hs Hf Hfuel Hle. induction Hle as [| k Hle IH]; [reflexivity|].
  rewrite NextExpirationTime_fuel by (try assumption; lia). assumption.
Qed.

(** The loop of [levelUpAndAdd] does not move what is due. *)
Lemma level_up_next (fuel : nat) :
  forall (w : Wheel) (interval : Z) (w' : Wheel) (nf : nat) (t : Z),
    level_up fuel w interval = Ok w' ->
    Shaped w -> Faithful w -> bitmap w <> 0 -> (6 < nf)%nat ->
    NextExpirationTime nf w = Ok t -> NextExpirationTime nf w' = Ok t.
Proof.
  induction fuel as [| fuel IH]; intros w interval w' nf t H Hs Hf Hnz Hnf Ht;
    rewrite level_up_unfold in H; ok_inv H;
    destruct (interval >=? a); cbn [andb] in H;
    try (injection H as <-; assumption);
    unfold Level in H; destruct (Z.ltb_spec (level w) MaxLevel) as [Hlt | Hge];
    try discriminate H; try (injection H as <-; assumption).
  pose proof (Shaped_level _ Hs) as Hl.
  destruct (LevelUp_Shaped w Hs Hlt) as [Hs' Hl'].
  eapply IH; [exact H | assumption | | discriminate | assumption |].
  - apply LevelUp_Faithful; [assumption | assumption |].
    rewrite i64_small by lia. lia.
  - destruct nf as [| nf']; [lia|]. unfold MaxLevel in Hlt.
    apply NextExpirationTime_LevelUp; try assumption; [lia|].
    rewrite <- NextExpirationTime_fuel by (try assumption; lia). assumption.
Qed.

(** Nor does the loop of [levelDownIfNeeded]. *)
Lemma levelDownIfNeeded_next (fuel : nat) :
  forall (t t' : Timer) (w : Wheel) (nf : nat),
    levelDownIfNeeded fuel t = Ok t' -> wheel t = Some w ->
    Shaped w -> Faithful w -> bitmap w <> 0 -> (6 < nf)%nat ->
    start t' = start t /\ numEntries t' = numEntries t /\
    exists w', wheel t' = Some w' /\
               NextExpirationTime nf w' = NextExpirationTime nf w.
Proof.
  induction fuel as [| fuel IH]; intros t t' w nf H Hw Hs Hf Hnz Hnf;
    rewrite levelDownIfNeeded_unfold in H; rewrite Hw in H;
    destruct (CanLevelDown w) eqn:Hcan; try discriminate H;
    try (injection H as <-; split; [reflexivity|]; split; [reflexivity|];
         exists w; split; [assumption | reflexivity]).
  pose proof (Shaped_level _ Hs) as Hl.
  destruct nf as [| nf']; [lia|].
  destruct (NextExpirationTime_LevelDown nf' w Hs Hf Hcan ltac:(lia)) as (c & Hc & Hnext).
  rewrite Hc in H.
  pose proof Hc as Hc'. apply LevelDown_Some in Hc'. destruct Hc' as [_ Hsub].
  destruct (Shaped_child _ _ _ Hs Hsub) as [Hsc Hlc].
  destruct (Faithful_kid' _ _ _ Hf Hsub) as [Hfc Hnzc].
  destruct (IH _ _ c (S nf') H eq_refl Hsc Hfc Hnzc Hnf) as (H1 & H2 & w' & Hw' & Hn').
  split; [assumption|]. split; [assumption|]. exists w'. split; [assumption|].
  rewrite Hn', Hnext. apply NextExpirationTime_fuel; try assumption. lia.
Qed.

(** ** The next wake-up *)

Lemma later_than_elapsed (s now nextMs : Z) :
  0 <= nextMs < 2 ^ 42 ->
  u64 (Milliseconds (Sub now s)) < nextMs ->
  now < s + nextMs * Millisecond.
Proof.
  unfold u64, Milliseconds, Sub, sat64, Millisecond. intros Hn Hlt.
  Z.to_euclidean_division_equations. lia.
Qed.

Lemma calculateNextWake_some (fuel : nat) (t : Timer) (now : Z) (w : Wheel) :
  wheel t = Some w -> Shaped w -> Faithful w -> bitmap w <> 0 ->
  numEntries t <> 0 -> (Z.to_nat (level w) < fuel)%nat ->
  exists nextMs,
    NextExpirationTime fuel w = Ok nextMs /\ 0 <= nextMs < 2 ^ 42 /\
    calculateNextWake fuel t now =
      Ok (Some (if nextMs <=? elapsed t now then now
                else start t + nextMs * Millisecond)).
Proof.
  intros Hw Hs Hf Hnz Hne Hfuel.
  destruct (NextExpirationTime_bound fuel w Hs Hf Hnz Hfuel) as (nextMs & Hn & Hb).
  pose proof (pow64_le (level w) (Shaped_level _ Hs)) as Htop.
  exists nextMs. split; [assumption|]. split; [lia|].
  unfold calculateNextWake. rewrite Hw.
  destruct (Z.eqb_spec (numEntries t) 0); [contradiction|].
  rewrite Hn. cbn [mbind result_bind]. cbv zeta. fold (elapsed t now).
  destruct (nextMs <=? elapsed t now); [reflexivity|].
  rewrite (i64_small nextMs) by lia.
  rewrite i64_small by (unfold Millisecond; lia). reflexivity.
Qed.

Lemma elapsed_after_advance (s now k : Z) :
  u64 (Milliseconds (Sub now s)) < 2 ^ 42 ->
  0 <= k <= u64 (Milliseconds (Sub now s)) ->
  u64 (Milliseconds (Sub now (s + k * Millisecond))) =
    u64 (Milliseconds (Sub now s)) - k.
Proof.
  unfold u64, Milliseconds, Sub, sat64, Millisecond. intros He Hk.
  Z.to_euclidean_division_equations. lia.
Qed.

(** What [handleExpired] leaves in the wheel is due after the reading of
    the clock it worked with, also measured from the start that
    [maintenance] has advanced. *)
Lemma handleExpired_next (fuel : nat) (t : Timer) (now : Z) (m : Mem)
    (t' : Timer) (m' : Mem) :
  handleExpired fuel t now m = Ok (t', m') -> wheel_ok t -> (6 < fuel)%nat ->
  numEntries t <> 0 ->
  forall w', wheel t' = Some w' ->
    exists nextMs, NextExpirationTime fuel w' = Ok nextMs /\
                   elapsed t' now < nextMs < 2 ^ 42 /\
                   Shaped w' /\ Faithful w' /\ bitmap w' <> 0.
Proof.
  intros H Hok Hfuel Hne w' Hw'. unfold handleExpired in H.
  destruct (wheel t) as [w|] eqn:Hw.
  2:{ injection H as <- _. congruence. }
  destruct (Z.eqb_spec (numEntries t) 0) as [|_]; [contradiction|].
  fold (elapsed t now) in H. set (interval := elapsed t now) in *.
  assert (Hr : 0 <= interval < 2 ^ 64) by (apply Z.mod_pos_bound; reflexivity).
  ok_inv H. destruct a as [[count w1] m1]. ok_inv H. injection H as <- _.
  destruct (Hok w Hw) as (Hs & Hf & _).
  pose proof (Shaped_level _ Hs) as Hl.
  destruct (HandleExpiredEntries_Shaped _ _ _ _ _ _ _ _ Ha Hs) as [Hs1 Hl1].
  pose proof (HandleExpiredEntries_Faithful _ _ _ _ _ _ _ _ Ha Hf) as Hf1.
  unfold maintenance in Ha0. cbn [wheel set_wheel set_numEntries] in Ha0.
  unfold Empty in Ha0. destruct (Z.eqb_spec (bitmap w1) 0) as [Hz | Hnz].
  { injection Ha0 as <-. discriminate Hw'. }
  destruct (HandleExpiredEntries_leaves_later _ _ _ _ _ _ _ _ Ha Hs Hf Hr ltac:(lia))
    as [? | (t1 & Ht1 & Hlt1)]; [contradiction|].
  destruct (NextExpirationTime_bound fuel w1 Hs1 Hf1 Hnz ltac:(lia)) as (t1' & Ht1' & Hb1).
  rewrite Ht1 in Ht1'. injection Ht1' as <-.
  pose proof (pow64_le (level w1) ltac:(lia)) as Htop.
  pose proof (pow64_pos (level w1) ltac:(lia)) as Hpos.
  ok_inv Ha0. rename a0 into mps. ok_inv Ha0. rename a0 into t2.
  unfold MsPerSlot in Ha1. destruct (tables (level w1) ltac:(lia)) as (Hmps & _).
  rewrite Hmps in Ha1. injection Ha1 as <-.
  set (n := interval / 64 ^ level w1) in *.
  assert (Hn0 : 0 <= n) by (apply Z.div_pos; lia).
  assert (Hnr : n * 64 ^ level w1 <= interval).
  { unfold n. rewrite Z.mul_comm. apply Z.mul_div_le. assumption. }
  (* the timer before the loop of [levelDownIfNeeded] *)
  assert (H2 : exists w2 t2n, wheel t2 = Some w2 /\ Shaped w2 /\ Faithful w2 /\
                 bitmap w2 <> 0 /\ NextExpirationTime fuel w2 = Ok t2n /\
                 elapsed t2 now < t2n < 2 ^ 42).
  { destruct (Z.gtb_spec n 0) as [Hgt | Hle].
    - ok_inv Ha2. rename a0 into mps'. injection Ha2 as <-.
      destruct (Rotate_Shaped w1 n Hs1 Hn0) as [Hsr Hlr].
      unfold MsPerSlot in Ha1. rewrite Hlr, Hmps in Ha1. injection Ha1 as <-.
      assert (Hn64 : n < 64).
      { destruct (Z.lt_ge_cases n 64) as [|Hge]; [assumption|]. exfalso.
        apply Hnz. apply Z.eqb_eq.
        apply (HandleExpiredEntries_empties _ _ _ _ _ _ _ _ Ha Hs Hf Hr).
        rewrite <- Hl1. rewrite pow64_step by lia. nia. }
      assert (Hlow : forall i, 0 <= i < n -> Z.testbit (bitmap w1) i = false).
      { intros i Hi. eapply HandleExpiredEntries_clears_below; try eassumption; [lia|].
        rewrite <- Hl1. nia. }
      destruct (expire_then_Rotate _ _ _ _ _ _ _ _ (64 ^ level w1) Ha Hs Hf Hr)
        as (Hfr & _ & Hnzr).
      { unfold MsPerSlot. assumption. }
      fold n in Hfr, Hnzr.
      exists (Rotate w1 n), (t1 - n * 64 ^ level w1).
      split; [reflexivity|]. split; [assumption|]. split; [assumption|].
      split; [auto|]. split.
      + apply NextExpirationTime_Rotate; try assumption; lia.
      + unfold elapsed. cbn [start set_start set_wheel Add].
        rewrite (u64_small (n * 64 ^ level w1)) by lia.
        rewrite (i64_small (n * 64 ^ level w1)) by lia.
        rewrite i64_small by (unfold Millisecond; lia).
        rewrite elapsed_after_advance; fold (elapsed t now); fold interval; lia.
    - injection Ha2 as <-. exists w1, t1. cbn [wheel set_wheel].
      split; [reflexivity|]. split; [assumption|]. split; [assumption|].
      split; [assumption|]. split; [assumption|].
      unfold elapsed. cbn [start set_wheel set_numEntries].
      fold (elapsed t now). fold interval. lia. }
  destruct H2 as (w2 & t2n & Hw2 & Hs2 & Hf2 & Hnz2 & Hn2 & Hlt2).
  destruct (levelDownIfNeeded_next _ _ _ w2 fuel Ha0 Hw2 Hs2 Hf2 Hnz2 Hfuel)
    as (Hst & _ & w3 & Hw3 & Hn3).
  rewrite Hw' in Hw3. injection Hw3 as <-.
  exists t2n. split; [congruence|]. split.
  - unfold elapsed in *. rewrite Hst. assumption.
  - pose proof (levelDownIfNeeded_keeps _ _ _ Ha0) as Hk.
    apply Hk; [|exact Hw'].
    intros c Hc. rewrite Hw2 in Hc. injection Hc as <-. auto.
Qed.

(** ** The level a new entry needs *)

(** The loop of [buildWheelAndAdd] picks the first level, counted from
    [lvl], whose span holds the interval, and [MaxLevel] when none does. *)
Lemma pick_level_spec (fuel : nat) :
  forall (lvl interval l' : Z),
    pick_level fuel lvl interval = Ok l' -> 0 <= lvl <= MaxLevel ->
    lvl <= l' <= MaxLevel /\
    (l' < MaxLevel -> interval < 64 ^ (l' + 1)) /\
    (forall k, lvl <= k < l' -> 64 ^ (k + 1) <= interval).
Proof.
  induction fuel as [| fuel IH]; intros lvl interval l' H Hl; cbn [pick_level] in H.
  - destruct (Z.ltb_spec lvl MaxLevel); [discriminate|]. injection H as <-.
    split; [lia|]. split; intros; lia.
  - destruct (Z.ltb_spec lvl MaxLevel) as [Hlt | Hge].
    + destruct (tables lvl Hl) as (_ & Hmx & _). rewrite Hmx in H.
      cbn [mbind result_bind] in H.
      destruct (Z.ltb_spec interval (64 ^ (lvl + 1))) as [Hc | Hc].
      * injection H as <-. split; [lia|]. split; intros; lia.
      * unfold MaxLevel in *. rewrite i64_small in H by lia.
        destruct (IH _ _ _ H ltac:(unfold MaxLevel; lia)) as (H1 & H2 & H3).
        split; [lia|]. split; [assumption|].
        intros k Hk. destruct (Z.eq_dec k lvl) as [-> | Hne]; [assumption|].
        apply H3. lia.
    + injection H as <-. split; [lia|]. split; intros; lia.
Qed.

Lemma pick_level_total (fuel : nat) :
  forall (lvl interval : Z),
    0 <= lvl <= MaxLevel -> (Z.to_nat (MaxLevel - lvl) <= fuel)%nat ->
    exists l', pick_level fuel lvl interval = Ok l'.
Proof.
  induction fuel as [| fuel IH]; intros lvl interval Hl Hfuel; cbn [pick_level].
  - destruct (Z.ltb_spec lvl MaxLevel); [lia|]. eexists. reflexivity.
  - destruct (Z.ltb_spec lvl MaxLevel) as [Hlt | Hge]; [|eexists; reflexivity].
    destruct (tables lvl Hl) as (_ & Hmx & _). rewrite Hmx. cbn [mbind result_bind].
    destruct (interval <? 64 ^ (lvl + 1)); [eexists; reflexivity|].
    unfold MaxLevel in *. rewrite i64_small by lia. apply IH; unfold MaxLevel; lia.
Qed.

(** The loop of [levelUpAndAdd] stops at the first level that is high
    enough: every level it passed was too low for the interval. *)
Lemma level_up_least (fuel : nat) :
  forall (w : Wheel) (interval : Z) (w' : Wheel),
    level_up fuel w interval = Ok w' -> Shaped w ->
    forall k, level w <= k < level w' -> 64 ^ (k + 1) <= interval.
Proof.
  induction fuel as [| fuel IH]; intros w interval w' H Hs k Hk;
    pose proof (Shaped_level _ Hs) as Hl; rewrite level_up_unfold in H;
    unfold MaxMs, Level in H; destruct (tables _ Hl) as (_ & Hmx & _);
    rewrite Hmx in H; cbn [mbind result_bind] in H.
  - destruct ((interval >=? 64 ^ (level w + 1)) && (level w <? MaxLevel));
      [discriminate|]. injection H as <-. lia.
  - destruct (Z.geb_spec interval (64 ^ (level w + 1))) as [Hge | Hlt];
      destruct (Z.ltb_spec (level w) MaxLevel) as [Hlt' | Hge'];
      cbn [andb] in H; try (injection H as <-; lia).
    destruct (LevelUp_Shaped w Hs Hlt') as [Hs' Hl'].
    destruct (Z.eq_dec k (level w)) as [-> | Hne]; [lia|].
    apply (IH (LevelUp w) interval w' H Hs'). lia.
Qed.

Lemma mod_span (d l : Z) :
  0 <= d -> 0 <= l <= 6 -> d < 64 ^ 7 -> (l < 6 -> d < 64 ^ (l + 1)) ->
  d mod 64 ^ (l + 1) = d.
Proof.
  intros Hd Hl Htop Hspan. apply Z.mod_small. split; [assumption|].
  destruct (Z.eq_dec l 6) as [-> | Hne]; [assumption | apply Hspan; lia].
Qed.

(** The first entry: [addToWheel] on a timer without a wheel. *)
Lemma addToWheel_first (fuel : nat) (t : Timer) (entry : ptr) (now : Z) (m : Mem)
    (e : Entry) :
  wheel t = None -> heap m !! entry = Some e -> now < expireAt e -> (6 < fuel)%nat ->
  let d := u64 (Milliseconds (Sub (expireAt e) now)) in
  exists (t' : Timer) (m' : Mem) (w' : Wheel),
    addToWheel fuel t entry now m = Ok (t', m') /\
    wheel t' = Some w' /\ start t' = now /\
    numEntries t' = u64 (numEntries t + 1) /\
    fired m' = fired m /\ calls m' = calls m /\
    Shaped w' /\ Faithful w' /\
    (level w' < MaxLevel -> d < 64 ^ (level w' + 1)) /\
    (forall k, 0 <= k < level w' -> 64 ^ (k + 1) <= d) /\
    NextExpirationTime fuel w' = Ok (d mod 64 ^ (level w' + 1)).
Proof.
  intros Hw He Hlt Hfuel d. unfold addToWheel. cbn [deref]. rewrite He.
  cbn [mbind result_bind]. destruct (Z.leb_spec (expireAt e) now) as [|_]; [lia|].
  rewrite Hw. fold d. unfold buildWheelAndAdd.
  destruct (pick_level_total fuel 0 d ltac:(unfold MaxLevel; lia)
              ltac:(unfold MaxLevel; lia)) as (l & Hpick).
  rewrite Hpick. cbn [mbind result_bind].
  destruct (pick_level_spec _ _ _ _ Hpick ltac:(unfold MaxLevel; lia)) as (Hl & Hspan & Hmin).
  pose proof (Shaped_NewWheel l ltac:(lia)) as Hs0.
  pose proof (Faithful_NewWheel l) as Hf0.
  destruct (AddEntry_total fuel (NewWheel l) entry d (heap m) Hs0)
    as (w' & h' & Hadd & Hs' & Hl' & _).
  { rewrite He. eexists. reflexivity. }
  { cbn [level NewWheel]. unfold MaxLevel in Hl. lia. }
  rewrite Hadd. cbn [mbind result_bind].
  destruct (AddEntry_Faithful _ _ _ _ _ _ _ Hadd Hf0) as [Hf' _].
  eexists _, _, w'. split; [reflexivity|].
  cbn [wheel start numEntries set_wheel set_start set_numEntries fired calls set_heap].
  split; [reflexivity|]. split; [reflexivity|]. split; [reflexivity|].
  split; [reflexivity|]. split; [reflexivity|].
  split; [assumption|]. split; [assumption|].
  cbn [level NewWheel] in Hl'. rewrite Hl'.
  split; [assumption|]. split; [assumption|].
  assert (Hnew : NextExpirationTime fuel (NewWheel l) = Ok max_u64).
  { destruct fuel; [lia|]. apply NextExpirationTime_empty. reflexivity. }
  rewrite (AddEntry_next fuel _ _ _ _ _ _ _ Hs0 Hf0 ltac:(cbn; unfold MaxLevel in Hl; lia)
             Hadd Hnew).
  cbn [level NewWheel]. f_equal.
  pose proof (Z.mod_pos_bound d (64 ^ (l + 1)) ltac:(apply pow64_pos; lia)).
  pose proof (pow64_le l ltac:(unfold MaxLevel in Hl; lia)). unfold max_u64. lia.
Qed.

(** ** [RemoveEntry] after [AddEntry] *)

Lemma set_bit_absorb (b index : Z) :
  0 <= index < 64 -> Z.testbit b index = true ->
  Z.lor b (u64 (Z.shiftl 1 index)) = b.
Proof.
  intros Hi Hb. apply Z.bits_inj'. intros n Hn.
  rewrite set_bit_testbit by lia.
  destruct (Z.eqb_spec index n) as [<- | _]; [rewrite Hb|]; auto using orb_false_r.
Qed.

Lemma clear_set_bit (b index : Z) :
  0 <= index < 64 -> Z.testbit b index = false ->
  Z.ldiff (Z.lor b (u64 (Z.shiftl 1 index))) (u64 (Z.shiftl 1 index)) = b.
Proof.
  intros Hi Hb. apply Z.bits_inj'. intros n Hn.
  rewrite clear_bit_testbit, set_bit_testbit by lia.
  destruct (Z.eqb_spec index n) as [<- | _].
  - rewrite Hb. reflexivity.
  - cbn [negb]. rewrite orb_false_r, andb_true_r. reflexivity.
Qed.

(** [RemoveEntry] right after [AddEntry], with the same interval, gives the
    wheel back as it was. *)
Lemma RemoveEntry_AddEntry (fuel : nat) :
  forall (w : Wheel) (entry : ptr) (d : Z) (h : Heap) (w1 : Wheel) (h1 : Heap),
    Shaped w -> Faithful w ->
    AddEntry fuel w entry d h = Ok (w1, h1) ->
    RemoveEntry fuel w1 entry d h1 = Ok (w, h1).
Proof.
  induction fuel as [| fuel IH]; intros w entry d h w1 h1 Hs Hf Hadd;
    [discriminate Hadd|].
  pose proof (Shaped_level _ Hs) as Hl.
  pose proof (Faithful_range _ Hf) as Hr.
  rewrite RemoveEntry_S.
  destruct (Z.eqb_spec (level w) 0) as [El | El].
  - destruct (AddEntry_leaf _ _ _ _ _ _ _ Hadd) as (index & old & Hidx & Hold & Hset & ->).
    { apply Z.eqb_eq. assumption. }
    pose proof (getIndex_range _ _ _ Hidx Hl) as Hi.
    assert (Hidx' : getIndex (mkWheel (level w) (Z.lor (bitmap w) (u64 (Z.shiftl 1 index)))
                       (<[Z.to_nat index := Some entry]> (entries w)) (subWheels w)) d
                    = Ok index) by exact Hidx.
    rewrite Hidx'. cbn [mbind result_bind level entries].
    destruct (Z.eqb_spec (level w) 0); [|contradiction].
    pose proof (lookup_lt_Some _ _ _ Hold) as Hlen.
    assert (Hget : aget (<[Z.to_nat index := Some entry]> (entries w)) index
                   = Ok (Some entry)).
    { apply aget_Ok. split; [lia|]. apply list_lookup_insert_eq. assumption. }
    rewrite Hget. cbn [mbind result_bind].
    destruct (decide (Some entry = Some entry)); [|congruence].
    rewrite (getNext_setNext _ _ _ _ Hset). cbn [mbind result_bind].
    rewrite aset_lt by (rewrite length_insert; lia). cbn [mbind result_bind].
    rewrite list_insert_insert_eq.
    rewrite (list_insert_id (entries w) (Z.to_nat index) old Hold).
    f_equal. f_equal. unfold clear_bit, set_entries, set_bitmap.
    cbn [level bitmap entries subWheels].
    destruct (decide (old = None)) as [-> | Hne].
    + rewrite clear_set_bit; [apply Wheel_eta | assumption |].
      destruct (Z.testbit (bitmap w) index) eqn:E; [|reflexivity].
      apply (Faithful_bit w index Hf Hi) in E.
      destruct (Z.eqb_spec (level w) 0); [|contradiction].
      destruct E as [x Hx]. congruence.
    + rewrite set_bit_absorb; [apply Wheel_eta | assumption |].
      apply (Faithful_bit w index Hf Hi).
      destruct (Z.eqb_spec (level w) 0); [|contradiction].
      destruct old as [p|]; [|congruence]. exists p. assumption.
  - destruct (AddEntry_node _ _ _ _ _ _ _ Hadd) as (index & sub & c' & Hidx & Hsub & Hc & ->).
    { apply Z.eqb_neq. assumption. }
    pose proof (getIndex_range _ _ _ Hidx Hl) as Hi.
    set (bm := match sub with
               | Some _ => bitmap w
               | None => Z.lor (bitmap w) (u64 (Z.shiftl 1 index))
               end) in *.
    assert (Hidx' : getIndex (mkWheel (level w) bm (entries w)
                       (<[Z.to_nat index := Some c']> (subWheels w))) d
                    = Ok index) by exact Hidx.
    rewrite Hidx'. cbn [mbind result_bind level subWheels].
    destruct (Z.eqb_spec (level w) 0); [contradiction|].
    pose proof (lookup_lt_Some _ _ _ Hsub) as Hlen.
    assert (Hget : aget (<[Z.to_nat index := Some c']> (subWheels w)) index
                   = Ok (Some c')).
    { apply aget_Ok. split; [lia|]. apply list_lookup_insert_eq. assumption. }
    rewrite Hget. cbn [mbind result_bind].
    destruct sub as [c0|].
    + destruct (Shaped_child _ _ _ Hs Hsub) as [Hsc _].
      destruct (Faithful_kid' _ _ _ Hf Hsub) as [Hfc Hnzc].
      rewrite (IH _ _ _ _ _ _ Hsc Hfc Hc). cbn [mbind result_bind].
      unfold Empty. destruct (Z.eqb_spec (bitmap c0) 0); [contradiction|].
      cbn [set_subWheels subWheels level bitmap entries].
      rewrite aset_lt by (rewrite length_insert; lia). cbn [mbind result_bind].
      rewrite list_insert_insert_eq.
      rewrite (list_insert_id (subWheels w) (Z.to_nat index) (Some c0) Hsub).
      subst bm. unfold set_subWheels. cbn [level bitmap entries subWheels].
      rewrite Wheel_eta. reflexivity.
    + rewrite (IH _ _ _ _ _ _ (Shaped_NewWheel (i64 (level w - 1))
                    ltac:(rewrite i64_small by lia; unfold MaxLevel; lia))
                 (Faithful_NewWheel _) Hc).
      cbn [mbind result_bind]. unfold Empty. cbn [bitmap NewWheel].
      change (0 =? 0) with true. cbv iota.
      cbn [clear_bit set_bitmap set_subWheels subWheels level bitmap entries].
      rewrite aset_lt by (rewrite length_insert; lia). cbn [mbind result_bind].
      rewrite list_insert_insert_eq.
      rewrite (list_insert_id (subWheels w) (Z.to_nat index) None Hsub).
      subst bm. unfold set_subWheels, clear_bit, set_bitmap.
      cbn [level bitmap entries subWheels].
      rewrite clear_set_bit; [rewrite Wheel_eta; reflexivity | assumption |].
      destruct (Z.testbit (bitmap w) index) eqn:E; [|reflexivity].
      apply (Faithful_bit w index Hf Hi) in E.
      destruct (Z.eqb_spec (level w) 0); [contradiction|].
      destruct E as [x Hx]. congruence.
Qed.

(** ** The queue while a push is under way; the links [AddEntry] writes *)

(** While the store of a push has not happened, the inner loop of [PopAll]
    reads the sentinel again and again. *)
Lemma spin_waits (fuel : nat) (p : ptr) (h : Heap) (c : Entry) :
  h !! p = Some c -> next c = settingNext -> spin fuel p h = OutOfFuel.
Proof.
  intros Hp Hn. induction fuel as [| fuel IH]; [reflexivity|].
  cbn [spin]. rewrite (getNext_Some _ _ _ Hp). cbn [mbind result_bind].
  rewrite Hn. destruct (decide (settingNext = settingNext)); [assumption | congruence].
Qed.


Lemma setNext_same_data (e nxt : option ptr) (h h' : Heap) :
  setNext e nxt h = Ok h' -> same_data h h'.
Proof.
  intros H q c Hq. destruct (setNext_lookup _ _ _ _ _ _ H Hq) as (c' & Hc' & E1 & E2 & E3 & _).
  exists c'. auto.
Qed.

(** [AddEntry] writes one link, that of the entry it is given. *)
Lemma AddEntry_frame (fuel : nat) :
  forall (w : Wheel) (entry : ptr) (d : Z) (h : Heap) (w' : Wheel) (h' : Heap),
    AddEntry fuel w entry d h = Ok (w', h') ->
    same_data h h' /\ forall q, q <> entry -> h' !! q = h !! q.
Proof.
  induction fuel as [| fuel IH]; intros w entry d h w' h' H; [discriminate H|].
  destruct (level w =? 0) eqn:El.
  - destruct (AddEntry_leaf _ _ _ _ _ _ _ H El) as (index & old & _ & _ & Hset & _).
    split; [eapply setNext_same_data; eassumption|].
    intros q Hq. unfold setNext in Hset. ok_inv Hset. injection Hset as <-.
    apply lookup_insert_ne. congruence.
  - destruct (AddEntry_node _ _ _ _ _ _ _ H El) as (index & sub & c' & _ & _ & Hc & _).
    eapply IH; eassumption.
Qed.


Lemma contents_unfold (k : nat) (h : Heap) (w : Wheel) :
  contents k h w =
    if level w =? 0 then gather (leaf_slot k h) 0 (entries w)
    else gather (node_slot k h (level w)) 0 (subWheels w).
Proof. destruct w. reflexivity. Qed.

(** ** Lists of slots *)

Lemma gather_app {A} (g : nat -> A -> list (Z * ptr)) (l1 l2 : list A) (i : nat) :
  gather g i (l1 ++ l2) = gather g i l1 ++ gather g (i + length l1) l2.
Proof.
  revert i. induction l1 as [| x l1 IH]; intros i; simpl.
  - rewrite Nat.add_0_r. reflexivity.
  - rewrite IH, <- app_assoc. replace (S i + length l1)%nat with (i + S (length l1))%nat by lia.
    reflexivity.
Qed.

Lemma elem_of_gather {A} (g : nat -> A -> list (Z * ptr)) (l : list A) (i : nat)
    (tp : Z * ptr) :
  tp ∈ gather g i l <-> exists j x, l !! j = Some x /\ tp ∈ g (i + j)%nat x.
Proof.
  revert i. induction l as [| x l IH]; intros i; simpl.
  - split; [intros H; inversion H | intros (j & y & H & _); destruct j; discriminate H].
  - rewrite elem_of_app, IH. split.
    + intros [H | (j & y & Hj & H)].
      * exists 0%nat, x. rewrite Nat.add_0_r. auto.
      * exists (S j), y. replace (i + S j)%nat with (S i + j)%nat by lia. auto.
    + intros (j & y & Hj & H). destruct j as [| j].
      * injection Hj as <-. rewrite Nat.add_0_r in H. auto.
      * right. exists j, y. replace (S i + j)%nat with (i + S j)%nat by lia. auto.
Qed.

Lemma gather_empty {A} (g : nat -> A -> list (Z * ptr)) (l : list A) (i : nat) :
  (forall j x, l !! j = Some x -> g (i + j)%nat x = []) -> gather g i l = [].
Proof.
  revert i. induction l as [| x l IH]; intros i H; simpl; [reflexivity|].
  rewrite (IH (S i)).
  - specialize (H 0%nat x eq_refl). rewrite Nat.add_0_r in H. rewrite H. reflexivity.
  - intros j y Hj. replace (S i + j)%nat with (i + S j)%nat by lia. apply H. assumption.
Qed.

Lemma gather_ext {A} (g g' : nat -> A -> list (Z * ptr)) (l : list A) (i : nat) :
  (forall j x, l !! j = Some x -> g (i + j)%nat x = g' (i + j)%nat x) ->
  gather g i l = gather g' i l.
Proof.
  revert i. induction l as [| x l IH]; intros i H; simpl; [reflexivity|].
  rewrite (IH (S i)).
  - specialize (H 0%nat x eq_refl). rewrite Nat.add_0_r in H. rewrite H. reflexivity.
  - intros j y Hj. replace (S i + j)%nat with (i + S j)%nat by lia. apply H. assumption.
Qed.

(** An array with slot [j] replaced: the slots before, the slot, the slots
    after. *)
Lemma gather_insert {A} (g : nat -> A -> list (Z * ptr)) (l : list A) (j : nat) (y : A) :
  (j < length l)%nat ->
  gather g 0 (<[j := y]> l) =
    gather g 0 (take j l) ++ g j y ++ gather g (S j) (drop (S j) l).
Proof.
  intros Hj. rewrite insert_take_drop by assumption.
  rewrite gather_app. rewrite length_take, Nat.min_l by lia. reflexivity.
Qed.

Lemma gather_lookup {A} (g : nat -> A -> list (Z * ptr)) (l : list A) (j : nat) (x : A) :
  l !! j = Some x ->
  gather g 0 l = gather g 0 (take j l) ++ g j x ++ gather g (S j) (drop (S j) l).
Proof.
  intros Hj. rewrite <- (list_insert_id l j x Hj) at 1.
  apply gather_insert. eapply lookup_lt_Some. eassumption.
Qed.

(** ** Entries that are due, entries that are not *)

Lemma due_app (r : Z) (l1 l2 : list (Z * ptr)) : due r (l1 ++ l2) = due r l1 ++ due r l2.
Proof. apply List.filter_app. Qed.

Lemma late_app (r : Z) (l1 l2 : list (Z * ptr)) : late r (l1 ++ l2) = late r l1 ++ late r l2.
Proof. apply List.filter_app. Qed.

Lemma all_late (r : Z) (l : list (Z * ptr)) :
  (forall tp, tp ∈ l -> r < tp.1) -> due r l = [] /\ late r l = l.
Proof.
  induction l as [| tp l IH]; intros H; [split; reflexivity|].
  destruct IH as [IH1 IH2]; [intros x Hx; apply H; right; assumption|].
  pose proof (H tp ltac:(left)) as Htp. unfold due, late in *. cbn [List.filter].
  destruct (Z.leb_spec tp.1 r); [lia|]. destruct (Z.ltb_spec r tp.1); [|lia].
  rewrite IH1, IH2. split; reflexivity.
Qed.

Lemma all_due (r : Z) (l : list (Z * ptr)) :
  (forall tp, tp ∈ l -> tp.1 <= r) -> due r l = l /\ late r l = [].
Proof.
  induction l as [| tp l IH]; intros H; [split; reflexivity|].
  destruct IH as [IH1 IH2]; [intros x Hx; apply H; right; assumption|].
  pose proof (H tp ltac:(left)) as Htp. unfold due, late in *. cbn [List.filter].
  destruct (Z.leb_spec tp.1 r); [|lia]. destruct (Z.ltb_spec r tp.1); [lia|].
  rewrite IH1, IH2. split; reflexivity.
Qed.

Lemma due_shift (r s : Z) (l : list (Z * ptr)) :
  due r (map (offset s) l) = map (offset s) (due (r - s) l).
Proof.
  induction l as [| tp l IH]; [reflexivity|]. unfold due in *. cbn [map List.filter].
  rewrite IH. unfold offset at 1. cbn [fst].
  destruct (Z.leb_spec (s + tp.1) r); destruct (Z.leb_spec tp.1 (r - s)); try lia;
    reflexivity.
Qed.

Lemma late_shift (r s : Z) (l : list (Z * ptr)) :
  late r (map (offset s) l) = map (offset s) (late (r - s) l).
Proof.
  induction l as [| tp l IH]; [reflexivity|]. unfold late in *. cbn [map List.filter].
  rewrite IH. unfold offset at 1. cbn [fst].
  destruct (Z.ltb_spec r (s + tp.1)); destruct (Z.ltb_spec (r - s) tp.1); try lia;
    reflexivity.
Qed.

Lemma late_nil_due (r : Z) (l : list (Z * ptr)) : late r l = [] -> due r l = l.
Proof.
  intros H. apply all_due. intros tp Htp.
  destruct (Z.le_gt_cases tp.1 r) as [|Hgt]; [assumption|]. exfalso.
  assert (Hin : tp ∈ late r l).
  { apply list_elem_of_In. apply List.filter_In. split.
    - apply list_elem_of_In. assumption.
    - apply Z.ltb_lt. lia. }
  rewrite H in Hin. inversion Hin.
Qed.

Lemma map_snd_shift (s : Z) (l : list (Z * ptr)) : map snd (map (offset s) l) = map snd l.
Proof. induction l as [| tp l IH]; [reflexivity|]. simpl. rewrite IH. reflexivity. Qed.

Lemma map_snd_pair (t : Z) (l : list ptr) : map snd (map (pair t) l) = l.
Proof. induction l as [| p l IH]; [reflexivity|]. simpl. rewrite IH. reflexivity. Qed.

(** ** Bucket chains *)

Lemma walk_None (k : nat) (h : Heap) : walk k h None = [].
Proof. destruct k; reflexivity. Qed.

Lemma walk_chain (k : nat) :
  forall (h : Heap) (hd : option ptr), ends k h hd -> chain h hd (walk k h hd).
Proof.
  induction k as [| k IH]; intros h hd He; destruct hd as [p|]; simpl in *;
    try contradiction; try reflexivity.
  destruct He as (c & Hp & He). split; [reflexivity|]. exists c.
  split; [assumption|]. rewrite Hp. apply IH. assumption.
Qed.

Lemma walk_length (k : nat) (h : Heap) (hd : option ptr) : (length (walk k h hd) <= k)%nat.
Proof.
  revert hd. induction k as [| k IH]; intros hd; simpl; [lia|].
  destruct hd as [p|]; simpl; [|lia]. destruct (h !! p) as [c|]; simpl; [|lia].
  specialize (IH (next c)). lia.
Qed.

Lemma walk_agree (k : nat) :
  forall (h h' : Heap) (hd : option ptr),
    ends k h hd -> agree_on (walk k h hd) h h' ->
    walk k h' hd = walk k h hd /\ ends k h' hd.
Proof.
  induction k as [| k IH]; intros h h' hd He Hag; destruct hd as [p|]; simpl in *;
    try contradiction; try (split; [reflexivity | exact I]).
  destruct He as (c & Hp & He). rewrite Hp in Hag |- *.
  destruct (Hag p c ltac:(left) Hp) as (c' & Hp' & Hn). rewrite Hp', Hn.
  destruct (IH h h' (next c) He) as [Hw He'].
  { intros q cq Hq Hcq. apply Hag; [right|]; assumption. }
  rewrite Hw. split; [reflexivity|]. exists c'. rewrite Hn. auto.
Qed.

Lemma agree_on_sub (F F' : list ptr) (h h' : Heap) :
  (forall q, q ∈ F' -> q ∈ F) -> agree_on F h h' -> agree_on F' h h'.
Proof. intros Hsub H q c Hq. apply H. apply Hsub. assumption. Qed.

Lemma agree_on_trans (F : list ptr) (h1 h2 h3 : Heap) :
  agree_on F h1 h2 -> agree_on F h2 h3 -> agree_on F h1 h3.
Proof.
  intros H12 H23 q c Hq Hc. destruct (H12 q c Hq Hc) as (c2 & Hc2 & E).
  destruct (H23 q c2 Hq Hc2) as (c3 & Hc3 & E'). exists c3. split; [assumption | congruence].
Qed.

(** ** What a wheel holds *)

Lemma elem_of_leaf_slot (k : nat) (h : Heap) (i : nat) (e : option ptr) (tp : Z * ptr) :
  tp ∈ leaf_slot k h i e <-> tp.1 = Z.of_nat i /\ tp.2 ∈ walk k h e.
Proof.
  unfold leaf_slot. rewrite list_elem_of_fmap. split.
  - intros (p & -> & Hp). auto.
  - intros [Ht Hp]. exists tp.2. split; [|assumption]. destruct tp. simpl in *. congruence.
Qed.

Lemma elem_of_node_slot (k : nat) (h : Heap) (l : Z) (i : nat) (o : option Wheel)
    (tp : Z * ptr) :
  tp ∈ node_slot k h l i o <->
  exists c tp', o = Some c /\ tp' ∈ contents k h c /\
                tp = (Z.of_nat i * 64 ^ l + tp'.1, tp'.2).
Proof.
  unfold node_slot. destruct o as [c|].
  - rewrite list_elem_of_fmap. split.
    + intros (tp' & -> & H). exists c, tp'. auto.
    + intros (c' & tp' & [= <-] & H & ->). exists tp'. auto.
  - split; [intros H; inversion H | intros (c & tp' & H & _); discriminate H].
Qed.

(** Every time lies inside the wheel's span. *)
Lemma contents_range (k : nat) (h : Heap) (w : Wheel) :
  Shaped w -> forall tp, tp ∈ contents k h w -> 0 <= tp.1 < 64 ^ (level w + 1).
Proof.
  induction w as [w IH] using Wheel_ind. intros Hs tp Htp.
  pose proof (Shaped_level _ Hs) as Hl. rewrite contents_unfold in Htp.
  pose proof (pow64_pos (level w) ltac:(lia)) as Hpos.
  pose proof (pow64_step (level w) ltac:(lia)) as Hstep.
  destruct (Z.eqb_spec (level w) 0) as [El | El].
  - apply elem_of_gather in Htp. destruct Htp as (j & e & Hj & Hin).
    apply elem_of_leaf_slot in Hin. destruct Hin as [-> _].
    apply lookup_lt_Some in Hj. destruct Hs as [w _ He _ _ _].
    rewrite El. change (64 ^ (0 + 1)) with 64. lia.
  - apply elem_of_gather in Htp. destruct Htp as (j & o & Hj & Hin).
    apply elem_of_node_slot in Hin. destruct Hin as (c & tp' & -> & Hin & ->).
    destruct (Shaped_child _ _ _ Hs Hj) as [Hsc Hlc].
    specialize (IH _ _ Hj Hsc tp' Hin). rewrite Hlc in IH.
    replace (level w - 1 + 1) with (level w) in IH by lia.
    apply lookup_lt_Some in Hj. destruct Hs as [w _ _ Hss _ _].
    cbn [fst]. rewrite Nat.add_0_l. nia.
Qed.

(** Heaps that agree on the links of the cells a wheel holds give the
    same contents. *)
Lemma contents_agree (k : nat) (h h' : Heap) (w : Wheel) :
  Rooted k h w -> agree_on (map snd (contents k h w)) h h' ->
  contents k h' w = contents k h w.
Proof.
  induction w as [w IH] using Wheel_ind. intros Hr Hag.
  rewrite !contents_unfold. rewrite contents_unfold in Hag.
  destruct (level w =? 0).
  - apply gather_ext. intros j e Hj. unfold leaf_slot. f_equal.
    apply walk_agree; [eapply Rooted_entry; eassumption|].
    eapply agree_on_sub; [|exact Hag]. intros q Hq.
    apply list_elem_of_fmap. exists (Z.of_nat (0 + j), q). split; [reflexivity|].
    apply elem_of_gather. exists j, e. split; [assumption|].
    apply elem_of_leaf_slot. auto.
  - apply gather_ext. intros j o Hj. unfold node_slot. destruct o as [c|]; [|reflexivity].
    f_equal. apply (IH j c Hj); [eapply Rooted_kid; eassumption|].
    eapply agree_on_sub; [|exact Hag]. intros q Hq.
    apply list_elem_of_fmap in Hq. destruct Hq as (tp' & -> & Hin).
    apply list_elem_of_fmap.
    exists (Z.of_nat (0 + j) * 64 ^ level w + tp'.1, tp'.2). split; [reflexivity|].
    apply elem_of_gather. exists j, (Some c). split; [assumption|].
    apply elem_of_node_slot. exists c, tp'. auto.
Qed.

(** A faithful wheel with no bit set holds nothing. *)
Lemma Faithful_slot_empty (w : Wheel) (j : nat) :
  Faithful w -> (j < 64)%nat -> Z.testbit (bitmap w) (Z.of_nat j) = false ->
  if level w =? 0 then forall e, entries w !! j = Some e -> e = None
  else forall o, subWheels w !! j = Some o -> o = None.
Proof.
  intros Hf Hj Hb. destruct Hf as [w _ Hbit _ _]. specialize (Hbit j Hj).
  destruct (level w =? 0).
  - intros e He. destruct e as [p|]; [|reflexivity].
    assert (Z.testbit (bitmap w) (Z.of_nat j) = true) by (apply Hbit; exists p; assumption).
    congruence.
  - intros o Ho. destruct o as [c|]; [|reflexivity].
    assert (Z.testbit (bitmap w) (Z.of_nat j) = true) by (apply Hbit; exists c; assumption).
    congruence.
Qed.

Lemma leaf_slot_None (k : nat) (h : Heap) (i : nat) : leaf_slot k h i None = [].
Proof. unfold leaf_slot. rewrite walk_None. reflexivity. Qed.

Lemma contents_split (k : nat) (h : Heap) (w : Wheel) (j : nat) :
  Shaped w -> Faithful w -> (j < 64)%nat ->
  (forall i, 0 <= i < Z.of_nat j -> Z.testbit (bitmap w) i = false) ->
  (forall e, level w = 0 ->
     contents k h (mkWheel (level w) (bitmap w) (<[j := e]> (entries w)) (subWheels w))
       = leaf_slot k h j e ++ slots_after k h w j) /\
  (forall o, level w <> 0 ->
     contents k h (mkWheel (level w) (bitmap w) (entries w) (<[j := o]> (subWheels w)))
       = node_slot k h (level w) j o ++ slots_after k h w j).
Proof.
  intros Hs Hf Hj Hlow. pose proof Hs as Hs'. destruct Hs' as [w _ Hle Hls _ _].
  unfold slots_after. split.
  - intros e El. rewrite contents_unfold. cbn [level entries]. rewrite El. cbn [Z.eqb].
    rewrite gather_insert by lia. rewrite gather_empty; [reflexivity|].
    intros i x Hi. apply lookup_take_Some in Hi. destruct Hi as [Hi Hlt].
    pose proof (Faithful_slot_empty w i Hf ltac:(lia) (Hlow (Z.of_nat i) ltac:(lia))) as He.
    rewrite El in He. cbn [Z.eqb] in He. rewrite (He x Hi). apply leaf_slot_None.
  - intros o El. rewrite contents_unfold. cbn [level subWheels].
    destruct (Z.eqb_spec (level w) 0); [contradiction|].
    rewrite gather_insert by lia. rewrite gather_empty; [reflexivity|].
    intros i x Hi. apply lookup_take_Some in Hi. destruct Hi as [Hi Hlt].
    pose proof (Faithful_slot_empty w i Hf ltac:(lia) (Hlow (Z.of_nat i) ltac:(lia))) as He.
    destruct (Z.eqb_spec (level w) 0); [contradiction|].
    rewrite (He x Hi). reflexivity.
Qed.

Lemma contents_bitmap (k : nat) (h : Heap) (w : Wheel) (b : Z) :
  contents k h (mkWheel (level w) b (entries w) (subWheels w)) = contents k h w.
Proof. rewrite !contents_unfold. reflexivity. Qed.

(** The times of the slots after [j] start at the next slot. *)
Lemma slots_after_range (k : nat) (h : Heap) (w : Wheel) (j : nat) (tp : Z * ptr) :
  Shaped w -> tp ∈ slots_after k h w j -> (Z.of_nat j + 1) * 64 ^ level w <= tp.1.
Proof.
  intros Hs Htp. unfold slots_after in Htp. pose proof (Shaped_level _ Hs) as Hl.
  pose proof (pow64_pos (level w) ltac:(lia)) as Hpos.
  destruct (Z.eqb_spec (level w) 0) as [El | El].
  - apply elem_of_gather in Htp. destruct Htp as (i & e & Hi & Hin).
    apply elem_of_leaf_slot in Hin. destruct Hin as [-> _].
    rewrite El. change (64 ^ 0) with 1. lia.
  - apply elem_of_gather in Htp. destruct Htp as (i & o & Hi & Hin).
    apply elem_of_node_slot in Hin. destruct Hin as (c & tp' & -> & Hin & ->).
    rewrite lookup_drop in Hi.
    destruct (Shaped_child _ _ _ Hs Hi) as [Hsc Hlc].
    pose proof (contents_range k h c Hsc tp' Hin) as Hr. cbn [fst]. nia.
Qed.

Lemma Faithful_empty_contents (k : nat) (h : Heap) (w : Wheel) :
  Shaped w -> Faithful w -> bitmap w = 0 -> contents k h w = [].
Proof.
  intros Hs Hf Hz. rewrite contents_unfold. pose proof Hs as Hs'.
  destruct Hs' as [w _ Hle Hls _ _].
  assert (Hb : forall j, (j < 64)%nat -> Z.testbit (bitmap w) (Z.of_nat j) = false)
    by (intros j _; rewrite Hz; apply Z.bits_0).
  destruct (level w =? 0) eqn:El.
  - apply gather_empty. intros j e Hj.
    pose proof (lookup_lt_Some _ _ _ Hj) as Hlt.
    pose proof (Faithful_slot_empty w j Hf ltac:(lia) (Hb j ltac:(lia))) as He.
    rewrite El in He. rewrite (He e Hj). apply leaf_slot_None.
  - apply gather_empty. intros j o Hj.
    pose proof (lookup_lt_Some _ _ _ Hj) as Hlt.
    pose proof (Faithful_slot_empty w j Hf ltac:(lia) (Hb j ltac:(lia))) as He.
    rewrite El in He. rewrite (He o Hj). reflexivity.
Qed.

Lemma contents_leaf_split (k : nat) (h : Heap) (w : Wheel) (hd : option ptr) (b : Z) :
  Shaped w -> Faithful w -> bitmap w <> 0 -> level w = 0 ->
  entries w !! Z.to_nat (TrailingZeros64 (bitmap w)) = Some hd ->
  let j := Z.to_nat (TrailingZeros64 (bitmap w)) in
  contents k h w = leaf_slot k h j hd ++ slots_after k h w j /\
  contents k h (mkWheel (level w) b (<[j := None]> (entries w)) (subWheels w))
    = slots_after k h w j.
Proof.
  intros Hs Hf Hnz El Hhd. cbv zeta.
  set (j := Z.to_nat (TrailingZeros64 (bitmap w))) in *.
  destruct (ctz_spec _ (Faithful_range _ Hf) Hnz) as (Hi & _ & Hlow).
  destruct (contents_split k h w j Hs Hf ltac:(lia)) as [Hleaf _].
  { intros i Hi'. apply Hlow. lia. }
  split.
  - rewrite <- (Hleaf hd El). rewrite (list_insert_id _ _ _ Hhd), Wheel_eta. reflexivity.
  - rewrite <- (contents_bitmap k h _ (bitmap w)). cbn [level entries subWheels].
    rewrite (Hleaf None El), leaf_slot_None. reflexivity.
Qed.

Lemma contents_node_split (k : nat) (h : Heap) (w : Wheel) (c : Wheel) (b : Z) :
  Shaped w -> Faithful w -> bitmap w <> 0 -> level w <> 0 ->
  subWheels w !! Z.to_nat (TrailingZeros64 (bitmap w)) = Some (Some c) ->
  let j := Z.to_nat (TrailingZeros64 (bitmap w)) in
  contents k h w = node_slot k h (level w) j (Some c) ++ slots_after k h w j /\
  (forall o,
     contents k h (mkWheel (level w) b (entries w) (<[j := o]> (subWheels w)))
       = node_slot k h (level w) j o ++ slots_after k h w j).
Proof.
  intros Hs Hf Hnz El Hhd. cbv zeta.
  set (j := Z.to_nat (TrailingZeros64 (bitmap w))) in *.
  destruct (ctz_spec _ (Faithful_range _ Hf) Hnz) as (Hi & _ & Hlow).
  destruct (contents_split k h w j Hs Hf ltac:(lia)) as [_ Hnode].
  { intros i Hi'. apply Hlow. lia. }
  split.
  - rewrite <- (Hnode (Some c) El). rewrite (list_insert_id _ _ _ Hhd), Wheel_eta.
    reflexivity.
  - intros o. rewrite <- (contents_bitmap k h _ (bitmap w)). cbn [level entries subWheels].
    apply Hnode. assumption.
Qed.

(** ** The handler calls of a slot *)

Lemma dispatch_all_frame (hdl : Handler) (l : list ptr) :
  framed hdl ->
  forall (m : Mem) (q : ptr) (c : Entry),
    q ∉ l -> heap m !! q = Some c ->
    exists c', heap (dispatch_all hdl l m) !! q = Some c' /\ next c' = next c.
Proof.
  intros Hfr. induction l as [| p l IH]; intros m q c Hq Hc.
  - exists c. auto.
  - rewrite dispatch_all_cons. apply not_elem_of_cons in Hq. destruct Hq as [Hne Hq].
    destruct (Hfr p m q c Hne Hc) as (c1 & Hc1 & E1).
    destruct (IH (dispatch hdl p m) q c1 Hq Hc1) as (c2 & Hc2 & E2).
    exists c2. split; [assumption | congruence].
Qed.

Lemma dispatch_all_shrink (hdl : Handler) (l : list ptr) :
  tame hdl -> forall m : Mem, links_shrink (heap m) (heap (dispatch_all hdl l m)).
Proof.
  intros Ht. induction l as [| p l IH]; intros m.
  - apply links_shrink_refl.
  - rewrite dispatch_all_cons. eapply links_shrink_trans; [|apply IH].
    apply tame_dispatch. assumption.
Qed.

Lemma fire_slot_walk (hdl : Handler) (l : list ptr) :
  framed hdl ->
  forall (fuel : nat) (hd : option ptr) (count : Z) (m : Mem) (count1 : Z) (m1 : Mem),
    chain (heap m) hd l -> NoDup l ->
    fire_slot fuel hdl hd count m = Ok (count1, m1) -> m1 = dispatch_all hdl l m.
Proof.
  intros Hfr. induction l as [| p l IH]; intros fuel hd count m count1 m1 Hc Hnd H;
    simpl in Hc.
  - subst hd. rewrite fire_slot_None in H. injection H as _ <-. reflexivity.
  - destruct Hc as (-> & c & Hp & Hc). destruct fuel as [| fuel]; [discriminate H|].
    rewrite fire_slot_S, (getNext_Some _ _ _ Hp) in H. cbn [mbind result_bind] in H.
    apply NoDup_cons in Hnd. destruct Hnd as [Hnotin Hnd].
    rewrite dispatch_all_cons. eapply IH; [| assumption | exact H].
    cbn [dispatch heap]. eapply chain_agree; [|exact Hc].
    intros q cq Hq Hcq. apply Hfr; [|assumption]. intros ->. contradiction.
Qed.

(** ** The expire scan, bucket by bucket *)

Lemma agree_off_refl (F : list ptr) (h : Heap) : agree_off F h h.
Proof. intros q c _ Hc. exists c. auto. Qed.

Lemma expired_post_nothing (k : nat) (r : Z) (w : Wheel) (m : Mem) :
  (forall tp, tp ∈ contents k (heap m) w -> r < tp.1) -> Rooted k (heap m) w ->
  expired_post k r w m w m.
Proof.
  intros Hl Hr. destruct (all_late r _ Hl) as [Hd Hla]. unfold expired_post.
  rewrite Hd, Hla. cbn [map]. rewrite app_nil_r.
  split; [reflexivity|]. split; [reflexivity|]. split; [apply agree_off_refl|].
  split; [apply links_shrink_refl | assumption].
Qed.

Lemma due_all_inv (r : Z) (l : list (Z * ptr)) :
  due r l = l -> forall tp, tp ∈ l -> tp.1 <= r.
Proof.
  intros H tp Htp. rewrite <- H in Htp. apply list_elem_of_In in Htp.
  apply List.filter_In in Htp. destruct Htp as [_ Htp]. apply Z.leb_le. assumption.
Qed.

Lemma NoDup_app_disjoint (l1 l2 : list ptr) (q : ptr) :
  NoDup (l1 ++ l2) -> q ∈ l2 -> q ∉ l1.
Proof.
  intros Hnd Hq Hq1. apply NoDup_app in Hnd. destruct Hnd as (_ & Hd & _).
  exact (Hd q Hq1 Hq).
Qed.

Lemma expired_post_continue (k : nat) (r : Z) (w : Wheel) (m : Mem) (w1 : Wheel)
    (m1 : Mem) (w' : Wheel) (m' : Mem) (S R : list (Z * ptr)) :
  contents k (heap m) w = S ++ R -> NoDup (map snd (S ++ R)) ->
  (forall tp, tp ∈ S -> tp.1 <= r) ->
  fired m1 = fired m ++ map snd S ->
  agree_off (map snd S) (heap m) (heap m1) -> links_shrink (heap m) (heap m1) ->
  contents k (heap m) w1 = R -> Rooted k (heap m) w1 ->
  (Rooted k (heap m1) w1 -> NoDup (map snd (contents k (heap m1) w1)) ->
   expired_post k r w1 m1 w' m') ->
  expired_post k r w m w' m'.
Proof.
  intros Hc Hnd HS Hf Hag Hsh Hc1 Hr1 Hpost. rewrite map_app in Hnd.
  assert (Hc1' : contents k (heap m1) w1 = R).
  { rewrite <- Hc1. apply contents_agree; [assumption|].
    intros q c Hq Hqc. apply Hag; [|assumption]. rewrite Hc1 in Hq.
    eapply NoDup_app_disjoint; eassumption. }
  destruct Hpost as (Hf' & Hc' & Hag' & Hsh' & Hr').
  { eapply Rooted_shrink; eassumption. }
  { rewrite Hc1'. apply NoDup_app in Hnd. tauto. }
  rewrite Hc1' in Hf', Hc', Hag'.
  destruct (all_due r S HS) as [HdS HlS].
  unfold expired_post. rewrite Hc, due_app, late_app, HdS, HlS, map_app. cbn [app].
  split; [rewrite Hf', Hf, <- app_assoc; reflexivity|].
  split; [assumption|]. split.
  - intros q c Hq Hqc. rewrite elem_of_app in Hq.
    destruct (Hag q c ltac:(tauto) Hqc) as (c1 & Hq1 & E1).
    destruct (Hag' q c1 ltac:(tauto) Hq1) as (c2 & Hq2 & E2).
    exists c2. split; [assumption | congruence].
  - split; [eapply links_shrink_trans; eassumption | assumption].
Qed.

Lemma due_sub (r : Z) (l : list (Z * ptr)) (q : ptr) :
  q ∈ map snd (due r l) -> q ∈ map snd l.
Proof.
  intros H. apply list_elem_of_fmap in H. destruct H as (tp & -> & Htp).
  apply list_elem_of_fmap. exists tp. split; [reflexivity|].
  apply list_elem_of_In in Htp. apply List.filter_In in Htp. apply list_elem_of_In. tauto.
Qed.

Lemma expired_post_stop (k : nat) (r s : Z) (w c : Wheel) (m : Mem) (w' c' w0 : Wheel)
    (m1 : Mem) (R : list (Z * ptr)) :
  contents k (heap m) w = map (offset s) (contents k (heap m) c) ++ R ->
  NoDup (map snd (contents k (heap m) w)) ->
  (forall tp, tp ∈ R -> r < tp.1) ->
  expired_post k (r - s) c m c' m1 ->
  contents k (heap m) w0 = R -> Rooted k (heap m) w0 ->
  contents k (heap m1) w' = map (offset s) (contents k (heap m1) c') ++ contents k (heap m1) w0 ->
  Rooted k (heap m1) w' ->
  expired_post k r w m w' m1.
Proof.
  intros Hc Hnd HR (Hf & Hc' & Hag & Hsh & _) Hc0 Hr0 Hw' Hr'.
  rewrite Hc, map_app, map_snd_shift in Hnd.
  assert (Hc0' : contents k (heap m1) w0 = R).
  { rewrite <- Hc0. apply contents_agree; [assumption|].
    intros q cq Hq Hqc. apply Hag; [|assumption]. rewrite Hc0 in Hq.
    intros Hd. apply due_sub in Hd. revert Hd.
    eapply NoDup_app_disjoint; eassumption. }
  destruct (all_late r R HR) as [HdR HlR].
  unfold expired_post. rewrite Hc, due_app, late_app, HdR, HlR, app_nil_r.
  rewrite due_shift, late_shift, map_snd_shift.
  split; [assumption|]. split; [rewrite Hw', Hc', Hc0'; reflexivity|].
  split; [assumption|]. split; assumption.
Qed.

Lemma scan_exact (rec : Wheel -> Z -> Mem -> result (Z * Wheel * Mem))
    (fuel : nat) (hdl : Handler) (r : Z) (k : nat) :
  framed hdl -> tame hdl -> 0 <= r < 2 ^ 64 ->
  (forall c r' m n c' m',
     rec c r' m = Ok (n, c', m') -> Shaped c -> Faithful c ->
     Rooted k (heap m) c -> NoDup (map snd (contents k (heap m) c)) ->
     0 <= r' < 2 ^ 64 ->
     expired_post k r' c m c' m' /\ Shaped c' /\ Faithful c' /\
     (64 ^ (level c + 1) <= r' -> bitmap c' = 0)) ->
  forall (passes : nat) (w : Wheel) (count : Z) (m : Mem)
         (count' : Z) (w' : Wheel) (m' : Mem),
    scan rec fuel hdl passes w r count m = Ok (count', w', m') ->
    Shaped w -> Faithful w -> Rooted k (heap m) w ->
    NoDup (map snd (contents k (heap m) w)) ->
    expired_post k r w m w' m'.
Proof.
  intros Hfr Htame Hr Hrec. induction passes as [| passes IH];
    intros w count m count' w' m' H Hs Hf Hroot Hnd; rewrite scan_unfold in H.
  - destruct (Z.eqb_spec (bitmap w) 0) as [Hz | Hnz]; [|discriminate].
    injection H as _ <- <-. apply expired_post_nothing; [|assumption].
    rewrite Faithful_empty_contents by assumption. intros tp Htp. inversion Htp.
  - destruct (Z.eqb_spec (bitmap w) 0) as [Hz | Hnz].
    { injection H as _ <- <-. apply expired_post_nothing; [|assumption].
      rewrite Faithful_empty_contents by assumption. intros tp Htp. inversion Htp. }
    pose proof (Faithful_range _ Hf) as Hb. pose proof (Shaped_level _ Hs) as Hl.
    destruct (ctz_spec _ Hb Hnz) as (Hidx & Hbit & Hlow). cbv zeta in H.
    set (index := TrailingZeros64 (bitmap w)) in *.
    pose proof (pow64_pos (level w) ltac:(lia)) as Hpos.
    destruct (Z.eqb_spec (level w) 0) as [El | El].
    + (* level 0 *)
      destruct (Shaped_aget_entries w index Hs Hidx) as (hd & Hget).
      pose proof Hget as Hhd. apply aget_Ok in Hhd. destruct Hhd as [_ Hhd].
      destruct (contents_leaf_split k (heap m) w hd
                  (Z.ldiff (bitmap w) (u64 (Z.shiftl 1 index))) Hs Hf Hnz El Hhd)
        as [Hsplit Hrest].
      fold index in Hsplit, Hrest.
      assert (Htimes : forall tp, tp ∈ contents k (heap m) w -> index <= tp.1).
      { intros tp Htp. rewrite Hsplit in Htp. apply elem_of_app in Htp.
        destruct Htp as [Htp | Htp].
        - apply elem_of_leaf_slot in Htp. destruct Htp as [-> _]. lia.
        - apply (slots_after_range _ _ _ _ _ Hs) in Htp. rewrite El in Htp.
          change (64 ^ 0) with 1 in Htp. lia. }
      destruct (Z.gtb_spec index r) as [Hgt | Hle].
      { injection H as _ <- <-. apply expired_post_nothing; [|assumption].
        intros tp Htp. specialize (Htimes tp Htp). lia. }
      rewrite Hget in H. cbn [mbind result_bind] in H.
      ok_inv H. destruct a as [count1 m1]. ok_inv H.
      apply aset_Ok in Ha0. destruct Ha0 as (_ & _ & ->).
      pose proof (Rooted_entry _ _ _ _ _ Hroot Hhd) as Hends.
      pose proof (walk_chain _ _ _ Hends) as Hchain.
      assert (HndS : NoDup (walk k (heap m) hd)).
      { rewrite Hsplit, map_app in Hnd. apply NoDup_app in Hnd.
        destruct Hnd as (Hnd & _). unfold leaf_slot in Hnd.
        rewrite map_snd_pair in Hnd. assumption. }
      pose proof (fire_slot_walk hdl _ Hfr _ _ _ _ _ _ Hchain HndS Ha) as ->.
      eapply (expired_post_continue k r w m _ (dispatch_all hdl (walk k (heap m) hd) m)
                w' m' _ _ Hsplit).
      * rewrite <- Hsplit. assumption.
      * intros tp Htp. apply elem_of_leaf_slot in Htp. destruct Htp as [-> _]. lia.
      * rewrite dispatch_all_fired. unfold leaf_slot. rewrite map_snd_pair. reflexivity.
      * unfold leaf_slot. rewrite map_snd_pair. intros q c Hq Hqc.
        apply dispatch_all_frame; assumption.
      * apply dispatch_all_shrink. assumption.
      * exact Hrest.
      * apply (Rooted_clear_entry k (heap m) w). assumption.
      * intros Hroot1 Hnd1. eapply IH; [exact H | | | assumption | assumption].
        -- apply (Shaped_set_entries w). assumption.
        -- apply (Faithful_clear0 w index); [assumption | apply Z.eqb_eq | ]; assumption.
    + (* above *)
      destruct (Faithful_child_at w Hf Hnz) as (c & Hsub & Hfc & Hnzc).
      { apply Z.eqb_neq. assumption. }
      fold index in Hsub.
      destruct (Shaped_child _ _ _ Hs Hsub) as [Hsc Hlc].
      destruct (contents_node_split k (heap m) w c
                  (Z.ldiff (bitmap w) (u64 (Z.shiftl 1 index))) Hs Hf Hnz El Hsub)
        as [Hsplit Hrest].
      fold index in Hsplit, Hrest.
      assert (Htimes : forall tp, tp ∈ contents k (heap m) w ->
                index * 64 ^ level w <= tp.1).
      { intros tp Htp. rewrite Hsplit in Htp. apply elem_of_app in Htp.
        destruct Htp as [Htp | Htp].
        - apply elem_of_node_slot in Htp. destruct Htp as (c0 & tp' & [= <-] & Hin & ->).
          pose proof (contents_range k (heap m) c Hsc tp' Hin). cbn [fst]. lia.
        - apply (slots_after_range _ _ _ _ _ Hs) in Htp. lia. }
      destruct (tables _ Hl) as (Hmps & _). rewrite Hmps in H. cbn [mbind result_bind] in H.
      pose proof (slot_start_small index (level w) Hidx Hl) as Hsmall.
      rewrite (u64_small (index * 64 ^ level w)) in H by assumption.
      destruct (Z.gtb_spec (index * 64 ^ level w) r) as [Hgt | Hle].
      { injection H as _ <- <-. apply expired_post_nothing; [|assumption].
        intros tp Htp. specialize (Htimes tp Htp). lia. }
      assert (Hget : aget (subWheels w) index = Ok (Some c))
        by (apply aget_Ok; split; [lia | assumption]).
      rewrite Hget in H. cbn [mbind result_bind] in H.
      ok_inv H. destruct a as [[n c'] m1].
      rewrite u64_small in Ha by lia.
      assert (HndC : NoDup (map snd (contents k (heap m) c))).
      { rewrite Hsplit, map_app in Hnd. apply NoDup_app in Hnd.
        destruct Hnd as (Hnd & _). unfold node_slot in Hnd.
        rewrite map_snd_shift in Hnd. assumption. }
      destruct (Hrec _ _ _ _ _ _ Ha Hsc Hfc (Rooted_kid _ _ _ _ _ Hroot Hsub) HndC
                  ltac:(lia)) as (Hpost & Hsc' & Hfc' & Hfull).
      pose proof (lookup_lt_Some _ _ _ Hsub) as Hlen.
      unfold Empty in H. destruct (Z.eqb_spec (bitmap c') 0) as [Hz' | Hnz'].
      * ok_inv H. apply aset_Ok in Ha0. destruct Ha0 as (_ & _ & ->).
        destruct Hpost as (Hf1 & Hc1 & Hag1 & Hsh1 & Hr1).
        rewrite (Faithful_empty_contents k (heap m1) c' Hsc' Hfc' Hz') in Hc1.
        symmetry in Hc1. pose proof (late_nil_due _ _ Hc1) as Hdue. rewrite Hdue in Hf1, Hag1.
        eapply (expired_post_continue k r w m _ m1 w' m' _ _ Hsplit).
        -- rewrite <- Hsplit. assumption.
        -- intros tp Htp. unfold node_slot in Htp.
           apply (due_all_inv r (map (offset (Z.of_nat (Z.to_nat index) * 64 ^ level w))
                                     (contents k (heap m) c))); [|assumption].
           rewrite due_shift. rewrite Z2Nat.id by lia. rewrite Hdue. reflexivity.
        -- unfold node_slot. rewrite map_snd_shift. assumption.
        -- unfold node_slot. rewrite map_snd_shift. assumption.
        -- assumption.
        -- rewrite (Hrest None). reflexivity.
        -- apply (Rooted_set_kid k (heap m) w); [assumption | discriminate].
        -- intros Hroot1 Hnd1. eapply IH; [exact H | | | assumption | assumption].
           ++ apply (Shaped_drop_child w). assumption.
           ++ apply (Faithful_clearS w index); [assumption | apply Z.eqb_neq | ]; assumption.
      * ok_inv H. injection H as _ <- <-.
        apply aset_Ok in Ha0. destruct Ha0 as (_ & _ & ->).
        assert (Hshort : r - index * 64 ^ level w < 64 ^ level w).
        { destruct (Z.lt_ge_cases (r - index * 64 ^ level w) (64 ^ level w)) as [|Hge];
            [assumption|]. exfalso. apply Hnz'. apply Hfull.
          rewrite Hlc. replace (level w - 1 + 1) with (level w) by lia. assumption. }
        pose proof Hpost as (_ & _ & _ & Hsh1 & Hr1).
        eapply (expired_post_stop k r (index * 64 ^ level w) w c m _ c'
                  (mkWheel (level w) (bitmap w) (entries w)
                           (<[Z.to_nat index := None]> (subWheels w)))).
        -- rewrite Hsplit. unfold node_slot. rewrite Z2Nat.id by lia. reflexivity.
        -- assumption.
        -- intros tp Htp. apply (slots_after_range _ _ _ _ _ Hs) in Htp.
           rewrite Z2Nat.id in Htp by lia. lia.
        -- exact Hpost.
        -- destruct (contents_node_split k (heap m) w c (bitmap w) Hs Hf Hnz El Hsub)
             as [_ Hrest0].
           fold index in Hrest0. rewrite (Hrest0 None). reflexivity.
        -- apply (Rooted_set_kid k (heap m) w); [assumption | discriminate].
        -- unfold set_subWheels.
           destruct (contents_node_split k (heap m1) w c (bitmap w) Hs Hf Hnz El Hsub)
             as [_ Hrest1].
           fold index in Hrest1. rewrite (Hrest1 (Some c')), (Hrest1 None).
           unfold node_slot. rewrite Z2Nat.id by lia. reflexivity.
        -- unfold set_subWheels. apply (Rooted_set_kid k (heap m1) w).
           ++ eapply Rooted_shrink; eassumption.
           ++ intros c0 [= <-]. assumption.
Qed.

Lemma HandleExpiredEntries_exact (hdl : Handler) (k : nat) :
  framed hdl -> tame hdl ->
  forall (fuel : nat) (w : Wheel) (r : Z) (m : Mem) (count : Z) (w' : Wheel) (m' : Mem),
    HandleExpiredEntries fuel hdl w r m = Ok (count, w', m') ->
    Shaped w -> Faithful w -> Rooted k (heap m) w ->
    NoDup (map snd (contents k (heap m) w)) -> 0 <= r < 2 ^ 64 ->
    expired_post k r w m w' m'.
Proof.
  intros Hfr Htame. induction fuel as [| fuel IH];
    intros w r m count w' m' H Hs Hf Hroot Hnd Hr; [discriminate H|].
  rewrite HandleExpiredEntries_S in H.
  eapply scan_exact; [exact Hfr | exact Htame | exact Hr | | exact H | | | |];
    try assumption.
  intros c r' m0 n c' m0' Hcall Hsc Hfc Hrc Hndc Hr'.
  split; [eapply IH; eassumption|].
  destruct (HandleExpiredEntries_Shaped _ _ _ _ _ _ _ _ Hcall Hsc) as [Hsc' _].
  split; [assumption|].
  split; [eapply HandleExpiredEntries_Faithful; eassumption|].
  intros Hfull. apply Z.eqb_eq.
  apply (HandleExpiredEntries_empties _ _ _ _ _ _ _ _ Hcall Hsc Hfc Hr' Hfull).
Qed.

(** ** [AddEntry], entry by entry *)

Lemma ends_S (k : nat) :
  forall (h : Heap) (hd : option ptr), ends k h hd -> ends (S k) h hd.
Proof.
  induction k as [| k IH]; intros h hd He; destruct hd as [p|]; simpl in *;
    try contradiction; try exact I.
  destruct He as (c & Hp & He). exists c. split; [assumption|]. apply IH in He. exact He.
Qed.

Lemma walk_S (k : nat) :
  forall (h : Heap) (hd : option ptr), ends k h hd -> walk (S k) h hd = walk k h hd.
Proof.
  induction k as [| k IH]; intros h hd He; destruct hd as [p|]; simpl in *;
    try contradiction; try reflexivity.
  destruct He as (c & Hp & He). rewrite Hp. f_equal. apply (IH h (next c) He).
Qed.

Lemma Rooted_S (k : nat) (h : Heap) (w : Wheel) : Rooted k h w -> Rooted (S k) h w.
Proof.
  intros Hr. induction Hr as [w He Hc IH]. constructor.
  - intros i p Hp. apply ends_S. eapply He, Hp.
  - intros i c Hi. eapply IH, Hi.
Qed.

Lemma contents_S (k : nat) (h : Heap) (w : Wheel) :
  Rooted k h w -> contents (S k) h w = contents k h w.
Proof.
  induction w as [w IH] using Wheel_ind. intros Hr. rewrite !contents_unfold.
  destruct (level w =? 0).
  - apply gather_ext. intros j e Hj. unfold leaf_slot. f_equal.
    apply walk_S. eapply Rooted_entry; eassumption.
  - apply gather_ext. intros j o Hj. unfold node_slot. destruct o as [c|]; [|reflexivity].
    f_equal. apply (IH j c Hj). eapply Rooted_kid; eassumption.
Qed.

(** A store into the link of a cell that no chain goes through changes no
    chain. *)
Lemma walk_frame (k : nat) (h h' : Heap) (entry : ptr) (hd : option ptr) :
  (forall q, q <> entry -> h' !! q = h !! q) -> ends k h hd -> entry ∉ walk k h hd ->
  walk k h' hd = walk k h hd /\ ends k h' hd.
Proof.
  intros Hfr He Hnot. apply walk_agree; [assumption|].
  intros q c Hq Hc. exists c. split; [|reflexivity]. rewrite Hfr; [assumption|].
  intros ->. contradiction.
Qed.

Lemma Rooted_frame (k : nat) (h h' : Heap) (entry : ptr) (w : Wheel) :
  (forall q, q <> entry -> h' !! q = h !! q) -> Rooted k h w -> Fresh k h entry w ->
  Rooted k h' w /\ contents k h' w = contents k h w.
Proof.
  intros Hfr. induction w as [w IH] using Wheel_ind. intros Hr Hf.
  destruct Hf as [w Hfe Hfc]. split.
  - constructor.
    + intros i p Hp. eapply walk_frame; [exact Hfr | | eapply Hfe; exact Hp].
      eapply Rooted_entry; eassumption.
    + intros i c Hi. apply (IH i c Hi); [eapply Rooted_kid; eassumption | eapply Hfc, Hi].
  - rewrite !contents_unfold. destruct (level w =? 0).
    + apply gather_ext. intros j e Hj. unfold leaf_slot. f_equal.
      eapply walk_frame; [exact Hfr | | eapply Hfe; exact Hj].
      eapply Rooted_entry; eassumption.
    + apply gather_ext. intros j o Hj. unfold node_slot. destruct o as [c|]; [|reflexivity].
      f_equal. apply (IH j c Hj); [eapply Rooted_kid; eassumption | eapply Hfc, Hj].
Qed.

Lemma Fresh_NewWheel (k : nat) (h : Heap) (entry : ptr) (l : Z) :
  Fresh k h entry (NewWheel l).
Proof.
  constructor; cbn [entries subWheels NewWheel].
  - intros i hd Hi. apply lookup_replicate in Hi. destruct Hi as [-> _].
    rewrite walk_None. apply not_elem_of_nil.
  - intros i c Hi. apply lookup_replicate in Hi. destruct Hi. discriminate.
Qed.

Lemma Rooted_NewWheel (k : nat) (h : Heap) (l : Z) : Rooted k h (NewWheel l).
Proof.
  constructor; cbn [entries subWheels NewWheel].
  - intros i p Hi. apply lookup_replicate in Hi. destruct Hi. discriminate.
  - intros i c Hi. apply lookup_replicate in Hi. destruct Hi. discriminate.
Qed.

Lemma contents_NewWheel (k : nat) (h : Heap) (l : Z) : contents k h (NewWheel l) = [].
Proof.
  rewrite contents_unfold. cbn [level entries subWheels NewWheel].
  destruct (l =? 0); apply gather_empty; intros j x Hj;
    apply lookup_replicate in Hj; destruct Hj as [-> _];
    [apply leaf_slot_None | reflexivity].
Qed.

Lemma Fresh_not_in (k : nat) (h : Heap) (entry : ptr) (w : Wheel) :
  Fresh k h entry w -> entry ∉ map snd (contents k h w).
Proof.
  induction w as [w IH] using Wheel_ind. intros Hf Hin. destruct Hf as [w Hfe Hfc].
  apply list_elem_of_fmap in Hin. destruct Hin as (tp & Htp & Hin).
  rewrite contents_unfold in Hin. destruct (level w =? 0).
  - apply elem_of_gather in Hin. destruct Hin as (j & e & Hj & Hin).
    apply elem_of_leaf_slot in Hin. destruct Hin as [_ Hin].
    apply (Hfe j e Hj). rewrite Htp. assumption.
  - apply elem_of_gather in Hin. destruct Hin as (j & o & Hj & Hin).
    apply elem_of_node_slot in Hin. destruct Hin as (c & tp' & -> & Hin & ->).
    apply (IH j c Hj (Hfc j c Hj)). apply list_elem_of_fmap. exists tp'. auto.
Qed.

Lemma Fresh_kid (k : nat) (h : Heap) (entry : ptr) (w c : Wheel) (i : nat) :
  Fresh k h entry w -> subWheels w !! i = Some (Some c) -> Fresh k h entry c.
Proof. intros [w' _ Hc] Hi. eapply Hc, Hi. Qed.

Lemma Fresh_entry (k : nat) (h : Heap) (entry : ptr) (w : Wheel) (i : nat)
    (hd : option ptr) :
  Fresh k h entry w -> entries w !! i = Some hd -> entry ∉ walk k h hd.
Proof. intros [w' He _] Hi. eapply He, Hi. Qed.

Lemma offset_cons (s : Z) (tp : Z * ptr) (l : list (Z * ptr)) :
  map (offset s) (tp :: l) = (s + tp.1, tp.2) :: map (offset s) l.
Proof. reflexivity. Qed.

(** [AddEntry] puts the entry, and nothing else, into the wheel, at the
    time [interval mod 64^(level+1)]. *)
Lemma AddEntry_contents (fuel : nat) :
  forall (w : Wheel) (entry : ptr) (d : Z) (h : Heap) (w' : Wheel) (h' : Heap) (k : nat),
    Shaped w -> Rooted k h w -> Fresh k h entry w ->
    AddEntry fuel w entry d h = Ok (w', h') ->
    Rooted (S k) h' w' /\
    contents (S k) h' w' ≡ₚ (d mod 64 ^ (level w + 1), entry) :: contents k h w.
Proof.
  induction fuel as [| fuel IH]; intros w entry d h w' h' k Hs Hr Hfresh Hadd;
    [discriminate Hadd|].
  pose proof (Shaped_level _ Hs) as Hl.
  destruct (AddEntry_frame _ _ _ _ _ _ _ Hadd) as [_ Hframe].
  destruct (Rooted_frame k h h' entry w Hframe Hr Hfresh) as [Hr' Hc'].
  pose proof (Rooted_S _ _ _ Hr') as HrS.
  pose proof (contents_S _ _ _ Hr') as HcS. rewrite Hc' in HcS.
  pose proof (interval_split d (level w) ltac:(lia)) as Hsplit.
  destruct (Z.eqb_spec (level w) 0) as [El | El].
  - destruct (AddEntry_leaf _ _ _ _ _ _ _ Hadd) as (index & old & Hidx & Hold & Hset & ->).
    { apply Z.eqb_eq. assumption. }
    pose proof (getIndex_range _ _ _ Hidx Hl) as Hi.
    rewrite getIndex_eq in Hidx by assumption. injection Hidx as Hidx.
    rewrite Hidx in Hsplit. rewrite El in Hsplit.
    change (64 ^ 0) with 1 in Hsplit. rewrite Z.mod_1_r, Z.mul_1_r, Z.add_0_r in Hsplit.
    set (j := Z.to_nat index) in *.
    pose proof (lookup_lt_Some _ _ _ Hold) as Hlen.
    pose proof (Rooted_entry _ _ _ _ _ Hr' Hold) as Hends.
    pose proof (getNext_setNext _ _ _ _ Hset) as Hnext.
    unfold getNext, deref in Hnext. destruct (h' !! entry) as [ce|] eqn:Hce; [|discriminate].
    cbn [mbind result_bind] in Hnext. injection Hnext as Hnext.
    split.
    + constructor; cbn [entries subWheels].
      * intros i p Hp. destruct (decide (i = j)) as [-> | Hne].
        -- rewrite list_lookup_insert_eq in Hp by assumption. injection Hp as <-.
           cbn [ends]. exists ce. split; [assumption|]. rewrite Hnext. assumption.
        -- rewrite list_lookup_insert_ne in Hp by congruence.
           eapply Rooted_entry in Hp; [|exact HrS]. exact Hp.
      * intros i c Hi'. eapply Rooted_kid; eassumption.
    + rewrite <- HcS. rewrite !contents_unfold. cbn [level entries].
      rewrite El. cbn [Z.eqb]. rewrite gather_insert by assumption.
      rewrite (gather_lookup _ (entries w) j old Hold).
      assert (Hslot : leaf_slot (S k) h' j (Some entry)
                      = (Z.of_nat j, entry) :: leaf_slot (S k) h' j old).
      { unfold leaf_slot. rewrite (walk_S _ _ _ Hends).
        change (walk (S k) h' (Some entry))
          with (entry :: match h' !! entry with
                         | Some c => walk k h' (next c)
                         | None => []
                         end).
        rewrite Hce, Hnext. reflexivity. }
      rewrite Hslot, Hsplit. unfold j. rewrite Z2Nat.id by lia.
      rewrite <- app_comm_cons. symmetry. apply Permutation_middle.
  - destruct (AddEntry_node _ _ _ _ _ _ _ Hadd) as (index & sub & c' & Hidx & Hsub & Hc & ->).
    { apply Z.eqb_neq. assumption. }
    pose proof (getIndex_range _ _ _ Hidx Hl) as Hi.
    rewrite getIndex_eq in Hidx by assumption. injection Hidx as Hidx.
    rewrite Hidx in Hsplit.
    set (j := Z.to_nat index) in *.
    pose proof (lookup_lt_Some _ _ _ Hsub) as Hlen.
    set (c0 := match sub with Some c => c | None => NewWheel (i64 (level w - 1)) end) in *.
    assert (H0 : Shaped c0 /\ Rooted k h c0 /\ Fresh k h entry c0 /\ level c0 = level w - 1 /\
                 node_slot (S k) h' (level w) j sub
                 = map (offset (Z.of_nat j * 64 ^ level w)) (contents k h c0)).
    { subst c0. destruct sub as [c|].
      - destruct (Shaped_child _ _ _ Hs Hsub) as [Hsc Hlc].
        split; [assumption|]. split; [eapply Rooted_kid; eassumption|].
        split; [eapply Fresh_kid; eassumption|]. split; [assumption|].
        unfold node_slot. f_equal.
        destruct (Rooted_frame k h h' entry c Hframe) as [Hrc' Hcc'].
        { eapply Rooted_kid; eassumption. }
        { eapply Fresh_kid; eassumption. }
        rewrite (contents_S _ _ _ Hrc'). assumption.
      - rewrite i64_small by lia.
        split; [apply Shaped_NewWheel; unfold MaxLevel; lia|].
        split; [apply Rooted_NewWheel|]. split; [apply Fresh_NewWheel|].
        split; [reflexivity|]. rewrite contents_NewWheel. reflexivity. }
    destruct H0 as (Hs0 & Hr0 & Hf0 & Hl0 & Hslot0).
    destruct (IH _ _ _ _ _ _ k Hs0 Hr0 Hf0 Hc) as [Hrc' Hperm].
    rewrite Hl0 in Hperm. replace (level w - 1 + 1) with (level w) in Hperm by lia.
    split.
    + apply (Rooted_set_kid (S k) h' w); [assumption|]. intros c [= <-]. assumption.
    + rewrite <- HcS. rewrite !contents_unfold. cbn [level subWheels].
      destruct (Z.eqb_spec (level w) 0); [contradiction|].
      rewrite gather_insert by assumption.
      rewrite (gather_lookup _ (subWheels w) j sub Hsub).
      rewrite Hslot0. unfold node_slot at 2.
      rewrite Hsplit. unfold j at 5. rewrite <- (Z2Nat.id index) at 1 by lia. fold j.
      etransitivity.
      * apply Permutation_app_head. apply Permutation_app_tail.
        apply Permutation_map. exact Hperm.
      * rewrite offset_cons. cbn [fst snd]. rewrite <- app_comm_cons.
        symmetry. apply Permutation_middle.
Qed.

(** ** Level changes and rotation keep the entries *)

Lemma offset_0 (l : list (Z * ptr)) : map (offset 0) l = l.
Proof.
  induction l as [| [t p] l IH]; [reflexivity|]. cbn [map]. rewrite IH. reflexivity.
Qed.

Lemma gather_all_None (k : nat) (h : Heap) (l : Z) (i n : nat) :
  gather (node_slot k h l) i (replicate n None) = [].
Proof.
  apply gather_empty. intros j x Hj. apply lookup_replicate in Hj.
  destruct Hj as [-> _]. reflexivity.
Qed.

(** [LevelUp] and [LevelDown] do not change what the wheel holds, nor
    the times. *)
Lemma contents_LevelUp (k : nat) (h : Heap) (w : Wheel) :
  0 <= level w <= 6 -> contents k h (LevelUp w) = contents k h w.
Proof.
  intros Hl. rewrite (contents_unfold k h (LevelUp w)).
  unfold LevelUp, NewWheelWithChild. cbn [level subWheels entries].
  rewrite i64_small by lia. destruct (Z.eqb_spec (level w + 1) 0); [lia|].
  change (<[0%nat := Some w]> slots) with (Some w :: replicate 63 (@None Wheel)).
  cbn [gather]. rewrite gather_all_None, app_nil_r. unfold node_slot.
  change (Z.of_nat 0) with 0. rewrite Z.mul_0_l. apply offset_0.
Qed.

Lemma Rooted_LevelUp (k : nat) (h : Heap) (w : Wheel) :
  Rooted k h w -> Rooted k h (LevelUp w).
Proof.
  intros Hr. constructor; unfold LevelUp, NewWheelWithChild; cbn [entries subWheels].
  - intros i p Hi. apply lookup_replicate in Hi. destruct Hi. discriminate.
  - intros i c Hi. apply only_child in Hi. destruct Hi as [_ ->]. assumption.
Qed.

Lemma contents_LevelDown (k : nat) (h : Heap) (w c : Wheel) :
  Shaped w -> Faithful w -> CanLevelDown w = true -> LevelDown w = Some c ->
  contents k h c = contents k h w.
Proof.
  intros Hs Hf Hcan Hc. unfold CanLevelDown in Hcan.
  apply andb_true_iff in Hcan. destruct Hcan as [Hb Hl0].
  apply Z.eqb_eq in Hb. apply Z.gtb_lt in Hl0.
  apply LevelDown_Some in Hc. destruct Hc as [El Hsub].
  assert (Hnz : bitmap w <> 0) by lia.
  assert (Hsub' : subWheels w !! Z.to_nat (TrailingZeros64 (bitmap w)) = Some (Some c))
    by (rewrite Hb; exact Hsub).
  destruct (contents_node_split k h w c (bitmap w) Hs Hf Hnz El Hsub') as [Hsplit _].
  rewrite Hsplit, Hb. change (Z.to_nat (TrailingZeros64 1)) with 0%nat.
  unfold node_slot. change (Z.of_nat 0) with 0. rewrite Z.mul_0_l, offset_0.
  unfold slots_after. destruct (Z.eqb_spec (level w) 0); [contradiction|].
  rewrite gather_empty; [rewrite app_nil_r; reflexivity|].
  intros j o Hj. rewrite lookup_drop in Hj.
  pose proof (lookup_lt_Some _ _ _ Hj) as Hlt. pose proof Hs as Hs'.
  destruct Hs' as [w _ _ Hls _ _].
  pose proof (Faithful_slot_empty w (1 + j) Hf ltac:(lia)) as He.
  destruct (Z.eqb_spec (level w) 0); [contradiction|].
  rewrite (He ltac:(rewrite Hb; apply Z.bits_above_log2; simpl; lia) o Hj). reflexivity.
Qed.

Lemma gather_offset {A} (g g' : nat -> A -> list (Z * ptr)) (s : Z) (n : nat) (l : list A) :
  forall i : nat,
    (forall j x, l !! j = Some x -> g' (i + j)%nat x = map (offset s) (g (i + j + n)%nat x)) ->
    gather g' i l = map (offset s) (gather g (i + n) l).
Proof.
  induction l as [| x l IH]; intros i H; [reflexivity|]. cbn [gather].
  rewrite map_app. f_equal.
  - specialize (H 0%nat x eq_refl). rewrite !Nat.add_0_r in H. exact H.
  - rewrite (IH (S i)); [reflexivity|]. intros j y Hj.
    replace (S i + j)%nat with (i + S j)%nat by lia. apply H. assumption.
Qed.

Lemma gather_rotate {A} (g : nat -> option A -> list (Z * ptr)) (a : list (option A))
    (n : nat) (s : Z) :
  length a = 64%nat -> (0 < n < 64)%nat -> (forall j, g j None = []) ->
  (forall j, (j < n)%nat -> a !! j = Some None) ->
  (forall j x, g j x = map (offset s) (g (j + n)%nat x)) ->
  gather g 0 (rotate_slots n a) = map (offset s) (gather g 0 a).
Proof.
  intros Hlen Hn Hnone Hlow Hg.
  pose proof (rotate_slots_length n a Hlen Hn) as Hlen'.
  assert (Hrhs : gather g 0 a = gather g n (drop n a)).
  { rewrite <- (take_drop n a) at 1. rewrite gather_app.
    rewrite length_take, Hlen, Nat.min_l by lia. cbn [Nat.add].
    rewrite (gather_empty g (take n a)); [reflexivity|].
    intros j x Hj. apply lookup_take_Some in Hj. destruct Hj as [Hj Hlt].
    rewrite Hlow in Hj by assumption. injection Hj as <-. apply Hnone. }
  assert (Heq : take (64 - n) (rotate_slots n a) = drop n a).
  { apply list_eq. intros j. rewrite lookup_drop.
    destruct (decide (j < 64 - n)%nat) as [Hj | Hj].
    - rewrite lookup_take_lt by assumption.
      rewrite rotate_slots_lookup by lia.
      destruct (decide (j + n < 64)%nat); [|lia]. f_equal. lia.
    - rewrite lookup_take_ge by lia. symmetry. apply lookup_ge_None. lia. }
  assert (Hlhs : gather g 0 (rotate_slots n a) = gather g 0 (drop n a)).
  { rewrite <- (take_drop (64 - n) (rotate_slots n a)). rewrite gather_app.
    rewrite (gather_empty g (drop (64 - n) (rotate_slots n a))).
    - rewrite app_nil_r, Heq. reflexivity.
    - intros j x Hj. rewrite lookup_drop in Hj.
      pose proof (lookup_lt_Some _ _ _ Hj) as Hlt.
      rewrite rotate_slots_lookup in Hj by lia.
      destruct (decide (64 - n + j + n < 64)%nat); [lia|].
      destruct (decide (64 - n + j < n)%nat).
      + rewrite Hlow in Hj by assumption. injection Hj as <-. apply Hnone.
      + injection Hj as <-. apply Hnone. }
  rewrite Hlhs, Hrhs. apply (gather_offset g g s n (drop n a) 0).
  intros j x _. apply Hg.
Qed.

Lemma offset_offset (s1 s2 : Z) (l : list (Z * ptr)) :
  map (offset s1) (map (offset s2) l) = map (offset (s1 + s2)) l.
Proof.
  induction l as [| [t p] l IH]; [reflexivity|]. cbn [map]. rewrite IH.
  unfold offset. cbn [fst snd]. f_equal. f_equal. lia.
Qed.

Lemma offset_pair (s t : Z) (l : list ptr) :
  map (offset s) (map (pair t) l) = map (pair (s + t)) l.
Proof. induction l as [| p l IH]; [reflexivity|]. cbn [map]. rewrite IH. reflexivity. Qed.

(** [Rotate(n)] over [n] empty slots keeps the entries and brings each
    time [n] slots nearer. *)
Lemma contents_Rotate (k : nat) (h : Heap) (w : Wheel) (n : Z) :
  Shaped w -> Faithful w -> 0 < n < 64 ->
  (forall i, 0 <= i < n -> Z.testbit (bitmap w) i = false) ->
  contents k h (Rotate w n) = map (offset (- (n * 64 ^ level w))) (contents k h w).
Proof.
  intros Hs Hf Hn Hlow. pose proof Hs as Hs'. destruct Hs' as [w _ Hle Hls _ _].
  unfold Rotate. destruct (Z.eqb_spec n 0); [lia|].
  destruct (Z.geb_spec n SlotSize) as [G | G]; [change SlotSize with 64 in G; lia|].
  cbn [orb]. rewrite (contents_unfold k h w).
  destruct (Z.eqb_spec (level w) 0) as [El | El].
  - rewrite contents_unfold. cbn [level entries set_bitmap set_entries].
    rewrite El. cbn [Z.eqb]. change (64 ^ 0) with 1. rewrite Z.mul_1_r.
    apply gather_rotate; [assumption | lia | intros; apply leaf_slot_None | |].
    + intros j Hj. destruct (lookup_lt_is_Some_2 (entries w) j ltac:(lia)) as [e He].
      pose proof (Faithful_slot_empty w j Hf ltac:(lia) (Hlow (Z.of_nat j) ltac:(lia))) as Hn0.
      rewrite El in Hn0. cbn [Z.eqb] in Hn0. rewrite (Hn0 e He) in He. exact He.
    + intros j x. unfold leaf_slot. rewrite offset_pair. f_equal. f_equal. lia.
  - rewrite contents_unfold. cbn [level subWheels set_bitmap set_subWheels].
    destruct (Z.eqb_spec (level w) 0); [contradiction|].
    apply gather_rotate; [assumption | lia | reflexivity | |].
    + intros j Hj. destruct (lookup_lt_is_Some_2 (subWheels w) j ltac:(lia)) as [o Ho].
      pose proof (Faithful_slot_empty w j Hf ltac:(lia) (Hlow (Z.of_nat j) ltac:(lia))) as Hn0.
      destruct (Z.eqb_spec (level w) 0); [contradiction|].
      rewrite (Hn0 o Ho) in Ho. exact Ho.
    + intros j x. unfold node_slot. destruct x as [c|]; [|reflexivity].
      rewrite offset_offset. f_equal. f_equal. lia.
Qed.

Lemma Rooted_Rotate (k : nat) (h : Heap) (w : Wheel) (n : Z) :
  Shaped w -> Rooted k h w -> 0 <= n -> Rooted k h (Rotate w n).
Proof.
  intros Hs Hr Hn. pose proof Hs as Hs'. destruct Hs' as [w _ Hle Hls _ _].
  unfold Rotate. destruct (Z.eqb_spec n 0); [assumption|].
  destruct (Z.geb_spec n SlotSize) as [G | G]; [assumption|].
  change SlotSize with 64 in G. cbn [orb].
  destruct (level w =? 0); constructor;
    cbn [entries subWheels set_bitmap set_entries set_subWheels].
  - intros i p Hi. apply rotate_slots_from in Hi; [|assumption|lia].
    destruct Hi as [j Hj]. eapply Rooted_entry in Hj; [|exact Hr]. exact Hj.
  - intros i c Hi. eapply Rooted_kid; eassumption.
  - intros i p Hi. eapply Rooted_entry in Hi; [|exact Hr]. exact Hi.
  - intros i c Hi. apply rotate_slots_from in Hi; [|assumption|lia].
    destruct Hi as [j Hj]. eapply Rooted_kid; eassumption.
Qed.

Lemma levelDownIfNeeded_spec (k : nat) (h : Heap) (fuel : nat) :
  forall (t : Timer) (w : Wheel),
    wheel t = Some w -> Shaped w -> Faithful w -> bitmap w <> 0 -> Rooted k h w ->
    (Z.to_nat (level w) <= fuel)%nat ->
    exists (t' : Timer) (w' : Wheel),
      levelDownIfNeeded fuel t = Ok t' /\ wheel t' = Some w' /\
      start t' = start t /\ numEntries t' = numEntries t /\
      Shaped w' /\ Faithful w' /\ bitmap w' <> 0 /\ Rooted k h w' /\
      contents k h w' = contents k h w.
Proof.
  induction fuel as [| fuel IH]; intros t w Hw Hs Hf Hnz Hr Hfuel;
    rewrite levelDownIfNeeded_unfold, Hw; pose proof (Shaped_level _ Hs) as Hl;
    destruct (CanLevelDown w) eqn:Hcan;
    try (exists t, w; split; [reflexivity|]; split; [assumption|];
         split; [reflexivity|]; split; [reflexivity|]; auto 10; fail).
  - unfold CanLevelDown in Hcan. apply andb_true_iff in Hcan.
    destruct Hcan as [_ Hgt]. apply Z.gtb_lt in Hgt. lia.
  - destruct (NextExpirationTime_LevelDown (S fuel) w Hs Hf Hcan Hfuel) as (c & Hc & _).
    pose proof Hc as Hc'. apply LevelDown_Some in Hc'. destruct Hc' as [_ Hsub].
    destruct (Shaped_child _ _ _ Hs Hsub) as [Hsc Hlc].
    destruct (Faithful_kid' _ _ _ Hf Hsub) as [Hfc Hnzc].
    destruct (IH (set_wheel t (LevelDown w)) c) as (t' & w' & H1 & H2 & H3 & H4 & H5 & H6 & H7 & H8 & H9);
      try assumption.
    + eapply Rooted_kid; eassumption.
    + lia.
    + exists t', w'. split; [assumption|]. split; [assumption|].
      split; [assumption|]. split; [assumption|]. split; [assumption|].
      split; [assumption|]. split; [assumption|]. split; [assumption|].
      rewrite H9. apply contents_LevelDown; assumption.
Qed.

(** ** The schedule of the worker *)

Lemma map_snd_at_clock (t : Timer) (l : list (Z * ptr)) :
  map snd (map (at_clock t) l) = map snd l.
Proof. induction l as [| tp l IH]; [reflexivity|]. simpl. rewrite IH. reflexivity. Qed.

Lemma at_clock_advance (t t' : Timer) (s : Z) (l : list (Z * ptr)) :
  start t' = start t + s * Millisecond ->
  map (at_clock t') (map (offset (- s)) l) = map (at_clock t) l.
Proof.
  intros Hst. induction l as [| [j p] l IH]; [reflexivity|]. cbn [map]. rewrite IH.
  unfold at_clock, offset. cbn [fst snd]. rewrite Hst. f_equal. f_equal. lia.
Qed.

Lemma at_clock_same (t t' : Timer) (l : list (Z * ptr)) :
  start t' = start t -> map (at_clock t') l = map (at_clock t) l.
Proof.
  intros Hst. apply map_ext. intros tp. unfold at_clock. rewrite Hst. reflexivity.
Qed.

(** What [maintenance] does to a wheel that [HandleExpiredEntries] has
    just been through: the entries stay, and so do the clock readings of
    their slots. *)
Lemma maintenance_spec (k : nat) (h : Heap) (fuel : nat) (t : Timer) (r : Z) (w : Wheel) :
  wheel t = Some w -> Shaped w -> Faithful w -> Rooted k h w -> 0 <= r < 2 ^ 64 ->
  (forall i, 0 <= i < 64 -> (i + 1) * 64 ^ level w <= r ->
             Z.testbit (bitmap w) i = false) ->
  (6 < fuel)%nat ->
  exists t' : Timer,
    maintenance fuel t r = Ok t' /\ handler t' = handler t /\
    scheduled k h t' = scheduled k h t /\
    (bitmap w = 0 -> wheel t' = None /\ numEntries t' = 0) /\
    (bitmap w <> 0 ->
       numEntries t' = numEntries t /\
       exists w', wheel t' = Some w' /\ Shaped w' /\ Faithful w' /\ bitmap w' <> 0 /\
                  Rooted k h w').
Proof.
  intros Hw Hs Hf Hr Hrr Hclear Hfuel. pose proof (Shaped_level _ Hs) as Hl.
  unfold maintenance. rewrite Hw. unfold Empty.
  destruct (Z.eqb_spec (bitmap w) 0) as [Hz | Hnz].
  { eexists. split; [reflexivity|]. split; [reflexivity|]. split.
    - unfold scheduled. cbn [wheel set_wheel set_numEntries]. rewrite Hw.
      rewrite Faithful_empty_contents by assumption. reflexivity.
    - split; [intros _; split; reflexivity | contradiction]. }
  unfold MsPerSlot. destruct (tables _ Hl) as (Hmps & _). rewrite Hmps.
  cbn [mbind result_bind].
  pose proof (pow64_pos (level w) ltac:(lia)) as Hpos.
  pose proof (pow64_le (level w) Hl) as Htop.
  pose proof (pow64_step (level w) ltac:(lia)) as Hstep.
  set (n := r / 64 ^ level w).
  assert (Hn0 : 0 <= n) by (apply Z.div_pos; lia).
  assert (Hnr : n * 64 ^ level w <= r).
  { unfold n. rewrite Z.mul_comm. apply Z.mul_div_le. assumption. }
  clearbody n. assert (Hp : 0 <= n * 64 ^ level w) by nia.
  assert (Hn64 : n < 64).
  { destruct (Z.lt_ge_cases n 64) as [|Hge]; [assumption|]. exfalso. apply Hnz.
    apply all_clear_zero; [apply Faithful_range; assumption|].
    intros i Hi. apply Hclear; [assumption | nia]. }
  assert (Hlow : forall i, 0 <= i < n -> Z.testbit (bitmap w) i = false).
  { intros i Hi. apply Hclear; [lia | nia]. }
  assert (Hp42 : n * 64 ^ level w < 2 ^ 42) by nia.
  (* the timer before the loop of [levelDownIfNeeded] *)
  match goal with
  | |- exists t', (?e ≫= _) = _ /\ _ => set (step := e)
  end.
  assert (H2 : exists t2 w2,
             step = Ok t2 /\
             wheel t2 = Some w2 /\ handler t2 = handler t /\
             numEntries t2 = numEntries t /\
             Shaped w2 /\ Faithful w2 /\ bitmap w2 <> 0 /\ Rooted k h w2 /\
             map (at_clock t2) (contents k h w2) = map (at_clock t) (contents k h w)).
  { subst step. destruct (Z.gtb_spec n 0) as [Hgt | Hle].
    - destruct (Rotate_Shaped w n Hs Hn0) as [Hsr Hlr]. cbv zeta.
      unfold MsPerSlot. rewrite Hlr, Hmps. cbn [mbind result_bind].
      rewrite (u64_small (n * 64 ^ level w)) by lia.
      rewrite (i64_small (n * 64 ^ level w)) by lia.
      rewrite i64_small by (unfold Millisecond; lia).
      eexists _, (Rotate w n). split; [reflexivity|].
      cbn [wheel handler numEntries set_start set_wheel].
      split; [reflexivity|]. split; [reflexivity|]. split; [reflexivity|].
      split; [assumption|].
      assert (Hfr : Faithful (Rotate w n)).
      { pose proof Hs as Hs'. destruct Hs' as [w _ Hle Hls _ _].
        apply Rotate_Faithful; try assumption.
        intros i Hi. apply Hlow. lia. }
      split; [assumption|]. split.
      + destruct (ctz_shiftr _ n (Faithful_range _ Hf) Hnz Hn0 Hlow) as [Hge _].
        destruct (ctz_spec _ (Faithful_range _ Hf) Hnz) as (Hi & Hti & _).
        unfold Rotate. destruct (Z.eqb_spec n 0); [lia|].
        destruct (Z.geb_spec n SlotSize) as [G | G]; [change SlotSize with 64 in G; lia|].
        cbn [orb]. apply testbit_true_nonzero with (TrailingZeros64 (bitmap w) - n).
        destruct (level w =? 0); cbn [bitmap set_bitmap set_entries set_subWheels];
          rewrite Z.shiftr_spec by lia;
          (replace (TrailingZeros64 (bitmap w) - n + n) with (TrailingZeros64 (bitmap w))
             by lia); assumption.
      + split; [apply Rooted_Rotate; assumption|].
        rewrite contents_Rotate by (try assumption; lia).
        apply at_clock_advance. reflexivity.
    - exists t, w. split; [reflexivity|]. split; [assumption|].
      split; [reflexivity|]. split; [reflexivity|]. auto 10. }
  destruct H2 as (t2 & w2 & Hstep2 & Hw2 & Hh2 & Hn2 & Hs2 & Hf2 & Hnz2 & Hr2 & Hc2).
  rewrite Hstep2. cbn [mbind result_bind].
  destruct (levelDownIfNeeded_spec k h fuel t2 w2 Hw2 Hs2 Hf2 Hnz2 Hr2)
    as (t' & w' & Hld & Hw' & Hst' & Hne' & Hs' & Hf' & Hnz' & Hr' & Hc').
  { pose proof (Shaped_level _ Hs2). lia. }
  exists t'. split; [assumption|]. split.
  { rewrite <- Hh2. clear - Hld. revert t2 Hld. induction fuel as [| fuel IH]; intros t2 Hld;
      rewrite levelDownIfNeeded_unfold in Hld; destruct (wheel t2) as [w0|];
      try (injection Hld as <-; reflexivity);
      destruct (CanLevelDown w0); try discriminate Hld;
      try (injection Hld as <-; reflexivity).
    apply IH in Hld. exact Hld. }
  split.
  { unfold scheduled. rewrite Hw', Hw, Hc', <- Hc2. apply at_clock_same. assumption. }
  split; [contradiction|]. intros _. split; [congruence|].
  exists w'. auto 10.
Qed.

Lemma due_by_clock (s now j : Z) :
  s <= now -> 0 <= j < 2 ^ 42 ->
  (j <=? u64 (Milliseconds (Sub now s))) = (s + j * Millisecond <=? now).
Proof.
  intros Hs Hj. unfold u64, Milliseconds, Sub, sat64, Millisecond.
  destruct (Z.leb_spec (s + j * 1000000) now);
    [apply Z.leb_le | apply Z.leb_gt]; Z.to_euclidean_division_equations; lia.
Qed.

Lemma filter_map_comm {A B} (f : B -> bool) (f' : A -> bool) (g : A -> B) (l : list A) :
  (forall x, x ∈ l -> f (g x) = f' x) ->
  List.filter f (map g l) = map g (List.filter f' l).
Proof.
  induction l as [| x l IH]; intros H; [reflexivity|]. cbn [map List.filter].
  rewrite (H x ltac:(left)). rewrite IH by (intros y Hy; apply H; right; assumption).
  destruct (f' x); reflexivity.
Qed.

Lemma due_scheduled (t : Timer) (now : Z) (l : list (Z * ptr)) :
  start t <= now -> (forall tp, tp ∈ l -> 0 <= tp.1 < 2 ^ 42) ->
  map (at_clock t) (due (elapsed t now) l)
    = List.filter (fun tp => tp.1 <=? now) (map (at_clock t) l) /\
  map (at_clock t) (late (elapsed t now) l)
    = List.filter (fun tp => now <? tp.1) (map (at_clock t) l).
Proof.
  intros Hs Hl. unfold due, late. split; symmetry; apply filter_map_comm;
    intros tp Htp; unfold at_clock, elapsed; cbn [fst];
    pose proof (due_by_clock (start t) now tp.1 Hs (Hl tp Htp)) as E.
  - symmetry. exact E.
  - rewrite !Z.ltb_antisym, E. reflexivity.
Qed.

Lemma due_late_length (r : Z) (l : list (Z * ptr)) :
  (length (due r l) + length (late r l))%nat = length l.
Proof.
  induction l as [| tp l IH]; [reflexivity|]. unfold due, late in *. cbn [List.filter].
  rewrite Z.ltb_antisym. destruct (tp.1 <=? r); cbn [negb length]; lia.
Qed.

Lemma NoDup_late (r : Z) (l : list (Z * ptr)) :
  NoDup (map snd l) -> NoDup (map snd (late r l)).
Proof.
  induction l as [| tp l IH]; intros H; [constructor|]. cbn [map] in H.
  apply NoDup_cons in H. destruct H as [Hnotin H]. unfold late in *. cbn [List.filter].
  destruct (r <? tp.1); [|apply IH; assumption]. cbn [map]. apply NoDup_cons.
  split; [|apply IH; assumption]. intros Hin. apply Hnotin.
  apply list_elem_of_fmap in Hin. destruct Hin as (x & -> & Hx).
  apply list_elem_of_fmap. exists x. split; [reflexivity|].
  apply list_elem_of_In in Hx. apply List.filter_In in Hx. apply list_elem_of_In. tauto.
Qed.

(** [handleExpired] dispatches the entries whose slot has started by the
    reading of the clock, in slot order, and keeps the others with the
    clock readings of their slots. *)
Lemma handleExpired_exact (k fuel : nat) (t : Timer) (now : Z) (m : Mem) :
  timer_inv k (heap m) t -> framed (handler t) -> tame (handler t) ->
  start t <= now -> numEntries t < 2 ^ 63 -> (k + 6 < fuel)%nat ->
  exists (t' : Timer) (m' : Mem),
    handleExpired fuel t now m = Ok (t', m') /\
    fired m' = fired m ++
      map snd (List.filter (fun tp => tp.1 <=? now) (scheduled k (heap m) t)) /\
    scheduled k (heap m') t'
      = List.filter (fun tp => now <? tp.1) (scheduled k (heap m) t) /\
    timer_inv k (heap m') t' /\ handler t' = handler t.
Proof.
  intros (Hok & Hroot & Hnd & Hcount) Hfr Htame Hnow Hsmall Hfuel.
  unfold handleExpired. unfold scheduled in *.
  destruct (wheel t) as [w|] eqn:Hw.
  2:{ exists t, m. rewrite ?Hw. split; [reflexivity|]. cbn [List.filter map].
      rewrite app_nil_r.
      split; [reflexivity|]. split; [reflexivity|]. split; [|reflexivity].
      unfold timer_inv, scheduled. rewrite Hw.
      split; [assumption|]. split; [intros w0 H0; discriminate H0|].
      split; [constructor | assumption]. }
  destruct (Hok w Hw) as (Hs & Hf & Hnz). specialize (Hroot w eq_refl).
  pose proof (Shaped_level _ Hs) as Hl.
  rewrite map_snd_at_clock in Hnd. rewrite length_map in Hcount.
  set (C := contents k (heap m) w) in *.
  assert (Hrange : forall tp, tp ∈ C -> 0 <= tp.1 < 2 ^ 42).
  { intros tp Htp. pose proof (contents_range k (heap m) w Hs tp Htp).
    pose proof (pow64_le (level w) Hl). lia. }
  destruct (due_scheduled t now C Hnow Hrange) as [Hdue Hlate].
  destruct (Z.eqb_spec (numEntries t) 0) as [Hz | Hnz0].
  { assert (HC : C = []) by (destruct C; [reflexivity | simpl in Hcount; lia]).
    exists t, m. split; [reflexivity|]. rewrite HC. cbn [List.filter map].
    rewrite app_nil_r. split; [reflexivity|]. rewrite Hw. fold C. rewrite HC.
    split; [reflexivity|]. split; [|reflexivity].
    unfold timer_inv, scheduled. rewrite Hw. fold C. rewrite HC.
    split; [assumption|]. split; [intros w0 [= <-]; assumption|].
    split; [constructor | simpl; lia]. }
  fold (elapsed t now). set (r := elapsed t now) in *.
  assert (Hr : 0 <= r < 2 ^ 64) by (apply Z.mod_pos_bound; reflexivity).
  destruct (HandleExpiredEntries_total (handler t) k Htame fuel w r m Hs Hf Hroot
              ltac:(lia)) as (count & w1 & m1 & HE & _ & _).
  rewrite HE. cbn [mbind result_bind]. cbv zeta.
  destruct (HandleExpiredEntries_exact (handler t) k Hfr Htame _ _ _ _ _ _ _ HE Hs Hf
              Hroot Hnd Hr) as (Hfired & Hcont & _ & _ & Hroot1).
  fold C in Hfired, Hcont.
  destruct (HandleExpiredEntries_Shaped _ _ _ _ _ _ _ _ HE Hs) as [Hs1 Hl1].
  pose proof (HandleExpiredEntries_Faithful _ _ _ _ _ _ _ _ HE Hf) as Hf1.
  destruct (HandleExpiredEntries_fired _ _ _ _ _ _ _ _ HE) as (l' & Hl' & Hcnt).
  rewrite Hfired in Hl'. apply app_inv_head in Hl'. subst l'.
  rewrite length_map in Hcnt.
  pose proof (due_late_length r C) as Hlen.
  rewrite i64_small in Hcnt by lia.
  set (t1 := set_numEntries (set_wheel t (Some w1)) (u64 (numEntries t - u64 count))).
  assert (Hn1 : numEntries t1 = Z.of_nat (length (late r C))).
  { unfold t1. cbn [numEntries set_numEntries]. rewrite Hcnt.
    rewrite (u64_small (Z.of_nat _)) by lia. rewrite u64_small by lia. lia. }
  destruct (maintenance_spec k (heap m1) fuel t1 r w1 eq_refl Hs1 Hf1 Hroot1 Hr)
    as (t' & Hmaint & Hh' & Hsched & Hempty & Hfull).
  { intros i Hi Hle. eapply HandleExpiredEntries_clears_below; try eassumption.
    rewrite <- Hl1. assumption. }
  { lia. }
  match goal with
  | |- context [maintenance fuel ?x r] => change x with t1
  end.
  rewrite Hmaint. cbn [mbind result_bind].
  assert (Hsched1 : scheduled k (heap m1) t1 = map (at_clock t) (late r C)).
  { unfold scheduled, t1. cbn [wheel set_wheel set_numEntries]. rewrite Hcont.
    apply at_clock_same. reflexivity. }
  exists t', m1. split; [reflexivity|].
  split; [rewrite Hfired, <- Hdue, map_snd_at_clock; reflexivity|].
  fold (scheduled k (heap m1) t'). rewrite Hsched, Hsched1.
  split; [assumption|]. split; [|assumption].
  unfold timer_inv. rewrite Hsched, Hsched1, map_snd_at_clock, length_map.
  destruct (Z.eq_dec (bitmap w1) 0) as [Hz1 | Hnz1].
  - destruct (Hempty Hz1) as [Hw' Hn'].
    assert (Hnil : late r C = []).
    { rewrite <- Hcont. apply Faithful_empty_contents; assumption. }
    rewrite Hnil. split; [intros c Hc; congruence|].
    split; [intros c Hc; congruence|]. split; [constructor | assumption].
  - destruct (Hfull Hnz1) as (Hn' & w' & Hw' & Hs' & Hf' & Hnz' & Hr').
    split; [intros c Hc; rewrite Hw' in Hc; injection Hc as <-; auto|].
    split; [intros c Hc; rewrite Hw' in Hc; injection Hc as <-; assumption|].
    split; [apply NoDup_late; assumption | congruence].
Qed.

Lemma Fresh_LevelUp (k : nat) (h : Heap) (entry : ptr) (w : Wheel) :
  Fresh k h entry w -> Fresh k h entry (LevelUp w).
Proof.
  intros Hf. constructor; unfold LevelUp, NewWheelWithChild; cbn [entries subWheels].
  - intros i hd Hi. apply lookup_replicate in Hi. destruct Hi as [-> _].
    rewrite walk_None. apply not_elem_of_nil.
  - intros i c Hi. apply only_child in Hi. destruct Hi as [_ ->]. assumption.
Qed.

Lemma level_up_contents (k : nat) (h : Heap) (entry : ptr) (fuel : nat) :
  forall (w : Wheel) (interval : Z) (w' : Wheel),
    level_up fuel w interval = Ok w' ->
    Shaped w -> Rooted k h w -> Fresh k h entry w ->
    Rooted k h w' /\ Fresh k h entry w' /\ contents k h w' = contents k h w.
Proof.
  induction fuel as [| fuel IH]; intros w interval w' H Hs Hr Hf;
    rewrite level_up_unfold in H; ok_inv H;
    destruct (interval >=? a); cbn [andb] in H;
    try (injection H as <-; auto);
    unfold Level in H; destruct (Z.ltb_spec (level w) MaxLevel) as [Hlt | Hge];
    try discriminate H; try (injection H as <-; auto).
  pose proof (Shaped_level _ Hs) as Hl.
  destruct (LevelUp_Shaped w Hs Hlt) as [Hs' _].
  destruct (IH _ _ _ H Hs' (Rooted_LevelUp _ _ _ Hr) (Fresh_LevelUp _ _ _ _ Hf))
    as (H1 & H2 & H3).
  split; [assumption|]. split; [assumption|].
  rewrite H3. apply contents_LevelUp. assumption.
Qed.

(** [addToWheel] of an entry that is not due yet puts it, and nothing
    else, into the wheel, in the slot of its interval. *)
Lemma addToWheel_scheduled (k fuel : nat) (t : Timer) (entry : ptr) (now : Z) (m : Mem)
    (e : Entry) :
  timer_inv k (heap m) t -> fresh_for k (heap m) entry t ->
  heap m !! entry = Some e -> now < expireAt e ->
  let s := match wheel t with None => now | Some _ => start t end in
  let d := u64 (Milliseconds (Sub (expireAt e) s)) in
  d < 64 ^ 7 -> numEntries t < 2 ^ 63 -> (6 < fuel)%nat ->
  exists (t' : Timer) (m' : Mem),
    addToWheel fuel t entry now m = Ok (t', m') /\
    start t' = s /\ handler t' = handler t /\
    fired m' = fired m /\ calls m' = calls m /\
    timer_inv (S k) (heap m') t' /\
    scheduled (S k) (heap m') t'
      ≡ₚ (s + d * Millisecond, entry) :: scheduled k (heap m) t.
Proof.
  intros (Hok & Hroot & Hnd & Hcount) Hfresh He Hlt s d Hd Hsmall Hfuel.
  assert (Hd0 : 0 <= d) by (apply Z.mod_pos_bound; reflexivity).
  unfold addToWheel. cbn [deref]. rewrite He. cbn [mbind result_bind].
  destruct (Z.leb_spec (expireAt e) now) as [|_]; [lia|].
  unfold scheduled in Hnd, Hcount |- *. unfold fresh_for in Hfresh. subst s.
  destruct (wheel t) as [w|] eqn:Hw.
  - (* the timer has a wheel *)
    destruct (Hok w Hw) as (Hs & Hf & Hnz). specialize (Hroot w eq_refl).
    specialize (Hfresh w eq_refl). pose proof (Shaped_level _ Hs) as Hl.
    rewrite map_snd_at_clock in Hnd. rewrite length_map in Hcount.
    fold d. unfold levelUpAndAdd. rewrite Hw.
    destruct (level_up_total fuel w d Hs ltac:(unfold MaxLevel; lia))
      as (w1 & Hup & Hs1 & Hl1 & Hspan & Hfaith).
    destruct (Hfaith Hf Hnz) as [Hf1 Hnz1].
    rewrite Hup. cbn [mbind result_bind].
    destruct (level_up_contents k (heap m) entry _ _ _ _ Hup Hs Hroot Hfresh)
      as (Hr1 & Hfr1 & Hc1).
    destruct (AddEntry_total fuel w1 entry d (heap m) Hs1)
      as (w' & h' & Hadd & Hs' & Hl' & _).
    { rewrite He. eexists. reflexivity. }
    { unfold MaxLevel in Hl1. lia. }
    rewrite Hadd. cbn [mbind result_bind].
    destruct (AddEntry_Faithful _ _ _ _ _ _ _ Hadd Hf1) as [Hf' Hnz'].
    destruct (AddEntry_contents _ _ _ _ _ _ _ k Hs1 Hr1 Hfr1 Hadd) as [Hr' Hperm].
    rewrite (mod_span d (level w1)) in Hperm
      by (try assumption; unfold MaxLevel in *; try lia; intros; apply Hspan; lia).
    rewrite Hc1 in Hperm.
    eexists _, _. split; [reflexivity|].
    cbn [wheel start handler numEntries set_wheel set_start set_numEntries
         fired calls heap set_heap].
    split; [reflexivity|]. split; [reflexivity|]. split; [reflexivity|].
    split; [reflexivity|].
    assert (Hsched : map (at_clock (set_numEntries (set_wheel t (Some w'))
                                      (u64 (numEntries t + 1))))
                         (contents (S k) h' w')
                     ≡ₚ (start t + d * Millisecond, entry)
                          :: map (at_clock t) (contents k (heap m) w)).
    { rewrite Hperm. cbn [map]. apply Permutation_cons; [reflexivity|].
      rewrite (at_clock_same t _ _ eq_refl). reflexivity. }
    split; [|exact Hsched].
    unfold timer_inv, scheduled.
    cbn [wheel start handler numEntries set_wheel set_start set_numEntries].
    split; [intros c [= <-]; auto|]. split; [intros c [= <-]; assumption|].
    split.
    + rewrite Hsched. cbn [map snd]. rewrite map_snd_at_clock. apply NoDup_cons.
      split; [apply Fresh_not_in; assumption | assumption].
    + rewrite Hsched. cbn [length]. rewrite length_map.
      rewrite u64_small by lia. lia.
  - (* the first entry *)
    cbn [length map] in Hcount. fold d. unfold buildWheelAndAdd.
    destruct (pick_level_total fuel 0 d ltac:(unfold MaxLevel; lia)
                ltac:(unfold MaxLevel; lia)) as (l & Hpick).
    rewrite Hpick. cbn [mbind result_bind].
    destruct (pick_level_spec _ _ _ _ Hpick ltac:(unfold MaxLevel; lia))
      as (Hl & Hspan & _).
    pose proof (Shaped_NewWheel l ltac:(lia)) as Hs0.
    destruct (AddEntry_total fuel (NewWheel l) entry d (heap m) Hs0)
      as (w' & h' & Hadd & Hs' & Hl' & _).
    { rewrite He. eexists. reflexivity. }
    { cbn [level NewWheel]. unfold MaxLevel in Hl. lia. }
    rewrite Hadd. cbn [mbind result_bind].
    destruct (AddEntry_Faithful _ _ _ _ _ _ _ Hadd (Faithful_NewWheel l)) as [Hf' Hnz'].
    destruct (AddEntry_contents _ _ _ _ _ _ _ k Hs0 (Rooted_NewWheel k (heap m) l)
                (Fresh_NewWheel k (heap m) entry l) Hadd) as [Hr' Hperm].
    cbn [level NewWheel] in Hperm.
    rewrite (mod_span d l) in Hperm
      by (try assumption; unfold MaxLevel in *; try lia; intros; apply Hspan; lia).
    rewrite contents_NewWheel in Hperm.
    eexists _, _. split; [reflexivity|].
    cbn [wheel start handler numEntries set_wheel set_start set_numEntries
         fired calls heap set_heap].
    split; [reflexivity|]. split; [reflexivity|]. split; [reflexivity|].
    split; [reflexivity|].
    assert (Hsched : map (at_clock (set_numEntries (set_wheel (set_start t now) (Some w'))
                                      (u64 (numEntries (set_start t now) + 1))))
                         (contents (S k) h' w')
                     ≡ₚ [(now + d * Millisecond, entry)]).
    { rewrite Hperm. reflexivity. }
    split; [|exact Hsched].
    unfold timer_inv, scheduled.
    cbn [wheel start handler numEntries set_wheel set_start set_numEntries].
    split; [intros c [= <-]; auto|]. split; [intros c [= <-]; assumption|].
    cbn [wheel start handler numEntries set_wheel set_start set_numEntries] in Hsched.
    split.
    + rewrite Hsched. cbn [map snd]. apply NoDup_singleton.
    + rewrite Hsched. cbn [length]. rewrite Hcount. reflexivity.
Qed.

(** ** [RemoveEntry] of an entry that is not there *)

Lemma find_pred_S (fuel : nat) (cur : option ptr) (entry : ptr) (h : Heap) :
  find_pred (S fuel) cur entry h =
    nxt ← getNext cur h;
    if decide (nxt = Some entry) then Ok cur else find_pred fuel nxt entry h.
Proof. reflexivity. Qed.

(** The walk of [RemoveEntry] along a bucket that does not hold the entry
    runs off its end: a nil dereference. *)
Lemma find_pred_missing (k : nat) :
  forall (fuel : nat) (cur : option ptr) (entry : ptr) (h : Heap),
    ends k h cur -> entry ∉ walk (S k) h cur -> (k < fuel)%nat ->
    find_pred fuel cur entry h = Panic.
Proof.
  induction k as [| k IH]; intros fuel cur entry h He Hnot Hfuel;
    (destruct fuel as [| fuel]; [lia|]); rewrite find_pred_S;
    destruct cur as [p|]; simpl in He; try contradiction; try reflexivity.
  destruct He as (c & Hp & He). rewrite (getNext_Some _ _ _ Hp).
  cbn [mbind result_bind].
  change (walk (S (S k)) h (Some p))
    with (p :: match h !! p with Some c => walk (S k) h (next c) | None => [] end) in Hnot.
  rewrite Hp in Hnot. apply not_elem_of_cons in Hnot. destruct Hnot as [Hne Hnot].
  destruct (decide (next c = Some entry)) as [E | _].
  - exfalso. apply Hnot. rewrite E. cbn [walk]. left.
  - apply IH; [assumption | assumption | lia].
Qed.


(** ** The boolean checkers are sound *)

Lemma rootedb_unfold (k : nat) (h : Heap) (w : Wheel) :
  rootedb k h w =
  forallb (endsb k h) (entries w) &&
  forallb (fun o => match o with
                    | Some c => rootedb k h c
                    | None => true
                    end)
          (subWheels w).
Proof. destruct w; reflexivity. Qed.

Lemma endsb_sound (k : nat) :
  forall (h : Heap) (hd : option ptr), endsb k h hd = true -> ends k h hd.
Proof.
  induction k as [| k IH]; intros h hd H; destruct hd as [p|]; simpl in *;
    try discriminate; try exact I.
  destruct (h !! p) as [c|]; [|discriminate]. exists c. auto.
Qed.

Lemma rootedb_sound (k : nat) (h : Heap) (w : Wheel) :
  rootedb k h w = true -> Rooted k h w.
Proof.
  induction w as [w IH] using Wheel_ind. intros H. rewrite rootedb_unfold in H.
  apply andb_true_iff in H. destruct H as [He Hk].
  rewrite forallb_forall in He. rewrite forallb_forall in Hk. constructor.
  - intros i p Hp. apply endsb_sound. apply He.
    apply list_elem_of_In. eapply list_elem_of_lookup_2, Hp.
  - intros i c Hc. eapply IH; [exact Hc|]. apply (Hk (Some c)).
    apply list_elem_of_In. eapply list_elem_of_lookup_2, Hc.
Qed.

Lemma freshb_unfold (k : nat) (h : Heap) (entry : ptr) (w : Wheel) :
  freshb k h entry w =
  forallb (fun hd => negb (bool_decide (entry ∈ walk k h hd))) (entries w) &&
  forallb (fun o => match o with
                    | Some c => freshb k h entry c
                    | None => true
                    end)
          (subWheels w).
Proof. destruct w; reflexivity. Qed.

Lemma freshb_sound (k : nat) (h : Heap) (entry : ptr) (w : Wheel) :
  freshb k h entry w = true -> Fresh k h entry w.
Proof.
  induction w as [w IH] using Wheel_ind. intros H. rewrite freshb_unfold in H.
  apply andb_true_iff in H. destruct H as [He Hk].
  rewrite forallb_forall in He. rewrite forallb_forall in Hk. constructor.
  - intros i hd Hp. specialize (He hd). cbv beta in He.
    apply negb_true_iff, bool_decide_eq_false in He; [assumption|].
    apply list_elem_of_In. eapply list_elem_of_lookup_2, Hp.
  - intros i c Hc. eapply IH; [exact Hc|]. apply (Hk (Some c)).
    apply list_elem_of_In. eapply list_elem_of_lookup_2, Hc.
Qed.

(** [handleExpired] returns. *)
Lemma handleExpired_total (k fuel : nat) (t : Timer) (now : Z) (m : Mem) :
  wheel_ok t -> tame (handler t) ->
  (forall w, wheel t = Some w -> Rooted k (heap m) w) -> (k + 6 < fuel)%nat ->
  exists (t' : Timer) (m' : Mem), handleExpired fuel t now m = Ok (t', m').
Proof.
  intros Hok Htame Hroot Hfuel. unfold handleExpired.
  destruct (wheel t) as [w|] eqn:Hw; [|eexists _, _; reflexivity].
  destruct (numEntries t =? 0); [eexists _, _; reflexivity|].
  destruct (Hok w Hw) as (Hs & Hf & Hnz). specialize (Hroot w eq_refl).
  pose proof (Shaped_level _ Hs) as Hl.
  fold (elapsed t now). set (r := elapsed t now) in *.
  assert (Hr : 0 <= r < 2 ^ 64) by (apply Z.mod_pos_bound; reflexivity).
  destruct (HandleExpiredEntries_total (handler t) k Htame fuel w r m Hs Hf Hroot
              ltac:(lia)) as (count & w1 & m1 & HE & _ & Hroot1).
  rewrite HE. cbn [mbind result_bind]. cbv zeta.
  destruct (HandleExpiredEntries_Shaped _ _ _ _ _ _ _ _ HE Hs) as [Hs1 Hl1].
  pose proof (HandleExpiredEntries_Faithful _ _ _ _ _ _ _ _ HE Hf) as Hf1.
  match goal with
  | |- context [maintenance fuel ?x r] => set (t1 := x)
  end.
  destruct (maintenance_spec k (heap m1) fuel t1 r w1 eq_refl Hs1 Hf1 Hroot1 Hr)
    as (t' & Hmaint & _).
  { intros i Hi Hle. eapply HandleExpiredEntries_clears_below; try eassumption.
    rewrite <- Hl1. assumption. }
  { lia. }
  rewrite Hmaint. eexists _, _. reflexivity.
Qed.


(** ** From scheduling to dispatch *)

(** The slot an entry is filed in starts at its deadline rounded down to a
    whole number of ms after the start: at most 1 ms before the deadline,
    never after it. *)
Lemma slot_clock_range (s x : Z) :
  s < x -> u64 (Milliseconds (Sub x s)) < 64 ^ 7 ->
  x - Millisecond < s + u64 (Milliseconds (Sub x s)) * Millisecond <= x.
Proof.
  unfold u64, Milliseconds, Sub, sat64, Millisecond. intros Hlt Hd.
  change (64 ^ 7) with 4398046511104 in Hd.
  change (2 ^ 63) with 9223372036854775808 in *.
  change (2 ^ 64) with 18446744073709551616 in *.
  revert Hd. Z.to_euclidean_division_equations. lia.
Qed.

Lemma NoDup_snd_unique {A B} (l : list (A * B)) (a b : A) (p : B) :
  NoDup (map snd l) -> (a, p) ∈ l -> (b, p) ∈ l -> a = b.
Proof.
  induction l as [| [a' p'] l IH]; intros Hnd Ha Hb.
  - inversion Ha.
  - cbn in Hnd. apply NoDup_cons in Hnd as [Hnot Hnd].
    apply elem_of_cons in Ha as [Ha | Ha]; apply elem_of_cons in Hb as [Hb | Hb].
    + congruence.
    + injection Ha as -> ->. exfalso. apply Hnot.
      apply (list_elem_of_fmap_2 snd _ (b, p')). assumption.
    + injection Hb as -> ->. exfalso. apply Hnot.
      apply (list_elem_of_fmap_2 snd _ (a, p')). assumption.
    + apply IH; assumption.
Qed.

(** [NextExpirationTime] is the slot time of an entry the wheel holds, and
    no entry has an earlier slot time. *)
Lemma NextExpirationTime_earliest (k : nat) (h : Heap) (fuel : nat) :
  forall w : Wheel,
    Shaped w -> Faithful w -> bitmap w <> 0 -> Rooted k h w ->
    (Z.to_nat (level w) < fuel)%nat ->
    exists (t : Z) (p : ptr),
      NextExpirationTime fuel w = Ok t /\ (t, p) ∈ contents k h w /\
      forall tp, tp ∈ contents k h w -> t <= tp.1.
Proof.
  induction fuel as [| fuel IH]; intros w Hs Hf Hnz Hr Hfuel; [lia|].
  pose proof (Shaped_level _ Hs) as Hl.
  pose proof (Faithful_range _ Hf) as Hb.
  destruct (ctz_spec _ Hb Hnz) as (Hidx & Hbit & _).
  set (index := TrailingZeros64 (bitmap w)) in *.
  set (j := Z.to_nat index).
  assert (Hj : Z.of_nat j = index) by (subst j; lia).
  pose proof (pow64_pos (level w) ltac:(lia)) as Hpos.
  destruct (Z.eqb_spec (level w) 0) as [El | El].
  - assert (Hocc : occupied (entries w) j).
    { destruct Hf as [w _ Hbits _ _]. specialize (Hbits j ltac:(lia)).
      rewrite Hj in Hbits. apply Hbits in Hbit.
      destruct (Z.eqb_spec (level w) 0); [assumption | contradiction]. }
    destruct Hocc as (p & Hp).
    pose proof (Rooted_entry _ _ _ _ _ Hr Hp) as Hends.
    destruct k as [| k']; [contradiction|].
    destruct (contents_leaf_split (S k') h w (Some p) 0 Hs Hf Hnz El Hp) as [Hsplit _].
    fold index j in Hsplit.
    exists index, p. split; [apply NextExpirationTime_leaf; assumption|].
    rewrite Hsplit. split.
    + apply elem_of_app. left. apply elem_of_leaf_slot. cbn [fst snd].
      split; [lia|]. cbn [walk]. apply list_elem_of_here.
    + intros tp Htp. apply elem_of_app in Htp as [Htp | Htp].
      * apply elem_of_leaf_slot in Htp as [-> _]. lia.
      * apply slots_after_range in Htp; [|assumption].
        rewrite El in Htp. change (64 ^ 0) with 1 in Htp. lia.
  - destruct (Faithful_child_at w Hf Hnz) as (c & Hsub & Hfc & Hnzc).
    { apply Z.eqb_neq. assumption. }
    fold index j in Hsub.
    destruct (Shaped_child _ _ _ Hs Hsub) as [Hsc Hlc].
    pose proof (Rooted_kid _ _ _ _ _ Hr Hsub) as Hrc.
    destruct (IH c Hsc Hfc Hnzc Hrc ltac:(lia)) as (tc & p & Htc & Hin & Hmin).
    destruct (NextExpirationTime_node fuel w c Hs El Hb Hnz Hsub Hfc Hnzc ltac:(lia))
      as (tc' & Htc' & Hrange & Hnext).
    rewrite Htc in Htc'. injection Htc' as <-.
    destruct (contents_node_split k h w c 0 Hs Hf Hnz El Hsub) as [Hsplit _].
    fold index j in Hsplit, Hnext.
    exists (index * 64 ^ level w + tc), p. split; [assumption|].
    rewrite Hsplit. split.
    + apply elem_of_app. left. apply elem_of_node_slot.
      exists c, (tc, p). split; [reflexivity|]. split; [assumption|].
      cbn [fst snd]. rewrite Hj. reflexivity.
    + intros tp Htp. apply elem_of_app in Htp as [Htp | Htp].
      * apply elem_of_node_slot in Htp as (c0 & tp' & Hc0 & Htp' & ->).
        injection Hc0 as <-. specialize (Hmin _ Htp'). cbn [fst]. rewrite Hj. lia.
      * apply slots_after_range in Htp; [|assumption]. rewrite Hj in Htp. lia.
Qed.

(** A write that keeps the link of every cell changes neither what a wheel
    holds nor whether its chains end. *)
Lemma contents_same_links (k : nat) (h h' : Heap) (w : Wheel) :
  (forall (q : ptr) (c : Entry),
     h !! q = Some c -> exists c', h' !! q = Some c' /\ next c' = next c) ->
  Rooted k h w ->
  contents k h' w = contents k h w /\ Rooted k h' w.
Proof.
  intros Hsame Hr. split.
  - apply contents_agree; [assumption|]. intros q c _ Hq. apply Hsame. assumption.
  - eapply Rooted_shrink; [|eassumption]. intros q c Hq.
    destruct (Hsame q c Hq) as (c' & Hc' & Hn). exists c'. auto.
Qed.

(** * The wheel, the queue and the worker: results *)

(** ** The wheel: adding, removing, expiring *)

(** X1. [AddEntry(entry, interval)] on a shaped, faithful wheel returns, and
    afterwards [NextExpirationTime] is the smaller of its former result and
    [interval mod 64^(level+1)]: the entry is filed under its interval
    reduced modulo the wheel's span, also when the interval lies beyond the
    span. *)
Theorem AddEntry_then_NextExpirationTime (fuel : nat) (w : Wheel) (entry : ptr)
    (d : Z) (h : Heap) :
  Shaped w -> Faithful w -> is_Some (h !! entry) -> (Z.to_nat (level w) < fuel)%nat ->
  exists (w' : Wheel) (h' : Heap) (t : Z),
    AddEntry fuel w entry d h = Ok (w', h') /\
    NextExpirationTime fuel w = Ok t /\
    NextExpirationTime fuel w' = Ok (Z.min (d mod 64 ^ (level w + 1)) t).
Proof.
  intros Hs Hf Hal Hfuel.
  destruct (AddEntry_total fuel w entry d h Hs Hal Hfuel) as (w' & h' & Hadd & _).
  assert (Ht : exists t, NextExpirationTime fuel w = Ok t).
  { destruct (Z.eq_dec (bitmap w) 0) as [Hz | Hnz].
    - destruct fuel; [lia|]. eexists. apply NextExpirationTime_empty. assumption.
    - destruct (NextExpirationTime_bound fuel w Hs Hf Hnz Hfuel) as (t & Ht & _). eauto. }
  destruct Ht as (t & Ht). exists w', h', t. split; [assumption|].
  split; [assumption|]. eapply AddEntry_next; eassumption.
Qed.

Lemma AddEntry_then_NextExpirationTime_witness :
  Shaped wheel_100ms /\ Faithful wheel_100ms /\ is_Some (heap mem_far !! 2%nat) /\
  (Z.to_nat (level wheel_100ms) < 2)%nat /\
  exists (w' : Wheel) (h' : Heap) (t : Z),
    AddEntry 2 wheel_100ms 2 12358 (heap mem_far) = Ok (w', h') /\
    NextExpirationTime 2 wheel_100ms = Ok t /\
    NextExpirationTime 2 w' = Ok (Z.min (12358 mod 64 ^ (level wheel_100ms + 1)) t).
Proof.
  assert (Hs : Shaped wheel_100ms) by (apply shapedb_sound; vm_compute; reflexivity).
  assert (Hf : Faithful wheel_100ms) by (apply faithfulb_sound; vm_compute; reflexivity).
  assert (Hal : is_Some (heap mem_far !! 2%nat)) by (vm_compute; eauto).
  assert (Hd : (Z.to_nat (level wheel_100ms) < 2)%nat) by (vm_compute; lia).
  split; [exact Hs | split; [exact Hf | split; [exact Hal | split; [exact Hd |]]]].
  exact (AddEntry_then_NextExpirationTime 2 wheel_100ms 2 12358 (heap mem_far)
           Hs Hf Hal Hd).
Defined.

(** X2. [RemoveEntry] right after [AddEntry], with the same entry and
    interval, gives back the wheel as it was before: bitmap, slots and
    sub-wheels, a sub-wheel created for the entry being dropped again.  The
    heap keeps the link that [AddEntry] stored. *)
Theorem RemoveEntry_undoes_AddEntry (fuel : nat) (w : Wheel) (entry : ptr)
    (d : Z) (h : Heap) :
  Shaped w -> Faithful w -> is_Some (h !! entry) -> (Z.to_nat (level w) < fuel)%nat ->
  exists (w1 : Wheel) (h1 : Heap),
    AddEntry fuel w entry d h = Ok (w1, h1) /\
    RemoveEntry fuel w1 entry d h1 = Ok (w, h1).
Proof.
  intros Hs Hf Hal Hfuel.
  destruct (AddEntry_total fuel w entry d h Hs Hal Hfuel) as (w1 & h1 & Hadd & _).
  exists w1, h1. split; [assumption|]. eapply RemoveEntry_AddEntry; eassumption.
Qed.

Lemma RemoveEntry_undoes_AddEntry_witness :
  Shaped wheel_100ms /\ Faithful wheel_100ms /\ is_Some (heap mem_far !! 2%nat) /\
  (Z.to_nat (level wheel_100ms) < 2)%nat /\
  exists (w1 : Wheel) (h1 : Heap),
    AddEntry 2 wheel_100ms 2 3000 (heap mem_far) = Ok (w1, h1) /\
    RemoveEntry 2 w1 2 3000 h1 = Ok (wheel_100ms, h1).
Proof.
  assert (Hs : Shaped wheel_100ms) by (apply shapedb_sound; vm_compute; reflexivity).
  assert (Hf : Faithful wheel_100ms) by (apply faithfulb_sound; vm_compute; reflexivity).
  assert (Hal : is_Some (heap mem_far !! 2%nat)) by (vm_compute; eauto).
  assert (Hd : (Z.to_nat (level wheel_100ms) < 2)%nat) by (vm_compute; lia).
  split; [exact Hs | split; [exact Hf | split; [exact Hal | split; [exact Hd |]]]].
  exact (RemoveEntry_undoes_AddEntry 2 wheel_100ms 2 3000 (heap mem_far) Hs Hf Hal Hd).
Defined.

(** X3. [RemoveEntry(entry, interval)] on a wheel whose bucket for that
    interval does not hold the entry does not return: it panics with a nil
    dereference, at the end of the bucket's chain or on the nil sub-wheel of
    an empty slot.  The bucket is the one of time
    [interval mod 64^(level+1)]. *)
Theorem RemoveEntry_of_absent_entry_panics (k fuel : nat) (w : Wheel) (entry : ptr)
    (d : Z) (h : Heap) :
  Shaped w -> Rooted k h w ->
  (d mod 64 ^ (level w + 1), entry) ∉ contents k h w ->
  (k + Z.to_nat (level w) < fuel)%nat ->
  RemoveEntry fuel w entry d h = Panic.
Proof.
  revert w entry d h.
  induction fuel as [| fuel IH]; intros w entry d h Hs Hr Hnot Hfuel; [lia|].
  pose proof (Shaped_level _ Hs) as Hl. rewrite RemoveEntry_S.
  rewrite getIndex_eq by assumption. cbn [mbind result_bind].
  pose proof (interval_split d (level w) ltac:(lia)) as Hsplit.
  set (index := Z.land (Z.shiftr d (6 * level w)) 63) in *.
  assert (Hi : 0 <= index < 64).
  { unfold index. change 63 with (Z.ones 6). rewrite Z.land_ones by lia.
    apply Z.mod_pos_bound. lia. }
  rewrite contents_unfold in Hnot.
  destruct (Z.eqb_spec (level w) 0) as [El | El].
  - destruct (Shaped_aget_entries w index Hs Hi) as (hd & Hget).
    rewrite Hget. cbn [mbind result_bind].
    pose proof Hget as Hhd. apply aget_Ok in Hhd. destruct Hhd as [_ Hhd].
    pose proof (Rooted_entry _ _ _ _ _ Hr Hhd) as Hends.
    rewrite El in Hsplit. change (64 ^ 0) with 1 in Hsplit.
    rewrite Z.mod_1_r, Z.mul_1_r, Z.add_0_r in Hsplit.
    assert (Hw : entry ∉ walk k h hd).
    { intros Hin. apply Hnot. apply elem_of_gather.
      exists (Z.to_nat index), hd. split; [assumption|].
      apply elem_of_leaf_slot. cbn [fst snd]. split; [|assumption].
      rewrite El, Hsplit. lia. }
    destruct (decide (hd = Some entry)) as [-> | Hne].
    { exfalso. apply Hw. destruct k as [| k']; [contradiction Hends|]. cbn [walk]. left. }
    rewrite (find_pred_missing k); [reflexivity | assumption | | lia].
    rewrite (walk_S _ _ _ Hends). assumption.
  - destruct (Shaped_aget_subWheels w index Hs Hi) as (sub & Hget).
    rewrite Hget. cbn [mbind result_bind].
    pose proof Hget as Hsub. apply aget_Ok in Hsub. destruct Hsub as [_ Hsub].
    destruct sub as [c|]; [|reflexivity].
    destruct (Shaped_child _ _ _ Hs Hsub) as [Hsc Hlc].
    rewrite (IH c entry d h Hsc); [reflexivity | eapply Rooted_kid; eassumption | | lia].
    intros Hin. apply Hnot. apply elem_of_gather.
    exists (Z.to_nat index), (Some c). split; [assumption|].
    apply elem_of_node_slot. exists c, (d mod 64 ^ (level c + 1), entry).
    split; [reflexivity|]. split; [assumption|]. cbn [fst snd].
    rewrite Hlc. replace (level w - 1 + 1) with (level w) by lia.
    rewrite Hsplit. f_equal. lia.
Qed.

Lemma RemoveEntry_of_absent_entry_panics_witness :
  Shaped wheel_100ms /\ Rooted 1 (heap mem_far) wheel_100ms /\
  ((100 mod 64 ^ (level wheel_100ms + 1), 2%nat) ∉ contents 1 (heap mem_far) wheel_100ms) /\
  (1 + Z.to_nat (level wheel_100ms) < 3)%nat /\
  RemoveEntry 3 wheel_100ms 2 100 (heap mem_far) = Panic.
Proof.
  assert (Hs : Shaped wheel_100ms) by (apply shapedb_sound; vm_compute; reflexivity).
  assert (Hr : Rooted 1 (heap mem_far) wheel_100ms)
    by (apply rootedb_sound; vm_compute; reflexivity).
  assert (Hn : (100 mod 64 ^ (level wheel_100ms + 1), 2%nat)
                 ∉ contents 1 (heap mem_far) wheel_100ms)
    by (apply (bool_decide_unpack _); vm_compute; exact I).
  assert (Hd : (1 + Z.to_nat (level wheel_100ms) < 3)%nat) by (vm_compute; lia).
  split; [exact Hs | split; [exact Hr | split; [exact Hn | split; [exact Hd |]]]].
  exact (RemoveEntry_of_absent_entry_panics 1 3 wheel_100ms 2 100 (heap mem_far)
           Hs Hr Hn Hd).
Defined.

(** X4. When nothing is due, that is when [remainingMs] is less than what
    [NextExpirationTime] returns, [HandleExpiredEntries] returns 0, calls
    no handler and leaves the wheel and the memory as they are. *)
Theorem HandleExpiredEntries_nothing_due (fuel : nat) (hdl : Handler) (w : Wheel)
    (r : Z) (m : Mem) (t : Z) :
  Shaped w -> Faithful w -> (Z.to_nat (level w) < fuel)%nat ->
  NextExpirationTime fuel w = Ok t -> r < t ->
  HandleExpiredEntries fuel hdl w r m = Ok (0, w, m).
Proof. intros Hs Hf Hfuel Ht Hlt. eapply HandleExpiredEntries_idle; eassumption. Qed.

Lemma HandleExpiredEntries_nothing_due_witness :
  Shaped wheel_100ms /\ Faithful wheel_100ms /\ (Z.to_nat (level wheel_100ms) < 2)%nat /\
  NextExpirationTime 2 wheel_100ms = Ok 100 /\ 99 < 100 /\
  HandleExpiredEntries 2 execute_handler wheel_100ms 99 mem_far
    = Ok (0, wheel_100ms, mem_far).
Proof.
  assert (Hs : Shaped wheel_100ms) by (apply shapedb_sound; vm_compute; reflexivity).
  assert (Hf : Faithful wheel_100ms) by (apply faithfulb_sound; vm_compute; reflexivity).
  assert (Hd : (Z.to_nat (level wheel_100ms) < 2)%nat) by (vm_compute; lia).
  assert (Ht : NextExpirationTime 2 wheel_100ms = Ok 100) by (vm_compute; reflexivity).
  assert (Hlt : 99 < 100) by lia.
  split; [exact Hs | split; [exact Hf | split; [exact Hd | split; [exact Ht |
    split; [exact Hlt |]]]]].
  exact (HandleExpiredEntries_nothing_due 2 execute_handler wheel_100ms 99 mem_far 100
           Hs Hf Hd Ht Hlt).
Defined.

(** X5. [HandleExpiredEntries] is idempotent: on a shaped, faithful wheel
    whose chains end, with a handler that stores no link, the call returns;
    what it leaves is empty or due later than [remainingMs]; and a second
    call with the same [remainingMs] returns 0 and changes nothing. *)
Theorem HandleExpiredEntries_twice (fuel k : nat) (hdl : Handler) (w : Wheel)
    (r : Z) (m : Mem) :
  tame hdl -> Shaped w -> Faithful w -> Rooted k (heap m) w -> 0 <= r < 2 ^ 64 ->
  (k + Z.to_nat (level w) < fuel)%nat ->
  exists (count : Z) (w' : Wheel) (m' : Mem),
    HandleExpiredEntries fuel hdl w r m = Ok (count, w', m') /\
    (Empty w' = true \/ exists t, NextExpirationTime fuel w' = Ok t /\ r < t) /\
    HandleExpiredEntries fuel hdl w' r m' = Ok (0, w', m').
Proof.
  intros Ht Hs Hf Hr Hrr Hfuel.
  destruct (HandleExpiredEntries_total hdl k Ht fuel w r m Hs Hf Hr Hfuel)
    as (count & w' & m' & HE & _ & _).
  exists count, w', m'. split; [assumption|].
  destruct (HandleExpiredEntries_Shaped _ _ _ _ _ _ _ _ HE Hs) as [Hs' Hl'].
  pose proof (HandleExpiredEntries_Faithful _ _ _ _ _ _ _ _ HE Hf) as Hf'.
  destruct (HandleExpiredEntries_leaves_later _ _ _ _ _ _ _ _ HE Hs Hf Hrr ltac:(lia))
    as [Hz | (t & Hnext & Hlt)].
  - split; [left; unfold Empty; apply Z.eqb_eq; assumption|].
    destruct fuel as [| fuel]; [lia|]. rewrite HandleExpiredEntries_S.
    change (Z.to_nat SlotSize) with 64%nat. rewrite scan_unfold.
    rewrite Hz. reflexivity.
  - split; [right; eauto|].
    eapply HandleExpiredEntries_idle; try eassumption. lia.
Qed.

Lemma HandleExpiredEntries_twice_witness :
  tame execute_handler /\ Shaped wheel_100ms /\ Faithful wheel_100ms /\
  Rooted 1 (heap mem_far) wheel_100ms /\ 0 <= 70 < 2 ^ 64 /\
  (1 + Z.to_nat (level wheel_100ms) < 3)%nat /\
  exists (count : Z) (w' : Wheel) (m' : Mem),
    HandleExpiredEntries 3 execute_handler wheel_100ms 70 mem_far = Ok (count, w', m') /\
    (Empty w' = true \/ exists t, NextExpirationTime 3 w' = Ok t /\ 70 < t) /\
    HandleExpiredEntries 3 execute_handler w' 70 m' = Ok (0, w', m').
Proof.
  assert (Hs : Shaped wheel_100ms) by (apply shapedb_sound; vm_compute; reflexivity).
  assert (Hf : Faithful wheel_100ms) by (apply faithfulb_sound; vm_compute; reflexivity).
  assert (Hr : Rooted 1 (heap mem_far) wheel_100ms)
    by (apply rootedb_sound; vm_compute; reflexivity).
  assert (Hrr : 0 <= 70 < 2 ^ 64) by lia.
  assert (Hd : (1 + Z.to_nat (level wheel_100ms) < 3)%nat) by (vm_compute; lia).
  split; [exact execute_handler_tame | split; [exact Hs | split; [exact Hf |
    split; [exact Hr | split; [exact Hrr | split; [exact Hd |]]]]]].
  exact (HandleExpiredEntries_twice 3 1 execute_handler wheel_100ms 70 mem_far
           execute_handler_tame Hs Hf Hr Hrr Hd).
Defined.

(** ** Changing the level, rotating *)

(** X6. [LevelUp] puts the wheel in slot 0 of a new wheel one level higher:
    the new wheel can be levelled down, [LevelDown] gives the old wheel
    back, and neither the entries with their slot times nor what
    [NextExpirationTime] returns change. *)
Theorem LevelDown_undoes_LevelUp (fuel k : nat) (h : Heap) (w : Wheel) :
  Shaped w -> Faithful w -> level w < MaxLevel -> (Z.to_nat (level w) < fuel)%nat ->
  CanLevelDown (LevelUp w) = true /\
  LevelDown (LevelUp w) = Some w /\
  contents k h (LevelUp w) = contents k h w /\
  NextExpirationTime (S fuel) (LevelUp w) = NextExpirationTime fuel w.
Proof.
  intros Hs Hf Hl Hfuel.
  pose proof (Shaped_level _ Hs) as Hlev.
  destruct (LevelUp_Shaped w Hs Hl) as [_ Hup].
  assert (Ht : exists t, NextExpirationTime fuel w = Ok t).
  { destruct (Z.eq_dec (bitmap w) 0) as [Hz | Hnz].
    - destruct fuel; [lia|]. eexists. apply NextExpirationTime_empty. assumption.
    - destruct (NextExpirationTime_bound fuel w Hs Hf Hnz Hfuel) as (t & Ht & _). eauto. }
  destruct Ht as (t & Ht).
  split.
  { unfold CanLevelDown. rewrite Hup. unfold LevelUp, NewWheelWithChild. cbn [bitmap].
    apply andb_true_iff. split; [reflexivity | apply Z.gtb_lt; lia]. }
  split.
  { apply LevelDown_Some. split; [lia | reflexivity]. }
  split.
  { apply contents_LevelUp. unfold MaxLevel in Hl. lia. }
  rewrite Ht. eapply NextExpirationTime_LevelUp; eassumption.
Qed.

Lemma LevelDown_undoes_LevelUp_witness :
  Shaped wheel_100ms /\ Faithful wheel_100ms /\ level wheel_100ms < MaxLevel /\
  (Z.to_nat (level wheel_100ms) < 2)%nat /\
  CanLevelDown (LevelUp wheel_100ms) = true /\
  LevelDown (LevelUp wheel_100ms) = Some wheel_100ms /\
  contents 1 (heap mem_far) (LevelUp wheel_100ms) = contents 1 (heap mem_far) wheel_100ms /\
  NextExpirationTime 3 (LevelUp wheel_100ms) = NextExpirationTime 2 wheel_100ms.
Proof.
  assert (Hs : Shaped wheel_100ms) by (apply shapedb_sound; vm_compute; reflexivity).
  assert (Hf : Faithful wheel_100ms) by (apply faithfulb_sound; vm_compute; reflexivity).
  assert (Hl : level wheel_100ms < MaxLevel) by (vm_compute; reflexivity).
  assert (Hd : (Z.to_nat (level wheel_100ms) < 2)%nat) by (vm_compute; lia).
  split; [exact Hs | split; [exact Hf | split; [exact Hl | split; [exact Hd |]]]].
  exact (LevelDown_undoes_LevelUp 2 1 (heap mem_far) wheel_100ms Hs Hf Hl Hd).
Defined.

(** X7. [Rotate(n)] with [0 < n < 64], on a wheel whose slots 0 to [n-1]
    are empty, moves every entry [n] slots down: each entry is kept, in the
    same order, with its slot time less by [n * 64^level] ms, and
    [NextExpirationTime] returns that much less. *)
Theorem Rotate_shifts_slot_times (fuel k : nat) (h : Heap) (w : Wheel) (n t : Z) :
  Shaped w -> Faithful w -> bitmap w <> 0 -> 0 < n < 64 ->
  (forall i, 0 <= i < n -> Z.testbit (bitmap w) i = false) ->
  (Z.to_nat (level w) < fuel)%nat ->
  NextExpirationTime fuel w = Ok t ->
  contents k h (Rotate w n) = map (offset (- (n * 64 ^ level w))) (contents k h w) /\
  NextExpirationTime fuel (Rotate w n) = Ok (t - n * 64 ^ level w).
Proof.
  intros Hs Hf Hnz Hn Hlow Hfuel Ht. split.
  - apply contents_Rotate; assumption.
  - apply NextExpirationTime_Rotate; assumption.
Qed.

Lemma Rotate_shifts_slot_times_witness :
  Shaped wheel_100ms /\ Faithful wheel_100ms /\ bitmap wheel_100ms <> 0 /\ 0 < 1 < 64 /\
  (forall i, 0 <= i < 1 -> Z.testbit (bitmap wheel_100ms) i = false) /\
  (Z.to_nat (level wheel_100ms) < 2)%nat /\
  NextExpirationTime 2 wheel_100ms = Ok 100 /\
  contents 1 (heap mem_far) (Rotate wheel_100ms 1)
    = map (offset (- (1 * 64 ^ level wheel_100ms))) (contents 1 (heap mem_far) wheel_100ms) /\
  NextExpirationTime 2 (Rotate wheel_100ms 1) = Ok (100 - 1 * 64 ^ level wheel_100ms).
Proof.
  assert (Hs : Shaped wheel_100ms) by (apply shapedb_sound; vm_compute; reflexivity).
  assert (Hf : Faithful wheel_100ms) by (apply faithfulb_sound; vm_compute; reflexivity).
  assert (Hnz : bitmap wheel_100ms <> 0) by (vm_compute; discriminate).
  assert (Hn : 0 < 1 < 64) by lia.
  assert (Hlow : forall i, 0 <= i < 1 -> Z.testbit (bitmap wheel_100ms) i = false).
  { intros i Hi. assert (i = 0) as -> by lia. vm_compute. reflexivity. }
  assert (Hd : (Z.to_nat (level wheel_100ms) < 2)%nat) by (vm_compute; lia).
  assert (Ht : NextExpirationTime 2 wheel_100ms = Ok 100) by (vm_compute; reflexivity).
  split; [exact Hs | split; [exact Hf | split; [exact Hnz | split; [exact Hn |
    split; [exact Hlow | split; [exact Hd | split; [exact Ht |]]]]]]].
  exact (Rotate_shifts_slot_times 2 1 (heap mem_far) wheel_100ms 1 100
           Hs Hf Hnz Hn Hlow Hd Ht).
Defined.

(** ** The worker: when to wake *)

(** X8. [calculateNextWake] returns nil exactly when the timer has no wheel
    or [numEntries] is 0.  Otherwise it returns the clock reading it took
    when the earliest occupied slot has started (its time in ms is at most
    the elapsed ms), and else the start of that slot,
    [start + NextExpirationTime() ms].  The result is never before the
    reading, and when the reading is not before [start] it is the later of
    the reading and the start of the slot. *)
Theorem calculateNextWake_never_in_the_past (fuel : nat) (t : Timer) (now : Z) :
  wheel_ok t -> (6 < fuel)%nat ->
  exists r : option Z,
    calculateNextWake fuel t now = Ok r /\
    (r = None <-> wheel t = None \/ numEntries t = 0) /\
    (forall wake, r = Some wake ->
       now <= wake /\
       exists w nextMs, wheel t = Some w /\ NextExpirationTime fuel w = Ok nextMs /\
         wake = (if nextMs <=? elapsed t now then now
                 else start t + nextMs * Millisecond) /\
         (start t <= now -> wake = Z.max now (start t + nextMs * Millisecond))).
Proof.
  intros Hok Hfuel.
  destruct (wheel t) as [w |] eqn:Hw.
  2:{ exists None. unfold calculateNextWake. rewrite Hw.
      split; [reflexivity|]. split; [tauto | discriminate]. }
  destruct (Z.eq_dec (numEntries t) 0) as [Hz | Hnz].
  { exists None. unfold calculateNextWake. rewrite Hw, Hz.
    split; [reflexivity|]. split; [tauto | discriminate]. }
  destruct (Hok w Hw) as (Hs & Hf & Hb).
  pose proof (Shaped_level _ Hs) as Hlev.
  destruct (calculateNextWake_some fuel t now w Hw Hs Hf Hb Hnz ltac:(lia))
    as (nextMs & Hnext & Hrange & Hcalc).
  eexists. split; [exact Hcalc|]. split.
  { split; [discriminate | intros [? | ?]; [discriminate | contradiction]]. }
  intros wake Hwake. injection Hwake as <-.
  assert (Hmax : start t <= now ->
            (if nextMs <=? elapsed t now then now else start t + nextMs * Millisecond)
              = Z.max now (start t + nextMs * Millisecond)).
  { intros Hst. unfold elapsed.
    rewrite (due_by_clock (start t) now nextMs Hst Hrange).
    destruct (Z.leb_spec (start t + nextMs * Millisecond) now); lia. }
  split.
  - destruct (Z.leb_spec nextMs (elapsed t now)) as [Hle | Hlt]; [lia|].
    pose proof (later_than_elapsed (start t) now nextMs Hrange Hlt). lia.
  - exists w, nextMs. auto.
Qed.

Lemma calculateNextWake_never_in_the_past_witness :
  wheel_ok (timer_100ms execute_handler) /\ (6 < 7)%nat /\
  exists r : option Z,
    calculateNextWake 7 (timer_100ms execute_handler) 40000000 = Ok r /\
    (r = None <-> wheel (timer_100ms execute_handler) = None \/
                  numEntries (timer_100ms execute_handler) = 0) /\
    (forall wake, r = Some wake ->
       40000000 <= wake /\
       exists w nextMs, wheel (timer_100ms execute_handler) = Some w /\
         NextExpirationTime 7 w = Ok nextMs /\
         wake = (if nextMs <=? elapsed (timer_100ms execute_handler) 40000000
                 then 40000000
                 else start (timer_100ms execute_handler) + nextMs * Millisecond) /\
         (start (timer_100ms execute_handler) <= 40000000 ->
          wake = Z.max 40000000
                   (start (timer_100ms execute_handler) + nextMs * Millisecond))).
Proof.
  assert (Hok : wheel_ok (timer_100ms execute_handler)).
  { intros w Hw. injection Hw as <-.
    split; [apply shapedb_sound; vm_compute; reflexivity|].
    split; [apply faithfulb_sound; vm_compute; reflexivity|].
    vm_compute. discriminate. }
  assert (Hd : (6 < 7)%nat) by lia.
  split; [exact Hok | split; [exact Hd |]].
  exact (calculateNextWake_never_in_the_past 7 (timer_100ms execute_handler) 40000000
           Hok Hd).
Defined.

(** X9. After [handleExpired], nothing that is due is left: with the clock
    reading [handleExpired] took, [calculateNextWake] returns nil or a time
    strictly after that reading, so the worker goes to sleep instead of
    looping. *)
Theorem handleExpired_then_calculateNextWake (k fuel : nat) (t : Timer) (now : Z)
    (m : Mem) :
  wheel_ok t -> tame (handler t) ->
  (forall w, wheel t = Some w -> Rooted k (heap m) w) -> (k + 6 < fuel)%nat ->
  exists (t' : Timer) (m' : Mem) (r : option Z),
    handleExpired fuel t now m = Ok (t', m') /\
    calculateNextWake fuel t' now = Ok r /\
    (forall wake, r = Some wake -> now < wake).
Proof.
  intros Hok Htame Hroot Hfuel.
  destruct (handleExpired_total k fuel t now m Hok Htame Hroot Hfuel)
    as (t' & m' & HE).
  exists t', m'.
  destruct (wheel t) as [w |] eqn:Hw.
  2:{ pose proof HE as HE'. unfold handleExpired in HE'. rewrite Hw in HE'.
      injection HE' as <- <-.
      exists None. split; [exact HE|]. unfold calculateNextWake. rewrite Hw.
      split; [reflexivity | discriminate]. }
  destruct (Z.eq_dec (numEntries t) 0) as [Hz | Hnz].
  { pose proof HE as HE'. unfold handleExpired in HE'. rewrite Hw, Hz in HE'.
    injection HE' as <- <-.
    exists None. split; [exact HE|]. unfold calculateNextWake. rewrite Hw, Hz.
    split; [reflexivity | discriminate]. }
  destruct (wheel t') as [w' |] eqn:Hw'.
  2:{ exists None. unfold calculateNextWake. rewrite Hw'.
      split; [assumption|]. split; [reflexivity | discriminate]. }
  destruct (Z.eq_dec (numEntries t') 0) as [Hz' | Hnz'].
  { exists None. unfold calculateNextWake. rewrite Hw', Hz'.
    split; [assumption|]. split; [reflexivity | discriminate]. }
  destruct (handleExpired_next fuel t now m t' m' HE Hok ltac:(lia) Hnz w' Hw')
    as (nextMs & Hnext & [Hlt Hhi] & Hs' & Hf' & Hb').
  pose proof (Shaped_level _ Hs') as Hlev.
  destruct (calculateNextWake_some fuel t' now w' Hw' Hs' Hf' Hb' Hnz' ltac:(lia))
    as (nextMs' & Hnext' & Hrange & Hcalc).
  rewrite Hnext in Hnext'. injection Hnext' as <-.
  eexists. split; [assumption|]. split; [exact Hcalc|].
  intros wake Hwake. injection Hwake as <-.
  destruct (Z.leb_spec nextMs (elapsed t' now)) as [Hle | _]; [lia|].
  apply later_than_elapsed; [assumption|]. exact Hlt.
Qed.

Lemma handleExpired_then_calculateNextWake_witness :
  wheel_ok (timer_100ms execute_handler) /\ tame (handler (timer_100ms execute_handler)) /\
  (forall w, wheel (timer_100ms execute_handler) = Some w -> Rooted 1 (heap mem_far) w) /\
  (1 + 6 < 8)%nat /\
  exists (t' : Timer) (m' : Mem) (r : option Z),
    handleExpired 8 (timer_100ms execute_handler) 70000000 mem_far = Ok (t', m') /\
    calculateNextWake 8 t' 70000000 = Ok r /\
    (forall wake, r = Some wake -> 70000000 < wake).
Proof.
  assert (Hok : wheel_ok (timer_100ms execute_handler)).
  { intros w Hw. injection Hw as <-.
    split; [apply shapedb_sound; vm_compute; reflexivity|].
    split; [apply faithfulb_sound; vm_compute; reflexivity|].
    vm_compute. discriminate. }
  assert (Ht : tame (handler (timer_100ms execute_handler)))
    by exact execute_handler_tame.
  assert (Hr : forall w, wheel (timer_100ms execute_handler) = Some w ->
                         Rooted 1 (heap mem_far) w).
  { intros w Hw. injection Hw as <-. apply rootedb_sound. vm_compute. reflexivity. }
  assert (Hd : (1 + 6 < 8)%nat) by lia.
  split; [exact Hok | split; [exact Ht | split; [exact Hr | split; [exact Hd |]]]].
  exact (handleExpired_then_calculateNextWake 1 8 (timer_100ms execute_handler) 70000000
           mem_far Hok Ht Hr Hd).
Defined.

(** ** The worker: scheduling an entry *)

(** X10. [addToWheel] of an entry due after [now], on a timer without a
    wheel, sets [start] to [now], counts the entry and builds a wheel of the
    lowest level whose span exceeds the delay [d] in ms (level 6 at most).
    No handler is called, and [NextExpirationTime] then gives [d] reduced
    modulo the span of the wheel: [d] itself unless [d] is beyond level 6. *)
Theorem addToWheel_first_entry (fuel : nat) (t : Timer) (entry : ptr) (now : Z)
    (m : Mem) (e : Entry) :
  wheel t = None -> heap m !! entry = Some e -> now < expireAt e -> (6 < fuel)%nat ->
  exists (t' : Timer) (m' : Mem) (w' : Wheel),
    addToWheel fuel t entry now m = Ok (t', m') /\
    wheel t' = Some w' /\ start t' = now /\
    numEntries t' = u64 (numEntries t + 1) /\
    fired m' = fired m /\ calls m' = calls m /\
    (level w' < MaxLevel ->
       u64 (Milliseconds (Sub (expireAt e) now)) < 64 ^ (level w' + 1)) /\
    (forall k, 0 <= k < level w' ->
       64 ^ (k + 1) <= u64 (Milliseconds (Sub (expireAt e) now))) /\
    NextExpirationTime fuel w'
      = Ok (u64 (Milliseconds (Sub (expireAt e) now)) mod 64 ^ (level w' + 1)).
Proof.
  intros Hw He Hlt Hfuel.
  destruct (addToWheel_first fuel t entry now m e Hw He Hlt Hfuel)
    as (t' & m' & w' & H1 & H2 & H3 & H4 & H5 & H6 & _ & _ & H7 & H8 & H9).
  exists t', m', w'. auto 10.
Qed.

Lemma addToWheel_first_entry_witness :
  wheel (NewTimer execute_handler) = None /\
  heap mem_far !! 1%nat = Some (mkEntry None (100 * Millisecond) None false) /\
  0 < expireAt (mkEntry None (100 * Millisecond) None false) /\ (6 < 7)%nat /\
  exists (t' : Timer) (m' : Mem) (w' : Wheel),
    addToWheel 7 (NewTimer execute_handler) 1 0 mem_far = Ok (t', m') /\
    wheel t' = Some w' /\ start t' = 0 /\
    numEntries t' = u64 (numEntries (NewTimer execute_handler) + 1) /\
    fired m' = fired mem_far /\ calls m' = calls mem_far /\
    (level w' < MaxLevel ->
       u64 (Milliseconds (Sub (expireAt (mkEntry None (100 * Millisecond) None false)) 0))
         < 64 ^ (level w' + 1)) /\
    (forall k, 0 <= k < level w' ->
       64 ^ (k + 1)
         <= u64 (Milliseconds (Sub (expireAt (mkEntry None (100 * Millisecond) None false)) 0))) /\
    NextExpirationTime 7 w'
      = Ok (u64 (Milliseconds (Sub (expireAt (mkEntry None (100 * Millisecond) None false)) 0))
              mod 64 ^ (level w' + 1)).
Proof.
  assert (Hw : wheel (NewTimer execute_handler) = None) by reflexivity.
  assert (He : heap mem_far !! 1%nat = Some (mkEntry None (100 * Millisecond) None false))
    by (vm_compute; reflexivity).
  assert (Hlt : 0 < expireAt (mkEntry None (100 * Millisecond) None false))
    by (vm_compute; reflexivity).
  assert (Hd : (6 < 7)%nat) by lia.
  split; [exact Hw | split; [exact He | split; [exact Hlt | split; [exact Hd |]]]].
  exact (addToWheel_first_entry 7 (NewTimer execute_handler) 1 0 mem_far
           (mkEntry None (100 * Millisecond) None false) Hw He Hlt Hd).
Defined.

(** X11. [addToWheel] of an entry due after [now], on a timer that has a
    wheel, keeps [start], counts the entry and calls no handler.  It raises
    the wheel to the lowest level, from the present one on, whose span
    exceeds the delay [d] from [start], and to level 6 if there is none:
    the span of the new level exceeds [d] unless the level is 6, and every
    level from the old one up to the new one, the new one left out, has a
    span that [d] reaches.  [NextExpirationTime] then gives the smaller of
    its former result and [d] modulo the span of the wheel. *)
Theorem addToWheel_further_entry (fuel : nat) (t : Timer) (entry : ptr) (now : Z)
    (m : Mem) (e : Entry) (w : Wheel) :
  wheel_ok t -> wheel t = Some w -> heap m !! entry = Some e -> now < expireAt e ->
  (6 < fuel)%nat ->
  exists (t' : Timer) (m' : Mem) (w' : Wheel) (next : Z),
    addToWheel fuel t entry now m = Ok (t', m') /\
    wheel t' = Some w' /\ start t' = start t /\
    numEntries t' = u64 (numEntries t + 1) /\
    fired m' = fired m /\ calls m' = calls m /\
    level w <= level w' <= MaxLevel /\
    (level w' < MaxLevel ->
       u64 (Milliseconds (Sub (expireAt e) (start t))) < 64 ^ (level w' + 1)) /\
    (forall k, level w <= k < level w' ->
       64 ^ (k + 1) <= u64 (Milliseconds (Sub (expireAt e) (start t)))) /\
    NextExpirationTime fuel w = Ok next /\
    NextExpirationTime fuel w'
      = Ok (Z.min (u64 (Milliseconds (Sub (expireAt e) (start t))) mod 64 ^ (level w' + 1))
                  next).
Proof.
  intros Hok Hw He Hlt Hfuel. destruct (Hok w Hw) as (Hs & Hf & Hnz).
  set (d := u64 (Milliseconds (Sub (expireAt e) (start t)))).
  pose proof (Shaped_level _ Hs) as Hl.
  unfold addToWheel. cbn [deref]. rewrite He.
  cbn [mbind result_bind]. destruct (Z.leb_spec (expireAt e) now) as [|_]; [lia|].
  rewrite Hw. fold d. unfold levelUpAndAdd. rewrite Hw.
  destruct (level_up_total fuel w d Hs ltac:(unfold MaxLevel; lia))
    as (w1 & Hup & Hs1 & Hl1 & Hspan & Hfaith).
  pose proof (level_up_least fuel w d w1 Hup Hs) as Hleast.
  destruct (Hfaith Hf Hnz) as [Hf1 Hnz1].
  rewrite Hup. cbn [mbind result_bind].
  destruct (AddEntry_total fuel w1 entry d (heap m) Hs1)
    as (w' & h' & Hadd & Hs' & Hl' & _).
  { rewrite He. eexists. reflexivity. }
  { unfold MaxLevel in Hl1. lia. }
  rewrite Hadd. cbn [mbind result_bind].
  destruct (NextExpirationTime_bound fuel w Hs Hf Hnz ltac:(lia)) as (next & Hnext & _).
  pose proof (level_up_next _ _ _ _ fuel next Hup Hs Hf Hnz Hfuel Hnext) as Hnext1.
  eexists _, _, w', next. split; [reflexivity|].
  cbn [wheel start numEntries set_wheel set_start set_numEntries fired calls set_heap].
  split; [reflexivity|]. split; [reflexivity|]. split; [reflexivity|].
  split; [reflexivity|]. split; [reflexivity|]. rewrite Hl'.
  split; [assumption|]. split; [assumption|]. split; [assumption|].
  split; [assumption|].
  apply (AddEntry_next fuel w1 entry d (heap m) w' h'); try assumption.
  unfold MaxLevel in Hl1. lia.
Qed.

Lemma addToWheel_further_entry_witness :
  wheel_ok (timer_100ms execute_handler) /\
  wheel (timer_100ms execute_handler) = Some wheel_100ms /\
  heap mem_level2 !! 2%nat = Some (mkEntry None (100000 * Millisecond) None false) /\
  0 < expireAt (mkEntry None (100000 * Millisecond) None false) /\ (6 < 7)%nat /\
  exists (t' : Timer) (m' : Mem) (w' : Wheel) (next : Z),
    addToWheel 7 (timer_100ms execute_handler) 2 0 mem_level2 = Ok (t', m') /\
    wheel t' = Some w' /\ start t' = start (timer_100ms execute_handler) /\
    numEntries t' = u64 (numEntries (timer_100ms execute_handler) + 1) /\
    fired m' = fired mem_level2 /\ calls m' = calls mem_level2 /\
    level wheel_100ms <= level w' <= MaxLevel /\
    (level w' < MaxLevel ->
       u64 (Milliseconds (Sub (expireAt (mkEntry None (100000 * Millisecond) None false))
                              (start (timer_100ms execute_handler))))
         < 64 ^ (level w' + 1)) /\
    (forall k, level wheel_100ms <= k < level w' ->
       64 ^ (k + 1)
         <= u64 (Milliseconds (Sub (expireAt (mkEntry None (100000 * Millisecond) None false))
                                   (start (timer_100ms execute_handler))))) /\
    NextExpirationTime 7 wheel_100ms = Ok next /\
    NextExpirationTime 7 w'
      = Ok (Z.min (u64 (Milliseconds
                          (Sub (expireAt (mkEntry None (100000 * Millisecond) None false))
                               (start (timer_100ms execute_handler))))
                     mod 64 ^ (level w' + 1))
                  next).
Proof.
  assert (Hok : wheel_ok (timer_100ms execute_handler)).
  { intros w Hw. injection Hw as <-.
    split; [apply shapedb_sound; vm_compute; reflexivity|].
    split; [apply faithfulb_sound; vm_compute; reflexivity|].
    vm_compute. discriminate. }
  assert (Hw : wheel (timer_100ms execute_handler) = Some wheel_100ms) by reflexivity.
  assert (He : heap mem_level2 !! 2%nat
               = Some (mkEntry None (100000 * Millisecond) None false))
    by (vm_compute; reflexivity).
  assert (Hlt : 0 < expireAt (mkEntry None (100000 * Millisecond) None false))
    by (vm_compute; reflexivity).
  assert (Hd : (6 < 7)%nat) by lia.
  split; [exact Hok | split; [exact Hw | split; [exact He | split; [exact Hlt |
    split; [exact Hd |]]]]].
  exact (addToWheel_further_entry 7 (timer_100ms execute_handler) 2 0 mem_level2
           (mkEntry None (100000 * Millisecond) None false) wheel_100ms Hok Hw He Hlt Hd).
Defined.

(** ** The queue and the worker *)

(** X12. [PopAll] is not wait-free: when the entry at the head of the queue
    still has the sentinel in [next] (its [Push] has swapped the head but
    not yet stored the link), [PopAll] stays in its inner loop for as long
    as the store is not made, whatever number of steps it is given. *)
Theorem PopAll_waits_for_the_store (fuel : nat) (q : MPSCQueue) (h : Heap)
    (p : ptr) (c : Entry) :
  head q = Some p -> h !! p = Some c -> next c = settingNext ->
  PopAll fuel q h = OutOfFuel.
Proof.
  intros Hq Hp Hn. rewrite PopAll_eq, Hq. destruct fuel as [| fuel]; [reflexivity|].
  cbn [reverse_chain]. rewrite (spin_waits _ _ _ _ Hp Hn). reflexivity.
Qed.

Lemma PopAll_waits_for_the_store_witness :
  head queue_mid_push = Some 2%nat /\
  heap_mid_push !! 2%nat = Some (mkEntry settingNext 20 None false) /\
  next (mkEntry settingNext 20 None false) = settingNext /\
  PopAll 1000 queue_mid_push heap_mid_push = OutOfFuel.
Proof.
  assert (Hq : head queue_mid_push = Some 2%nat) by reflexivity.
  assert (Hc : heap_mid_push !! 2%nat = Some (mkEntry settingNext 20 None false))
    by (vm_compute; reflexivity).
  assert (Hn : next (mkEntry settingNext 20 None false) = settingNext) by reflexivity.
  split; [exact Hq | split; [exact Hc | split; [exact Hn |]]].
  exact (PopAll_waits_for_the_store 1000 queue_mid_push heap_mid_push 2
           (mkEntry settingNext 20 None false) Hq Hc Hn).
Defined.

(** ** What a wheel holds *)



(** X15. [AddEntry(entry, interval)] of an entry that is in none of the
    wheel's buckets returns and adds exactly this entry: the wheel then holds
    the entries it held, at their slot times, and [entry] at slot time
    [interval mod 64^(level+1)]; its chains still end. *)
Theorem AddEntry_adds_the_entry (fuel k : nat) (w : Wheel) (entry : ptr) (d : Z)
    (h : Heap) :
  Shaped w -> Rooted k h w -> Fresh k h entry w -> is_Some (h !! entry) ->
  (Z.to_nat (level w) < fuel)%nat ->
  exists (w' : Wheel) (h' : Heap),
    AddEntry fuel w entry d h = Ok (w', h') /\
    Rooted (S k) h' w' /\
    contents (S k) h' w' ≡ₚ (d mod 64 ^ (level w + 1), entry) :: contents k h w.
Proof.
  intros Hs Hr Hfresh Hal Hfuel.
  destruct (AddEntry_total fuel w entry d h Hs Hal Hfuel) as (w' & h' & Hadd & _).
  exists w', h'. split; [assumption|].
  eapply AddEntry_contents; eassumption.
Qed.

Lemma AddEntry_adds_the_entry_witness :
  Shaped wheel_100ms /\ Rooted 1 (heap mem_pair) wheel_100ms /\
  Fresh 1 (heap mem_pair) 2 wheel_100ms /\ is_Some (heap mem_pair !! 2%nat) /\
  (Z.to_nat (level wheel_100ms) < 2)%nat /\
  exists (w' : Wheel) (h' : Heap),
    AddEntry 2 wheel_100ms 2 3000 (heap mem_pair) = Ok (w', h') /\
    Rooted 2 h' w' /\
    contents 2 h' w' ≡ₚ (3000 mod 64 ^ (level wheel_100ms + 1), 2%nat)
                          :: contents 1 (heap mem_pair) wheel_100ms.
Proof.
  assert (Hs : Shaped wheel_100ms) by (apply shapedb_sound; vm_compute; reflexivity).
  assert (Hr : Rooted 1 (heap mem_pair) wheel_100ms)
    by (apply rootedb_sound; vm_compute; reflexivity).
  assert (Hfresh : Fresh 1 (heap mem_pair) 2 wheel_100ms)
    by (apply freshb_sound; vm_compute; reflexivity).
  assert (Hal : is_Some (heap mem_pair !! 2%nat)) by (vm_compute; eauto).
  assert (Hd : (Z.to_nat (level wheel_100ms) < 2)%nat) by (vm_compute; lia).
  split; [exact Hs | split; [exact Hr | split; [exact Hfresh | split; [exact Hal |
    split; [exact Hd |]]]]].
  exact (AddEntry_adds_the_entry 2 1 wheel_100ms 2 3000 (heap mem_pair)
           Hs Hr Hfresh Hal Hd).
Defined.

(** ** What a timer holds *)

(** X16. [addToWheel] of an entry that is due after [now], is not yet in the
    wheel and lies within the range of a level-6 wheel returns, calls no
    handler and schedules exactly this entry: the timer then holds the
    entries it held, at the same clock readings, and the entry at its
    deadline rounded down to a whole number of ms after [start].  The
    invariant is kept; in particular [Pending] is again the number of
    entries in the wheel. *)
Theorem addToWheel_schedules_the_entry (k fuel : nat) (t : Timer) (entry : ptr)
    (now : Z) (m : Mem) (e : Entry) :
  timer_inv k (heap m) t -> fresh_for k (heap m) entry t ->
  heap m !! entry = Some e -> now < expireAt e ->
  let s := match wheel t with None => now | Some _ => start t end in
  let d := u64 (Milliseconds (Sub (expireAt e) s)) in
  d < 64 ^ 7 -> numEntries t < 2 ^ 63 -> (6 < fuel)%nat ->
  exists (t' : Timer) (m' : Mem),
    addToWheel fuel t entry now m = Ok (t', m') /\
    start t' = s /\ handler t' = handler t /\
    fired m' = fired m /\ calls m' = calls m /\
    timer_inv (S k) (heap m') t' /\
    Pending t' = Z.of_nat (length (scheduled (S k) (heap m') t')) /\
    scheduled (S k) (heap m') t'
      ≡ₚ (s + d * Millisecond, entry) :: scheduled k (heap m) t.
Proof.
  intros Hinv Hfresh He Hlt s d Hd Hn Hfuel.
  destruct (addToWheel_scheduled k fuel t entry now m e Hinv Hfresh He Hlt Hd Hn Hfuel)
    as (t' & m' & H1 & H2 & H3 & H4 & H5 & H6 & H7).
  exists t', m'. split; [assumption|]. split; [assumption|]. split; [assumption|].
  split; [assumption|]. split; [assumption|]. split; [assumption|].
  split; [apply H6 | assumption].
Qed.

Lemma addToWheel_schedules_the_entry_witness :
  timer_inv 1 (heap mem_pair) (timer_100ms execute_handler) /\
  fresh_for 1 (heap mem_pair) 2 (timer_100ms execute_handler) /\
  heap mem_pair !! 2%nat = Some (mkEntry None (3000 * Millisecond) None false) /\
  5 < expireAt (mkEntry None (3000 * Millisecond) None false) /\
  u64 (Milliseconds (Sub (expireAt (mkEntry None (3000 * Millisecond) None false))
                         (start (timer_100ms execute_handler)))) < 64 ^ 7 /\
  numEntries (timer_100ms execute_handler) < 2 ^ 63 /\ (6 < 7)%nat /\
  exists (t' : Timer) (m' : Mem),
    addToWheel 7 (timer_100ms execute_handler) 2 5 mem_pair = Ok (t', m') /\
    start t' = start (timer_100ms execute_handler) /\
    handler t' = handler (timer_100ms execute_handler) /\
    fired m' = fired mem_pair /\ calls m' = calls mem_pair /\
    timer_inv 2 (heap m') t' /\
    Pending t' = Z.of_nat (length (scheduled 2 (heap m') t')) /\
    scheduled 2 (heap m') t'
      ≡ₚ (start (timer_100ms execute_handler)
           + u64 (Milliseconds (Sub (expireAt (mkEntry None (3000 * Millisecond) None false))
                                    (start (timer_100ms execute_handler))))
             * Millisecond, 2%nat)
         :: scheduled 1 (heap mem_pair) (timer_100ms execute_handler).
Proof.
  assert (Hinv : timer_inv 1 (heap mem_pair) (timer_100ms execute_handler)).
  { split.
    { intros w Hw. injection Hw as <-.
      split; [apply shapedb_sound; vm_compute; reflexivity|].
      split; [apply faithfulb_sound; vm_compute; reflexivity|].
      vm_compute. discriminate. }
    split.
    { intros w Hw. injection Hw as <-. apply rootedb_sound. vm_compute. reflexivity. }
    split.
    { apply (bool_decide_unpack _). vm_compute. exact I. }
    vm_compute. reflexivity. }
  assert (Hfresh : fresh_for 1 (heap mem_pair) 2 (timer_100ms execute_handler)).
  { intros w Hw. injection Hw as <-. apply freshb_sound. vm_compute. reflexivity. }
  assert (He : heap mem_pair !! 2%nat = Some (mkEntry None (3000 * Millisecond) None false))
    by (vm_compute; reflexivity).
  assert (Hlt : 5 < expireAt (mkEntry None (3000 * Millisecond) None false))
    by (vm_compute; reflexivity).
  assert (Hd : u64 (Milliseconds (Sub (expireAt (mkEntry None (3000 * Millisecond) None false))
                                      (start (timer_100ms execute_handler)))) < 64 ^ 7)
    by (vm_compute; reflexivity).
  assert (Hn : numEntries (timer_100ms execute_handler) < 2 ^ 63)
    by (vm_compute; reflexivity).
  assert (Hfuel : (6 < 7)%nat) by lia.
  split; [exact Hinv | split; [exact Hfresh | split; [exact He | split; [exact Hlt |
    split; [exact Hd | split; [exact Hn | split; [exact Hfuel |]]]]]]].
  exact (addToWheel_schedules_the_entry 1 7 (timer_100ms execute_handler) 2 5 mem_pair
           (mkEntry None (3000 * Millisecond) None false)
           Hinv Hfresh He Hlt Hd Hn Hfuel).
Defined.



(** X18. [maintenance(interval)], called when every slot that ends by
    [interval] is empty (as [HandleExpiredEntries] leaves them), keeps what
    is scheduled: [Rotate] moves the entries down and [start] moves forward
    by the same time, and the level changes keep the entries, so every entry
    stays at its clock reading.  An empty wheel is dropped and [numEntries]
    reset to 0; a wheel that is kept stays shaped, faithful and not
    empty. *)
Theorem maintenance_keeps_the_schedule (k : nat) (h : Heap) (fuel : nat) (t : Timer)
    (r : Z) (w : Wheel) :
  wheel t = Some w -> Shaped w -> Faithful w -> Rooted k h w -> 0 <= r < 2 ^ 64 ->
  (forall i, 0 <= i < 64 -> (i + 1) * 64 ^ level w <= r ->
             Z.testbit (bitmap w) i = false) ->
  (6 < fuel)%nat ->
  exists t' : Timer,
    maintenance fuel t r = Ok t' /\ handler t' = handler t /\
    scheduled k h t' = scheduled k h t /\
    (bitmap w = 0 -> wheel t' = None /\ numEntries t' = 0) /\
    (bitmap w <> 0 ->
       numEntries t' = numEntries t /\
       exists w', wheel t' = Some w' /\ Shaped w' /\ Faithful w' /\ bitmap w' <> 0 /\
                  Rooted k h w').
Proof.
  intros Hw Hs Hf Hr Hrr Hlow Hfuel. eapply maintenance_spec; eassumption.
Qed.

Lemma maintenance_keeps_the_schedule_witness :
  wheel (timer_100ms execute_handler) = Some wheel_100ms /\
  Shaped wheel_100ms /\ Faithful wheel_100ms /\ Rooted 1 (heap mem_far) wheel_100ms /\
  0 <= 70 < 2 ^ 64 /\
  (forall i, 0 <= i < 64 -> (i + 1) * 64 ^ level wheel_100ms <= 70 ->
             Z.testbit (bitmap wheel_100ms) i = false) /\
  (6 < 7)%nat /\
  exists t' : Timer,
    maintenance 7 (timer_100ms execute_handler) 70 = Ok t' /\
    handler t' = handler (timer_100ms execute_handler) /\
    scheduled 1 (heap mem_far) t'
      = scheduled 1 (heap mem_far) (timer_100ms execute_handler) /\
    (bitmap wheel_100ms = 0 -> wheel t' = None /\ numEntries t' = 0) /\
    (bitmap wheel_100ms <> 0 ->
       numEntries t' = numEntries (timer_100ms execute_handler) /\
       exists w', wheel t' = Some w' /\ Shaped w' /\ Faithful w' /\ bitmap w' <> 0 /\
                  Rooted 1 (heap mem_far) w').
Proof.
  assert (Hw : wheel (timer_100ms execute_handler) = Some wheel_100ms) by reflexivity.
  assert (Hs : Shaped wheel_100ms) by (apply shapedb_sound; vm_compute; reflexivity).
  assert (Hf : Faithful wheel_100ms) by (apply faithfulb_sound; vm_compute; reflexivity).
  assert (Hr : Rooted 1 (heap mem_far) wheel_100ms)
    by (apply rootedb_sound; vm_compute; reflexivity).
  assert (Hrr : 0 <= 70 < 2 ^ 64) by lia.
  assert (Hlow : forall i, 0 <= i < 64 -> (i + 1) * 64 ^ level wheel_100ms <= 70 ->
                           Z.testbit (bitmap wheel_100ms) i = false).
  { intros i Hi Hle. change (level wheel_100ms) with 1 in Hle.
    assert (i = 0) as -> by lia. vm_compute. reflexivity. }
  assert (Hfuel : (6 < 7)%nat) by lia.
  split; [exact Hw | split; [exact Hs | split; [exact Hf | split; [exact Hr |
    split; [exact Hrr | split; [exact Hlow | split; [exact Hfuel |]]]]]]].
  exact (maintenance_keeps_the_schedule 1 (heap mem_far) 7 (timer_100ms execute_handler)
           70 wheel_100ms Hw Hs Hf Hr Hrr Hlow Hfuel).
Defined.

(** X19. On a shaped, faithful wheel that is not empty and whose chains
    end, [NextExpirationTime] returns the slot time of an entry the wheel
    holds, and the wheel holds no entry with an earlier slot time. *)
Theorem NextExpirationTime_is_the_earliest (k fuel : nat) (h : Heap) (w : Wheel) :
  Shaped w -> Faithful w -> Empty w = false -> Rooted k h w ->
  (Z.to_nat (level w) < fuel)%nat ->
  exists (t : Z) (p : ptr),
    NextExpirationTime fuel w = Ok t /\ (t, p) ∈ contents k h w /\
    forall tp, tp ∈ contents k h w -> t <= tp.1.
Proof.
  intros Hs Hf He Hr Hfuel. apply NextExpirationTime_earliest; try assumption.
  unfold Empty in He. apply Z.eqb_neq. assumption.
Qed.

Lemma NextExpirationTime_is_the_earliest_witness :
  Shaped wheel_100ms /\ Faithful wheel_100ms /\ Empty wheel_100ms = false /\
  Rooted 1 (heap mem_far) wheel_100ms /\ (Z.to_nat (level wheel_100ms) < 2)%nat /\
  exists (t : Z) (p : ptr),
    NextExpirationTime 2 wheel_100ms = Ok t /\
    (t, p) ∈ contents 1 (heap mem_far) wheel_100ms /\
    forall tp, tp ∈ contents 1 (heap mem_far) wheel_100ms -> t <= tp.1.
Proof.
  assert (Hs : Shaped wheel_100ms) by (apply shapedb_sound; vm_compute; reflexivity).
  assert (Hf : Faithful wheel_100ms) by (apply faithfulb_sound; vm_compute; reflexivity).
  assert (He : Empty wheel_100ms = false) by (vm_compute; reflexivity).
  assert (Hr : Rooted 1 (heap mem_far) wheel_100ms)
    by (apply rootedb_sound; vm_compute; reflexivity).
  assert (Hd : (Z.to_nat (level wheel_100ms) < 2)%nat) by (vm_compute; lia).
  split; [exact Hs | split; [exact Hf | split; [exact He | split; [exact Hr |
    split; [exact Hd |]]]]].
  exact (NextExpirationTime_is_the_earliest 1 2 (heap mem_far) wheel_100ms
           Hs Hf He Hr Hd).
Defined.



(** X21. [Cancel] only sets the entry's flag: the entry stays in the wheel
    at its clock reading, [Pending] still counts it and the invariant of the
    timer is kept, so the handler is still called on it when it expires
    (it is [Execute] that then skips the callback). *)
Theorem Cancel_keeps_the_entry_scheduled (k : nat) (t : Timer) (p : ptr) (m : Mem) :
  timer_inv k (heap m) t -> is_Some (heap m !! p) ->
  exists m' : Mem,
    Cancel p m = Ok m' /\ IsCanceled p m' = Ok true /\
    scheduled k (heap m') t = scheduled k (heap m) t /\
    timer_inv k (heap m') t /\
    Pending t = Z.of_nat (length (scheduled k (heap m') t)) /\
    fired m' = fired m /\ calls m' = calls m.
Proof.
  intros (Hok & Hroot & Hnd & Hnum) [c Hc].
  set (h' := <[p := mkEntry (next c) (expireAt c) (callback c) true]> (heap m)).
  assert (Hsame : forall (q : ptr) (c0 : Entry),
            heap m !! q = Some c0 -> exists c', h' !! q = Some c' /\ next c' = next c0).
  { intros q c0 Hq. subst h'. destruct (decide (q = p)) as [-> | Hne].
    - rewrite lookup_insert_eq. eexists. split; [reflexivity|].
      rewrite Hc in Hq. injection Hq as <-. reflexivity.
    - rewrite lookup_insert_ne by congruence. eauto. }
  assert (Hsched : scheduled k h' t = scheduled k (heap m) t).
  { unfold scheduled. destruct (wheel t) as [w |] eqn:Hw; [|reflexivity].
    destruct (contents_same_links k (heap m) h' w Hsame (Hroot w eq_refl)) as [-> _].
    reflexivity. }
  exists (set_heap m h').
  split; [unfold Cancel, deref; rewrite Hc; reflexivity|].
  split.
  { unfold IsCanceled, deref. cbn [heap set_heap]. subst h'.
    rewrite lookup_insert_eq. reflexivity. }
  cbn [heap set_heap fired calls]. split; [assumption|]. split.
  { split; [assumption|]. split.
    - intros w Hw. apply (contents_same_links k (heap m) h' w Hsame (Hroot w Hw)).
    - rewrite Hsched. auto. }
  rewrite Hsched. auto.
Qed.

Lemma Cancel_keeps_the_entry_scheduled_witness :
  timer_inv 1 (heap mem_far) (timer_100ms execute_handler) /\
  is_Some (heap mem_far !! 1%nat) /\
  exists m' : Mem,
    Cancel 1 mem_far = Ok m' /\ IsCanceled 1 m' = Ok true /\
    scheduled 1 (heap m') (timer_100ms execute_handler)
      = scheduled 1 (heap mem_far) (timer_100ms execute_handler) /\
    timer_inv 1 (heap m') (timer_100ms execute_handler) /\
    Pending (timer_100ms execute_handler)
      = Z.of_nat (length (scheduled 1 (heap m') (timer_100ms execute_handler))) /\
    fired m' = fired mem_far /\ calls m' = calls mem_far.
Proof.
  assert (Hinv : timer_inv 1 (heap mem_far) (timer_100ms execute_handler)).
  { split.
    { intros w Hw. injection Hw as <-.
      split; [apply shapedb_sound; vm_compute; reflexivity|].
      split; [apply faithfulb_sound; vm_compute; reflexivity|].
      vm_compute. discriminate. }
    split.
    { intros w Hw. injection Hw as <-. apply rootedb_sound. vm_compute. reflexivity. }
    split.
    { apply (bool_decide_unpack _). vm_compute. exact I. }
    vm_compute. reflexivity. }
  assert (Hal : is_Some (heap mem_far !! 1%nat)) by (vm_compute; eauto).
  split; [exact Hinv | split; [exact Hal |]].
  exact (Cancel_keeps_the_entry_scheduled 1 (timer_100ms execute_handler) 1 mem_far
           Hinv Hal).
Defined.

(** ** An entry beyond the range of a level-6 wheel *)

(** C1, as stated, fails: on a new timer a deadline 5 * 10^12 ms away,
    beyond the 64^7 ms a level-6 wheel spans, is accepted; the entry is
    queued, and the drain (at time 0) puts it into a level-6 wheel. *)
Lemma AddEntryAt_beyond_range_is_not_rejected :
  let expire := 5000000000000 * Millisecond in
  64 ^ 7 <= u64 (Milliseconds (Sub expire 0)) /\
  exists (t1 : Timer) (h1 : Heap),
    AddEntryAt (NewTimer execute_handler) 1 expire None ∅ = Ok (1%nat, t1, h1) /\
    head (queue t1) = Some 1%nat /\
    exists (q2 : MPSCQueue) (t2 : Timer) (m2 : Mem) (w2 : Wheel),
      DrainAll 8 (queue t1) (fun entry t m => addToWheel 8 t entry 0 m) t1
               (mkMem h1 [] []) = Ok (1, q2, t2, m2) /\
      wheel t2 = Some w2 /\ level w2 = MaxLevel /\ Empty w2 = false /\
      contents 1 (heap m2) w2
        = [(u64 (Milliseconds (Sub expire 0)) mod 64 ^ 7, 1%nat)] /\
      numEntries t2 = 1 /\ fired m2 = [].
Proof.
  intros expire. split; [vm_compute; discriminate|].
  rewrite AddEntryAt_eq. eexists _, _. split; [reflexivity|].
  split; [reflexivity|].
  eexists _, _, _, _. split; [vm_compute; reflexivity|].
  split; [reflexivity|]. split; [reflexivity|]. split; [reflexivity|].
  split; [vm_compute; reflexivity|]. split; reflexivity.
Qed.

(** C1, amended.  [AddEntryAt] has no error result: for every deadline it
    queues the entry and returns its handle.  When the driver takes from
    the queue an entry whose interval is 64^7 ms or more, it dispatches
    nothing, raises the wheel to [MaxLevel] and no further, inserts the
    entry there and counts it.  The entry is in the bucket of its interval
    reduced modulo 64^7: [RemoveEntry] with the same interval finds it and
    gives back the wheel as it was before the insertion, and the wheel
    holds the entries it held and this entry at slot time
    [interval mod 64^7]. *)
Theorem schedule_beyond_MaxLevel_is_accepted (fuel : nat) (t : Timer)
    (entry : ptr) (now : Z) (m : Mem) (e : Entry) :
  let interval := u64 (Milliseconds (Sub (expireAt e)
                                         (match wheel t with
                                          | None => now
                                          | Some _ => start t
                                          end))) in
  heap m !! entry = Some e -> now < expireAt e ->
  (forall w, wheel t = Some w -> Shaped w /\ Faithful w /\ bitmap w <> 0) ->
  64 ^ 7 <= interval ->
  (7 < fuel)%nat ->
  (forall p expire cb h, exists t' h',
     AddEntryAt t p expire cb h = Ok (p, t', h') /\ head (queue t') = Some p) /\
  exists (t' : Timer) (m' : Mem) (w' : Wheel),
    addToWheel fuel t entry now m = Ok (t', m') /\
    wheel t' = Some w' /\ level w' = MaxLevel /\
    Shaped w' /\ Faithful w' /\ bitmap w' <> 0 /\
    numEntries t' = u64 (numEntries t + 1) /\
    fired m' = fired m /\ calls m' = calls m /\
    (exists w0 : Wheel,
       RemoveEntry fuel w' entry interval (heap m') = Ok (w0, heap m') /\
       level w0 = MaxLevel /\
       match wheel t with
       | None => w0 = NewWheel MaxLevel
       | Some w => level_up fuel w interval = Ok w0
       end) /\
    (forall k : nat,
       (forall w, wheel t = Some w ->
                  Rooted k (heap m) w /\ Fresh k (heap m) entry w) ->
       Rooted (S k) (heap m') w' /\
       contents (S k) (heap m') w'
         ≡ₚ (interval mod 64 ^ 7, entry)
              :: match wheel t with
                 | None => []
                 | Some w => contents k (heap m) w
                 end).
Proof.
  intros interval He Hnow Hinv Hfar Hfuel. split.
  { intros p expire cb h.
    destruct (AddEntryAt_enqueues t p expire cb h) as (t' & h' & H1 & H2 & _).
    eauto. }
  unfold addToWheel, deref. rewrite He. cbn [mbind result_bind].
  destruct (Z.leb_spec (expireAt e) now) as [Hle | _]; [lia|].
  assert (Hal : is_Some (heap m !! entry)) by eauto.
  destruct (wheel t) as [w|] eqn:Hw.
  - destruct (Hinv w eq_refl) as (Hs & Hf & Hnz).
    unfold levelUpAndAdd. rewrite Hw. fold interval.
    destruct (level_up_total fuel w interval Hs) as (w1 & Hup & Hs1 & Hl1 & Hspan & Hfaith).
    { pose proof (Shaped_level _ Hs). unfold MaxLevel. lia. }
    destruct (Hfaith Hf Hnz) as [Hf1 Hnz1].
    assert (Hl6 : level w1 = MaxLevel).
    { destruct (Z.eq_dec (level w1) MaxLevel) as [|Hne]; [assumption|].
      assert (Hlt : level w1 < MaxLevel) by lia. specialize (Hspan Hlt).
      assert (64 ^ (level w1 + 1) <= 64 ^ 7)
        by (apply Z.pow_le_mono_r; unfold MaxLevel in *; lia). lia. }
    rewrite Hup. cbn [mbind result_bind].
    destruct (AddEntry_total fuel w1 entry interval (heap m) Hs1 Hal)
      as (w' & h' & Hadd & Hs' & Hl' & _).
    { rewrite Hl6. unfold MaxLevel. lia. }
    rewrite Hadd. cbn [mbind result_bind].
    destruct (AddEntry_Faithful _ _ _ _ _ _ _ Hadd Hf1) as [Hf' Hnz'].
    eexists _, _, w'. split; [reflexivity|].
    split; [reflexivity|]. split; [congruence|].
    split; [assumption|]. split; [assumption|]. split; [assumption|].
    split; [reflexivity|]. split; [reflexivity|]. split; [reflexivity|].
    cbn [heap set_heap]. split.
    + exists w1. split; [|split; [assumption | reflexivity]].
      eapply RemoveEntry_AddEntry; eassumption.
    + intros k Hk. destruct (Hk w eq_refl) as [Hr Hfresh].
      destruct (level_up_contents k (heap m) entry fuel w interval w1 Hup Hs Hr Hfresh)
        as (Hr1 & Hfresh1 & Hc1).
      destruct (AddEntry_contents fuel w1 entry interval (heap m) w' h' k
                  Hs1 Hr1 Hfresh1 Hadd) as [Hr' Hc'].
      split; [assumption|]. rewrite Hc', Hc1, Hl6. reflexivity.
  - fold interval. unfold buildWheelAndAdd.
    rewrite (pick_level_top fuel 0 interval); [|unfold MaxLevel; lia | assumption
                                               | unfold MaxLevel; simpl; lia].
    cbn [mbind result_bind].
    assert (Hs6 : Shaped (NewWheel MaxLevel))
      by (apply Shaped_NewWheel; unfold MaxLevel; lia).
    destruct (AddEntry_total fuel (NewWheel MaxLevel) entry interval (heap m) Hs6 Hal)
      as (w' & h' & Hadd & Hs' & Hl' & _).
    { unfold MaxLevel. simpl. lia. }
    rewrite Hadd. cbn [mbind result_bind].
    destruct (AddEntry_Faithful _ _ _ _ _ _ _ Hadd (Faithful_NewWheel _)) as [Hf' Hnz'].
    eexists _, _, w'. split; [reflexivity|].
    split; [reflexivity|]. split; [exact Hl'|].
    split; [assumption|]. split; [assumption|]. split; [assumption|].
    split; [reflexivity|]. split; [reflexivity|]. split; [reflexivity|].
    cbn [heap set_heap]. split.
    + exists (NewWheel MaxLevel). split; [|split; reflexivity].
      eapply RemoveEntry_AddEntry; [exact Hs6 | apply Faithful_NewWheel | exact Hadd].
    + intros k _.
      destruct (AddEntry_contents fuel (NewWheel MaxLevel) entry interval (heap m) w' h' k
                  Hs6 (Rooted_NewWheel _ _ _) (Fresh_NewWheel _ _ _ _) Hadd) as [Hr' Hc'].
      split; [assumption|]. rewrite Hc', contents_NewWheel. reflexivity.
Qed.

Lemma schedule_beyond_MaxLevel_is_accepted_witness :
  heap mem_far !! 2%nat = Some far_entry /\ 1000 < expireAt far_entry /\
  (forall w, wheel (timer_100ms execute_handler) = Some w ->
     Shaped w /\ Faithful w /\ bitmap w <> 0) /\
  64 ^ 7 <= u64 (Milliseconds (Sub (expireAt far_entry)
                                   (match wheel (timer_100ms execute_handler) with
                                    | None => 1000
                                    | Some _ => start (timer_100ms execute_handler)
                                    end))) /\
  (7 < 8)%nat /\
  ((forall p expire cb h, exists t' h',
     AddEntryAt (timer_100ms execute_handler) p expire cb h = Ok (p, t', h') /\
     head (queue t') = Some p) /\
  exists (t' : Timer) (m' : Mem) (w' : Wheel),
    addToWheel 8%nat (timer_100ms execute_handler) 2%nat 1000 mem_far = Ok (t', m') /\
    wheel t' = Some w' /\ level w' = MaxLevel /\
    Shaped w' /\ Faithful w' /\ bitmap w' <> 0 /\
    numEntries t' = u64 (numEntries (timer_100ms execute_handler) + 1) /\
    fired m' = fired mem_far /\ calls m' = calls mem_far /\
    (exists w0 : Wheel,
       RemoveEntry 8 w' 2
         (u64 (Milliseconds (Sub (expireAt far_entry)
                                 (match wheel (timer_100ms execute_handler) with
                                  | None => 1000
                                  | Some _ => start (timer_100ms execute_handler)
                                  end))))
         (heap m') = Ok (w0, heap m') /\
       level w0 = MaxLevel /\
       match wheel (timer_100ms execute_handler) with
       | None => w0 = NewWheel MaxLevel
       | Some w =>
           level_up 8 w
             (u64 (Milliseconds (Sub (expireAt far_entry)
                                     (match wheel (timer_100ms execute_handler) with
                                      | None => 1000
                                      | Some _ => start (timer_100ms execute_handler)
                                      end)))) = Ok w0
       end) /\
    (forall k : nat,
       (forall w, wheel (timer_100ms execute_handler) = Some w ->
                  Rooted k (heap mem_far) w /\ Fresh k (heap mem_far) 2 w) ->
       Rooted (S k) (heap m') w' /\
       contents (S k) (heap m') w'
         ≡ₚ (u64 (Milliseconds (Sub (expireAt far_entry)
                                    (match wheel (timer_100ms execute_handler) with
                                     | None => 1000
                                     | Some _ => start (timer_100ms execute_handler)
                                     end))) mod 64 ^ 7, 2%nat)
              :: match wheel (timer_100ms execute_handler) with
                 | None => []
                 | Some w => contents k (heap mem_far) w
                 end)).
Proof.
  assert (He : heap mem_far !! 2%nat = Some far_entry) by (vm_compute; reflexivity).
  assert (Hnow : 1000 < expireAt far_entry) by (vm_compute; reflexivity).
  assert (Hinv : forall w, wheel (timer_100ms execute_handler) = Some w ->
            Shaped w /\ Faithful w /\ bitmap w <> 0).
  { intros w [= <-]. split; [apply shapedb_sound; vm_compute; reflexivity|].
    split; [apply faithfulb_sound; vm_compute; reflexivity|].
    vm_compute. discriminate. }
  assert (Hfar : 64 ^ 7 <= u64 (Milliseconds (Sub (expireAt far_entry)
                    (match wheel (timer_100ms execute_handler) with
                     | None => 1000
                     | Some _ => start (timer_100ms execute_handler)
                     end)))) by (vm_compute; discriminate).
  assert (Hfuel : (7 < 8)%nat) by lia.
  split; [exact He | split; [exact Hnow | split; [exact Hinv |]]].
  split; [exact Hfar | split; [exact Hfuel |]].
  exact (schedule_beyond_MaxLevel_is_accepted 8 (timer_100ms execute_handler)
           2 1000 mem_far far_entry He Hnow Hinv Hfar Hfuel).
Defined.

(** ** The driver never rotates out of range *)

(** C10, as stated, fails in its second half: after a long gap the driver
    does not call [Rotate] with n >= 64 and does not advance [start].  On
    the timer that holds the 100 ms entry in a level-1 wheel, a reading
    5000 ms after the start gives interval / MsPerSlot = 78; the scan has
    then emptied the wheel, [maintenance] drops it and [start] stays. *)
Lemma long_gap_drops_the_wheel :
  let t := timer_100ms execute_handler in
  MsPerSlot wheel_100ms = Ok 64 /\
  elapsed t (5000 * Millisecond) / 64 >= SlotSize /\
  exists (t' : Timer) (m' : Mem),
    handleExpired 8 t (5000 * Millisecond) mem_far = Ok (t', m') /\
    wheel t' = None /\ start t' = start t /\ numEntries t' = 0 /\
    fired m' = [1%nat].
Proof.
  intros t. split; [reflexivity|]. split; [vm_compute; discriminate|].
  eexists _, _. split; [vm_compute; reflexivity|].
  split; [reflexivity|]. split; [reflexivity|]. split; reflexivity.
Qed.

(** C10, amended.  [Rotate(n)] with n = 0 or n >= 64 returns the wheel as
    it was.  The driver never makes such a call with n >= 64:
    [handleExpired] runs [HandleExpiredEntries(interval)] before
    [maintenance(interval)], and when interval / MsPerSlot is 64 or more
    the scan leaves the wheel empty, so that [maintenance] drops it and
    leaves [start] as it is.  When the wheel is kept, [maintenance] goes on
    with [Rotate(n)] for n = interval / MsPerSlot if n > 0, and then
    n < 64; [start] moves on by n * MsPerSlot milliseconds. *)
Theorem driver_never_rotates_out_of_range (k fuel : nat) (t : Timer) (now : Z)
    (m : Mem) (w : Wheel) :
  wheel_ok t -> wheel t = Some w -> numEntries t <> 0 ->
  tame (handler t) -> Rooted k (heap m) w -> (k + 6 < fuel)%nat ->
  (forall (w0 : Wheel) (n : Z), n = 0 \/ n >= SlotSize -> Rotate w0 n = w0) /\
  exists (count : Z) (w1 : Wheel) (m1 : Mem) (t' : Timer),
    HandleExpiredEntries fuel (handler t) w (elapsed t now) m = Ok (count, w1, m1) /\
    handleExpired fuel t now m = Ok (t', m1) /\
    (forall mps, MsPerSlot w = Ok mps -> SlotSize <= elapsed t now / mps ->
                 Empty w1 = true) /\
    (Empty w1 = true -> wheel t' = None /\ start t' = start t /\ numEntries t' = 0) /\
    (Empty w1 = false ->
       exists mps : Z,
         MsPerSlot w1 = Ok mps /\ 0 <= elapsed t now / mps < SlotSize /\
         maintenance fuel
           (set_numEntries (set_wheel t (Some w1)) (u64 (numEntries t - u64 count)))
           (elapsed t now) = Ok t' /\
         Ok t' =
           levelDownIfNeeded fuel
             (if elapsed t now / mps >? 0
              then set_start
                     (set_wheel
                        (set_numEntries (set_wheel t (Some w1))
                                        (u64 (numEntries t - u64 count)))
                        (Some (Rotate w1 (elapsed t now / mps))))
                     (Add (start t)
                          (i64 (i64 (u64 (elapsed t now / mps * mps)) * Millisecond)))
              else set_numEntries (set_wheel t (Some w1))
                                  (u64 (numEntries t - u64 count)))).
Proof.
  intros Hok Hw Hne Htame Hroot Hfuel.
  split; [intros w0 n Hn; apply Rotate_out_of_range; assumption|].
  destruct (Hok w Hw) as (Hs & Hf & Hnz).
  pose proof (Shaped_level _ Hs) as Hl.
  set (r := elapsed t now).
  assert (Hr : 0 <= r < 2 ^ 64) by (apply Z.mod_pos_bound; reflexivity).
  destruct (HandleExpiredEntries_total (handler t) k Htame fuel w r m Hs Hf Hroot
              ltac:(lia)) as (count & w1 & m1 & HE & _ & Hroot1).
  destruct (HandleExpiredEntries_Shaped _ _ _ _ _ _ _ _ HE Hs) as [Hs1 Hl1].
  pose proof (HandleExpiredEntries_Faithful _ _ _ _ _ _ _ _ HE Hf) as Hf1.
  pose proof (pow64_pos (level w) ltac:(lia)) as Hpos.
  destruct (tables (level w) ltac:(unfold MaxLevel in *; lia)) as (Hmps & _).
  assert (Hmps1 : MsPerSlot w1 = Ok (64 ^ level w))
    by (unfold MsPerSlot; rewrite Hl1; exact Hmps).
  assert (Hlong : SlotSize <= r / 64 ^ level w -> Empty w1 = true).
  { intros Hge. change SlotSize with 64 in Hge.
    apply (HandleExpiredEntries_empties _ _ _ _ _ _ _ _ HE Hs Hf Hr).
    rewrite pow64_step by lia.
    pose proof (Z.mul_div_le r (64 ^ level w) Hpos). nia. }
  set (t1 := set_numEntries (set_wheel t (Some w1)) (u64 (numEntries t - u64 count))).
  assert (Hhandle : handleExpired fuel t now m =
                      (t' ← maintenance fuel t1 r; Ok (t', m1))).
  { unfold handleExpired. rewrite Hw.
    destruct (Z.eqb_spec (numEntries t) 0) as [|_]; [contradiction|].
    fold (elapsed t now). fold r. rewrite HE. reflexivity. }
  destruct (maintenance_spec k (heap m1) fuel t1 r w1 eq_refl Hs1 Hf1 Hroot1 Hr)
    as (t' & Hmaint & _ & _ & Hempty & _).
  { intros i Hi Hle. eapply HandleExpiredEntries_clears_below; try eassumption.
    rewrite <- Hl1. assumption. }
  { lia. }
  exists count, w1, m1, t'. split; [assumption|].
  split; [rewrite Hhandle, Hmaint; reflexivity|].
  split.
  { intros mps Hm Hge. unfold MsPerSlot in Hm. rewrite Hmps in Hm.
    injection Hm as <-. apply Hlong. assumption. }
  split.
  { intros He. unfold Empty in He. apply Z.eqb_eq in He.
    pose proof Hmaint as Hm'. unfold maintenance in Hm'.
    cbn [wheel set_wheel set_numEntries t1] in Hm'. unfold Empty in Hm'.
    rewrite He in Hm'. cbn in Hm'. injection Hm' as <-. auto. }
  intros He. exists (64 ^ level w). split; [assumption|]. split.
  { split; [apply Z.div_pos; lia|].
    destruct (Z.lt_ge_cases (r / 64 ^ level w) SlotSize) as [|Hge]; [assumption|].
    rewrite (Hlong Hge) in He. discriminate. }
  split; [assumption|].
  rewrite <- Hmaint. unfold maintenance. cbn [wheel set_wheel set_numEntries t1].
  rewrite He, Hmps1. cbn [mbind result_bind]. cbv zeta.
  destruct (r / 64 ^ level w >? 0) eqn:Hpos'; [|reflexivity].
  assert (Hmr : MsPerSlot (Rotate w1 (r / 64 ^ level w)) = Ok (64 ^ level w)).
  { unfold MsPerSlot.
    destruct (Rotate_Shaped w1 (r / 64 ^ level w) Hs1 ltac:(apply Z.div_pos; lia))
      as [_ ->]. rewrite Hl1. exact Hmps. }
  rewrite Hmr. reflexivity.
Qed.

Lemma driver_never_rotates_out_of_range_witness :
  wheel_ok (timer_100ms execute_handler) /\
  wheel (timer_100ms execute_handler) = Some wheel_100ms /\
  numEntries (timer_100ms execute_handler) <> 0 /\
  tame (handler (timer_100ms execute_handler)) /\
  Rooted 1 (heap mem_far) wheel_100ms /\ (1 + 6 < 8)%nat /\
  ((forall (w0 : Wheel) (n : Z), n = 0 \/ n >= SlotSize -> Rotate w0 n = w0) /\
   exists (count : Z) (w1 : Wheel) (m1 : Mem) (t' : Timer),
     HandleExpiredEntries 8 (handler (timer_100ms execute_handler)) wheel_100ms
       (elapsed (timer_100ms execute_handler) (5000 * Millisecond)) mem_far
       = Ok (count, w1, m1) /\
     handleExpired 8 (timer_100ms execute_handler) (5000 * Millisecond) mem_far
       = Ok (t', m1) /\
     (forall mps, MsPerSlot wheel_100ms = Ok mps ->
        SlotSize <= elapsed (timer_100ms execute_handler) (5000 * Millisecond) / mps ->
        Empty w1 = true) /\
     (Empty w1 = true ->
        wheel t' = None /\ start t' = start (timer_100ms execute_handler) /\
        numEntries t' = 0) /\
     (Empty w1 = false ->
        exists mps : Z,
          MsPerSlot w1 = Ok mps /\
          0 <= elapsed (timer_100ms execute_handler) (5000 * Millisecond) / mps < SlotSize /\
          maintenance 8
            (set_numEntries (set_wheel (timer_100ms execute_handler) (Some w1))
               (u64 (numEntries (timer_100ms execute_handler) - u64 count)))
            (elapsed (timer_100ms execute_handler) (5000 * Millisecond)) = Ok t' /\
          Ok t' =
            levelDownIfNeeded 8
              (if elapsed (timer_100ms execute_handler) (5000 * Millisecond) / mps >? 0
               then set_start
                      (set_wheel
                         (set_numEntries (set_wheel (timer_100ms execute_handler) (Some w1))
                            (u64 (numEntries (timer_100ms execute_handler) - u64 count)))
                         (Some (Rotate w1
                                  (elapsed (timer_100ms execute_handler)
                                     (5000 * Millisecond) / mps))))
                      (Add (start (timer_100ms execute_handler))
                           (i64 (i64 (u64 (elapsed (timer_100ms execute_handler)
                                             (5000 * Millisecond) / mps * mps))
                                 * Millisecond)))
               else set_numEntries (set_wheel (timer_100ms execute_handler) (Some w1))
                      (u64 (numEntries (timer_100ms execute_handler) - u64 count))))).
Proof.
  assert (Hok : wheel_ok (timer_100ms execute_handler)).
  { intros w Hw. injection Hw as <-.
    split; [apply shapedb_sound; vm_compute; reflexivity|].
    split; [apply faithfulb_sound; vm_compute; reflexivity|].
    vm_compute. discriminate. }
  assert (Hw : wheel (timer_100ms execute_handler) = Some wheel_100ms) by reflexivity.
  assert (Hne : numEntries (timer_100ms execute_handler) <> 0)
    by (vm_compute; discriminate).
  assert (Ht : tame (handler (timer_100ms execute_handler)))
    by exact execute_handler_tame.
  assert (Hr : Rooted 1 (heap mem_far) wheel_100ms)
    by (apply rootedb_sound; vm_compute; reflexivity).
  assert (Hfuel : (1 + 6 < 8)%nat) by lia.
  split; [exact Hok | split; [exact Hw | split; [exact Hne | split; [exact Ht |
    split; [exact Hr | split; [exact Hfuel |]]]]]].
  exact (driver_never_rotates_out_of_range 1 8 (timer_100ms execute_handler)
           (5000 * Millisecond) mem_far wheel_100ms Hok Hw Hne Ht Hr Hfuel).
Defined.
